(** * libocispec generated bindings: features-linux and defs-zos

    A shallow embedding of the generated C bindings

      runtime_spec_schema_features_linux.c   (cgroup, seccomp,
                                              mount_extensions, idmap)
      runtime_spec_schema_defs_zos.c         (namespace_reference)

    The file has two layers.

    - [Tree], [Ctx], [Emit], [Cgroup], [Seccomp], [ZosNs]: the values the
      four operations compute.  A [yajl_val] is a tree whose object slots
      and array cells may be NULL, as in C; [make_*] returns the record, the
      error string, the source tree as the call leaves it and what was
      written to [errfile]; [gen_*] drives an emitter that records the calls
      it receives.  [None] stands for undefined behaviour of the C code
      (a NULL key handed to strcmp, a NULL string handed to strlen, a read
      past the end of an array).
    - [Mem]: a store of allocated blocks, for the two operations that are
      about ownership, [clone_*] and [free_*].

    calloc, strdup and asprintf are taken to succeed in [make_*]; in [Mem]
    the allocator may fail, as directed by an oracle carried in the store. *)

From Stdlib Require Import ZArith String List Bool Lia.
From stdpp Require Import base option list strings gmap fin_maps.
Import ListNotations.

Local Open Scope string_scope.
Local Open Scope Z_scope.
Local Open Scope list_scope.

(* ===================================================================== *)
(** ** yajl trees *)
(* ===================================================================== *)

Module Tree.

(** [yajl_type], the tag of a tree node and the third argument of
    [get_val]. *)
Inductive yajl_type : Type :=
| yajl_t_string
| yajl_t_number
| yajl_t_object
| yajl_t_array
| yajl_t_true
| yajl_t_false
| yajl_t_null
| yajl_t_any.

#[global] Instance yajl_type_eq_dec : EqDecision yajl_type.
Proof. solve_decision. Defined.

(** [struct yajl_val_s].  An object is the two parallel arrays [keys] and
    [values] of length [len], kept here as one list of slots; a slot of an
    object and a cell of an array are pointers and may be NULL. *)
#[local] Unset Elimination Schemes.
Inductive yajl_val : Type :=
| Ystring (s : string)
| Ynumber (r : string)
| Yobject (slots : list (option string * option yajl_val))
| Yarray (values : list (option yajl_val))
| Ytrue
| Yfalse
| Ynull.
#[local] Set Elimination Schemes.

Definition slot : Type := option string * option yajl_val.

Definition type_of (v : yajl_val) : yajl_type :=
  match v with
  | Ystring _ => yajl_t_string
  | Ynumber _ => yajl_t_number
  | Yobject _ => yajl_t_object
  | Yarray _ => yajl_t_array
  | Ytrue => yajl_t_true
  | Yfalse => yajl_t_false
  | Ynull => yajl_t_null
  end.

(** [strcmp]: only the sign of the result is specified by C. *)
Definition strcmp (a b : string) : Z :=
  match String.compare a b with
  | Eq => 0
  | Lt => -1
  | Gt => 1
  end.

(** A C integer used as a condition. *)
Definition c_true (z : Z) : bool := negb (z =? 0).

(** A pointer used as a condition: [p != NULL]. *)
Definition non_null {A : Type} (p : option A) : bool :=
  match p with Some _ => true | None => false end.

(** [YAJL_IS_TRUE], [YAJL_GET_STRING], [YAJL_GET_ARRAY] of yajl_tree.h. *)
Definition YAJL_IS_TRUE (v : yajl_val) : bool :=
  match v with Ytrue => true | _ => false end.

Definition YAJL_GET_STRING (v : yajl_val) : option string :=
  match v with Ystring s => Some s | _ => None end.

Definition YAJL_GET_ARRAY (v : yajl_val) : option (list (option yajl_val)) :=
  match v with Yarray vs => Some vs | _ => None end.

(** The scan of [yajl_tree_get] over the slots of an object for a path of
    one name: the value of the first slot whose key equals [name].
    [None] is undefined behaviour (a NULL key reaches strcmp),
    [Some None] is "not found" or a NULL value. *)
Fixpoint find_key (name : string) (slots : list slot) : option (option yajl_val) :=
  match slots with
  | [] => Some None
  | (None, _) :: _ => None
  | (Some k, v) :: rest =>
      if c_true (strcmp name k) then find_key name rest else Some v
  end.

(** Modelled from the spec: [get_val] (json_common.c, a wrapper of yajl's
    [yajl_tree_get] for a one-name path) is not under src/.  The spec has
    the decoder "look up wire-name in the tree's object by exact key
    match", treats a tree that is not an object as "no fields matched", and
    tests "is this key present with this JSON kind": the value found is
    returned only when its type is the one asked for (or [yajl_t_any] is
    asked for).  The callers agree: a boolean field asks for [yajl_t_true]
    and, when that returns NULL, asks again for [yajl_t_false]. *)
Definition get_val (tree : yajl_val) (name : string) (type : yajl_type)
  : option (option yajl_val) :=
  match tree with
  | Yobject slots =>
      match find_key name slots with
      | None => None
      | Some None => Some None
      | Some (Some n) =>
          if bool_decide (type ≠ yajl_t_any) && bool_decide (type ≠ type_of n)
          then Some None else Some (Some n)
      end
  | _ => Some None
  end.

(** The loop that closes every [make_*]:
<<
    for (i = 0; i < tree->u.object.len; i++)
      if (strcmp (keys[i], "k1") && ... && strcmp (keys[i], "kn")) {
          if (ctx->options & OPT_PARSE_FULLKEY) {
              resi->keys[j] = keys[i];     keys[i] = NULL;
              resi->values[j] = values[i]; values[i] = NULL;
              resi->len++;
          }
          j++;
      }
>>
    [unknown k] is the conjunction of the strcmp tests.  The result is the
    source slots as the loop leaves them, the slots of [resi], and [j]. *)
Fixpoint residual_loop (unknown : string -> bool) (fullkey : bool)
    (slots : list slot) : option (list slot * list slot * nat) :=
  match slots with
  | [] => Some ([], [], O)
  | (None, _) :: _ => None
  | (Some k, v) :: rest =>
      match residual_loop unknown fullkey rest with
      | None => None
      | Some (src, resi, j) =>
          if unknown k then
            if fullkey
            then Some ((None, None) :: src, (Some k, v) :: resi, S j)
            else Some ((Some k, v) :: src, resi, S j)
          else Some ((Some k, v) :: src, resi, j)
      end
  end.

(** A tree as the parser builds it: no NULL key, value or cell. *)
Fixpoint parsed (v : yajl_val) : bool :=
  match v with
  | Yobject slots =>
      forallb (fun s : slot =>
                 match s with
                 | (Some _, Some x) => parsed x
                 | _ => false
                 end) slots
  | Yarray vs =>
      forallb (fun c => match c with Some x => parsed x | None => false end) vs
  | _ => true
  end.

Definition keys_present (slots : list slot) : bool :=
  forallb (fun s : slot => match fst s with Some _ => true | None => false end) slots.

End Tree.
Export Tree.

(* ===================================================================== *)
(** ** Parser context *)
(* ===================================================================== *)

Module Ctx.

(** Modelled from the spec: the [OPT_*] masks are declared in
    json_common.h, not under src/.  The spec has four independent options
    ([strictWarn], [alwaysEmitKnownKeys], [collapseEmptyArrays],
    [captureUnknown]); each is one bit of [options]. *)
Definition OPT_PARSE_STRICT : Z := 0x01.
Definition OPT_GEN_KEY_VALUE : Z := 0x02.
Definition OPT_GEN_SIMPLIFY : Z := 0x04.
Definition OPT_PARSE_FULLKEY : Z := 0x08.

(** [struct parser_context]: the option bits and the stream for warnings.
    The stream is NULL or open; what is written to it is returned by the
    function that writes. *)
Record parser_context : Type := {
  options : Z;
  errfile : option unit
}.

(** [ctx->options & mask] as a condition. *)
Definition opt (ctx : parser_context) (mask : Z) : bool :=
  c_true (Z.land (options ctx) mask).

Definition parser_error : Type := option string.

End Ctx.
Export Ctx.

(* ===================================================================== *)
(** ** The emitter *)
(* ===================================================================== *)

Module Emit.

(** The calls a generated [gen_*] makes on a [yajl_gen] handle. *)
Inductive gen_call : Type :=
| call_map_open
| call_map_close
| call_array_open
| call_array_close
| call_string (s : string)
| call_bool (b : bool)
| call_number (r : string)
| call_null
| call_config_beautify (on : bool).

Inductive yajl_gen_status : Type :=
| yajl_gen_status_ok
| yajl_gen_in_error_state.

(** The handle.  [calls] is what the emitter has received so far.  [room]
    bounds the calls it still accepts: at [Some 0] every further call
    returns an error status, [None] is an emitter that never fails. *)
Record yajl_gen : Type := {
  calls : list gen_call;
  room : option nat
}.

(** The outcome of a [gen_*]: the status it returns with the handle as it
    leaves it, or undefined behaviour. *)
Inductive gen_outcome : Type :=
| GenOk (g : yajl_gen)
| GenError (stat : yajl_gen_status) (g : yajl_gen)
| GenUndefined.

(** One call on the handle. *)
Definition emit (c : gen_call) (g : yajl_gen) : gen_outcome :=
  match room g with
  | None => GenOk {| calls := calls g ++ [c]; room := None |}
  | Some (S n) => GenOk {| calls := calls g ++ [c]; room := Some n |}
  | Some O => GenError yajl_gen_in_error_state g
  end.

(** [stat = f (g); if (stat != yajl_gen_status_ok)
    GEN_SET_ERROR_AND_RETURN (stat, err);] followed by the rest. *)
Definition and_then (o : gen_outcome) (k : yajl_gen -> gen_outcome) : gen_outcome :=
  match o with
  | GenOk g => k g
  | GenError stat g => GenError stat g
  | GenUndefined => GenUndefined
  end.

Notation "o >>> k" := (and_then o k) (at level 61, left associativity).

Definition yajl_gen_map_open : yajl_gen -> gen_outcome := emit call_map_open.
Definition yajl_gen_map_close : yajl_gen -> gen_outcome := emit call_map_close.
Definition yajl_gen_array_open : yajl_gen -> gen_outcome := emit call_array_open.
Definition yajl_gen_array_close : yajl_gen -> gen_outcome := emit call_array_close.
Definition yajl_gen_string (s : string) : yajl_gen -> gen_outcome := emit (call_string s).
Definition yajl_gen_bool (b : bool) : yajl_gen -> gen_outcome := emit (call_bool b).
Definition yajl_gen_number (r : string) : yajl_gen -> gen_outcome := emit (call_number r).
Definition yajl_gen_null : yajl_gen -> gen_outcome := emit call_null.

(** [yajl_gen_config (g, yajl_gen_beautify, on)]; its result is ignored by
    the callers. *)
Definition yajl_gen_config_beautify (on : bool) (g : yajl_gen) : gen_outcome :=
  GenOk {| calls := calls g ++ [call_config_beautify on]; room := room g |}.

(** Modelled from the spec: [gen_yajl_val] and [gen_yajl_object_residual]
    (json_common.c) are not under src/.  The spec has the keys and values
    of the residual object "emitted verbatim, in their stored order",
    after the known fields and inside the object the caller has opened.
    A NULL slot has nothing to emit and is taken as undefined. *)
Fixpoint gen_yajl_val (v : yajl_val) (g : yajl_gen) : gen_outcome :=
  match v with
  | Ystring s => yajl_gen_string s g
  | Ynumber r => yajl_gen_number r g
  | Ytrue => yajl_gen_bool true g
  | Yfalse => yajl_gen_bool false g
  | Ynull => yajl_gen_null g
  | Yarray vs =>
      yajl_gen_array_open g
      >>> (fix cells (vs : list (option yajl_val)) (g : yajl_gen) : gen_outcome :=
             match vs with
             | [] => GenOk g
             | Some x :: rest => gen_yajl_val x g >>> cells rest
             | None :: _ => GenUndefined
             end) vs
      >>> yajl_gen_array_close
  | Yobject slots =>
      yajl_gen_map_open g
      >>> (fix members (ss : list slot) (g : yajl_gen) : gen_outcome :=
             match ss with
             | [] => GenOk g
             | (Some k, Some x) :: rest =>
                 yajl_gen_string k g >>> gen_yajl_val x >>> members rest
             | _ :: _ => GenUndefined
             end) slots
      >>> yajl_gen_map_close
  end.

Fixpoint gen_members (ss : list slot) (g : yajl_gen) : gen_outcome :=
  match ss with
  | [] => GenOk g
  | (Some k, Some x) :: rest =>
      yajl_gen_string k g >>> gen_yajl_val x >>> gen_members rest
  | _ :: _ => GenUndefined
  end.

Definition gen_yajl_object_residual (obj : yajl_val) (g : yajl_gen) : gen_outcome :=
  match obj with
  | Yobject slots => gen_members slots g
  | _ => GenUndefined
  end.

(** The calls that emit a tree. *)
Fixpoint calls_of_val (v : yajl_val) : list gen_call :=
  match v with
  | Ystring s => [call_string s]
  | Ynumber r => [call_number r]
  | Ytrue => [call_bool true]
  | Yfalse => [call_bool false]
  | Ynull => [call_null]
  | Yarray vs =>
      call_array_open
      :: (fix cells (vs : list (option yajl_val)) : list gen_call :=
            match vs with
            | [] => []
            | Some x :: rest => calls_of_val x ++ cells rest
            | None :: rest => cells rest
            end) vs
      ++ [call_array_close]
  | Yobject slots =>
      call_map_open
      :: (fix members (ss : list slot) : list gen_call :=
            match ss with
            | [] => []
            | (Some k, Some x) :: rest =>
                call_string k :: calls_of_val x ++ members rest
            | _ :: rest => members rest
            end) slots
      ++ [call_map_close]
  end.

Fixpoint calls_of_members (ss : list slot) : list gen_call :=
  match ss with
  | [] => []
  | (Some k, Some x) :: rest => call_string k :: calls_of_val x ++ calls_of_members rest
  | _ :: rest => calls_of_members rest
  end.

End Emit.
Export Emit.

(* ===================================================================== *)
(** ** What a [make_*] returns *)
(* ===================================================================== *)

Module Make.

(** The effects of one call of a [make_*]: the pointer returned (NULL or
    the record), [*err], the source tree as the call leaves it, and the
    lines written to [ctx->errfile]. *)
Record made (R : Type) : Type := Made {
  ret : option R;
  err : parser_error;
  tree_after : option yajl_val;
  written : list string
}.
Arguments Made {R}.
Arguments ret {R}.
Arguments err {R}.
Arguments tree_after {R}.
Arguments written {R}.

Definition newline : string := String (Ascii.ascii_of_nat 10) EmptyString.

Definition unknown_key_warning : string :=
  String.append "WARNING: unknown key found" newline.

(** [asprintf (err, "Required field '%s' not present", name)]. *)
Definition required_field_error (name : string) : string :=
  String.append "Required field '" (String.append name "' not present").

(** [if ((ctx->options & OPT_PARSE_STRICT) && j > 0 && ctx->errfile != NULL)
      fprintf (ctx->errfile, "WARNING: unknown key found\n");] *)
Definition warn_unknown (ctx : parser_context) (j : nat) : list string :=
  if opt ctx OPT_PARSE_STRICT && negb (Nat.eqb j 0) && non_null (errfile ctx)
  then [unknown_key_warning] else [].

(** A boolean field.  The record comes from calloc: the value and its
    present bit start at zero.
<<
    yajl_val val = get_val (tree, name, yajl_t_true);
    if (val != NULL) { ret->f = YAJL_IS_TRUE (val); ret->f_present = 1; }
    else { val = get_val (tree, name, yajl_t_false);
           if (val != NULL) { ret->f = 0; ret->f_present = 1; } }
>>
    The result is [(f, f_present)]. *)
Definition make_bool (tree : yajl_val) (name : string) : option (bool * bool) :=
  val ← get_val tree name yajl_t_true;
  match val with
  | Some v => Some (YAJL_IS_TRUE v, true)
  | None =>
      val ← get_val tree name yajl_t_false;
      match val with
      | Some _ => Some (false, true)
      | None => Some (false, false)
      end
  end.

(** A string field.
<<
    yajl_val val = get_val (tree, name, yajl_t_string);
    if (val != NULL) { char *str = YAJL_GET_STRING (val);
                       ret->f = strdup (str ? str : EMPTY); }
>>
    where EMPTY is the empty string literal. *)
Definition make_string (tree : yajl_val) (name : string) : option (option string) :=
  val ← get_val tree name yajl_t_string;
  match val with
  | Some v =>
      let str := YAJL_GET_STRING v in
      Some (Some (match str with Some s => s | None => EmptyString end))
  | None => Some None
  end.

(** A field that is an array of strings; the result is [(f, f_len)].
<<
    yajl_val tmp = get_val (tree, name, yajl_t_array);
    if (tmp != NULL && YAJL_GET_ARRAY (tmp) != NULL) {
        size_t len = YAJL_GET_ARRAY_NO_CHECK (tmp)->len;
        yajl_val *values = YAJL_GET_ARRAY_NO_CHECK (tmp)->values;
        ret->f_len = len;
        ret->f = calloc (len + 1, size of one cell);
        for (i = 0; i < len; i++) {
            yajl_val val = values[i];
            if (val != NULL) { char *str = YAJL_GET_STRING (val);
                               ret->f[i] = strdup (str ? str : EMPTY); } } }
>>
    The array has [len + 1] cells; the last one stays NULL. *)
Definition make_string_cell (c : option yajl_val) : option string :=
  match c with
  | Some val =>
      Some (match YAJL_GET_STRING val with Some s => s | None => EmptyString end)
  | None => None
  end.

Definition make_string_array (tree : yajl_val) (name : string)
  : option (option (list (option string)) * nat) :=
  tmp ← get_val tree name yajl_t_array;
  match tmp with
  | Some t =>
      match YAJL_GET_ARRAY t with
      | Some values =>
          Some (Some (map make_string_cell values ++ [None]), length values)
      | None => Some (None, O)
      end
  | None => Some (None, O)
  end.

End Make.
Export Make.

(* ===================================================================== *)
(** ** The members a [gen_*] emits *)
(* ===================================================================== *)

Module Gen.

(** A boolean member.  [ptr] is the record or NULL, [f] and [f_present]
    read the field and its present bit.
<<
    if ((ctx->options & OPT_GEN_KEY_VALUE) || (ptr != NULL && ptr->f_present)) {
        bool b = false;
        stat = yajl_gen_string (g, name, strlen (name));
        if (ptr != NULL && ptr->f) b = ptr->f;
        stat = yajl_gen_bool (g, (int) (b));
    }
>> *)
Definition gen_bool_member {R : Type} (ctx : parser_context) (name : string)
    (ptr : option R) (f f_present : R -> bool) (g : yajl_gen) : gen_outcome :=
  if opt ctx OPT_GEN_KEY_VALUE
     || match ptr with Some r => f_present r | None => false end
  then
    let b := match ptr with
             | Some r => if f r then f r else false
             | None => false
             end in
    yajl_gen_string name g >>> yajl_gen_bool b
  else GenOk g.

(** A string member.
<<
    if ((ctx->options & OPT_GEN_KEY_VALUE) || (ptr != NULL && ptr->f != NULL)) {
        char *str = EMPTY;
        stat = yajl_gen_string (g, name, strlen (name));
        if (ptr != NULL && ptr->f != NULL) str = ptr->f;
        stat = yajl_gen_string (g, str, strlen (str));
    }
>> *)
Definition gen_string_member {R : Type} (ctx : parser_context) (name : string)
    (ptr : option R) (f : R -> option string) (g : yajl_gen) : gen_outcome :=
  if opt ctx OPT_GEN_KEY_VALUE
     || match ptr with Some r => non_null (f r) | None => false end
  then
    let str := match ptr with
               | Some r => match f r with Some s => s | None => EmptyString end
               | None => EmptyString
               end in
    yajl_gen_string name g >>> yajl_gen_string str
  else GenOk g.

(** [for (i = 0; i < len; i++)
      stat = yajl_gen_string (g, ptr->f[i], strlen (ptr->f[i]));]
    from index [i], with [n] rounds left.  Reading past the cells of the
    array and strlen of a NULL cell are undefined. *)
Fixpoint gen_string_cells (cells : list (option string)) (i n : nat)
    (g : yajl_gen) : gen_outcome :=
  match n with
  | O => GenOk g
  | S n' =>
      match cells !! i with
      | Some (Some s) => yajl_gen_string s g >>> gen_string_cells cells (S i) n'
      | _ => GenUndefined
      end
  end.

(** A member that is an array of strings.
<<
    if ((ctx->options & OPT_GEN_KEY_VALUE) || (ptr != NULL && ptr->f != NULL)) {
        size_t len = 0, i;
        stat = yajl_gen_string (g, name, strlen (name));
        if (ptr != NULL && ptr->f != NULL) len = ptr->f_len;
        if (!len && !(ctx->options & OPT_GEN_SIMPLIFY))
            yajl_gen_config (g, yajl_gen_beautify, 0);
        stat = yajl_gen_array_open (g);
        for (i = 0; i < len; i++) ...
        stat = yajl_gen_array_close (g);
        if (!len && !(ctx->options & OPT_GEN_SIMPLIFY))
            yajl_gen_config (g, yajl_gen_beautify, 1);
    }
>> *)
Definition gen_string_array_member {R : Type} (ctx : parser_context) (name : string)
    (ptr : option R) (f : R -> option (list (option string))) (f_len : R -> nat)
    (g : yajl_gen) : gen_outcome :=
  if opt ctx OPT_GEN_KEY_VALUE
     || match ptr with Some r => non_null (f r) | None => false end
  then
    let cells := match ptr with
                 | Some r => match f r with Some a => a | None => [] end
                 | None => []
                 end in
    let len := match ptr with
               | Some r => match f r with Some _ => f_len r | None => O end
               | None => O
               end in
    let flat := Nat.eqb len 0 && negb (opt ctx OPT_GEN_SIMPLIFY) in
    yajl_gen_string name g
    >>> (fun g => if flat then yajl_gen_config_beautify false g else GenOk g)
    >>> yajl_gen_array_open
    >>> gen_string_cells cells 0 len
    >>> yajl_gen_array_close
    >>> (fun g => if flat then yajl_gen_config_beautify true g else GenOk g)
  else GenOk g.

(** [if (ptr != NULL && ptr->_residual != NULL)
      stat = gen_yajl_object_residual (ptr->_residual, g, err);] *)
Definition gen_residual {R : Type} (ptr : option R) (resi : R -> option yajl_val)
    (g : yajl_gen) : gen_outcome :=
  match ptr with
  | Some r =>
      match resi r with
      | Some obj => gen_yajl_object_residual obj g
      | None => GenOk g
      end
  | None => GenOk g
  end.

End Gen.
Export Gen.

(* ===================================================================== *)
(** ** features-linux: cgroup *)
(* ===================================================================== *)

Module Cgroup.

(** [runtime_spec_schema_features_linux_cgroup].  [T] is what the pointer
    [_residual] stands for: a tree in this layer, an address in [Mem]. *)
Record runtime_spec_schema_features_linux_cgroup (T : Type) : Type := {
  v1 : bool;
  v2 : bool;
  systemd : bool;
  systemd_user : bool;
  rdma : bool;
  _residual : option T;
  v1_present : bool;
  v2_present : bool;
  systemd_present : bool;
  systemd_user_present : bool;
  rdma_present : bool
}.
Arguments v1 {T}.
Arguments v2 {T}.
Arguments systemd {T}.
Arguments systemd_user {T}.
Arguments rdma {T}.
Arguments _residual {T}.
Arguments v1_present {T}.
Arguments v2_present {T}.
Arguments systemd_present {T}.
Arguments systemd_user_present {T}.
Arguments rdma_present {T}.

Definition cgroup : Type := runtime_spec_schema_features_linux_cgroup yajl_val.

(** The test of the closing loop: the key is none of the five names. *)
Definition unknown_key (k : string) : bool :=
  c_true (strcmp k "v1")
  && c_true (strcmp k "v2")
  && c_true (strcmp k "systemd")
  && c_true (strcmp k "systemdUser")
  && c_true (strcmp k "rdma").

Definition make_runtime_spec_schema_features_linux_cgroup
    (tree : option yajl_val) (ctx : parser_context) : option (made cgroup) :=
  match tree with
  | None => Some (Made None None None [])
  | Some t =>
      '(b1, p1) ← make_bool t "v1";
      '(b2, p2) ← make_bool t "v2";
      '(b3, p3) ← make_bool t "systemd";
      '(b4, p4) ← make_bool t "systemdUser";
      '(b5, p5) ← make_bool t "rdma";
      let record (resi : option yajl_val) : cgroup :=
        {| v1 := b1; v2 := b2; systemd := b3; systemd_user := b4; rdma := b5;
           _residual := resi;
           v1_present := p1; v2_present := p2; systemd_present := p3;
           systemd_user_present := p4; rdma_present := p5 |} in
      match t with
      | Yobject slots =>
          '(src, resi, j) ← residual_loop unknown_key (opt ctx OPT_PARSE_FULLKEY) slots;
          Some (Made
                  (Some (record (if opt ctx OPT_PARSE_FULLKEY
                                 then Some (Yobject resi) else None)))
                  None
                  (Some (Yobject src))
                  (warn_unknown ctx j))
      | _ => Some (Made (Some (record None)) None (Some t) [])
      end
  end.

Definition gen_runtime_spec_schema_features_linux_cgroup
    (g : yajl_gen) (ptr : option cgroup) (ctx : parser_context) : gen_outcome :=
  yajl_gen_map_open g
  >>> gen_bool_member ctx "v1" ptr v1 v1_present
  >>> gen_bool_member ctx "v2" ptr v2 v2_present
  >>> gen_bool_member ctx "systemd" ptr systemd systemd_present
  >>> gen_bool_member ctx "systemdUser" ptr systemd_user systemd_user_present
  >>> gen_bool_member ctx "rdma" ptr rdma rdma_present
  >>> gen_residual ptr _residual
  >>> yajl_gen_map_close.

End Cgroup.

(* ===================================================================== *)
(** ** features-linux: seccomp *)
(* ===================================================================== *)

Module Seccomp.

(** [runtime_spec_schema_features_linux_seccomp].  [A] is what a pointer
    to an array of strings stands for (here the cells of the array, each a
    string or NULL), [T] what [_residual] stands for. *)
Record runtime_spec_schema_features_linux_seccomp (A T : Type) : Type := {
  enabled : bool;
  actions : option A;
  actions_len : nat;
  operators : option A;
  operators_len : nat;
  archs : option A;
  archs_len : nat;
  known_flags : option A;
  known_flags_len : nat;
  supported_flags : option A;
  supported_flags_len : nat;
  _residual : option T;
  enabled_present : bool
}.
Arguments enabled {A T}.
Arguments actions {A T}.
Arguments actions_len {A T}.
Arguments operators {A T}.
Arguments operators_len {A T}.
Arguments archs {A T}.
Arguments archs_len {A T}.
Arguments known_flags {A T}.
Arguments known_flags_len {A T}.
Arguments supported_flags {A T}.
Arguments supported_flags_len {A T}.
Arguments _residual {A T}.
Arguments enabled_present {A T}.

Definition seccomp : Type :=
  runtime_spec_schema_features_linux_seccomp (list (option string)) yajl_val.

Definition unknown_key (k : string) : bool :=
  c_true (strcmp k "enabled")
  && c_true (strcmp k "actions")
  && c_true (strcmp k "operators")
  && c_true (strcmp k "archs")
  && c_true (strcmp k "knownFlags")
  && c_true (strcmp k "supportedFlags").

Definition make_runtime_spec_schema_features_linux_seccomp
    (tree : option yajl_val) (ctx : parser_context) : option (made seccomp) :=
  match tree with
  | None => Some (Made None None None [])
  | Some t =>
      '(b, p) ← make_bool t "enabled";
      '(a1, n1) ← make_string_array t "actions";
      '(a2, n2) ← make_string_array t "operators";
      '(a3, n3) ← make_string_array t "archs";
      '(a4, n4) ← make_string_array t "knownFlags";
      '(a5, n5) ← make_string_array t "supportedFlags";
      let record (resi : option yajl_val) : seccomp :=
        {| enabled := b;
           actions := a1; actions_len := n1;
           operators := a2; operators_len := n2;
           archs := a3; archs_len := n3;
           known_flags := a4; known_flags_len := n4;
           supported_flags := a5; supported_flags_len := n5;
           _residual := resi;
           enabled_present := p |} in
      match t with
      | Yobject slots =>
          '(src, resi, j) ← residual_loop unknown_key (opt ctx OPT_PARSE_FULLKEY) slots;
          Some (Made
                  (Some (record (if opt ctx OPT_PARSE_FULLKEY
                                 then Some (Yobject resi) else None)))
                  None
                  (Some (Yobject src))
                  (warn_unknown ctx j))
      | _ => Some (Made (Some (record None)) None (Some t) [])
      end
  end.

Definition gen_runtime_spec_schema_features_linux_seccomp
    (g : yajl_gen) (ptr : option seccomp) (ctx : parser_context) : gen_outcome :=
  yajl_gen_map_open g
  >>> gen_bool_member ctx "enabled" ptr enabled enabled_present
  >>> gen_string_array_member ctx "actions" ptr actions actions_len
  >>> gen_string_array_member ctx "operators" ptr operators operators_len
  >>> gen_string_array_member ctx "archs" ptr archs archs_len
  >>> gen_string_array_member ctx "knownFlags" ptr known_flags known_flags_len
  >>> gen_string_array_member ctx "supportedFlags" ptr supported_flags supported_flags_len
  >>> gen_residual ptr _residual
  >>> yajl_gen_map_close.

End Seccomp.

(* ===================================================================== *)
(** ** defs-zos: namespace_reference *)
(* ===================================================================== *)

Module ZosNs.

(** [runtime_spec_schema_defs_zos_namespace_reference].  [S] is what a
    [char *] stands for, [T] what [_residual] stands for. *)
Record runtime_spec_schema_defs_zos_namespace_reference (S T : Type) : Type := {
  type : option S;
  path : option S;
  _residual : option T
}.
Arguments type {S T}.
Arguments path {S T}.
Arguments _residual {S T}.

Definition namespace_reference : Type :=
  runtime_spec_schema_defs_zos_namespace_reference string yajl_val.

Definition unknown_key (k : string) : bool :=
  c_true (strcmp k "type") && c_true (strcmp k "path").

Definition make_runtime_spec_schema_defs_zos_namespace_reference
    (tree : option yajl_val) (ctx : parser_context)
  : option (made namespace_reference) :=
  match tree with
  | None => Some (Made None None None [])
  | Some t =>
      ty ← make_string t "type";
      pa ← make_string t "path";
      match ty with
      | None => Some (Made None (Some (required_field_error "type")) (Some t) [])
      | Some _ =>
          let record (resi : option yajl_val) : namespace_reference :=
            {| type := ty; path := pa; _residual := resi |} in
          match t with
          | Yobject slots =>
              '(src, resi, j) ←
                residual_loop unknown_key (opt ctx OPT_PARSE_FULLKEY) slots;
              Some (Made
                      (Some (record (if opt ctx OPT_PARSE_FULLKEY
                                     then Some (Yobject resi) else None)))
                      None
                      (Some (Yobject src))
                      (warn_unknown ctx j))
          | _ => Some (Made (Some (record None)) None (Some t) [])
          end
      end
  end.

Definition gen_runtime_spec_schema_defs_zos_namespace_reference
    (g : yajl_gen) (ptr : option namespace_reference) (ctx : parser_context)
  : gen_outcome :=
  yajl_gen_map_open g
  >>> gen_string_member ctx "type" ptr type
  >>> gen_string_member ctx "path" ptr path
  >>> gen_residual ptr _residual
  >>> yajl_gen_map_close.

End ZosNs.

(* ===================================================================== *)
(** ** Observations on trees and decoding results *)
(* ===================================================================== *)

Module Observe.

(** The first value stored under [name], over slots without NULLs. *)
Fixpoint member (name : string) (slots : list slot) : option yajl_val :=
  match slots with
  | [] => None
  | (Some k, Some v) :: rest =>
      if String.eqb name k then Some v else member name rest
  | _ :: rest => member name rest
  end.

Definition slot_full (s : slot) : bool :=
  match s with
  | (Some _, Some _) => true
  | _ => false
  end.

Definition slot_unknown (unknown : string -> bool) (s : slot) : bool :=
  match fst s with
  | Some k => unknown k
  | None => false
  end.

(** The source tree holds no NULL key at its top level (the keys a
    [make_*] hands to strcmp). *)
Definition keys_ok (tree : option yajl_val) : Prop :=
  match tree with
  | Some (Yobject slots) => keys_present slots = true
  | _ => True
  end.

(** What the caller of a [make_*] observes apart from the warning stream:
    the pointer returned, [*err], and the source tree afterwards. *)
Definition decode_result {R : Type} (o : option (made R))
  : option (option R * parser_error * option yajl_val) :=
  (fun m => (ret m, err m, tree_after m)) <$> o.

Definition set_strict (ctx : parser_context) : parser_context :=
  {| options := Z.lor (options ctx) OPT_PARSE_STRICT; errfile := errfile ctx |}.

Definition clear_strict (ctx : parser_context) : parser_context :=
  {| options := Z.ldiff (options ctx) OPT_PARSE_STRICT; errfile := errfile ctx |}.

(** The tree is an object that holds an entry under a key the type does
    not know. *)
Definition has_unknown_key (unknown : string -> bool) (tree : option yajl_val) : Prop :=
  exists slots k v,
    tree = Some (Yobject slots) /\ In (Some k, v) slots /\ unknown k = true.

End Observe.
Export Observe.

(* ===================================================================== *)
(** ** features-linux: mount_extensions and its idmap *)
(* ===================================================================== *)

Module Idmap.

(** [runtime_spec_schema_features_linux_mount_extensions_idmap]. *)
Record runtime_spec_schema_features_linux_mount_extensions_idmap (T : Type) : Type := {
  enabled : bool;
  _residual : option T;
  enabled_present : bool
}.
Arguments enabled {T}.
Arguments _residual {T}.
Arguments enabled_present {T}.

End Idmap.

Module MountExtensions.

(** [runtime_spec_schema_features_linux_mount_extensions].  [P] is what
    the pointer to the nested idmap record stands for. *)
Record runtime_spec_schema_features_linux_mount_extensions (P T : Type) : Type := {
  idmap : option P;
  _residual : option T
}.
Arguments idmap {P T}.
Arguments _residual {P T}.

End MountExtensions.

(* ===================================================================== *)
(** ** The store: clone and free *)
(* ===================================================================== *)

Module Mem.

Definition loc : Type := positive.

(** The records as they lie in memory: every pointer is an address. *)
Definition cgroup_struct : Type :=
  Cgroup.runtime_spec_schema_features_linux_cgroup loc.
Definition seccomp_struct : Type :=
  Seccomp.runtime_spec_schema_features_linux_seccomp loc loc.
Definition zos_struct : Type :=
  ZosNs.runtime_spec_schema_defs_zos_namespace_reference loc loc.
Definition idmap_struct : Type :=
  Idmap.runtime_spec_schema_features_linux_mount_extensions_idmap loc.
Definition mount_extensions_struct : Type :=
  MountExtensions.runtime_spec_schema_features_linux_mount_extensions loc loc.

(** One allocation: a character buffer (strdup), an array of [char *]
    (calloc), a yajl tree (owned and released as a whole by
    [yajl_tree_free]), or one of the records. *)
Inductive block : Type :=
| Bchars (s : string)
| Bcells (cells : list (option loc))
| Btree (t : yajl_val)
| Bcgroup (r : cgroup_struct)
| Bseccomp (r : seccomp_struct)
| Bzos (r : zos_struct)
| Bidmap (r : idmap_struct)
| Bmount_extensions (r : mount_extensions_struct).

(** The store.  [oracle] directs the allocator: its head says whether the
    next allocation succeeds; when it is empty every allocation does. *)
Record mem : Type := {
  heap : gmap loc block;
  oracle : list bool
}.

Definition with_heap (h : gmap loc block) (m : mem) : mem :=
  {| heap := h; oracle := oracle m |}.

(** calloc and strdup: NULL, or a block at an address not in use. *)
Definition alloc (b : block) (m : mem) : option loc * mem :=
  match oracle m with
  | false :: rest => (None, {| heap := heap m; oracle := rest |})
  | _ =>
      let l := fresh (dom (heap m)) in
      (Some l, {| heap := <[l := b]> (heap m); oracle := tail (oracle m) |})
  end.

(** [free (p)] for a non-NULL [p]: undefined unless [p] is allocated. *)
Definition free (l : loc) (m : mem) : option mem :=
  match heap m !! l with
  | Some _ => Some (with_heap (delete l (heap m)) m)
  | None => None
  end.

(** A write through a pointer: undefined unless it is allocated. *)
Definition store (l : loc) (b : block) (m : mem) : option mem :=
  match heap m !! l with
  | Some _ => Some (with_heap (<[l := b]> (heap m)) m)
  | None => None
  end.

(** [yajl_tree_free (v)]: nothing for NULL, else the tree is released. *)
Definition yajl_tree_free (v : option loc) (m : mem) : option mem :=
  match v with
  | None => Some m
  | Some t =>
      match heap m !! t with
      | Some (Btree _) => free t m
      | _ => None
      end
  end.

(** Modelled from the spec: [move_ptr] (json_common.h) is not under src/.
    A moved-out record is "zeroed": the variable is left NULL and its old
    value is the result. *)
Definition move_ptr (var : option loc) : option loc * option loc := (var, None).

(** *** cgroup *)

Definition cgroup_zero : cgroup_struct :=
  {| Cgroup.v1 := false; Cgroup.v2 := false; Cgroup.systemd := false;
     Cgroup.systemd_user := false; Cgroup.rdma := false;
     Cgroup._residual := None;
     Cgroup.v1_present := false; Cgroup.v2_present := false;
     Cgroup.systemd_present := false; Cgroup.systemd_user_present := false;
     Cgroup.rdma_present := false |}.

Definition cgroup_set_residual (x : option loc) (r : cgroup_struct) : cgroup_struct :=
  {| Cgroup.v1 := Cgroup.v1 r; Cgroup.v2 := Cgroup.v2 r;
     Cgroup.systemd := Cgroup.systemd r;
     Cgroup.systemd_user := Cgroup.systemd_user r; Cgroup.rdma := Cgroup.rdma r;
     Cgroup._residual := x;
     Cgroup.v1_present := Cgroup.v1_present r;
     Cgroup.v2_present := Cgroup.v2_present r;
     Cgroup.systemd_present := Cgroup.systemd_present r;
     Cgroup.systemd_user_present := Cgroup.systemd_user_present r;
     Cgroup.rdma_present := Cgroup.rdma_present r |}.

(** [ret = calloc (1, sizeof ret)]; then the ten assignments
    [ret->f = src->f], [ret->f_present = src->f_present].  [_residual] is
    not assigned: it stays as calloc left it. *)
Definition clone_runtime_spec_schema_features_linux_cgroup
    (src : loc) (m : mem) : option (option loc * mem) :=
  match alloc (Bcgroup cgroup_zero) m with
  | (None, m) => Some (None, m)
  | (Some ret, m) =>
      match heap m !! src with
      | Some (Bcgroup s) =>
          m ← store ret (Bcgroup (cgroup_set_residual None s)) m;
          Some (Some ret, m)
      | _ => None
      end
  end.

(** [if (ptr == NULL) return; yajl_tree_free (ptr->_residual);
    ptr->_residual = NULL; free (ptr);] *)
Definition free_runtime_spec_schema_features_linux_cgroup
    (ptr : option loc) (m : mem) : option mem :=
  match ptr with
  | None => Some m
  | Some p =>
      match heap m !! p with
      | Some (Bcgroup r) =>
          m ← yajl_tree_free (Cgroup._residual r) m;
          m ← store p (Bcgroup (cgroup_set_residual None r)) m;
          free p m
      | _ => None
      end
  end.

(** *** idmap and mount_extensions *)

Definition idmap_zero : idmap_struct :=
  {| Idmap.enabled := false; Idmap._residual := None;
     Idmap.enabled_present := false |}.

Definition idmap_set_residual (x : option loc) (r : idmap_struct) : idmap_struct :=
  {| Idmap.enabled := Idmap.enabled r; Idmap._residual := x;
     Idmap.enabled_present := Idmap.enabled_present r |}.

Definition clone_runtime_spec_schema_features_linux_mount_extensions_idmap
    (src : loc) (m : mem) : option (option loc * mem) :=
  match alloc (Bidmap idmap_zero) m with
  | (None, m) => Some (None, m)
  | (Some ret, m) =>
      match heap m !! src with
      | Some (Bidmap s) =>
          m ← store ret (Bidmap (idmap_set_residual None s)) m;
          Some (Some ret, m)
      | _ => None
      end
  end.

Definition free_runtime_spec_schema_features_linux_mount_extensions_idmap
    (ptr : option loc) (m : mem) : option mem :=
  match ptr with
  | None => Some m
  | Some p =>
      match heap m !! p with
      | Some (Bidmap r) =>
          m ← yajl_tree_free (Idmap._residual r) m;
          m ← store p (Bidmap (idmap_set_residual None r)) m;
          free p m
      | _ => None
      end
  end.

Definition mount_extensions_zero : mount_extensions_struct :=
  {| MountExtensions.idmap := None; MountExtensions._residual := None |}.

(** [if (ptr == NULL) return;
    if (ptr->idmap != NULL) { free_..._idmap (ptr->idmap); ptr->idmap = NULL; }
    yajl_tree_free (ptr->_residual); ptr->_residual = NULL; free (ptr);] *)
Definition free_runtime_spec_schema_features_linux_mount_extensions
    (ptr : option loc) (m : mem) : option mem :=
  match ptr with
  | None => Some m
  | Some p =>
      match heap m !! p with
      | Some (Bmount_extensions r) =>
          m ← match MountExtensions.idmap r with
              | Some i =>
                  m ← free_runtime_spec_schema_features_linux_mount_extensions_idmap
                        (Some i) m;
                  store p (Bmount_extensions
                             {| MountExtensions.idmap := None;
                                MountExtensions._residual :=
                                  MountExtensions._residual r |}) m
              | None => Some m
              end;
          m ← yajl_tree_free (MountExtensions._residual r) m;
          m ← store p (Bmount_extensions mount_extensions_zero) m;
          free p m
      | _ => None
      end
  end.

(** [ret = calloc (...); if (src->idmap) { ret->idmap = clone_..._idmap
    (src->idmap); if (ret->idmap == NULL) return NULL; } return move_ptr
    (ret);]  A [return NULL] runs the cleanup of [ret], which is
    [free_..._mount_extensions (ret)]. *)
Definition clone_runtime_spec_schema_features_linux_mount_extensions
    (src : loc) (m : mem) : option (option loc * mem) :=
  match alloc (Bmount_extensions mount_extensions_zero) m with
  | (None, m) => Some (None, m)
  | (Some ret, m) =>
      match heap m !! src with
      | Some (Bmount_extensions s) =>
          match MountExtensions.idmap s with
          | Some i =>
              '(c, m) ← clone_runtime_spec_schema_features_linux_mount_extensions_idmap i m;
              match c with
              | Some ci =>
                  m ← store ret (Bmount_extensions
                                   {| MountExtensions.idmap := Some ci;
                                      MountExtensions._residual := None |}) m;
                  Some (Some ret, m)
              | None =>
                  m ← free_runtime_spec_schema_features_linux_mount_extensions
                        (Some ret) m;
                  Some (None, m)
              end
          | None => Some (Some ret, m)
          end
      | _ => None
      end
  end.

(** *** namespace_reference *)

Definition zos_zero : zos_struct :=
  {| ZosNs.type := None; ZosNs.path := None; ZosNs._residual := None |}.

(** [strdup (p)] for a non-NULL [p]. *)
Definition strdup (p : loc) (m : mem) : option (option loc * mem) :=
  match heap m !! p with
  | Some (Bchars s) => Some (alloc (Bchars s) m)
  | _ => None
  end.

(** [free (p)] for a [char *], which may be NULL. *)
Definition free_chars (p : option loc) (m : mem) : option mem :=
  match p with
  | None => Some m
  | Some l => free l m
  end.

Definition load_zos (p : loc) (m : mem) : option zos_struct :=
  match heap m !! p with
  | Some (Bzos r) => Some r
  | _ => None
  end.

(** [free (ptr->type); ptr->type = NULL; free (ptr->path); ptr->path = NULL;
    yajl_tree_free (ptr->_residual); ptr->_residual = NULL; free (ptr);] *)
Definition free_runtime_spec_schema_defs_zos_namespace_reference
    (ptr : option loc) (m : mem) : option mem :=
  match ptr with
  | None => Some m
  | Some p =>
      r ← load_zos p m;
      m ← free_chars (ZosNs.type r) m;
      m ← store p (Bzos {| ZosNs.type := None; ZosNs.path := ZosNs.path r;
                           ZosNs._residual := ZosNs._residual r |}) m;
      m ← free_chars (ZosNs.path r) m;
      m ← store p (Bzos {| ZosNs.type := None; ZosNs.path := None;
                           ZosNs._residual := ZosNs._residual r |}) m;
      m ← yajl_tree_free (ZosNs._residual r) m;
      m ← store p (Bzos zos_zero) m;
      free p m
  end.

(** [ret = calloc (...);
    if (src->type) { ret->type = strdup (src->type);
                     if (ret->type == NULL) return NULL; }
    if (src->path) { ret->path = strdup (src->path);
                     if (ret->path == NULL) return NULL; }
    return move_ptr (ret);] *)
Definition clone_runtime_spec_schema_defs_zos_namespace_reference
    (src : loc) (m : mem) : option (option loc * mem) :=
  match alloc (Bzos zos_zero) m with
  | (None, m) => Some (None, m)
  | (Some ret, m) =>
      s ← load_zos src m;
      let fail (m : mem) : option (option loc * mem) :=
        m ← free_runtime_spec_schema_defs_zos_namespace_reference (Some ret) m;
        Some (None, m) in
      let second (ty : option loc) (m : mem) : option (option loc * mem) :=
        match ZosNs.path s with
        | Some p =>
            '(c, m) ← strdup p m;
            match c with
            | Some cp =>
                m ← store ret (Bzos {| ZosNs.type := ty; ZosNs.path := Some cp;
                                       ZosNs._residual := None |}) m;
                Some (Some ret, m)
            | None => fail m
            end
        | None => Some (Some ret, m)
        end in
      match ZosNs.type s with
      | Some t =>
          '(c, m) ← strdup t m;
          match c with
          | Some ct =>
              m ← store ret (Bzos {| ZosNs.type := Some ct; ZosNs.path := None;
                                     ZosNs._residual := None |}) m;
              second (Some ct) m
          | None => fail m
          end
      | None => second None m
      end
  end.

(** *** seccomp *)

Definition seccomp_zero : seccomp_struct :=
  Seccomp.Build_runtime_spec_schema_features_linux_seccomp loc loc
    false None O None O None O None O None O None false.

Definition load_seccomp (p : loc) (m : mem) : option seccomp_struct :=
  match heap m !! p with
  | Some (Bseccomp r) => Some r
  | _ => None
  end.

(** [ptr->member = ...] for a member of a seccomp record in memory. *)
Definition update_seccomp (p : loc) (f : seccomp_struct -> seccomp_struct)
    (m : mem) : option mem :=
  r ← load_seccomp p m;
  store p (Bseccomp (f r)) m.

(** One of the five members that are arrays of strings: how to read and
    write the pointer and the length. *)
Record array_field : Type := {
  get_ptr : seccomp_struct -> option loc;
  get_len : seccomp_struct -> nat;
  set_ptr : option loc -> seccomp_struct -> seccomp_struct;
  set_len : nat -> seccomp_struct -> seccomp_struct
}.

Definition actions_field : array_field :=
  {| get_ptr := Seccomp.actions;
     get_len := Seccomp.actions_len;
     set_ptr := fun x r =>
       let '(Seccomp.Build_runtime_spec_schema_features_linux_seccomp _ _
               e a1 n1 a2 n2 a3 n3 a4 n4 a5 n5 res ep) := r in
       Seccomp.Build_runtime_spec_schema_features_linux_seccomp loc loc
         e x n1 a2 n2 a3 n3 a4 n4 a5 n5 res ep;
     set_len := fun n r =>
       let '(Seccomp.Build_runtime_spec_schema_features_linux_seccomp _ _
               e a1 n1 a2 n2 a3 n3 a4 n4 a5 n5 res ep) := r in
       Seccomp.Build_runtime_spec_schema_features_linux_seccomp loc loc
         e a1 n a2 n2 a3 n3 a4 n4 a5 n5 res ep |}.

Definition operators_field : array_field :=
  {| get_ptr := Seccomp.operators;
     get_len := Seccomp.operators_len;
     set_ptr := fun x r =>
       let '(Seccomp.Build_runtime_spec_schema_features_linux_seccomp _ _
               e a1 n1 a2 n2 a3 n3 a4 n4 a5 n5 res ep) := r in
       Seccomp.Build_runtime_spec_schema_features_linux_seccomp loc loc
         e a1 n1 x n2 a3 n3 a4 n4 a5 n5 res ep;
     set_len := fun n r =>
       let '(Seccomp.Build_runtime_spec_schema_features_linux_seccomp _ _
               e a1 n1 a2 n2 a3 n3 a4 n4 a5 n5 res ep) := r in
       Seccomp.Build_runtime_spec_schema_features_linux_seccomp loc loc
         e a1 n1 a2 n a3 n3 a4 n4 a5 n5 res ep |}.

Definition archs_field : array_field :=
  {| get_ptr := Seccomp.archs;
     get_len := Seccomp.archs_len;
     set_ptr := fun x r =>
       let '(Seccomp.Build_runtime_spec_schema_features_linux_seccomp _ _
               e a1 n1 a2 n2 a3 n3 a4 n4 a5 n5 res ep) := r in
       Seccomp.Build_runtime_spec_schema_features_linux_seccomp loc loc
         e a1 n1 a2 n2 x n3 a4 n4 a5 n5 res ep;
     set_len := fun n r =>
       let '(Seccomp.Build_runtime_spec_schema_features_linux_seccomp _ _
               e a1 n1 a2 n2 a3 n3 a4 n4 a5 n5 res ep) := r in
       Seccomp.Build_runtime_spec_schema_features_linux_seccomp loc loc
         e a1 n1 a2 n2 a3 n a4 n4 a5 n5 res ep |}.

Definition known_flags_field : array_field :=
  {| get_ptr := Seccomp.known_flags;
     get_len := Seccomp.known_flags_len;
     set_ptr := fun x r =>
       let '(Seccomp.Build_runtime_spec_schema_features_linux_seccomp _ _
               e a1 n1 a2 n2 a3 n3 a4 n4 a5 n5 res ep) := r in
       Seccomp.Build_runtime_spec_schema_features_linux_seccomp loc loc
         e a1 n1 a2 n2 a3 n3 x n4 a5 n5 res ep;
     set_len := fun n r =>
       let '(Seccomp.Build_runtime_spec_schema_features_linux_seccomp _ _
               e a1 n1 a2 n2 a3 n3 a4 n4 a5 n5 res ep) := r in
       Seccomp.Build_runtime_spec_schema_features_linux_seccomp loc loc
         e a1 n1 a2 n2 a3 n3 a4 n a5 n5 res ep |}.

Definition supported_flags_field : array_field :=
  {| get_ptr := Seccomp.supported_flags;
     get_len := Seccomp.supported_flags_len;
     set_ptr := fun x r =>
       let '(Seccomp.Build_runtime_spec_schema_features_linux_seccomp _ _
               e a1 n1 a2 n2 a3 n3 a4 n4 a5 n5 res ep) := r in
       Seccomp.Build_runtime_spec_schema_features_linux_seccomp loc loc
         e a1 n1 a2 n2 a3 n3 a4 n4 x n5 res ep;
     set_len := fun n r =>
       let '(Seccomp.Build_runtime_spec_schema_features_linux_seccomp _ _
               e a1 n1 a2 n2 a3 n3 a4 n4 a5 n5 res ep) := r in
       Seccomp.Build_runtime_spec_schema_features_linux_seccomp loc loc
         e a1 n1 a2 n2 a3 n3 a4 n4 a5 n res ep |}.

Definition seccomp_set_enabled (b p : bool) (r : seccomp_struct) : seccomp_struct :=
  let '(Seccomp.Build_runtime_spec_schema_features_linux_seccomp _ _
          e a1 n1 a2 n2 a3 n3 a4 n4 a5 n5 res ep) := r in
  Seccomp.Build_runtime_spec_schema_features_linux_seccomp loc loc
    b a1 n1 a2 n2 a3 n3 a4 n4 a5 n5 res p.

Definition seccomp_set_residual (x : option loc) (r : seccomp_struct) : seccomp_struct :=
  let '(Seccomp.Build_runtime_spec_schema_features_linux_seccomp _ _
          e a1 n1 a2 n2 a3 n3 a4 n4 a5 n5 res ep) := r in
  Seccomp.Build_runtime_spec_schema_features_linux_seccomp loc loc
    e a1 n1 a2 n2 a3 n3 a4 n4 a5 n5 x ep.

(** The loop of [free_*] over one array, from index [i] with [n] rounds
    left:
<<
    for (i = 0; i < ptr->f_len; i++)
      if (ptr->f[i] != NULL) { free (ptr->f[i]); ptr->f[i] = NULL; }
>> *)
Fixpoint free_cells (a : loc) (i n : nat) (m : mem) : option mem :=
  match n with
  | O => Some m
  | S n' =>
      match heap m !! a with
      | Some (Bcells cs) =>
          match cs !! i with
          | None => None
          | Some None => free_cells a (S i) n' m
          | Some (Some s) =>
              m ← free s m;
              m ← store a (Bcells (<[i := None]> cs)) m;
              free_cells a (S i) n' m
          end
      | _ => None
      end
  end.

(** [if (ptr->f != NULL) { the loop; free (ptr->f); ptr->f = NULL; }] *)
Definition free_array_field (fld : array_field) (p : loc) (m : mem) : option mem :=
  r ← load_seccomp p m;
  match get_ptr fld r with
  | None => Some m
  | Some a =>
      m ← free_cells a 0 (get_len fld r) m;
      m ← free a m;
      update_seccomp p (set_ptr fld None) m
  end.

Definition free_runtime_spec_schema_features_linux_seccomp
    (ptr : option loc) (m : mem) : option mem :=
  match ptr with
  | None => Some m
  | Some p =>
      m ← free_array_field actions_field p m;
      m ← free_array_field operators_field p m;
      m ← free_array_field archs_field p m;
      m ← free_array_field known_flags_field p m;
      m ← free_array_field supported_flags_field p m;
      r ← load_seccomp p m;
      m ← yajl_tree_free (Seccomp._residual r) m;
      m ← update_seccomp p (seccomp_set_residual None) m;
      free p m
  end.

(** The loop of [clone_*] over one array; the result says whether every
    strdup succeeded.
<<
    for (size_t i = 0; i < src->f_len; i++)
      if (src->f[i]) { ret->f[i] = strdup (src->f[i]);
                       if (ret->f[i] == NULL) return NULL; }
>> *)
Fixpoint clone_cells (src dst : loc) (i n : nat) (m : mem) : option (bool * mem) :=
  match n with
  | O => Some (true, m)
  | S n' =>
      match heap m !! src with
      | Some (Bcells sc) =>
          match sc !! i with
          | None => None
          | Some None => clone_cells src dst (S i) n' m
          | Some (Some s) =>
              '(c, m) ← strdup s m;
              match c with
              | None => Some (false, m)
              | Some l =>
                  match heap m !! dst with
                  | Some (Bcells dc) =>
                      if decide (i < length dc)%nat then
                        m ← store dst (Bcells (<[i := Some l]> dc)) m;
                        clone_cells src dst (S i) n' m
                      else None
                  | _ => None
                  end
              end
          end
      | _ => None
      end
  end.

(** One array member of [clone_*]:
<<
    if (src->f) {
        ret->f_len = src->f_len;
        ret->f = calloc (src->f_len + 1, size of one cell);
        if (ret->f == NULL) return NULL;
        the loop
    }
>> *)
Definition clone_array_field (fld : array_field) (src ret : loc) (m : mem)
  : option (bool * mem) :=
  s ← load_seccomp src m;
  match get_ptr fld s with
  | None => Some (true, m)
  | Some a =>
      m ← update_seccomp ret (set_len fld (get_len fld s)) m;
      match alloc (Bcells (replicate (S (get_len fld s)) None)) m with
      | (None, m) => Some (false, m)
      | (Some d, m) =>
          m ← update_seccomp ret (set_ptr fld (Some d)) m;
          clone_cells a d 0 (get_len fld s) m
      end
  end.

(** A step of [clone_*] that may [return NULL]: the cleanup of [ret] then
    runs [free_* (ret)]. *)
Definition or_return_null (step : mem -> option (bool * mem)) (ret : loc)
    (rest : mem -> option (option loc * mem)) (m : mem)
  : option (option loc * mem) :=
  '(ok, m) ← step m;
  if ok : bool then rest m
  else
    m ← free_runtime_spec_schema_features_linux_seccomp (Some ret) m;
    Some (None, m).

Definition clone_runtime_spec_schema_features_linux_seccomp
    (src : loc) (m : mem) : option (option loc * mem) :=
  match alloc (Bseccomp seccomp_zero) m with
  | (None, m) => Some (None, m)
  | (Some ret, m) =>
      s ← load_seccomp src m;
      m ← update_seccomp ret
            (seccomp_set_enabled (Seccomp.enabled s) (Seccomp.enabled_present s)) m;
      or_return_null (clone_array_field actions_field src ret) ret
        (or_return_null (clone_array_field operators_field src ret) ret
           (or_return_null (clone_array_field archs_field src ret) ret
              (or_return_null (clone_array_field known_flags_field src ret) ret
                 (or_return_null (clone_array_field supported_flags_field src ret) ret
                    (fun m => Some (Some ret, m)))))) m
  end.

End Mem.

(* ===================================================================== *)
(** ** Records in the store: what they hold and what they own *)
(* ===================================================================== *)

Module Owned.

Import Mem.

Implicit Types (h : gmap loc block).

Definition read_chars h (l : loc) : option string :=
  match h !! l with
  | Some (Bchars s) => Some s
  | _ => None
  end.

(** What a pointer to a string, to a tree and to an array of strings hold:
    [None] when the store does not hold such an object there, [Some None]
    for the NULL pointer. *)
Definition read_string h (p : option loc) : option (option string) :=
  match p with
  | None => Some None
  | Some l => Some <$> read_chars h l
  end.

Definition read_tree h (p : option loc) : option (option yajl_val) :=
  match p with
  | None => Some None
  | Some l =>
      match h !! l with
      | Some (Btree t) => Some (Some t)
      | _ => None
      end
  end.

Definition read_array h (p : option loc) : option (option (list (option string))) :=
  match p with
  | None => Some None
  | Some a =>
      match h !! a with
      | Some (Bcells cells) => Some <$> mapM (read_string h) cells
      | _ => None
      end
  end.

(** The addresses an array of strings owns: the array and its strings. *)
Definition array_locs h (p : option loc) : list loc :=
  match p with
  | None => []
  | Some a =>
      a :: match h !! a with
           | Some (Bcells cells) => omap id cells
           | _ => []
           end
  end.

(** The array was built by calloc ([len + 1]) cells: [len] cells and a
    last one that is NULL. *)
Definition array_shape h (p : option loc) (len : nat) : bool :=
  match p with
  | None => true
  | Some a =>
      match h !! a with
      | Some (Bcells cells) =>
          Nat.eqb (length cells) (S len)
          && match last cells with Some None => true | _ => false end
      | _ => false
      end
  end.

(** *** cgroup *)

Definition read_cgroup h (p : loc) : option Cgroup.cgroup :=
  match h !! p with
  | Some (Bcgroup r) =>
      resi ← read_tree h (Cgroup._residual r);
      Some {| Cgroup.v1 := Cgroup.v1 r; Cgroup.v2 := Cgroup.v2 r;
              Cgroup.systemd := Cgroup.systemd r;
              Cgroup.systemd_user := Cgroup.systemd_user r;
              Cgroup.rdma := Cgroup.rdma r;
              Cgroup._residual := resi;
              Cgroup.v1_present := Cgroup.v1_present r;
              Cgroup.v2_present := Cgroup.v2_present r;
              Cgroup.systemd_present := Cgroup.systemd_present r;
              Cgroup.systemd_user_present := Cgroup.systemd_user_present r;
              Cgroup.rdma_present := Cgroup.rdma_present r |}
  | _ => None
  end.

Definition cgroup_locs h (p : loc) : list loc :=
  p :: match h !! p with
       | Some (Bcgroup r) => option_list (Cgroup._residual r)
       | _ => []
       end.

(** The cgroup record [r] with its residual replaced. *)
Definition cgroup_with_residual {T U : Type} (x : option U)
    (r : Cgroup.runtime_spec_schema_features_linux_cgroup T)
  : Cgroup.runtime_spec_schema_features_linux_cgroup U :=
  {| Cgroup.v1 := Cgroup.v1 r; Cgroup.v2 := Cgroup.v2 r;
     Cgroup.systemd := Cgroup.systemd r;
     Cgroup.systemd_user := Cgroup.systemd_user r;
     Cgroup.rdma := Cgroup.rdma r;
     Cgroup._residual := x;
     Cgroup.v1_present := Cgroup.v1_present r;
     Cgroup.v2_present := Cgroup.v2_present r;
     Cgroup.systemd_present := Cgroup.systemd_present r;
     Cgroup.systemd_user_present := Cgroup.systemd_user_present r;
     Cgroup.rdma_present := Cgroup.rdma_present r |}.

(** *** seccomp *)

Definition read_seccomp h (p : loc) : option Seccomp.seccomp :=
  match h !! p with
  | Some (Bseccomp r) =>
      a1 ← read_array h (Seccomp.actions r);
      a2 ← read_array h (Seccomp.operators r);
      a3 ← read_array h (Seccomp.archs r);
      a4 ← read_array h (Seccomp.known_flags r);
      a5 ← read_array h (Seccomp.supported_flags r);
      resi ← read_tree h (Seccomp._residual r);
      Some (Seccomp.Build_runtime_spec_schema_features_linux_seccomp _ _
              (Seccomp.enabled r)
              a1 (Seccomp.actions_len r)
              a2 (Seccomp.operators_len r)
              a3 (Seccomp.archs_len r)
              a4 (Seccomp.known_flags_len r)
              a5 (Seccomp.supported_flags_len r)
              resi (Seccomp.enabled_present r))
  | _ => None
  end.

Definition seccomp_locs h (p : loc) : list loc :=
  p :: match h !! p with
       | Some (Bseccomp r) =>
           array_locs h (Seccomp.actions r)
           ++ array_locs h (Seccomp.operators r)
           ++ array_locs h (Seccomp.archs r)
           ++ array_locs h (Seccomp.known_flags r)
           ++ array_locs h (Seccomp.supported_flags r)
           ++ option_list (Seccomp._residual r)
       | _ => []
       end.

Definition seccomp_shape h (p : loc) : bool :=
  match h !! p with
  | Some (Bseccomp r) =>
      array_shape h (Seccomp.actions r) (Seccomp.actions_len r)
      && array_shape h (Seccomp.operators r) (Seccomp.operators_len r)
      && array_shape h (Seccomp.archs r) (Seccomp.archs_len r)
      && array_shape h (Seccomp.known_flags r) (Seccomp.known_flags_len r)
      && array_shape h (Seccomp.supported_flags r) (Seccomp.supported_flags_len r)
  | _ => false
  end.

(** The length [clone_*] gives an array member: [src->f_len] is copied
    only under [if (src->f)]; otherwise it stays as calloc left it. *)
Definition cloned_len {X : Type} (f : option X) (f_len : nat) : nat :=
  match f with
  | Some _ => f_len
  | None => O
  end.

(** What the copy of the seccomp value [v] holds: the scalar members, the
    arrays with their lengths, and no residual. *)
Definition seccomp_cloned (v : Seccomp.seccomp) : Seccomp.seccomp :=
  Seccomp.Build_runtime_spec_schema_features_linux_seccomp _ _
    (Seccomp.enabled v)
    (Seccomp.actions v) (cloned_len (Seccomp.actions v) (Seccomp.actions_len v))
    (Seccomp.operators v) (cloned_len (Seccomp.operators v) (Seccomp.operators_len v))
    (Seccomp.archs v) (cloned_len (Seccomp.archs v) (Seccomp.archs_len v))
    (Seccomp.known_flags v)
    (cloned_len (Seccomp.known_flags v) (Seccomp.known_flags_len v))
    (Seccomp.supported_flags v)
    (cloned_len (Seccomp.supported_flags v) (Seccomp.supported_flags_len v))
    None (Seccomp.enabled_present v).

(** *** namespace_reference *)

Definition read_zos h (p : loc) : option ZosNs.namespace_reference :=
  match h !! p with
  | Some (Bzos r) =>
      ty ← read_string h (ZosNs.type r);
      pa ← read_string h (ZosNs.path r);
      resi ← read_tree h (ZosNs._residual r);
      Some {| ZosNs.type := ty; ZosNs.path := pa; ZosNs._residual := resi |}
  | _ => None
  end.

Definition zos_locs h (p : loc) : list loc :=
  p :: match h !! p with
       | Some (Bzos r) =>
           option_list (ZosNs.type r) ++ option_list (ZosNs.path r)
           ++ option_list (ZosNs._residual r)
       | _ => []
       end.

(** *** mount_extensions, with its nested idmap *)

Definition idmap : Type :=
  Idmap.runtime_spec_schema_features_linux_mount_extensions_idmap yajl_val.

Definition mount_extensions : Type :=
  MountExtensions.runtime_spec_schema_features_linux_mount_extensions idmap yajl_val.

Definition read_idmap h (p : loc) : option idmap :=
  match h !! p with
  | Some (Bidmap r) =>
      resi ← read_tree h (Idmap._residual r);
      Some {| Idmap.enabled := Idmap.enabled r; Idmap._residual := resi;
              Idmap.enabled_present := Idmap.enabled_present r |}
  | _ => None
  end.

Definition idmap_locs h (p : loc) : list loc :=
  p :: match h !! p with
       | Some (Bidmap r) => option_list (Idmap._residual r)
       | _ => []
       end.

Definition read_mount_extensions h (p : loc) : option mount_extensions :=
  match h !! p with
  | Some (Bmount_extensions r) =>
      i ← match MountExtensions.idmap r with
          | None => Some None
          | Some q => Some <$> read_idmap h q
          end;
      resi ← read_tree h (MountExtensions._residual r);
      Some {| MountExtensions.idmap := i; MountExtensions._residual := resi |}
  | _ => None
  end.

Definition mount_extensions_locs h (p : loc) : list loc :=
  p :: match h !! p with
       | Some (Bmount_extensions r) =>
           match MountExtensions.idmap r with
           | Some q => idmap_locs h q
           | None => []
           end
           ++ option_list (MountExtensions._residual r)
       | _ => []
       end.

(** What the copies made by [clone_*] of the other records hold: the
    members of the source, nested record included, and no residual. *)
Definition zos_cloned (v : ZosNs.namespace_reference) : ZosNs.namespace_reference :=
  {| ZosNs.type := ZosNs.type v; ZosNs.path := ZosNs.path v;
     ZosNs._residual := None |}.

Definition idmap_cloned (v : idmap) : idmap :=
  {| Idmap.enabled := Idmap.enabled v; Idmap._residual := None;
     Idmap.enabled_present := Idmap.enabled_present v |}.

Definition mount_extensions_cloned (v : mount_extensions) : mount_extensions :=
  {| MountExtensions.idmap := idmap_cloned <$> MountExtensions.idmap v;
     MountExtensions._residual := None |}.

(** A member descriptor is lawful when writing NULL over a NULL pointer
    leaves the record as it is. *)
Definition lawful (fld : Mem.array_field) : Prop :=
  forall r, Mem.get_ptr fld r = None -> Mem.set_ptr fld None r = r.

(** Releasing the blocks at [ls]. *)
Definition release (ls : list loc) h : gmap loc block := foldr delete h ls.
Arguments release : simpl never.

End Owned.
Export Owned.


(* ===================================================================== *)
(** ** The document a sequence of calls denotes *)
(* ===================================================================== *)

Module Document.

(** The handle after it has accepted the calls [cs]. *)
Definition extend (g : yajl_gen) (cs : list gen_call) : yajl_gen :=
  {| calls := calls g ++ cs; room := room g |}.

(** Reading the calls back into a tree, as a JSON reader would read the
    text the emitter prints.  The stack holds the containers that are
    open, innermost first, each with what it has received so far (latest
    first); [Ftop] is the place of the document itself. *)
Inductive frame : Type :=
| Ftop (result : option yajl_val)
| Fobject (done : list slot) (key : option string)
| Farray (done : list (option yajl_val)).

(** A complete value arrives at the innermost open container. *)
Definition push_value (v : yajl_val) (stack : list frame) : option (list frame) :=
  match stack with
  | Ftop None :: st => Some (Ftop (Some v) :: st)
  | Fobject done (Some k) :: st => Some (Fobject ((Some k, Some v) :: done) None :: st)
  | Farray done :: st => Some (Farray (Some v :: done) :: st)
  | _ => None
  end.

Fixpoint read_calls (cs : list gen_call) (stack : list frame) : option yajl_val :=
  match cs with
  | [] =>
      match stack with
      | [Ftop (Some v)] => Some v
      | _ => None
      end
  | c :: rest =>
      let deliver (v : yajl_val) (st : list frame) : option yajl_val :=
        match push_value v st with
        | Some st' => read_calls rest st'
        | None => None
        end in
      match c with
      | call_config_beautify _ => read_calls rest stack
      | call_map_open => read_calls rest (Fobject [] None :: stack)
      | call_array_open => read_calls rest (Farray [] :: stack)
      | call_map_close =>
          match stack with
          | Fobject done None :: st => deliver (Yobject (rev done)) st
          | _ => None
          end
      | call_array_close =>
          match stack with
          | Farray done :: st => deliver (Yarray (rev done)) st
          | _ => None
          end
      | call_string s =>
          match stack with
          | Fobject done None :: st => read_calls rest (Fobject done (Some s) :: st)
          | _ => deliver (Ystring s) stack
          end
      | call_bool b => deliver (if b then Ytrue else Yfalse) stack
      | call_number r => deliver (Ynumber r) stack
      | call_null => deliver Ynull stack
      end
  end.

Definition document_of (cs : list gen_call) : option yajl_val :=
  read_calls cs [Ftop None].

(** A step that, on an emitter that never fails, accepts the calls [cs]. *)
Definition accepts (step : yajl_gen -> gen_outcome) (cs : list gen_call) : Prop :=
  forall g, room g = None -> step g = GenOk (extend g cs).

End Document.
Export Document.

(* ===================================================================== *)
(** ** The statements under test *)
(* ===================================================================== *)

Module Statements.

Import Cgroup ZosNs.

(** What a string field and a boolean field of the record are expected to
    hold, read off the first value the object stores under the name. *)
Definition string_field (name : string) (slots : list slot) : option string :=
  match member name slots with
  | Some (Ystring s) => Some s
  | _ => None
  end.

Definition bool_field (name : string) (slots : list slot) : option bool :=
  match member name slots with
  | Some Ytrue => Some true
  | Some Yfalse => Some false
  | _ => None
  end.

(** The tri-state of a boolean member of a record: absent, or present with
    a value. *)
Definition tri_state {R : Type} (f f_present : R -> bool) (r : R) : option bool :=
  if f_present r then Some (f r) else None.

(** The boolean members of cgroup: wire name, value, present bit. *)
Definition cgroup_bools {T : Type}
  : list (string
          * (runtime_spec_schema_features_linux_cgroup T -> bool)
          * (runtime_spec_schema_features_linux_cgroup T -> bool)) :=
  [("v1", v1, v1_present);
   ("v2", v2, v2_present);
   ("systemd", systemd, systemd_present);
   ("systemdUser", systemd_user, systemd_user_present);
   ("rdma", rdma, rdma_present)].

(** Decoding an absent tree, as the specification words it: a type without
    required fields gets a record of absent fields and no error, a type
    with the required field [name] gets the error that names it. *)
Definition absent_tree_gives_empty_record (ctx : parser_context) : Prop :=
  exists m r,
    make_runtime_spec_schema_features_linux_cgroup None ctx = Some m
    /\ ret m = Some r /\ err m = None
    /\ forall x, x ∈ cgroup_bools -> tri_state (snd (fst x)) (snd x) r = None.

Definition absent_tree_gives_missing_field (ctx : parser_context) : Prop :=
  exists m,
    make_runtime_spec_schema_defs_zos_namespace_reference None ctx = Some m
    /\ ret m = None /\ err m = Some (required_field_error "type").

(** A string field whose key holds a value that is not a string, as the
    specification words it: the field is the empty string and the decode
    does not fail. *)
Definition non_string_gives_empty
    (f : namespace_reference -> option string) (name : string)
    (slots : list slot) (ctx : parser_context) : Prop :=
  forall v,
    member name slots = Some v ->
    type_of v <> yajl_t_string ->
    exists m r,
      make_runtime_spec_schema_defs_zos_namespace_reference (Some (Yobject slots)) ctx
        = Some m
      /\ ret m = Some r /\ f r = Some EmptyString.

(** *** What an encoder is expected to emit *)

Definition default_bool (o : option bool) : bool :=
  match o with Some b => b | None => false end.

Definition default_string (o : option string) : string :=
  match o with Some s => s | None => EmptyString end.

Definition default_array (o : option (list string)) : list string :=
  match o with Some a => a | None => [] end.

(** A known member is emitted when OPT_GEN_KEY_VALUE is set or the field
    is present, and then with the value of the field or, for an absent
    field, the zero value of its type. *)
Definition bool_member_calls (ctx : parser_context) (name : string)
    (field : option bool) : list gen_call :=
  if opt ctx OPT_GEN_KEY_VALUE || non_null field
  then [call_string name; call_bool (default_bool field)]
  else [].

Definition string_member_calls (ctx : parser_context) (name : string)
    (field : option string) : list gen_call :=
  if opt ctx OPT_GEN_KEY_VALUE || non_null field
  then [call_string name; call_string (default_string field)]
  else [].

Definition array_member_calls (ctx : parser_context) (name : string)
    (field : option (list string)) : list gen_call :=
  if opt ctx OPT_GEN_KEY_VALUE || non_null field
  then
    let strs := default_array field in
    let flat := Nat.eqb (length strs) 0 && negb (opt ctx OPT_GEN_SIMPLIFY) in
    [call_string name]
    ++ (if flat then [call_config_beautify false] else [])
    ++ [call_array_open] ++ map call_string strs ++ [call_array_close]
    ++ (if flat then [call_config_beautify true] else [])
  else [].

Definition residual_calls (resi : option yajl_val) : list gen_call :=
  match resi with
  | Some (Yobject slots) => calls_of_members slots
  | _ => []
  end.

(** The array of strings a record holds: absent for a NULL pointer, else
    the first [len] cells. *)
Definition array_state (cells : option (list (option string))) (len : nat)
  : option (list string) :=
  (fun cs => omap id (take len cs)) <$> cells.

(** Well-formed records: an absent boolean holds false, an array has at
    least [len] cells and none of the first [len] is NULL, the residual is
    an object without NULL slots.  Every record a decoder builds from a
    parsed tree is of this kind. *)
Definition zero_when_absent {R : Type} (f f_present : R -> bool) (r : R) : bool :=
  f_present r || negb (f r).

Definition array_ok (cells : option (list (option string))) (len : nat) : bool :=
  match cells with
  | None => true
  | Some cs =>
      forallb (fun k => match cs !! k with Some (Some _) => true | _ => false end)
              (seq 0 len)
  end.

Definition residual_ok (resi : option yajl_val) : bool :=
  match resi with
  | None => true
  | Some (Yobject slots) => parsed (Yobject slots)
  | Some _ => false
  end.

Definition cgroup_ok (ptr : option cgroup) : bool :=
  match ptr with
  | None => true
  | Some r =>
      forallb (fun x => zero_when_absent (snd (fst x)) (snd x) r) cgroup_bools
      && residual_ok (Cgroup._residual r)
  end.

Definition seccomp_ok (ptr : option Seccomp.seccomp) : bool :=
  match ptr with
  | None => true
  | Some r =>
      zero_when_absent Seccomp.enabled Seccomp.enabled_present r
      && array_ok (Seccomp.actions r) (Seccomp.actions_len r)
      && array_ok (Seccomp.operators r) (Seccomp.operators_len r)
      && array_ok (Seccomp.archs r) (Seccomp.archs_len r)
      && array_ok (Seccomp.known_flags r) (Seccomp.known_flags_len r)
      && array_ok (Seccomp.supported_flags r) (Seccomp.supported_flags_len r)
      && residual_ok (Seccomp._residual r)
  end.

Definition zos_ok (ptr : option namespace_reference) : bool :=
  match ptr with
  | None => true
  | Some r => residual_ok (ZosNs._residual r)
  end.

Definition cgroup_calls (ctx : parser_context) (ptr : option cgroup) : list gen_call :=
  [call_map_open]
  ++ bool_member_calls ctx "v1" (ptr ≫= tri_state v1 v1_present)
  ++ bool_member_calls ctx "v2" (ptr ≫= tri_state v2 v2_present)
  ++ bool_member_calls ctx "systemd" (ptr ≫= tri_state systemd systemd_present)
  ++ bool_member_calls ctx "systemdUser"
       (ptr ≫= tri_state systemd_user systemd_user_present)
  ++ bool_member_calls ctx "rdma" (ptr ≫= tri_state rdma rdma_present)
  ++ residual_calls (ptr ≫= Cgroup._residual)
  ++ [call_map_close].

Definition seccomp_calls (ctx : parser_context) (ptr : option Seccomp.seccomp)
  : list gen_call :=
  [call_map_open]
  ++ bool_member_calls ctx "enabled"
       (ptr ≫= tri_state Seccomp.enabled Seccomp.enabled_present)
  ++ array_member_calls ctx "actions"
       (ptr ≫= fun r => array_state (Seccomp.actions r) (Seccomp.actions_len r))
  ++ array_member_calls ctx "operators"
       (ptr ≫= fun r => array_state (Seccomp.operators r) (Seccomp.operators_len r))
  ++ array_member_calls ctx "archs"
       (ptr ≫= fun r => array_state (Seccomp.archs r) (Seccomp.archs_len r))
  ++ array_member_calls ctx "knownFlags"
       (ptr ≫= fun r => array_state (Seccomp.known_flags r) (Seccomp.known_flags_len r))
  ++ array_member_calls ctx "supportedFlags"
       (ptr ≫= fun r =>
          array_state (Seccomp.supported_flags r) (Seccomp.supported_flags_len r))
  ++ residual_calls (ptr ≫= Seccomp._residual)
  ++ [call_map_close].

Definition zos_calls (ctx : parser_context) (ptr : option namespace_reference)
  : list gen_call :=
  [call_map_open]
  ++ string_member_calls ctx "type" (ptr ≫= type)
  ++ string_member_calls ctx "path" (ptr ≫= path)
  ++ residual_calls (ptr ≫= ZosNs._residual)
  ++ [call_map_close].

(** The statement on OPT_GEN_KEY_VALUE for any cgroup record whatever:
    what the encoder emits is [cgroup_calls]. *)
Definition emits_defaults_for_every_record (r : cgroup) (ctx : parser_context) : Prop :=
  gen_runtime_spec_schema_features_linux_cgroup
    {| calls := []; room := None |} (Some r) ctx
  = GenOk {| calls := cgroup_calls ctx (Some r); room := None |}.

(** The cgroup record a parsed object decodes to. *)
Definition decoded_cgroup (slots : list slot) (fullkey : bool) : cgroup :=
  {| v1 := default_bool (bool_field "v1" slots);
     v2 := default_bool (bool_field "v2" slots);
     systemd := default_bool (bool_field "systemd" slots);
     systemd_user := default_bool (bool_field "systemdUser" slots);
     rdma := default_bool (bool_field "rdma" slots);
     Cgroup._residual :=
       if fullkey
       then Some (Yobject (List.filter (slot_unknown Cgroup.unknown_key) slots))
       else None;
     v1_present := non_null (bool_field "v1" slots);
     v2_present := non_null (bool_field "v2" slots);
     systemd_present := non_null (bool_field "systemd" slots);
     systemd_user_present := non_null (bool_field "systemdUser" slots);
     rdma_present := non_null (bool_field "rdma" slots) |}.

(** *** Decoding and encoding again *)

(** [encode (decode T)] for cgroup: the document denoted by what the
    encoder emits for the record the decoder returns. *)
Definition decode_encode (T : yajl_val) (dctx gctx : parser_context) : option yajl_val :=
  m ← make_runtime_spec_schema_features_linux_cgroup (Some T) dctx;
  match gen_runtime_spec_schema_features_linux_cgroup
          {| calls := []; room := None |} (ret m) gctx with
  | GenOk g => document_of (calls g)
  | _ => None
  end.

Definition cgroup_keys : list string :=
  ["v1"; "v2"; "systemd"; "systemdUser"; "rdma"].

(** The entries of an object under keys that cgroup does not know. *)
Definition unknown_slots (slots : list slot) : list slot :=
  List.filter (slot_unknown Cgroup.unknown_key) slots.

Definition yajl_of_bool (b : bool) : yajl_val := if b then Ytrue else Yfalse.

(** The known members of the document written back: one per known key
    under which the object holds a JSON boolean, in schema order. *)
Definition known_slots (slots : list slot) : list slot :=
  flat_map (fun k => match bool_field k slots with
                     | Some b => [(Some k, Some (yajl_of_bool b))]
                     | None => []
                     end) cgroup_keys.

(** Round-trip identity as the specification words it: the document
    written back holds, under every known key, what the object held under
    it, and the entries under unknown keys are the same, in the same
    order. *)
Definition round_trip_identity (slots : list slot) (dctx gctx : parser_context) : Prop :=
  exists out,
    decode_encode (Yobject slots) dctx gctx = Some (Yobject out)
    /\ (forall k, In k cgroup_keys -> member k out = member k slots)
    /\ unknown_slots out = unknown_slots slots.

(** *** Clone and release in the store *)

(** The state of the boolean member [name] that the input object calls
    for: absent when the object lacks the key, present with the value when
    the first value under the key is JSON-false or JSON-true. *)
Definition tri_state_of_input (name : string) (slots : list slot)
    (state : option bool) : Prop :=
  (member name slots = None -> state = None)
  /\ (member name slots = Some Yfalse -> state = Some false)
  /\ (member name slots = Some Ytrue -> state = Some true).

Section Ownership.

Context {V : Type}.
Variable read : gmap Mem.loc Mem.block -> Mem.loc -> option V.
Variable locs : gmap Mem.loc Mem.block -> Mem.loc -> list Mem.loc.
Variable free_record : option Mem.loc -> Mem.mem -> option Mem.mem.
Variable clone_record : Mem.loc -> Mem.mem -> option (option Mem.loc * Mem.mem).

(** The copy as the specification words it: the clone of the record at
    [p] holds all that the source holds, the residual tree included. *)
Definition clone_copies_everything (p : Mem.loc) (m : Mem.mem) : Prop :=
  exists v q m',
    read (Mem.heap m) p = Some v
    /\ clone_record p m = Some (Some q, m')
    /\ read (Mem.heap m') q = Some v.

(** The copy the code makes of the record at [p], which holds [v]: the
    clone holds [copy_of v]; the blocks it owns are distinct and were not
    in use before, so none is a block of the source; a write to any of
    them leaves the source as it was; and releasing the clone gives back
    the very store the clone started from. *)
Definition independent_copy (copy_of : V -> V) (p : Mem.loc) (v : V)
    (m : Mem.mem) : Prop :=
  exists q m',
    clone_record p m = Some (Some q, m')
    /\ read (Mem.heap m') q = Some (copy_of v)
    /\ NoDup (locs (Mem.heap m') q)
    /\ (forall l, l ∈ locs (Mem.heap m') q -> Mem.heap m !! l = None)
    /\ (forall l b, l ∈ locs (Mem.heap m') q ->
                    read (<[l := b]> (Mem.heap m')) p = Some v)
    /\ read (Mem.heap m') p = Some v
    /\ free_record (Some q) m' = Some m.

(** Releasing the record at [p]: the call is defined, the store loses the
    blocks the record owns and nothing else, a further release through the
    zeroed handle changes nothing, and one through the stale pointer would
    be undefined. *)
Definition releases (p : Mem.loc) (m : Mem.mem) : Prop :=
  exists m1,
    free_record (Some p) m = Some m1
    /\ Mem.heap m1 = release (locs (Mem.heap m) p) (Mem.heap m)
    /\ Mem.oracle m1 = Mem.oracle m
    /\ free_record (snd (Mem.move_ptr (Some p))) m1 = Some m1
    /\ free_record (Some p) m1 = None.

End Ownership.

(** *** A store with one record of each type *)

(** The object {"v1": false, "v2": true, "unknownKey": "x"}. *)
Definition example_slots : list slot :=
  [(Some "v1", Some Yfalse); (Some "v2", Some Ytrue);
   (Some "unknownKey", Some (Ystring "x"))].

(** At 1 the cgroup record that [example_slots] decodes to under
    OPT_PARSE_FULLKEY, with its residual tree at 2; at 10 a seccomp record
    with two actions, one operator and a residual tree; at 20 a namespace
    reference; at 30 a mount_extensions record with its idmap at 31. *)
Definition example_store : Mem.mem :=
  {| Mem.heap :=
       list_to_map
         [(1%positive,
           Mem.Bcgroup
             {| v1 := false; v2 := true; systemd := false; systemd_user := false;
                rdma := false; Cgroup._residual := Some 2%positive;
                v1_present := true; v2_present := true; systemd_present := false;
                systemd_user_present := false; rdma_present := false |});
          (2%positive,
           Mem.Btree (Yobject [(Some "unknownKey", Some (Ystring "x"))]));
          (10%positive,
           Mem.Bseccomp
             (Seccomp.Build_runtime_spec_schema_features_linux_seccomp _ _
                true (Some 11%positive) 2 (Some 14%positive) 1 None 0 None 0 None 0
                (Some 16%positive) true));
          (11%positive, Mem.Bcells [Some 12%positive; Some 13%positive; None]);
          (12%positive, Mem.Bchars "SCMP_ACT_ALLOW");
          (13%positive, Mem.Bchars "SCMP_ACT_KILL");
          (14%positive, Mem.Bcells [Some 15%positive; None]);
          (15%positive, Mem.Bchars "SCMP_CMP_EQ");
          (16%positive, Mem.Btree (Yobject [(Some "extra", Some Ynull)]));
          (20%positive,
           Mem.Bzos {| type := Some 21%positive; path := Some 22%positive;
                       ZosNs._residual := None |});
          (21%positive, Mem.Bchars "pid");
          (22%positive, Mem.Bchars "/proc/1/ns/pid");
          (30%positive,
           Mem.Bmount_extensions
             {| MountExtensions.idmap := Some 31%positive;
                MountExtensions._residual := None |});
          (31%positive,
           Mem.Bidmap {| Idmap.enabled := true; Idmap._residual := None;
                         Idmap.enabled_present := true |})];
     Mem.oracle := [] |}.

End Statements.
Export Statements.

(* ===================================================================== *)
(** ** Nested records *)
(* ===================================================================== *)

Module Nested.

(** A nested [make_*] is handed the node that [get_val] returned, which
    the object still holds: what the call does to the node is seen in the
    object.  [put_val tree name v] is [tree] with [v] in the slot that
    [get_val] reads for [name], the first whose key is [name]. *)
Fixpoint put_slot (name : string) (v : option yajl_val) (slots : list slot) : list slot :=
  match slots with
  | [] => []
  | (Some k, x) :: rest =>
      if c_true (strcmp name k) then (Some k, x) :: put_slot name v rest
      else (Some k, v) :: rest
  | (None, x) :: rest => (None, x) :: rest
  end.

Definition put_val (tree : yajl_val) (name : string) (v : option yajl_val) : yajl_val :=
  match tree with
  | Yobject slots => Yobject (put_slot name v slots)
  | _ => tree
  end.

(** What a [make_*] has done so far, besides filling the record: the
    source tree as it is now, the lines written to [ctx->errfile], and
    [*err] (every nested [make_*] starts by clearing it). *)
Record progress : Type := {
  tree_now : yajl_val;
  written_now : list string;
  err_now : parser_error
}.

(** A member that is a nested record.
<<
    ret->f = make_f (get_val (tree, name, yajl_t_object), ctx, err);
    if (ret->f == NULL && *err != 0)
      return NULL;
>>
    [rest] is the code that follows, given [ret->f]. *)
Definition make_nested {S R : Type}
    (make_f : option yajl_val -> parser_context -> option (made S))
    (name : string) (ctx : parser_context) (st : progress)
    (rest : option S -> progress -> option (made R)) : option (made R) :=
  sub ← get_val (tree_now st) name yajl_t_object;
  m ← make_f sub ctx;
  let st' :=
    {| tree_now := match sub with
                   | Some _ => put_val (tree_now st) name (tree_after m)
                   | None => tree_now st
                   end;
       written_now := written_now st ++ written m;
       err_now := err m |} in
  if negb (non_null (ret m)) && non_null (err m)
  then Some (Made None (err m) (Some (tree_now st')) (written_now st'))
  else rest (ret m) st'.

(** The end of a [make_*] with nested members: the closing loop over the
    keys of the tree, the warning and the residual. *)
Definition make_close {R : Type} (unknown : string -> bool) (ctx : parser_context)
    (record : option yajl_val -> R) (st : progress) : option (made R) :=
  match tree_now st with
  | Yobject slots =>
      '(src, resi, j) ← residual_loop unknown (opt ctx OPT_PARSE_FULLKEY) slots;
      Some (Made
              (Some (record (if opt ctx OPT_PARSE_FULLKEY
                             then Some (Yobject resi) else None)))
              (err_now st)
              (Some (Yobject src))
              (written_now st ++ warn_unknown ctx j))
  | t => Some (Made (Some (record None)) (err_now st) (Some t) (written_now st))
  end.

(** A member that is a nested record, in a [gen_*].
<<
    if ((ctx->options & OPT_GEN_KEY_VALUE) || (ptr != NULL && ptr->f != NULL)) {
        stat = yajl_gen_string (g, name, strlen (name));
        stat = gen_f (g, ptr != NULL ? ptr->f : NULL, ctx, err);
    }
>> *)
Definition gen_nested_member {R S : Type} (ctx : parser_context) (name : string)
    (ptr : option R) (f : R -> option S)
    (gen_f : yajl_gen -> option S -> parser_context -> gen_outcome)
    (g : yajl_gen) : gen_outcome :=
  if opt ctx OPT_GEN_KEY_VALUE
     || match ptr with Some r => non_null (f r) | None => false end
  then
    yajl_gen_string name g
    >>> (fun g => gen_f g (match ptr with Some r => f r | None => None end) ctx)
  else GenOk g.

End Nested.
Export Nested.

(* ===================================================================== *)
(** ** features-linux: the records with the one member "enabled" *)
(* ===================================================================== *)

Module EnabledOnly.

(** apparmor, selinux, intel_rdt, mount_extensions_idmap and net_devices
    are generated from the same shape: the code of their [make_*] and
    [gen_*] is the same text but for the name of the type.  [build] is the
    record with its three members, [enabled], [_residual] and
    [enabled_present]. *)
Definition unknown_key (k : string) : bool := c_true (strcmp k "enabled").

Definition make_enabled {R : Type} (build : bool -> option yajl_val -> bool -> R)
    (tree : option yajl_val) (ctx : parser_context) : option (made R) :=
  match tree with
  | None => Some (Made None None None [])
  | Some t =>
      '(b, p) ← make_bool t "enabled";
      match t with
      | Yobject slots =>
          '(src, resi, j) ← residual_loop unknown_key (opt ctx OPT_PARSE_FULLKEY) slots;
          Some (Made
                  (Some (build b (if opt ctx OPT_PARSE_FULLKEY
                                  then Some (Yobject resi) else None) p))
                  None
                  (Some (Yobject src))
                  (warn_unknown ctx j))
      | _ => Some (Made (Some (build b None p)) None (Some t) [])
      end
  end.

Definition gen_enabled {R : Type} (enabled enabled_present : R -> bool)
    (_residual : R -> option yajl_val)
    (g : yajl_gen) (ptr : option R) (ctx : parser_context) : gen_outcome :=
  yajl_gen_map_open g
  >>> gen_bool_member ctx "enabled" ptr enabled enabled_present
  >>> gen_residual ptr _residual
  >>> yajl_gen_map_close.

End EnabledOnly.

Module Apparmor.

(** [runtime_spec_schema_features_linux_apparmor]. *)
Record runtime_spec_schema_features_linux_apparmor : Type := {
  enabled : bool;
  _residual : option yajl_val;
  enabled_present : bool
}.

Definition make_runtime_spec_schema_features_linux_apparmor
  : option yajl_val -> parser_context
    -> option (made runtime_spec_schema_features_linux_apparmor) :=
  EnabledOnly.make_enabled Build_runtime_spec_schema_features_linux_apparmor.

Definition gen_runtime_spec_schema_features_linux_apparmor
  : yajl_gen -> option runtime_spec_schema_features_linux_apparmor
    -> parser_context -> gen_outcome :=
  EnabledOnly.gen_enabled enabled enabled_present _residual.

End Apparmor.

Module Selinux.

(** [runtime_spec_schema_features_linux_selinux]. *)
Record runtime_spec_schema_features_linux_selinux : Type := {
  enabled : bool;
  _residual : option yajl_val;
  enabled_present : bool
}.

Definition make_runtime_spec_schema_features_linux_selinux
  : option yajl_val -> parser_context
    -> option (made runtime_spec_schema_features_linux_selinux) :=
  EnabledOnly.make_enabled Build_runtime_spec_schema_features_linux_selinux.

Definition gen_runtime_spec_schema_features_linux_selinux
  : yajl_gen -> option runtime_spec_schema_features_linux_selinux
    -> parser_context -> gen_outcome :=
  EnabledOnly.gen_enabled enabled enabled_present _residual.

End Selinux.

Module IntelRdt.

(** [runtime_spec_schema_features_linux_intel_rdt]. *)
Record runtime_spec_schema_features_linux_intel_rdt : Type := {
  enabled : bool;
  _residual : option yajl_val;
  enabled_present : bool
}.

Definition make_runtime_spec_schema_features_linux_intel_rdt
  : option yajl_val -> parser_context
    -> option (made runtime_spec_schema_features_linux_intel_rdt) :=
  EnabledOnly.make_enabled Build_runtime_spec_schema_features_linux_intel_rdt.

Definition gen_runtime_spec_schema_features_linux_intel_rdt
  : yajl_gen -> option runtime_spec_schema_features_linux_intel_rdt
    -> parser_context -> gen_outcome :=
  EnabledOnly.gen_enabled enabled enabled_present _residual.

End IntelRdt.

Module NetDevices.

(** [runtime_spec_schema_features_linux_net_devices]. *)
Record runtime_spec_schema_features_linux_net_devices : Type := {
  enabled : bool;
  _residual : option yajl_val;
  enabled_present : bool
}.

Definition make_runtime_spec_schema_features_linux_net_devices
  : option yajl_val -> parser_context
    -> option (made runtime_spec_schema_features_linux_net_devices) :=
  EnabledOnly.make_enabled Build_runtime_spec_schema_features_linux_net_devices.

Definition gen_runtime_spec_schema_features_linux_net_devices
  : yajl_gen -> option runtime_spec_schema_features_linux_net_devices
    -> parser_context -> gen_outcome :=
  EnabledOnly.gen_enabled enabled enabled_present _residual.

End NetDevices.

(* ===================================================================== *)
(** ** features-linux: decoding and encoding mount_extensions *)
(* ===================================================================== *)

Module MountExtensionsCode.

Definition make_runtime_spec_schema_features_linux_mount_extensions_idmap
  : option yajl_val -> parser_context -> option (made idmap) :=
  EnabledOnly.make_enabled
    (Idmap.Build_runtime_spec_schema_features_linux_mount_extensions_idmap yajl_val).

Definition gen_runtime_spec_schema_features_linux_mount_extensions_idmap
  : yajl_gen -> option idmap -> parser_context -> gen_outcome :=
  EnabledOnly.gen_enabled Idmap.enabled Idmap.enabled_present Idmap._residual.

Definition unknown_key (k : string) : bool := c_true (strcmp k "idmap").

Definition make_runtime_spec_schema_features_linux_mount_extensions
    (tree : option yajl_val) (ctx : parser_context) : option (made mount_extensions) :=
  match tree with
  | None => Some (Made None None None [])
  | Some t =>
      make_nested make_runtime_spec_schema_features_linux_mount_extensions_idmap
        "idmap" ctx {| tree_now := t; written_now := []; err_now := None |}
        (fun i =>
           make_close unknown_key ctx
             (fun resi => {| MountExtensions.idmap := i;
                             MountExtensions._residual := resi |}))
  end.

Definition gen_runtime_spec_schema_features_linux_mount_extensions
    (g : yajl_gen) (ptr : option mount_extensions) (ctx : parser_context)
  : gen_outcome :=
  yajl_gen_map_open g
  >>> gen_nested_member ctx "idmap" ptr MountExtensions.idmap
        gen_runtime_spec_schema_features_linux_mount_extensions_idmap
  >>> gen_residual ptr MountExtensions._residual
  >>> yajl_gen_map_close.

End MountExtensionsCode.

(* ===================================================================== *)
(** ** features-linux: the record of all features *)
(* ===================================================================== *)

Module FeaturesLinux.

(** [runtime_spec_schema_features_linux]: two arrays of strings and seven
    nested records. *)
Record runtime_spec_schema_features_linux : Type := {
  namespaces : option (list (option string));
  namespaces_len : nat;
  capabilities : option (list (option string));
  capabilities_len : nat;
  cgroup : option Cgroup.cgroup;
  seccomp : option Seccomp.seccomp;
  apparmor : option Apparmor.runtime_spec_schema_features_linux_apparmor;
  selinux : option Selinux.runtime_spec_schema_features_linux_selinux;
  intel_rdt : option IntelRdt.runtime_spec_schema_features_linux_intel_rdt;
  mount_extensions : option mount_extensions;
  net_devices : option NetDevices.runtime_spec_schema_features_linux_net_devices;
  _residual : option yajl_val
}.

Definition unknown_key (k : string) : bool :=
  c_true (strcmp k "namespaces")
  && c_true (strcmp k "capabilities")
  && c_true (strcmp k "cgroup")
  && c_true (strcmp k "seccomp")
  && c_true (strcmp k "apparmor")
  && c_true (strcmp k "selinux")
  && c_true (strcmp k "intelRdt")
  && c_true (strcmp k "mountExtensions")
  && c_true (strcmp k "netDevices").

Definition make_runtime_spec_schema_features_linux
    (tree : option yajl_val) (ctx : parser_context)
  : option (made runtime_spec_schema_features_linux) :=
  match tree with
  | None => Some (Made None None None [])
  | Some t =>
      '(a1, n1) ← make_string_array t "namespaces";
      '(a2, n2) ← make_string_array t "capabilities";
      make_nested Cgroup.make_runtime_spec_schema_features_linux_cgroup "cgroup" ctx
        {| tree_now := t; written_now := []; err_now := None |} (fun f1 st =>
      make_nested Seccomp.make_runtime_spec_schema_features_linux_seccomp "seccomp" ctx
        st (fun f2 st =>
      make_nested Apparmor.make_runtime_spec_schema_features_linux_apparmor "apparmor" ctx
        st (fun f3 st =>
      make_nested Selinux.make_runtime_spec_schema_features_linux_selinux "selinux" ctx
        st (fun f4 st =>
      make_nested IntelRdt.make_runtime_spec_schema_features_linux_intel_rdt "intelRdt" ctx
        st (fun f5 st =>
      make_nested MountExtensionsCode.make_runtime_spec_schema_features_linux_mount_extensions
        "mountExtensions" ctx st (fun f6 st =>
      make_nested NetDevices.make_runtime_spec_schema_features_linux_net_devices
        "netDevices" ctx st (fun f7 st =>
      make_close unknown_key ctx
        (fun resi =>
           {| namespaces := a1; namespaces_len := n1;
              capabilities := a2; capabilities_len := n2;
              cgroup := f1; seccomp := f2; apparmor := f3; selinux := f4;
              intel_rdt := f5; mount_extensions := f6; net_devices := f7;
              _residual := resi |}) st)))))))
  end.

Definition gen_runtime_spec_schema_features_linux
    (g : yajl_gen) (ptr : option runtime_spec_schema_features_linux)
    (ctx : parser_context) : gen_outcome :=
  yajl_gen_map_open g
  >>> gen_string_array_member ctx "namespaces" ptr namespaces namespaces_len
  >>> gen_string_array_member ctx "capabilities" ptr capabilities capabilities_len
  >>> gen_nested_member ctx "cgroup" ptr cgroup
        Cgroup.gen_runtime_spec_schema_features_linux_cgroup
  >>> gen_nested_member ctx "seccomp" ptr seccomp
        Seccomp.gen_runtime_spec_schema_features_linux_seccomp
  >>> gen_nested_member ctx "apparmor" ptr apparmor
        Apparmor.gen_runtime_spec_schema_features_linux_apparmor
  >>> gen_nested_member ctx "selinux" ptr selinux
        Selinux.gen_runtime_spec_schema_features_linux_selinux
  >>> gen_nested_member ctx "intelRdt" ptr intel_rdt
        IntelRdt.gen_runtime_spec_schema_features_linux_intel_rdt
  >>> gen_nested_member ctx "mountExtensions" ptr mount_extensions
        MountExtensionsCode.gen_runtime_spec_schema_features_linux_mount_extensions
  >>> gen_nested_member ctx "netDevices" ptr net_devices
        NetDevices.gen_runtime_spec_schema_features_linux_net_devices
  >>> gen_residual ptr _residual
  >>> yajl_gen_map_close.

End FeaturesLinux.

(* ===================================================================== *)
(** ** What a parsed object decodes to *)
(* ===================================================================== *)

Module Decoded.

Import Cgroup ZosNs.

(** The closing loop under OPT_PARSE_FULLKEY: the slots it moves to the
    residual, and the slots it leaves in the source. *)
Definition moved (unknown : string -> bool) (slots : list slot) : list slot :=
  List.filter (slot_unknown unknown) slots.

Definition nulled (unknown : string -> bool) (slots : list slot) : list slot :=
  map (fun s => if slot_unknown unknown s then (None, None) else s) slots.

Definition residual_of (unknown : string -> bool) (fullkey : bool) (slots : list slot)
  : option yajl_val :=
  if fullkey then Some (Yobject (moved unknown slots)) else None.

Definition source_after (unknown : string -> bool) (fullkey : bool) (slots : list slot)
  : list slot :=
  if fullkey then nulled unknown slots else slots.

(** An array-of-strings member and its length, read off the first value
    the object stores under the name. *)
Definition string_array_field (name : string) (slots : list slot)
  : option (list (option string)) * nat :=
  match member name slots with
  | Some (Yarray vs) => (Some (map make_string_cell vs ++ [None]), length vs)
  | _ => (None, O)
  end.

(** The string an array element decodes to: its content, or the empty
    string for an element that is not a string. *)
Definition string_of_element (v : yajl_val) : string :=
  match v with
  | Ystring s => s
  | _ => EmptyString
  end.

(** The strings of the array the object stores under the name. *)
Definition strings_field (name : string) (slots : list slot) : option (list string) :=
  match member name slots with
  | Some (Yarray vs) => Some (map string_of_element (omap id vs))
  | _ => None
  end.

Definition decoded_seccomp (slots : list slot) (fullkey : bool) : Seccomp.seccomp :=
  {| Seccomp.enabled := default_bool (bool_field "enabled" slots);
     Seccomp.actions := fst (string_array_field "actions" slots);
     Seccomp.actions_len := snd (string_array_field "actions" slots);
     Seccomp.operators := fst (string_array_field "operators" slots);
     Seccomp.operators_len := snd (string_array_field "operators" slots);
     Seccomp.archs := fst (string_array_field "archs" slots);
     Seccomp.archs_len := snd (string_array_field "archs" slots);
     Seccomp.known_flags := fst (string_array_field "knownFlags" slots);
     Seccomp.known_flags_len := snd (string_array_field "knownFlags" slots);
     Seccomp.supported_flags := fst (string_array_field "supportedFlags" slots);
     Seccomp.supported_flags_len := snd (string_array_field "supportedFlags" slots);
     Seccomp._residual := residual_of Seccomp.unknown_key fullkey slots;
     Seccomp.enabled_present := non_null (bool_field "enabled" slots) |}.

Definition decoded_zos (slots : list slot) (fullkey : bool) : namespace_reference :=
  {| type := string_field "type" slots;
     path := string_field "path" slots;
     ZosNs._residual := residual_of ZosNs.unknown_key fullkey slots |}.

(** The array members of seccomp: wire name, pointer, length. *)
Definition seccomp_arrays
  : list (string
          * (Seccomp.seccomp -> option (list (option string)))
          * (Seccomp.seccomp -> nat)) :=
  [("actions", Seccomp.actions, Seccomp.actions_len);
   ("operators", Seccomp.operators, Seccomp.operators_len);
   ("archs", Seccomp.archs, Seccomp.archs_len);
   ("knownFlags", Seccomp.known_flags, Seccomp.known_flags_len);
   ("supportedFlags", Seccomp.supported_flags, Seccomp.supported_flags_len)].

(** The slots of a tree that is an object; a tree that is not has none. *)
Definition is_object (t : yajl_val) : bool :=
  match t with Yobject _ => true | _ => false end.

Definition object_slots (t : yajl_val) : list slot :=
  match t with Yobject slots => slots | _ => [] end.

(** *** Decoding and encoding again *)

(** [encode (decode T)]: the document denoted by what [gen_*] emits for
    the record [make_*] returns. *)
Definition decode_then_encode {R : Type}
    (make : option yajl_val -> parser_context -> option (made R))
    (gen : yajl_gen -> option R -> parser_context -> gen_outcome)
    (T : yajl_val) (dctx gctx : parser_context) : option yajl_val :=
  m ← make (Some T) dctx;
  match gen {| calls := []; room := None |} (ret m) gctx with
  | GenOk g => document_of (calls g)
  | _ => None
  end.

(** The entry written for a known member: none for an absent one unless
    OPT_GEN_KEY_VALUE is set, and then the zero value of its type. *)
Definition bool_entry (ctx : parser_context) (name : string) (field : option bool)
  : list slot :=
  if opt ctx OPT_GEN_KEY_VALUE || non_null field
  then [(Some name, Some (yajl_of_bool (default_bool field)))]
  else [].

Definition string_entry (ctx : parser_context) (name : string) (field : option string)
  : list slot :=
  if opt ctx OPT_GEN_KEY_VALUE || non_null field
  then [(Some name, Some (Ystring (default_string field)))]
  else [].

Definition strings_entry (ctx : parser_context) (name : string)
    (field : option (list string)) : list slot :=
  if opt ctx OPT_GEN_KEY_VALUE || non_null field
  then [(Some name, Some (Yarray (map (fun s => Some (Ystring s)) (default_array field))))]
  else [].

(** The entries written for the residual. *)
Definition residual_entries (unknown : string -> bool) (fullkey : bool)
    (slots : list slot) : list slot :=
  if fullkey then moved unknown slots else [].

(** The members of the document written for what a parsed object decodes
    to, in the order they are written. *)
Definition zos_written (slots : list slot) (dctx gctx : parser_context) : list slot :=
  match string_field "type" slots with
  | Some _ =>
      string_entry gctx "type" (string_field "type" slots)
      ++ string_entry gctx "path" (string_field "path" slots)
      ++ residual_entries ZosNs.unknown_key (opt dctx OPT_PARSE_FULLKEY) slots
  | None =>
      string_entry gctx "type" None ++ string_entry gctx "path" None
  end.

Definition seccomp_written (slots : list slot) (dctx gctx : parser_context) : list slot :=
  bool_entry gctx "enabled" (bool_field "enabled" slots)
  ++ strings_entry gctx "actions" (strings_field "actions" slots)
  ++ strings_entry gctx "operators" (strings_field "operators" slots)
  ++ strings_entry gctx "archs" (strings_field "archs" slots)
  ++ strings_entry gctx "knownFlags" (strings_field "knownFlags" slots)
  ++ strings_entry gctx "supportedFlags" (strings_field "supportedFlags" slots)
  ++ residual_entries Seccomp.unknown_key (opt dctx OPT_PARSE_FULLKEY) slots.

Definition cgroup_written (slots : list slot) (dctx gctx : parser_context) : list slot :=
  bool_entry gctx "v1" (bool_field "v1" slots)
  ++ bool_entry gctx "v2" (bool_field "v2" slots)
  ++ bool_entry gctx "systemd" (bool_field "systemd" slots)
  ++ bool_entry gctx "systemdUser" (bool_field "systemdUser" slots)
  ++ bool_entry gctx "rdma" (bool_field "rdma" slots)
  ++ residual_entries Cgroup.unknown_key (opt dctx OPT_PARSE_FULLKEY) slots.

(** The calls [cs], read inside an open object, add the entries [es] to
    it. *)
Definition reads_as (cs : list gen_call) (es : list slot) : Prop :=
  forall rest done st,
    read_calls (cs ++ rest) (Fobject done None :: st)
    = read_calls rest (Fobject (rev es ++ done) None :: st).

(** The calls [cs] denote the value [v]: read where a value is due, they
    deliver [v] there. *)
Definition reads_value (cs : list gen_call) (v : yajl_val) : Prop :=
  forall rest stack stack',
    push_value v stack = Some stack' ->
    read_calls (cs ++ rest) stack = read_calls rest stack'.

(** The calls [cs], read inside an open object, add the entries [es] to
    it and close it. *)
Definition closes_as (cs : list gen_call) (es : list slot) : Prop :=
  forall rest done stack stack',
    push_value (Yobject (rev done ++ es)) stack = Some stack' ->
    read_calls (cs ++ rest) (Fobject done None :: stack) = read_calls rest stack'.

(** *** An emitter that fails *)

(** The calls an emitter counts against its [room]: all but those that
    configure it. *)
Definition counted (c : gen_call) : bool :=
  match c with call_config_beautify _ => false | _ => true end.

Definition cost (cs : list gen_call) : nat := length (List.filter counted cs).

(** The calls of [cs] that an emitter with room for [n] receives before
    the one it fails on. *)
Fixpoint taken (n : nat) (cs : list gen_call) : list gen_call :=
  match cs with
  | [] => []
  | c :: rest =>
      if counted c
      then match n with
           | O => []
           | S n' => c :: taken n' rest
           end
      else c :: taken n rest
  end.

(** Handing the calls [cs] to the emitter one by one, up to the first that
    fails. *)
Fixpoint feed (cs : list gen_call) (g : yajl_gen) : gen_outcome :=
  match cs with
  | [] => GenOk g
  | c :: rest =>
      (if counted c then emit c g
       else GenOk {| calls := calls g ++ [c]; room := room g |})
      >>> feed rest
  end.

(** A step that hands the calls [cs] to the emitter, whatever its room. *)
Definition runs (step : yajl_gen -> gen_outcome) (cs : list gen_call) : Prop :=
  forall g, step g = feed cs g.

(** What handing [cs] to an emitter with room for [n] comes to: all of
    [cs] is received when there is room for it; otherwise the emitter is
    left in error after the calls it took. *)
Definition bounded_outcome (g : yajl_gen) (n : nat) (cs : list gen_call) : gen_outcome :=
  if (cost cs <=? n)%nat
  then GenOk {| calls := calls g ++ cs; room := Some (n - cost cs)%nat |}
  else GenError yajl_gen_in_error_state
         {| calls := calls g ++ taken n cs; room := Some O |}.

(** What handing [cs] to an emitter comes to, whatever its room. *)
Definition emitter_outcome (g : yajl_gen) (cs : list gen_call) : gen_outcome :=
  match room g with
  | None => GenOk (extend g cs)
  | Some n => bounded_outcome g n cs
  end.

End Decoded.
Export Decoded.
(* ===================================================================== *)
(** ** What a parsed object with nested records decodes to *)
(* ===================================================================== *)

Module DecodedNested.

Import Cgroup ZosNs.

(** *** The records with the one member "enabled" *)

Definition decoded_enabled {R : Type} (build : bool -> option yajl_val -> bool -> R)
    (slots : list slot) (fullkey : bool) : R :=
  build (default_bool (bool_field "enabled" slots))
        (residual_of EnabledOnly.unknown_key fullkey slots)
        (non_null (bool_field "enabled" slots)).

Definition enabled_ok {R : Type} (enabled enabled_present : R -> bool)
    (_residual : R -> option yajl_val) (ptr : option R) : bool :=
  match ptr with
  | None => true
  | Some r => zero_when_absent enabled enabled_present r && residual_ok (_residual r)
  end.

Definition enabled_calls {R : Type} (enabled enabled_present : R -> bool)
    (_residual : R -> option yajl_val) (ctx : parser_context) (ptr : option R)
  : list gen_call :=
  [call_map_open]
  ++ bool_member_calls ctx "enabled" (ptr ≫= tri_state enabled enabled_present)
  ++ residual_calls (ptr ≫= _residual)
  ++ [call_map_close].

Definition enabled_written (slots : list slot) (dctx gctx : parser_context) : list slot :=
  bool_entry gctx "enabled" (bool_field "enabled" slots)
  ++ residual_entries EnabledOnly.unknown_key (opt dctx OPT_PARSE_FULLKEY) slots.

(** *** Nested members *)

(** The slots of the object stored first under the name, when the first
    value under the name is an object. *)
Definition nested_slots (name : string) (slots : list slot) : option (list slot) :=
  match member name slots with
  | Some (Yobject s) => Some s
  | _ => None
  end.

(** The object after the nested [make_*] has run on the member: the
    member's slots are as that call left them. *)
Definition nested_after (name : string) (after : list slot -> list slot)
    (slots : list slot) : list slot :=
  match nested_slots name slots with
  | Some s => put_slot name (Some (Yobject (after s))) slots
  | None => slots
  end.

(** The warning of a closing loop over the slots [s]. *)
Definition unknown_warning (ctx : parser_context) (unknown : string -> bool)
    (s : list slot) : list string :=
  warn_unknown ctx (length (moved unknown s)).

(** The warnings of the nested [make_*] for the member. *)
Definition nested_warnings (name : string) (warn : list slot -> list string)
    (slots : list slot) : list string :=
  match nested_slots name slots with
  | Some s => warn s
  | None => []
  end.

Definition nested_calls {S : Type} (ctx : parser_context) (name : string)
    (field : option S) (calls_f : parser_context -> option S -> list gen_call)
  : list gen_call :=
  if opt ctx OPT_GEN_KEY_VALUE || non_null field
  then [call_string name] ++ calls_f ctx field
  else [].

(** The entry written for a nested member: none for an absent one unless
    OPT_GEN_KEY_VALUE is set, and then what is written for an object
    without members. *)
Definition nested_entry (ctx : parser_context) (name : string)
    (sub : option (list slot)) (written_f : list slot -> list slot) : list slot :=
  if opt ctx OPT_GEN_KEY_VALUE || non_null sub
  then [(Some name, Some (Yobject (written_f (default [] sub))))]
  else [].

(** The nested member [field] is what [make_f] returns for the first value
    under [name] when that value is an object; it is NULL when the key is
    missing or holds anything else. *)
Definition decoded_by {S : Type}
    (make_f : option yajl_val -> parser_context -> option (made S))
    (ctx : parser_context) (name : string) (slots : list slot) (field : option S)
  : Prop :=
  match member name slots with
  | Some (Yobject s) =>
      exists m x,
        make_f (Some (Yobject s)) ctx = Some m /\ ret m = Some x /\ field = Some x
  | _ => field = None
  end.

(** *** mount_extensions *)

Definition decoded_idmap (slots : list slot) (fullkey : bool) : idmap :=
  decoded_enabled
    (Idmap.Build_runtime_spec_schema_features_linux_mount_extensions_idmap yajl_val)
    slots fullkey.

Definition idmap_ok : option idmap -> bool :=
  enabled_ok Idmap.enabled Idmap.enabled_present Idmap._residual.

Definition idmap_calls : parser_context -> option idmap -> list gen_call :=
  enabled_calls Idmap.enabled Idmap.enabled_present Idmap._residual.

Definition decoded_mount_extensions (slots : list slot) (fullkey : bool)
  : mount_extensions :=
  {| MountExtensions.idmap :=
       (fun s => decoded_idmap s fullkey) <$> nested_slots "idmap" slots;
     MountExtensions._residual :=
       residual_of MountExtensionsCode.unknown_key fullkey slots |}.

Definition mount_extensions_after (slots : list slot) (fullkey : bool) : list slot :=
  source_after MountExtensionsCode.unknown_key fullkey
    (nested_after "idmap" (source_after EnabledOnly.unknown_key fullkey) slots).

Definition mount_extensions_warnings (ctx : parser_context) (slots : list slot)
  : list string :=
  nested_warnings "idmap" (unknown_warning ctx EnabledOnly.unknown_key) slots
  ++ unknown_warning ctx MountExtensionsCode.unknown_key slots.

Definition mount_extensions_ok (ptr : option mount_extensions) : bool :=
  match ptr with
  | None => true
  | Some r =>
      idmap_ok (MountExtensions.idmap r) && residual_ok (MountExtensions._residual r)
  end.

Definition mount_extensions_calls (ctx : parser_context) (ptr : option mount_extensions)
  : list gen_call :=
  [call_map_open]
  ++ nested_calls ctx "idmap" (ptr ≫= MountExtensions.idmap) idmap_calls
  ++ residual_calls (ptr ≫= MountExtensions._residual)
  ++ [call_map_close].

Definition mount_extensions_written (slots : list slot) (dctx gctx : parser_context)
  : list slot :=
  nested_entry gctx "idmap" (nested_slots "idmap" slots)
    (fun s => enabled_written s dctx gctx)
  ++ residual_entries MountExtensionsCode.unknown_key (opt dctx OPT_PARSE_FULLKEY) slots.

(** *** The record of all features *)

Import FeaturesLinux.

Definition decoded_apparmor (slots : list slot) (fullkey : bool) :=
  decoded_enabled Apparmor.Build_runtime_spec_schema_features_linux_apparmor
    slots fullkey.
Definition decoded_selinux (slots : list slot) (fullkey : bool) :=
  decoded_enabled Selinux.Build_runtime_spec_schema_features_linux_selinux
    slots fullkey.
Definition decoded_intel_rdt (slots : list slot) (fullkey : bool) :=
  decoded_enabled IntelRdt.Build_runtime_spec_schema_features_linux_intel_rdt
    slots fullkey.
Definition decoded_net_devices (slots : list slot) (fullkey : bool) :=
  decoded_enabled NetDevices.Build_runtime_spec_schema_features_linux_net_devices
    slots fullkey.

Definition apparmor_ok :=
  enabled_ok Apparmor.enabled Apparmor.enabled_present Apparmor._residual.
Definition selinux_ok :=
  enabled_ok Selinux.enabled Selinux.enabled_present Selinux._residual.
Definition intel_rdt_ok :=
  enabled_ok IntelRdt.enabled IntelRdt.enabled_present IntelRdt._residual.
Definition net_devices_ok :=
  enabled_ok NetDevices.enabled NetDevices.enabled_present NetDevices._residual.

Definition apparmor_calls :=
  enabled_calls Apparmor.enabled Apparmor.enabled_present Apparmor._residual.
Definition selinux_calls :=
  enabled_calls Selinux.enabled Selinux.enabled_present Selinux._residual.
Definition intel_rdt_calls :=
  enabled_calls IntelRdt.enabled IntelRdt.enabled_present IntelRdt._residual.
Definition net_devices_calls :=
  enabled_calls NetDevices.enabled NetDevices.enabled_present NetDevices._residual.

Definition decoded_features (slots : list slot) (fullkey : bool)
  : runtime_spec_schema_features_linux :=
  {| namespaces := fst (string_array_field "namespaces" slots);
     namespaces_len := snd (string_array_field "namespaces" slots);
     capabilities := fst (string_array_field "capabilities" slots);
     capabilities_len := snd (string_array_field "capabilities" slots);
     cgroup := (fun s => decoded_cgroup s fullkey) <$> nested_slots "cgroup" slots;
     seccomp := (fun s => decoded_seccomp s fullkey) <$> nested_slots "seccomp" slots;
     apparmor := (fun s => decoded_apparmor s fullkey) <$> nested_slots "apparmor" slots;
     selinux := (fun s => decoded_selinux s fullkey) <$> nested_slots "selinux" slots;
     intel_rdt :=
       (fun s => decoded_intel_rdt s fullkey) <$> nested_slots "intelRdt" slots;
     mount_extensions :=
       (fun s => decoded_mount_extensions s fullkey)
         <$> nested_slots "mountExtensions" slots;
     net_devices :=
       (fun s => decoded_net_devices s fullkey) <$> nested_slots "netDevices" slots;
     _residual := residual_of FeaturesLinux.unknown_key fullkey slots |}.

(** The source object after decoding: every nested object as its own
    [make_*] left it, then the closing loop of the object itself. *)
Definition features_after (slots : list slot) (fullkey : bool) : list slot :=
  source_after FeaturesLinux.unknown_key fullkey
    (nested_after "netDevices" (source_after EnabledOnly.unknown_key fullkey)
    (nested_after "mountExtensions" (fun s => mount_extensions_after s fullkey)
    (nested_after "intelRdt" (source_after EnabledOnly.unknown_key fullkey)
    (nested_after "selinux" (source_after EnabledOnly.unknown_key fullkey)
    (nested_after "apparmor" (source_after EnabledOnly.unknown_key fullkey)
    (nested_after "seccomp" (source_after Seccomp.unknown_key fullkey)
    (nested_after "cgroup" (source_after Cgroup.unknown_key fullkey) slots))))))).

(** The warnings of decoding: those of the nested records in the order
    they are decoded, then the one of the object itself. *)
Definition features_warnings (ctx : parser_context) (slots : list slot) : list string :=
  nested_warnings "cgroup" (unknown_warning ctx Cgroup.unknown_key) slots
  ++ nested_warnings "seccomp" (unknown_warning ctx Seccomp.unknown_key) slots
  ++ nested_warnings "apparmor" (unknown_warning ctx EnabledOnly.unknown_key) slots
  ++ nested_warnings "selinux" (unknown_warning ctx EnabledOnly.unknown_key) slots
  ++ nested_warnings "intelRdt" (unknown_warning ctx EnabledOnly.unknown_key) slots
  ++ nested_warnings "mountExtensions" (mount_extensions_warnings ctx) slots
  ++ nested_warnings "netDevices" (unknown_warning ctx EnabledOnly.unknown_key) slots
  ++ unknown_warning ctx FeaturesLinux.unknown_key slots.

Definition features_ok (ptr : option runtime_spec_schema_features_linux) : bool :=
  match ptr with
  | None => true
  | Some r =>
      array_ok (namespaces r) (namespaces_len r)
      && array_ok (capabilities r) (capabilities_len r)
      && cgroup_ok (cgroup r)
      && seccomp_ok (seccomp r)
      && apparmor_ok (apparmor r)
      && selinux_ok (selinux r)
      && intel_rdt_ok (intel_rdt r)
      && mount_extensions_ok (mount_extensions r)
      && net_devices_ok (net_devices r)
      && residual_ok (_residual r)
  end.

Definition features_calls (ctx : parser_context)
    (ptr : option runtime_spec_schema_features_linux) : list gen_call :=
  [call_map_open]
  ++ array_member_calls ctx "namespaces"
       (ptr ≫= fun r => array_state (namespaces r) (namespaces_len r))
  ++ array_member_calls ctx "capabilities"
       (ptr ≫= fun r => array_state (capabilities r) (capabilities_len r))
  ++ nested_calls ctx "cgroup" (ptr ≫= cgroup) cgroup_calls
  ++ nested_calls ctx "seccomp" (ptr ≫= seccomp) seccomp_calls
  ++ nested_calls ctx "apparmor" (ptr ≫= apparmor) apparmor_calls
  ++ nested_calls ctx "selinux" (ptr ≫= selinux) selinux_calls
  ++ nested_calls ctx "intelRdt" (ptr ≫= intel_rdt) intel_rdt_calls
  ++ nested_calls ctx "mountExtensions" (ptr ≫= mount_extensions) mount_extensions_calls
  ++ nested_calls ctx "netDevices" (ptr ≫= net_devices) net_devices_calls
  ++ residual_calls (ptr ≫= _residual)
  ++ [call_map_close].

Definition features_written (slots : list slot) (dctx gctx : parser_context) : list slot :=
  strings_entry gctx "namespaces" (strings_field "namespaces" slots)
  ++ strings_entry gctx "capabilities" (strings_field "capabilities" slots)
  ++ nested_entry gctx "cgroup" (nested_slots "cgroup" slots)
       (fun s => cgroup_written s dctx gctx)
  ++ nested_entry gctx "seccomp" (nested_slots "seccomp" slots)
       (fun s => seccomp_written s dctx gctx)
  ++ nested_entry gctx "apparmor" (nested_slots "apparmor" slots)
       (fun s => enabled_written s dctx gctx)
  ++ nested_entry gctx "selinux" (nested_slots "selinux" slots)
       (fun s => enabled_written s dctx gctx)
  ++ nested_entry gctx "intelRdt" (nested_slots "intelRdt" slots)
       (fun s => enabled_written s dctx gctx)
  ++ nested_entry gctx "mountExtensions" (nested_slots "mountExtensions" slots)
       (fun s => mount_extensions_written s dctx gctx)
  ++ nested_entry gctx "netDevices" (nested_slots "netDevices" slots)
       (fun s => enabled_written s dctx gctx)
  ++ residual_entries FeaturesLinux.unknown_key (opt dctx OPT_PARSE_FULLKEY) slots.

(** A features object with a nested object at three levels, a key of a
    nested record that holds a string, and unknown keys at every level. *)
Definition example_features : list slot :=
  [(Some "namespaces", Some (Yarray [Some (Ystring "mount"); Some (Ynumber "1")]));
   (Some "cgroup", Some (Yobject [(Some "v1", Some Ytrue); (Some "extra", Some Ynull)]));
   (Some "seccomp", Some (Ystring "yes"));
   (Some "mountExtensions",
    Some (Yobject [(Some "idmap",
                    Some (Yobject [(Some "enabled", Some Ytrue);
                                   (Some "x", Some Yfalse)]))]));
   (Some "apparmor", Some (Yobject [(Some "enabled", Some (Ystring "true"))]));
   (Some "future", Some (Ynumber "2"))].

End DecodedNested.
Export DecodedNested.
(* ===================================================================== *)
(** ** Cloning when an allocation fails *)
(* ===================================================================== *)

Module OutOfMemory.

Import Mem.

(** What a [clone_*] under an allocator that may fail leaves of the
    store.  The call is defined.  When it returns NULL the store holds the
    blocks it held before the call and no other, and the oracle holds a
    failure; when it returns an address, the address was not in use and
    every block the store held before the call is unchanged.  When the
    first allocation fails the result is NULL. *)
Definition clone_frame (clone_record : loc -> mem -> option (option loc * mem))
    (p : loc) (m : mem) : Prop :=
  exists r m',
    clone_record p m = Some (r, m')
    /\ match r with
       | None => heap m' = heap m /\ false ∈ oracle m
       | Some q => heap m !! q = None /\ heap m ⊆ heap m'
       end
    /\ (head (oracle m) = Some false -> r = None).

(** The store [m] with an allocator that follows [o]. *)
Definition with_oracle (o : list bool) (m : mem) : mem :=
  {| heap := heap m; oracle := o |}.

(** The entries of the oracle that a call used up, from the oracle [o]
    before the call to the oracle [o'] after it: a number of entries that
    said success and then, when the call [failed], the one that said
    failure.  A call that fails stops at its first failed allocation. *)
Definition allocations (o o' : list bool) (failed : bool) : Prop :=
  exists n, o = replicate n true ++ (if failed then false :: o' else o').

(** A step that allocates.  Its result [a] says whether it [failed].  The
    step uses the oracle as [allocations] says, and when it does not fail
    it does to the store what it does under the allocator that never
    fails. *)
Definition traced {A : Type} (failed : A -> bool)
    (step : mem -> option (A * mem)) : Prop :=
  forall m a m',
    step m = Some (a, m') ->
    allocations (oracle m) (oracle m') (failed a)
    /\ (failed a = false ->
        step (with_oracle [] m) = Some (a, with_oracle [] m')).

(** A step that writes or releases and does not allocate. *)
Definition quiet (step : mem -> option mem) : Prop :=
  forall m m',
    step m = Some m' ->
    oracle m' = oracle m
    /\ step (with_oracle [] m) = Some (with_oracle [] m').

Definition is_null {A : Type} (p : option A) : bool :=
  match p with
  | Some _ => false
  | None => true
  end.

Section Outcome.

Context {V : Type}.
Variable read : gmap loc block -> loc -> option V.
Variable locs : gmap loc block -> loc -> list loc.
Variable clone_record : loc -> mem -> option (option loc * mem).

(** A [clone_*] of the record at [p], which holds [v], under an allocator
    that may fail.  The call is defined, and its result is one of two.
    NULL: an allocation of this call failed, after [n] that succeeded; the
    oracle left over is what followed the failing entry, and the store
    holds the blocks it held before the call and no other.  A copy at
    [q]: every entry of the oracle the call used said success; the copy
    holds [copy_of v]; [q] was not in use; every block the store held
    before the call is unchanged; and the blocks the copy owns are
    distinct and are exactly what the call added to the store.  When the
    first allocation fails the result is NULL. *)
Definition copy_or_nothing (copy_of : V -> V) (p : loc) (v : V) (m : mem) : Prop :=
  exists r m',
    clone_record p m = Some (r, m')
    /\ match r with
       | None =>
           heap m' = heap m
           /\ exists n, oracle m = replicate n true ++ false :: oracle m'
       | Some q =>
           read (heap m') q = Some (copy_of v)
           /\ heap m !! q = None
           /\ heap m ⊆ heap m'
           /\ NoDup (locs (heap m') q)
           /\ release (locs (heap m') q) (heap m') = heap m
           /\ exists n, oracle m = replicate n true ++ oracle m'
       end
    /\ (head (oracle m) = Some false -> r = None).

End Outcome.

End OutOfMemory.
Export OutOfMemory.
(* ===================================================================== *)
(** ** Encoding a record and decoding what was written *)
(* ===================================================================== *)

Module RecordRoundTrip.

Import Cgroup ZosNs.

(** [decode (encode r)]: what [make_*] returns for the document denoted
    by what [gen_*] emits for the record [r]. *)
Definition encode_then_decode {R : Type}
    (make : option yajl_val -> parser_context -> option (made R))
    (gen : yajl_gen -> option R -> parser_context -> gen_outcome)
    (r : R) (gctx dctx : parser_context) : option (made R) :=
  match gen {| calls := []; room := None |} (Some r) gctx with
  | GenOk g => t ← document_of (calls g); make (Some t) dctx
  | _ => None
  end.

(** The round trip gives the record back, without an error. *)
Definition round_trips {R : Type}
    (make : option yajl_val -> parser_context -> option (made R))
    (gen : yajl_gen -> option R -> parser_context -> gen_outcome)
    (r : R) (gctx dctx : parser_context) : Prop :=
  exists m,
    encode_then_decode make gen r gctx dctx = Some m
    /\ ret m = Some r /\ err m = None.

(** The entries of a residual. *)
Definition residual_slots (resi : option yajl_val) : list slot :=
  match resi with
  | Some (Yobject rs) => rs
  | _ => []
  end.

(** A residual as a decoder with the option [fullkey] builds it: NULL
    without OPT_PARSE_FULLKEY; with it, an object of entries under keys
    that are not members of the record. *)
Definition residual_exact (unknown : string -> bool) (fullkey : bool)
    (resi : option yajl_val) : bool :=
  match resi with
  | None => negb fullkey
  | Some (Yobject rs) =>
      fullkey && parsed (Yobject rs) && forallb (slot_unknown unknown) rs
  | Some _ => false
  end.

(** An array member as a decoder builds it: NULL with length 0, or [len]
    strings in [len + 1] cells, the last one NULL. *)
Definition array_exact (cells : option (list (option string))) (len : nat) : bool :=
  match cells with
  | None => Nat.eqb len 0
  | Some cs =>
      bool_decide (cs = map Some (omap id (take len cs)) ++ [None])
      && Nat.eqb (length cs) (S len)
  end.

(** *** The document of a record *)

Definition cgroup_entries (ctx : parser_context) (ptr : option cgroup) : list slot :=
  bool_entry ctx "v1" (ptr ≫= tri_state v1 v1_present)
  ++ bool_entry ctx "v2" (ptr ≫= tri_state v2 v2_present)
  ++ bool_entry ctx "systemd" (ptr ≫= tri_state systemd systemd_present)
  ++ bool_entry ctx "systemdUser" (ptr ≫= tri_state systemd_user systemd_user_present)
  ++ bool_entry ctx "rdma" (ptr ≫= tri_state rdma rdma_present)
  ++ residual_slots (ptr ≫= Cgroup._residual).

Definition seccomp_entries (ctx : parser_context) (ptr : option Seccomp.seccomp)
  : list slot :=
  bool_entry ctx "enabled" (ptr ≫= tri_state Seccomp.enabled Seccomp.enabled_present)
  ++ strings_entry ctx "actions"
       (ptr ≫= fun r => array_state (Seccomp.actions r) (Seccomp.actions_len r))
  ++ strings_entry ctx "operators"
       (ptr ≫= fun r => array_state (Seccomp.operators r) (Seccomp.operators_len r))
  ++ strings_entry ctx "archs"
       (ptr ≫= fun r => array_state (Seccomp.archs r) (Seccomp.archs_len r))
  ++ strings_entry ctx "knownFlags"
       (ptr ≫= fun r => array_state (Seccomp.known_flags r) (Seccomp.known_flags_len r))
  ++ strings_entry ctx "supportedFlags"
       (ptr ≫= fun r =>
          array_state (Seccomp.supported_flags r) (Seccomp.supported_flags_len r))
  ++ residual_slots (ptr ≫= Seccomp._residual).

Definition zos_entries (ctx : parser_context) (ptr : option namespace_reference)
  : list slot :=
  string_entry ctx "type" (ptr ≫= type)
  ++ string_entry ctx "path" (ptr ≫= path)
  ++ residual_slots (ptr ≫= ZosNs._residual).

Definition enabled_entries {R : Type} (enabled enabled_present : R -> bool)
    (_residual : R -> option yajl_val) (ctx : parser_context) (ptr : option R)
  : list slot :=
  bool_entry ctx "enabled" (ptr ≫= tri_state enabled enabled_present)
  ++ residual_slots (ptr ≫= _residual).

(** The entry of a nested record: none for a NULL member unless
    OPT_GEN_KEY_VALUE is set, and then the document of no record. *)
Definition record_entry {S : Type} (ctx : parser_context) (name : string)
    (field : option S) (entries_f : parser_context -> option S -> list slot)
  : list slot :=
  if opt ctx OPT_GEN_KEY_VALUE || non_null field
  then [(Some name, Some (Yobject (entries_f ctx field)))]
  else [].

Definition idmap_entries : parser_context -> option idmap -> list slot :=
  enabled_entries Idmap.enabled Idmap.enabled_present Idmap._residual.

Definition mount_extensions_entries (ctx : parser_context)
    (ptr : option mount_extensions) : list slot :=
  record_entry ctx "idmap" (ptr ≫= MountExtensions.idmap) idmap_entries
  ++ residual_slots (ptr ≫= MountExtensions._residual).

Definition features_entries (ctx : parser_context)
    (ptr : option FeaturesLinux.runtime_spec_schema_features_linux) : list slot :=
  strings_entry ctx "namespaces"
    (ptr ≫= fun r =>
       array_state (FeaturesLinux.namespaces r) (FeaturesLinux.namespaces_len r))
  ++ strings_entry ctx "capabilities"
       (ptr ≫= fun r =>
          array_state (FeaturesLinux.capabilities r) (FeaturesLinux.capabilities_len r))
  ++ record_entry ctx "cgroup" (ptr ≫= FeaturesLinux.cgroup) cgroup_entries
  ++ record_entry ctx "seccomp" (ptr ≫= FeaturesLinux.seccomp) seccomp_entries
  ++ record_entry ctx "apparmor" (ptr ≫= FeaturesLinux.apparmor)
       (enabled_entries Apparmor.enabled Apparmor.enabled_present Apparmor._residual)
  ++ record_entry ctx "selinux" (ptr ≫= FeaturesLinux.selinux)
       (enabled_entries Selinux.enabled Selinux.enabled_present Selinux._residual)
  ++ record_entry ctx "intelRdt" (ptr ≫= FeaturesLinux.intel_rdt)
       (enabled_entries IntelRdt.enabled IntelRdt.enabled_present IntelRdt._residual)
  ++ record_entry ctx "mountExtensions" (ptr ≫= FeaturesLinux.mount_extensions)
       mount_extensions_entries
  ++ record_entry ctx "netDevices" (ptr ≫= FeaturesLinux.net_devices)
       (enabled_entries NetDevices.enabled NetDevices.enabled_present
          NetDevices._residual)
  ++ residual_slots (ptr ≫= FeaturesLinux._residual).

(** *** Records as a decoder builds them *)

Definition cgroup_exact (fullkey : bool) (r : cgroup) : bool :=
  forallb (fun x => zero_when_absent (snd (fst x)) (snd x) r) cgroup_bools
  && residual_exact Cgroup.unknown_key fullkey (Cgroup._residual r).

Definition seccomp_exact (fullkey : bool) (r : Seccomp.seccomp) : bool :=
  zero_when_absent Seccomp.enabled Seccomp.enabled_present r
  && array_exact (Seccomp.actions r) (Seccomp.actions_len r)
  && array_exact (Seccomp.operators r) (Seccomp.operators_len r)
  && array_exact (Seccomp.archs r) (Seccomp.archs_len r)
  && array_exact (Seccomp.known_flags r) (Seccomp.known_flags_len r)
  && array_exact (Seccomp.supported_flags r) (Seccomp.supported_flags_len r)
  && residual_exact Seccomp.unknown_key fullkey (Seccomp._residual r).

(** The required member "type" is set. *)
Definition zos_exact (fullkey : bool) (r : namespace_reference) : bool :=
  non_null (type r)
  && residual_exact ZosNs.unknown_key fullkey (ZosNs._residual r).

Definition enabled_exact {R : Type} (enabled enabled_present : R -> bool)
    (_residual : R -> option yajl_val) (fullkey : bool) (r : R) : bool :=
  zero_when_absent enabled enabled_present r
  && residual_exact EnabledOnly.unknown_key fullkey (_residual r).

(** A nested member: NULL, or a record as its decoder builds it. *)
Definition member_exact {S : Type} (exact : S -> bool) (field : option S) : bool :=
  match field with
  | Some x => exact x
  | None => true
  end.

Definition idmap_exact : bool -> idmap -> bool :=
  enabled_exact Idmap.enabled Idmap.enabled_present Idmap._residual.

Definition mount_extensions_exact (fullkey : bool) (r : mount_extensions) : bool :=
  member_exact (idmap_exact fullkey) (MountExtensions.idmap r)
  && residual_exact MountExtensionsCode.unknown_key fullkey (MountExtensions._residual r).

Definition features_exact (fullkey : bool)
    (r : FeaturesLinux.runtime_spec_schema_features_linux) : bool :=
  array_exact (FeaturesLinux.namespaces r) (FeaturesLinux.namespaces_len r)
  && array_exact (FeaturesLinux.capabilities r) (FeaturesLinux.capabilities_len r)
  && member_exact (cgroup_exact fullkey) (FeaturesLinux.cgroup r)
  && member_exact (seccomp_exact fullkey) (FeaturesLinux.seccomp r)
  && member_exact
       (enabled_exact Apparmor.enabled Apparmor.enabled_present Apparmor._residual
          fullkey) (FeaturesLinux.apparmor r)
  && member_exact
       (enabled_exact Selinux.enabled Selinux.enabled_present Selinux._residual
          fullkey) (FeaturesLinux.selinux r)
  && member_exact
       (enabled_exact IntelRdt.enabled IntelRdt.enabled_present IntelRdt._residual
          fullkey) (FeaturesLinux.intel_rdt r)
  && member_exact (mount_extensions_exact fullkey) (FeaturesLinux.mount_extensions r)
  && member_exact
       (enabled_exact NetDevices.enabled NetDevices.enabled_present
          NetDevices._residual fullkey) (FeaturesLinux.net_devices r)
  && residual_exact FeaturesLinux.unknown_key fullkey (FeaturesLinux._residual r).

(** *** Example records, as a decoder run with OPT_PARSE_FULLKEY builds them *)

Definition example_cgroup : cgroup :=
  {| v1 := true; v2 := false; systemd := false; systemd_user := false; rdma := false;
     Cgroup._residual := Some (Yobject [(Some "extra", Some Ynull)]);
     v1_present := true; v2_present := true; systemd_present := false;
     systemd_user_present := false; rdma_present := false |}.

Definition example_seccomp : Seccomp.seccomp :=
  {| Seccomp.enabled := true;
     Seccomp.actions := Some [Some "SCMP_ACT_ALLOW"; Some EmptyString; None];
     Seccomp.actions_len := 2;
     Seccomp.operators := Some [None];
     Seccomp.operators_len := 0;
     Seccomp.archs := None;
     Seccomp.archs_len := 0;
     Seccomp.known_flags := None;
     Seccomp.known_flags_len := 0;
     Seccomp.supported_flags := Some [Some "f"; None];
     Seccomp.supported_flags_len := 1;
     Seccomp._residual := Some (Yobject [(Some "x", Some (Ynumber "1"))]);
     Seccomp.enabled_present := true |}.

Definition example_zos : namespace_reference :=
  {| type := Some "pid"; path := None;
     ZosNs._residual := Some (Yobject [(Some "x", Some Ytrue)]) |}.

Definition example_idmap : idmap :=
  {| Idmap.enabled := true;
     Idmap._residual := Some (Yobject [(Some "x", Some Yfalse)]);
     Idmap.enabled_present := true |}.

Definition example_mount_extensions : mount_extensions :=
  {| MountExtensions.idmap := Some example_idmap;
     MountExtensions._residual := Some (Yobject []) |}.

Definition example_apparmor : Apparmor.runtime_spec_schema_features_linux_apparmor :=
  {| Apparmor.enabled := false;
     Apparmor._residual := Some (Yobject []);
     Apparmor.enabled_present := true |}.

Definition example_selinux : Selinux.runtime_spec_schema_features_linux_selinux :=
  {| Selinux.enabled := false;
     Selinux._residual := Some (Yobject [(Some "mode", Some (Ystring "enforcing"))]);
     Selinux.enabled_present := false |}.

Definition example_intel_rdt : IntelRdt.runtime_spec_schema_features_linux_intel_rdt :=
  {| IntelRdt.enabled := true;
     IntelRdt._residual := Some (Yobject []);
     IntelRdt.enabled_present := true |}.

Definition example_net_devices
  : NetDevices.runtime_spec_schema_features_linux_net_devices :=
  {| NetDevices.enabled := false;
     NetDevices._residual := Some (Yobject []);
     NetDevices.enabled_present := false |}.

Definition example_record : FeaturesLinux.runtime_spec_schema_features_linux :=
  {| FeaturesLinux.namespaces := Some [Some "mount"; Some EmptyString; None];
     FeaturesLinux.namespaces_len := 2;
     FeaturesLinux.capabilities := None;
     FeaturesLinux.capabilities_len := 0;
     FeaturesLinux.cgroup := Some example_cgroup;
     FeaturesLinux.seccomp := Some example_seccomp;
     FeaturesLinux.apparmor := Some example_apparmor;
     FeaturesLinux.selinux := None;
     FeaturesLinux.intel_rdt := None;
     FeaturesLinux.mount_extensions := Some example_mount_extensions;
     FeaturesLinux.net_devices := Some example_net_devices;
     FeaturesLinux._residual := Some (Yobject [(Some "future", Some (Ynumber "2"))]) |}.

End RecordRoundTrip.
Export RecordRoundTrip.


(** * Part II: lemmas and theorems *)

Import Cgroup Seccomp ZosNs.

(* ===================================================================== *)
(** ** Facts about the lookups and the closing loop *)
(* ===================================================================== *)

Section TreeFacts.

Implicit Types (slots : list slot) (name k : string).

Lemma strcmp_refl k : strcmp k k = 0.
Proof.
  unfold strcmp. pose proof (String.compare_antisym k k) as H.
  destruct (String.compare k k); simpl in H; try reflexivity; discriminate.
Qed.

Lemma strcmp_zero a b : strcmp a b = 0 <-> a = b.
Proof.
  unfold strcmp. split.
  - destruct (String.compare a b) eqn:E; try discriminate.
    intros _. now apply String.compare_eq_iff.
  - intros ->. apply strcmp_refl.
Qed.

Lemma c_true_strcmp a b : c_true (strcmp a b) = negb (String.eqb a b).
Proof.
  unfold c_true. f_equal.
  destruct (String.eqb_spec a b) as [->|Hne].
  - now rewrite strcmp_refl.
  - apply Z.eqb_neq. intros H. now apply strcmp_zero in H.
Qed.

Lemma parsed_object_full slots :
  parsed (Yobject slots) = true -> forallb slot_full slots = true.
Proof.
  simpl. induction slots as [|[[k|] [v|]] rest IH]; simpl; try discriminate; auto.
  intros H. apply andb_prop in H as [_ H]. auto.
Qed.

Lemma full_keys_present slots :
  forallb slot_full slots = true -> keys_present slots = true.
Proof.
  induction slots as [|[[k|] [v|]] rest IH]; simpl; try discriminate; auto.
Qed.

Lemma find_key_member name slots :
  forallb slot_full slots = true ->
  find_key name slots = Some (member name slots).
Proof.
  induction slots as [|[[k|] [v|]] rest IH]; simpl; try discriminate; auto.
  intros H. rewrite c_true_strcmp.
  destruct (String.eqb name k); simpl; auto.
Qed.

Lemma find_key_total name slots :
  keys_present slots = true -> exists r, find_key name slots = Some r.
Proof.
  induction slots as [|[[k|] v] rest IH]; simpl; try discriminate; eauto.
  intros H. destruct (c_true (strcmp name k)); eauto.
Qed.

Lemma get_val_total tree name ty :
  match tree with Yobject slots => keys_present slots = true | _ => True end ->
  exists r, get_val tree name ty = Some r.
Proof.
  destruct tree; simpl; eauto.
  intros H. destruct (find_key_total name slots H) as [[n|] ->]; eauto.
  destruct (_ && _); eauto.
Qed.

(** The closing loop in closed form. *)
Lemma residual_loop_closed unknown fullkey slots :
  keys_present slots = true ->
  residual_loop unknown fullkey slots =
    Some (if fullkey
          then map (fun s => if slot_unknown unknown s then (None, None) else s) slots
          else slots,
          if fullkey then List.filter (slot_unknown unknown) slots else [],
          length (List.filter (slot_unknown unknown) slots)).
Proof.
  induction slots as [|[[k|] v] rest IH]; try discriminate.
  - destruct fullkey; reflexivity.
  - intros H. cbn [residual_loop map List.filter]. rewrite (IH H).
    change (slot_unknown unknown (Some k, v)) with (unknown k).
    destruct (unknown k), fullkey; reflexivity.
Qed.

Lemma residual_loop_frame unknown slots src resi j :
  residual_loop unknown false slots = Some (src, resi, j) ->
  src = slots /\ resi = [].
Proof.
  revert src resi j.
  induction slots as [|[[k|] v] rest IH]; simpl; intros src resi j H.
  - now inversion H.
  - destruct (residual_loop unknown false rest) as [[[src' resi'] j']|]; try discriminate.
    destruct (IH _ _ _ eq_refl) as [-> ->].
    destruct (unknown k); inversion H; auto.
  - discriminate.
Qed.

Lemma residual_loop_count unknown fullkey slots src resi j :
  residual_loop unknown fullkey slots = Some (src, resi, j) ->
  j = length (List.filter (slot_unknown unknown) slots).
Proof.
  revert src resi j.
  induction slots as [|[[k|] v] rest IH]; simpl; intros src resi j H.
  - now inversion H.
  - destruct (residual_loop unknown fullkey rest) as [[[src' resi'] j']|]; try discriminate.
    specialize (IH _ _ _ eq_refl).
    change (slot_unknown unknown (Some k, v)) with (unknown k).
    destruct (unknown k), fullkey; inversion H; subst; simpl; auto.
  - discriminate.
Qed.

(** Only the FULLKEY bit matters to the loop. *)
Lemma opt_agree c1 c2 mask :
  Z.land (options c1) mask = Z.land (options c2) mask -> opt c1 mask = opt c2 mask.
Proof. unfold opt. now intros ->. Qed.

End TreeFacts.

(* ===================================================================== *)
(** ** Decoding: totality, the frame, and the options *)
(* ===================================================================== *)

Section DecodeFacts.

Implicit Types (t : yajl_val) (ctx : parser_context).

Lemma keys_ok_get_val t name ty :
  keys_ok (Some t) -> exists r, get_val t name ty = Some r.
Proof. intros H. apply get_val_total. destruct t; simpl in *; auto. Qed.

Lemma make_bool_total t name :
  keys_ok (Some t) -> exists b p, make_bool t name = Some (b, p).
Proof.
  intros H. unfold make_bool.
  destruct (keys_ok_get_val t name yajl_t_true H) as [[v|] ->]; simpl; eauto.
  destruct (keys_ok_get_val t name yajl_t_false H) as [[v|] ->]; simpl; eauto.
Qed.

Lemma make_string_total t name :
  keys_ok (Some t) -> exists s, make_string t name = Some s.
Proof.
  intros H. unfold make_string.
  destruct (keys_ok_get_val t name yajl_t_string H) as [[v|] ->]; simpl; eauto.
Qed.

Lemma make_string_array_total t name :
  keys_ok (Some t) -> exists a n, make_string_array t name = Some (a, n).
Proof.
  intros H. unfold make_string_array.
  destruct (keys_ok_get_val t name yajl_t_array H) as [[v|] ->]; simpl; eauto.
  destruct (YAJL_GET_ARRAY v); eauto.
Qed.

Lemma set_strict_fullkey ctx :
  opt (set_strict ctx) OPT_PARSE_FULLKEY = opt ctx OPT_PARSE_FULLKEY.
Proof.
  apply opt_agree. unfold set_strict, OPT_PARSE_STRICT, OPT_PARSE_FULLKEY. simpl.
  rewrite Z.land_lor_distr_l. change (Z.land 1 8) with 0. apply Z.lor_0_r.
Qed.

Lemma clear_strict_fullkey ctx :
  opt (clear_strict ctx) OPT_PARSE_FULLKEY = opt ctx OPT_PARSE_FULLKEY.
Proof.
  apply opt_agree. unfold clear_strict, OPT_PARSE_STRICT, OPT_PARSE_FULLKEY. simpl.
  apply Z.bits_inj'. intros n Hn.
  rewrite !Z.land_spec, Z.ldiff_spec.
  destruct (Z.eq_dec n 3) as [->|Hne].
  - simpl. now rewrite andb_true_r.
  - change 8 with (2 ^ 3). rewrite Z.pow2_bits_false by lia.
    now rewrite !andb_false_r.
Qed.

Lemma set_strict_on ctx : opt (set_strict ctx) OPT_PARSE_STRICT = true.
Proof.
  unfold opt, set_strict, OPT_PARSE_STRICT, c_true. simpl.
  rewrite Z.land_lor_distr_l. change (Z.land 1 1) with 1.
  apply negb_true_iff, Z.eqb_neq. intros H.
  apply Z.lor_eq_0_iff in H as [_ H]. discriminate.
Qed.

Lemma clear_strict_off ctx : opt (clear_strict ctx) OPT_PARSE_STRICT = false.
Proof.
  unfold opt, clear_strict, OPT_PARSE_STRICT, c_true. simpl.
  replace (Z.land (Z.ldiff (options ctx) 1) 1) with 0; [reflexivity|].
  symmetry. apply Z.bits_inj'. intros n Hn.
  rewrite Z.land_spec, Z.ldiff_spec, Z.bits_0.
  destruct (Z.testbit 1 n); simpl; now rewrite ?andb_false_r.
Qed.

Lemma warn_unknown_off ctx j :
  opt ctx OPT_PARSE_STRICT = false -> warn_unknown ctx j = [].
Proof. unfold warn_unknown. now intros ->. Qed.

Lemma warn_unknown_cases ctx j :
  warn_unknown ctx j = []
  \/ (warn_unknown ctx j = [unknown_key_warning]
      /\ opt ctx OPT_PARSE_STRICT = true /\ (0 < j)%nat /\ errfile ctx <> None).
Proof.
  unfold warn_unknown.
  destruct (opt ctx OPT_PARSE_STRICT); simpl; auto.
  destruct (Nat.eqb_spec j 0); simpl; auto.
  destruct (errfile ctx); simpl; auto.
  right. repeat split; auto; first [lia|discriminate].
Qed.

(** Two contexts that agree on the FULLKEY bit decode alike. *)
Lemma cgroup_options_agree tree c1 c2 :
  opt c1 OPT_PARSE_FULLKEY = opt c2 OPT_PARSE_FULLKEY ->
  decode_result (make_runtime_spec_schema_features_linux_cgroup tree c1)
  = decode_result (make_runtime_spec_schema_features_linux_cgroup tree c2).
Proof.
  intros H. destruct tree as [t|]; [|reflexivity].
  unfold make_runtime_spec_schema_features_linux_cgroup. rewrite H.
  repeat (match goal with
          | |- context [make_bool t ?n] => destruct (make_bool t n) as [[? ?]|]
          end; simpl; [|reflexivity]).
  destruct t; try reflexivity.
  destruct (residual_loop _ _ _) as [[[? ?] ?]|]; reflexivity.
Qed.

Lemma seccomp_options_agree tree c1 c2 :
  opt c1 OPT_PARSE_FULLKEY = opt c2 OPT_PARSE_FULLKEY ->
  decode_result (make_runtime_spec_schema_features_linux_seccomp tree c1)
  = decode_result (make_runtime_spec_schema_features_linux_seccomp tree c2).
Proof.
  intros H. destruct tree as [t|]; [|reflexivity].
  unfold make_runtime_spec_schema_features_linux_seccomp. rewrite H.
  destruct (make_bool t _) as [[? ?]|]; simpl; [|reflexivity].
  repeat (match goal with
          | |- context [make_string_array t ?n] =>
              destruct (make_string_array t n) as [[? ?]|]
          end; simpl; [|reflexivity]).
  destruct t; try reflexivity.
  destruct (residual_loop _ _ _) as [[[? ?] ?]|]; reflexivity.
Qed.

Lemma zos_options_agree tree c1 c2 :
  opt c1 OPT_PARSE_FULLKEY = opt c2 OPT_PARSE_FULLKEY ->
  decode_result (make_runtime_spec_schema_defs_zos_namespace_reference tree c1)
  = decode_result (make_runtime_spec_schema_defs_zos_namespace_reference tree c2).
Proof.
  intros H. destruct tree as [t|]; [|reflexivity].
  unfold make_runtime_spec_schema_defs_zos_namespace_reference. rewrite H.
  destruct (make_string t "type") as [ty|]; simpl; [|reflexivity].
  destruct (make_string t "path") as [pa|]; simpl; [|reflexivity].
  destruct ty; [|reflexivity].
  destruct t; try reflexivity.
  destruct (residual_loop _ _ _) as [[[? ?] ?]|]; reflexivity.
Qed.

End DecodeFacts.

(* ===================================================================== *)
(** ** Decoding: the fields *)
(* ===================================================================== *)

Section FieldFacts.

Implicit Types (slots : list slot) (name : string).

Lemma make_bool_member slots name :
  forallb slot_full slots = true ->
  make_bool (Yobject slots) name
  = Some (match bool_field name slots with
          | Some b => (b, true)
          | None => (false, false)
          end).
Proof.
  intros H. unfold make_bool, get_val, bool_field.
  rewrite (find_key_member name slots H).
  destruct (member name slots) as [[]|]; reflexivity.
Qed.

Lemma make_string_member slots name :
  forallb slot_full slots = true ->
  make_string (Yobject slots) name = Some (string_field name slots).
Proof.
  intros H. unfold make_string, get_val, string_field.
  rewrite (find_key_member name slots H).
  destruct (member name slots) as [[]|]; reflexivity.
Qed.

End FieldFacts.

(** C3, the statement refuted.  With an absent tree the cgroup decoder
    returns no record at all, and the namespace-reference decoder, whose
    field "type" is required, reports no error. *)
Lemma absent_tree_counterexample :
  ~ absent_tree_gives_empty_record {| options := 0; errfile := None |}
  /\ ~ absent_tree_gives_missing_field {| options := 0; errfile := None |}.
Proof.
  split.
  - intros (m & r & Hm & Hr & _). simpl in Hm. inversion Hm; subst. discriminate.
  - intros (m & Hm & _ & He). simpl in Hm. inversion Hm; subst. discriminate.
Qed.

(** C3, amended.  Called with an absent tree (tree = NULL), every decoder
    returns NULL and leaves the error unset, whether or not the type has
    required fields; the tree is not touched and nothing is written. *)
Theorem make_absent_tree (ctx : parser_context) :
  make_runtime_spec_schema_features_linux_cgroup None ctx = Some (Made None None None [])
  /\ make_runtime_spec_schema_features_linux_seccomp None ctx = Some (Made None None None [])
  /\ make_runtime_spec_schema_defs_zos_namespace_reference None ctx
     = Some (Made None None None []).
Proof. repeat split. Qed.

(** C6.  Decoding the empty object against the namespace-reference type
    returns no record and the error message that names the required field
    "type". *)
Theorem make_zos_empty_object (ctx : parser_context) :
  make_runtime_spec_schema_defs_zos_namespace_reference (Some (Yobject [])) ctx
  = Some {| ret := None;
            err := Some "Required field 'type' not present";
            tree_after := Some (Yobject []);
            written := [] |}.
Proof. reflexivity. Qed.

(** C10.  With OPT_PARSE_FULLKEY clear, a decoder returns and leaves the
    source tree as it found it, whatever the other options are and however
    many unknown keys the object holds. *)
Theorem make_frame (tree : option yajl_val) (ctx : parser_context) :
  opt ctx OPT_PARSE_FULLKEY = false ->
  keys_ok tree ->
  (exists m, make_runtime_spec_schema_features_linux_cgroup tree ctx = Some m
             /\ tree_after m = tree)
  /\ (exists m, make_runtime_spec_schema_features_linux_seccomp tree ctx = Some m
                /\ tree_after m = tree)
  /\ (exists m, make_runtime_spec_schema_defs_zos_namespace_reference tree ctx = Some m
                /\ tree_after m = tree).
Proof.
  intros Hopt Hkeys. destruct tree as [t|]; [|repeat split; eexists; split; reflexivity].
  repeat split.
  - unfold make_runtime_spec_schema_features_linux_cgroup.
    destruct (make_bool_total t "v1" Hkeys) as (? & ? & ->).
    destruct (make_bool_total t "v2" Hkeys) as (? & ? & ->).
    destruct (make_bool_total t "systemd" Hkeys) as (? & ? & ->).
    destruct (make_bool_total t "systemdUser" Hkeys) as (? & ? & ->).
    destruct (make_bool_total t "rdma" Hkeys) as (? & ? & ->).
    simpl. destruct t; try (eexists; split; reflexivity).
    rewrite Hopt, (residual_loop_closed _ false slots Hkeys). simpl.
    eexists; split; reflexivity.
  - unfold make_runtime_spec_schema_features_linux_seccomp.
    destruct (make_bool_total t "enabled" Hkeys) as (? & ? & ->).
    destruct (make_string_array_total t "actions" Hkeys) as (? & ? & ->).
    destruct (make_string_array_total t "operators" Hkeys) as (? & ? & ->).
    destruct (make_string_array_total t "archs" Hkeys) as (? & ? & ->).
    destruct (make_string_array_total t "knownFlags" Hkeys) as (? & ? & ->).
    destruct (make_string_array_total t "supportedFlags" Hkeys) as (? & ? & ->).
    simpl. destruct t; try (eexists; split; reflexivity).
    rewrite Hopt, (residual_loop_closed _ false slots Hkeys). simpl.
    eexists; split; reflexivity.
  - unfold make_runtime_spec_schema_defs_zos_namespace_reference.
    destruct (make_string_total t "type" Hkeys) as (ty & ->).
    destruct (make_string_total t "path" Hkeys) as (pa & ->).
    simpl. destruct ty; [|eexists; split; reflexivity].
    destruct t; try (eexists; split; reflexivity).
    rewrite Hopt, (residual_loop_closed _ false slots Hkeys). simpl.
    eexists; split; reflexivity.
Qed.

Lemma make_frame_witness :
  let tree := Some (Yobject [(Some "type", Some (Ystring "pid"));
                             (Some "extra", Some Ynull)]) in
  let ctx := {| options := OPT_PARSE_STRICT; errfile := Some tt |} in
  (exists m, make_runtime_spec_schema_features_linux_cgroup tree ctx = Some m
             /\ tree_after m = tree)
  /\ (exists m, make_runtime_spec_schema_features_linux_seccomp tree ctx = Some m
                /\ tree_after m = tree)
  /\ (exists m, make_runtime_spec_schema_defs_zos_namespace_reference tree ctx = Some m
                /\ tree_after m = tree).
Proof. apply make_frame; reflexivity. Defined.

(** What is written to the warning stream: nothing, or the one line, and
    then only under OPT_PARSE_STRICT, with a stream, for an object that
    holds a key the type does not know. *)
Lemma written_cases {R : Type} (unknown : string -> bool) (fullkey : bool)
    (slots : list slot) (ctx : parser_context) src resi j :
  residual_loop unknown fullkey slots = Some (src, resi, j) ->
  warn_unknown ctx j = []
  \/ (warn_unknown ctx j = [unknown_key_warning]
      /\ opt ctx OPT_PARSE_STRICT = true
      /\ errfile ctx <> None
      /\ exists k v, In (Some k, v) slots /\ unknown k = true).
Proof.
  intros Hloop. destruct (warn_unknown_cases ctx j) as [->|(-> & Hs & Hj & He)]; auto.
  right. repeat split; auto.
  apply residual_loop_count in Hloop. subst j.
  destruct (List.filter (slot_unknown unknown) slots) as [|[k v] rest] eqn:E;
    [simpl in Hj; lia|].
  assert (Hin : In (k, v) (List.filter (slot_unknown unknown) slots))
    by (rewrite E; now left).
  apply filter_In in Hin as [Hin Hu].
  unfold slot_unknown in Hu. simpl in Hu. destruct k as [k|]; [|discriminate].
  eauto.
Qed.

(** The warning is written when OPT_PARSE_STRICT is set, a stream was
    supplied and the closing loop found a key. *)
Lemma warn_unknown_on ctx j :
  opt ctx OPT_PARSE_STRICT = true -> errfile ctx <> None -> (0 < j)%nat ->
  warn_unknown ctx j = [unknown_key_warning].
Proof.
  intros Hs He Hj. unfold warn_unknown. rewrite Hs.
  destruct (Nat.eqb_spec j 0) as [->|_]; [lia|].
  destruct (errfile ctx); [reflexivity|congruence].
Qed.

Lemma unknown_counted (unknown : string -> bool) (slots : list slot) k v :
  In (Some k, v) slots -> unknown k = true ->
  (0 < length (List.filter (slot_unknown unknown) slots))%nat.
Proof.
  intros Hin Hu.
  assert (H : In (Some k, v) (List.filter (slot_unknown unknown) slots))
    by (apply filter_In; split; [exact Hin|exact Hu]).
  destruct (List.filter (slot_unknown unknown) slots); [destruct H|simpl; lia].
Qed.

(** What each decoder writes to the warning stream: for an object, what
    the test after the closing loop calls for; nothing for another tree,
    and nothing when the required "type" is missing, where the decoder
    returns before the closing loop. *)
Lemma cgroup_written_exact tree ctx m :
  make_runtime_spec_schema_features_linux_cgroup tree ctx = Some m ->
  written m
  = match tree with
    | Some (Yobject slots) =>
        warn_unknown ctx (length (List.filter (slot_unknown Cgroup.unknown_key) slots))
    | _ => []
    end.
Proof.
  destruct tree as [t|]; simpl; [|intros [= <-]; reflexivity].
  destruct (make_bool t "v1") as [[? ?]|]; simpl; [|intros; discriminate].
  destruct (make_bool t "v2") as [[? ?]|]; simpl; [|intros; discriminate].
  destruct (make_bool t "systemd") as [[? ?]|]; simpl; [|intros; discriminate].
  destruct (make_bool t "systemdUser") as [[? ?]|]; simpl; [|intros; discriminate].
  destruct (make_bool t "rdma") as [[? ?]|]; simpl; [|intros; discriminate].
  destruct t; try (intros [= <-]; reflexivity).
  destruct (residual_loop _ _ _) as [[[src resi] j]|] eqn:Hloop; simpl;
    [|intros; discriminate].
  intros [= <-]. simpl. now rewrite (residual_loop_count _ _ _ _ _ _ Hloop).
Qed.

Lemma seccomp_written_exact tree ctx m :
  make_runtime_spec_schema_features_linux_seccomp tree ctx = Some m ->
  written m
  = match tree with
    | Some (Yobject slots) =>
        warn_unknown ctx (length (List.filter (slot_unknown Seccomp.unknown_key) slots))
    | _ => []
    end.
Proof.
  destruct tree as [t|]; [|intros [= <-]; reflexivity].
  unfold make_runtime_spec_schema_features_linux_seccomp.
  destruct (make_bool t "enabled") as [[? ?]|]; simpl; [|intros; discriminate].
  destruct (make_string_array t "actions") as [[? ?]|]; simpl; [|intros; discriminate].
  destruct (make_string_array t "operators") as [[? ?]|]; simpl; [|intros; discriminate].
  destruct (make_string_array t "archs") as [[? ?]|]; simpl; [|intros; discriminate].
  destruct (make_string_array t "knownFlags") as [[? ?]|]; simpl;
    [|intros; discriminate].
  destruct (make_string_array t "supportedFlags") as [[? ?]|]; simpl;
    [|intros; discriminate].
  destruct t; try (intros [= <-]; reflexivity).
  destruct (residual_loop _ _ _) as [[[src resi] j]|] eqn:Hloop; simpl;
    [|intros; discriminate].
  intros [= <-]. simpl. now rewrite (residual_loop_count _ _ _ _ _ _ Hloop).
Qed.

Lemma zos_written_exact tree ctx m :
  make_runtime_spec_schema_defs_zos_namespace_reference tree ctx = Some m ->
  written m
  = match tree, ret m with
    | Some (Yobject slots), Some _ =>
        warn_unknown ctx (length (List.filter (slot_unknown ZosNs.unknown_key) slots))
    | _, _ => []
    end.
Proof.
  destruct tree as [t|]; [|intros [= <-]; reflexivity].
  unfold make_runtime_spec_schema_defs_zos_namespace_reference.
  destruct (make_string t "type") as [ty|]; simpl; [|intros; discriminate].
  destruct (make_string t "path") as [pa|]; simpl; [|intros; discriminate].
  destruct ty; [|intros [= <-]; simpl; now destruct t].
  destruct t; try (intros [= <-]; reflexivity).
  destruct (residual_loop _ _ _) as [[[src resi] j]|] eqn:Hloop; simpl;
    [|intros; discriminate].
  intros [= <-]. simpl. now rewrite (residual_loop_count _ _ _ _ _ _ Hloop).
Qed.

(** The warning of an object, from the count of its unknown keys. *)
Lemma warned_cases (unknown : string -> bool) (slots : list slot) ctx :
  let j := length (List.filter (slot_unknown unknown) slots) in
  warn_unknown (set_strict ctx) j = []
  \/ (warn_unknown (set_strict ctx) j = [unknown_key_warning]
      /\ errfile ctx <> None
      /\ exists k v, In (Some k, v) slots /\ unknown k = true).
Proof.
  intros j. destruct (warn_unknown_cases (set_strict ctx) j) as [->|(-> & _ & Hj & He)];
    [now left|].
  right. repeat split; auto. subst j.
  destruct (List.filter (slot_unknown unknown) slots) as [|[k v] rest] eqn:E;
    [simpl in Hj; lia|].
  assert (Hin : In (k, v) (List.filter (slot_unknown unknown) slots))
    by (rewrite E; now left).
  apply filter_In in Hin as [Hin Hu].
  unfold slot_unknown in Hu. simpl in Hu. destruct k as [k|]; [|discriminate].
  eauto.
Qed.

Lemma make_defined (tree : option yajl_val) (ctx : parser_context) :
  keys_ok tree ->
  (exists m, make_runtime_spec_schema_features_linux_cgroup tree ctx = Some m)
  /\ (exists m, make_runtime_spec_schema_features_linux_seccomp tree ctx = Some m)
  /\ (exists m, make_runtime_spec_schema_defs_zos_namespace_reference tree ctx = Some m).
Proof.
  intros Hkeys. destruct tree as [t|]; [|repeat split; eexists; reflexivity].
  repeat split.
  - unfold make_runtime_spec_schema_features_linux_cgroup.
    destruct (make_bool_total t "v1" Hkeys) as (? & ? & ->).
    destruct (make_bool_total t "v2" Hkeys) as (? & ? & ->).
    destruct (make_bool_total t "systemd" Hkeys) as (? & ? & ->).
    destruct (make_bool_total t "systemdUser" Hkeys) as (? & ? & ->).
    destruct (make_bool_total t "rdma" Hkeys) as (? & ? & ->).
    simpl. destruct t; try (eexists; reflexivity).
    rewrite (residual_loop_closed _ _ slots Hkeys). simpl. eexists; reflexivity.
  - unfold make_runtime_spec_schema_features_linux_seccomp.
    destruct (make_bool_total t "enabled" Hkeys) as (? & ? & ->).
    destruct (make_string_array_total t "actions" Hkeys) as (? & ? & ->).
    destruct (make_string_array_total t "operators" Hkeys) as (? & ? & ->).
    destruct (make_string_array_total t "archs" Hkeys) as (? & ? & ->).
    destruct (make_string_array_total t "knownFlags" Hkeys) as (? & ? & ->).
    destruct (make_string_array_total t "supportedFlags" Hkeys) as (? & ? & ->).
    simpl. destruct t; try (eexists; reflexivity).
    rewrite (residual_loop_closed _ _ slots Hkeys). simpl. eexists; reflexivity.
  - unfold make_runtime_spec_schema_defs_zos_namespace_reference.
    destruct (make_string_total t "type" Hkeys) as (ty & ->).
    destruct (make_string_total t "path" Hkeys) as (pa & ->).
    simpl. destruct ty; [|eexists; reflexivity].
    destruct t; try (eexists; reflexivity).
    rewrite (residual_loop_closed _ _ slots Hkeys). simpl. eexists; reflexivity.
Qed.

(** C8.  The pointer returned, the error and the source tree afterwards
    are the same with OPT_PARSE_STRICT set and with it clear, for the three
    decoders.  With it clear nothing is written.  With it set the one
    warning line is written exactly when a stream was supplied and the
    closing loop of the decoder found an unknown key: at most that line is
    written, and only for an object with an unknown key and with a
    stream; and for such an object, with a stream, the line is written by
    the cgroup and the seccomp decoder in every case, and by the
    namespace-reference decoder whenever it returns a record (when the
    required "type" is missing it returns before its closing loop and
    writes nothing).  Every decoder returns for a tree without a NULL
    key. *)
Theorem strict_does_not_change_decode (tree : option yajl_val) (ctx : parser_context) :
  (decode_result (make_runtime_spec_schema_features_linux_cgroup tree (set_strict ctx))
   = decode_result (make_runtime_spec_schema_features_linux_cgroup tree (clear_strict ctx))
   /\ decode_result (make_runtime_spec_schema_features_linux_seccomp tree (set_strict ctx))
      = decode_result (make_runtime_spec_schema_features_linux_seccomp tree (clear_strict ctx))
   /\ decode_result (make_runtime_spec_schema_defs_zos_namespace_reference tree (set_strict ctx))
      = decode_result
          (make_runtime_spec_schema_defs_zos_namespace_reference tree (clear_strict ctx)))
  /\ (forall m,
        make_runtime_spec_schema_features_linux_cgroup tree (clear_strict ctx) = Some m ->
        written m = [])
  /\ (forall m,
        make_runtime_spec_schema_features_linux_cgroup tree (set_strict ctx) = Some m ->
        written m = []
        \/ (written m = [unknown_key_warning]
            /\ errfile ctx <> None
            /\ exists slots k v,
                 tree = Some (Yobject slots)
                 /\ In (Some k, v) slots /\ Cgroup.unknown_key k = true))
  /\ (forall m,
        make_runtime_spec_schema_features_linux_seccomp tree (clear_strict ctx) = Some m ->
        written m = [])
  /\ (forall m,
        make_runtime_spec_schema_features_linux_seccomp tree (set_strict ctx) = Some m ->
        written m = []
        \/ (written m = [unknown_key_warning]
            /\ errfile ctx <> None
            /\ has_unknown_key Seccomp.unknown_key tree))
  /\ (forall m,
        make_runtime_spec_schema_defs_zos_namespace_reference tree (clear_strict ctx)
        = Some m ->
        written m = [])
  /\ (forall m,
        make_runtime_spec_schema_defs_zos_namespace_reference tree (set_strict ctx)
        = Some m ->
        written m = []
        \/ (written m = [unknown_key_warning]
            /\ errfile ctx <> None
            /\ has_unknown_key ZosNs.unknown_key tree
            /\ ret m <> None))
  /\ (errfile ctx <> None ->
      (forall m,
          make_runtime_spec_schema_features_linux_cgroup tree (set_strict ctx) = Some m ->
          has_unknown_key Cgroup.unknown_key tree ->
          written m = [unknown_key_warning])
      /\ (forall m,
            make_runtime_spec_schema_features_linux_seccomp tree (set_strict ctx)
            = Some m ->
            has_unknown_key Seccomp.unknown_key tree ->
            written m = [unknown_key_warning])
      /\ (forall m,
            make_runtime_spec_schema_defs_zos_namespace_reference tree (set_strict ctx)
            = Some m ->
            has_unknown_key ZosNs.unknown_key tree ->
            (ret m <> None -> written m = [unknown_key_warning])
            /\ (ret m = None -> written m = [])))
  /\ (keys_ok tree ->
      (exists m,
          make_runtime_spec_schema_features_linux_cgroup tree (set_strict ctx) = Some m)
      /\ (exists m,
            make_runtime_spec_schema_features_linux_seccomp tree (set_strict ctx)
            = Some m)
      /\ (exists m,
            make_runtime_spec_schema_defs_zos_namespace_reference tree (set_strict ctx)
            = Some m)).
Proof.
  assert (Hagree : opt (set_strict ctx) OPT_PARSE_FULLKEY
                   = opt (clear_strict ctx) OPT_PARSE_FULLKEY)
    by (now rewrite set_strict_fullkey, clear_strict_fullkey).
  assert (Hoff : forall j, warn_unknown (clear_strict ctx) j = [])
    by (intros j; apply warn_unknown_off, clear_strict_off).
  assert (Hon : forall unknown slots k v,
             errfile ctx <> None -> In (Some k, v) slots -> unknown k = true ->
             warn_unknown (set_strict ctx)
               (length (List.filter (slot_unknown unknown) slots))
             = [unknown_key_warning]).
  { intros unknown slots k v He Hin Hu.
    apply warn_unknown_on; [apply set_strict_on|exact He|].
    exact (unknown_counted unknown slots k v Hin Hu). }
  split; [|split; [|split; [|split; [|split; [|split; [|split; [|split]]]]]]].
  - repeat split.
    + now apply cgroup_options_agree.
    + now apply seccomp_options_agree.
    + now apply zos_options_agree.
  - intros m Hm. rewrite (cgroup_written_exact _ _ _ Hm).
    destruct tree as [[]|]; auto.
  - intros m Hm. rewrite (cgroup_written_exact _ _ _ Hm).
    destruct tree as [[| |slots| | | |]|]; try (now left).
    destruct (warned_cases Cgroup.unknown_key slots ctx) as [->|(-> & He & k & v & Hin & Hu)];
      [now left|].
    right. repeat split; auto. exists slots, k, v. auto.
  - intros m Hm. rewrite (seccomp_written_exact _ _ _ Hm).
    destruct tree as [[]|]; auto.
  - intros m Hm. rewrite (seccomp_written_exact _ _ _ Hm).
    destruct tree as [[| |slots| | | |]|]; try (now left).
    destruct (warned_cases Seccomp.unknown_key slots ctx)
      as [->|(-> & He & k & v & Hin & Hu)]; [now left|].
    right. repeat split; auto. exists slots, k, v. auto.
  - intros m Hm. rewrite (zos_written_exact _ _ _ Hm).
    destruct tree as [[]|]; auto. now destruct (ret m).
  - intros m Hm. rewrite (zos_written_exact _ _ _ Hm).
    destruct tree as [[| |slots| | | |]|]; try (now left).
    destruct (ret m) as [r|]; [|now left].
    destruct (warned_cases ZosNs.unknown_key slots ctx)
      as [->|(-> & He & k & v & Hin & Hu)]; [now left|].
    right. split; [reflexivity|]. split; [exact He|]. split; [|discriminate].
    exists slots, k, v. auto.
  - intros He. split; [|split].
    + intros m Hm (slots & k & v & -> & Hin & Hu).
      rewrite (cgroup_written_exact _ _ _ Hm). now apply (Hon _ _ k v).
    + intros m Hm (slots & k & v & -> & Hin & Hu).
      rewrite (seccomp_written_exact _ _ _ Hm). now apply (Hon _ _ k v).
    + intros m Hm (slots & k & v & -> & Hin & Hu).
      rewrite (zos_written_exact _ _ _ Hm). split; intros Hr.
      * destruct (ret m); [now apply (Hon _ _ k v)|congruence].
      * now rewrite Hr.
  - apply make_defined.
Qed.

Lemma strict_does_not_change_decode_witness :
  let tree := Some (Yobject [(Some "type", Some (Ystring "pid"));
                             (Some "extra", Some Ynull)]) in
  let ctx := {| options := OPT_PARSE_FULLKEY; errfile := Some tt |} in
  (exists m,
      make_runtime_spec_schema_features_linux_cgroup tree (set_strict ctx) = Some m
      /\ written m = [unknown_key_warning])
  /\ (exists m,
        make_runtime_spec_schema_features_linux_seccomp tree (set_strict ctx) = Some m
        /\ written m = [unknown_key_warning])
  /\ (exists m,
        make_runtime_spec_schema_defs_zos_namespace_reference tree (set_strict ctx)
        = Some m
        /\ written m = [unknown_key_warning]).
Proof.
  intros tree ctx.
  destruct (strict_does_not_change_decode tree ctx)
    as (_ & _ & _ & _ & _ & _ & _ & Hw & Hd).
  assert (He : errfile ctx <> None) by discriminate.
  destruct (Hw He) as (Hc & Hs & Hz).
  destruct (Hd eq_refl) as ([mc Hmc] & [ms Hms] & [mz Hmz]).
  split; [|split].
  - exists mc. split; [exact Hmc|]. apply (Hc mc Hmc).
    exists [(Some "type", Some (Ystring "pid")); (Some "extra", Some Ynull)],
      "extra", (Some Ynull).
    split; [reflexivity|]. split; [right; now left|reflexivity].
  - exists ms. split; [exact Hms|]. apply (Hs ms Hms).
    exists [(Some "type", Some (Ystring "pid")); (Some "extra", Some Ynull)],
      "extra", (Some Ynull).
    split; [reflexivity|]. split; [right; now left|reflexivity].
  - exists mz. split; [exact Hmz|].
    assert (Hu : has_unknown_key ZosNs.unknown_key tree).
    { exists [(Some "type", Some (Ystring "pid")); (Some "extra", Some Ynull)],
        "extra", (Some Ynull).
      split; [reflexivity|]. split; [right; now left|reflexivity]. }
    destruct (Hz mz Hmz Hu) as [Hyes _]. apply Hyes.
    vm_compute in Hmz. injection Hmz as <-. discriminate.
Defined.

(** C5, the statement refuted.  A number under "path" leaves [path]
    NULL, not the empty string; a number under the required "type" makes
    the decode fail. *)
Lemma non_string_counterexample :
  ~ non_string_gives_empty path "path"
      [(Some "type", Some (Ystring "pid")); (Some "path", Some (Ynumber "7"))]
      {| options := 0; errfile := None |}
  /\ ~ non_string_gives_empty type "type"
         [(Some "type", Some (Ynumber "7"))]
         {| options := 0; errfile := None |}.
Proof.
  split; intros H.
  - destruct (H (Ynumber "7") eq_refl ltac:(discriminate)) as (m & r & Hm & Hr & Hf).
    vm_compute in Hm. inversion Hm; subst. simpl in Hr. inversion Hr; subst.
    discriminate.
  - destruct (H (Ynumber "7") eq_refl ltac:(discriminate)) as (m & r & Hm & Hr & Hf).
    vm_compute in Hm. inversion Hm; subst. discriminate.
Qed.

(** C5, amended.  Over a parsed object the decoder returns.  A string
    under "type" or "path" is copied into the field.  Any other value is
    passed over as if the key were missing: "path" stays NULL, and for the
    required "type" the decode returns no record and the error that names
    the field. *)
Theorem make_zos_string_fields (slots : list slot) (ctx : parser_context) :
  parsed (Yobject slots) = true ->
  exists m,
    make_runtime_spec_schema_defs_zos_namespace_reference (Some (Yobject slots)) ctx
      = Some m
    /\ match string_field "type" slots with
       | Some s =>
           err m = None
           /\ exists r, ret m = Some r
                        /\ type r = Some s
                        /\ path r = string_field "path" slots
       | None =>
           ret m = None /\ err m = Some (required_field_error "type")
       end.
Proof.
  intros Hp. pose proof (parsed_object_full slots Hp) as Hfull.
  pose proof (full_keys_present slots Hfull) as Hkeys.
  unfold make_runtime_spec_schema_defs_zos_namespace_reference.
  rewrite !(make_string_member slots _ Hfull). simpl.
  destruct (string_field "type" slots) as [s|].
  - rewrite (residual_loop_closed _ _ slots Hkeys). simpl.
    eexists; split; [reflexivity|]. simpl. split; [reflexivity|].
    eexists; repeat split.
  - eexists; split; [reflexivity|]. now split.
Qed.

Lemma make_zos_string_fields_witness :
  exists m,
    make_runtime_spec_schema_defs_zos_namespace_reference
      (Some (Yobject [(Some "type", Some (Ystring "pid"));
                      (Some "path", Some (Ynumber "7"))]))
      {| options := OPT_PARSE_FULLKEY; errfile := None |} = Some m
    /\ (err m = None
        /\ exists r, ret m = Some r /\ type r = Some "pid" /\ path r = None).
Proof.
  apply (make_zos_string_fields
           [(Some "type", Some (Ystring "pid")); (Some "path", Some (Ynumber "7"))]
           {| options := OPT_PARSE_FULLKEY; errfile := None |}).
  reflexivity.
Defined.

(* ===================================================================== *)
(** ** The emitter *)
(* ===================================================================== *)

Section EmitFacts.

Implicit Types (g : yajl_gen) (cs : list gen_call).

(** Induction over a tree and the trees in its slots and cells. *)
Lemma yajl_val_nested_ind (P : yajl_val -> Prop) :
  (forall s, P (Ystring s)) ->
  (forall r, P (Ynumber r)) ->
  (forall slots,
      Forall (fun s : slot => match snd s with Some x => P x | None => True end) slots ->
      P (Yobject slots)) ->
  (forall vs,
      Forall (fun c => match c with Some x => P x | None => True end) vs ->
      P (Yarray vs)) ->
  P Ytrue -> P Yfalse -> P Ynull ->
  forall v, P v.
Proof.
  intros Hs Hn Ho Ha Ht Hf Hz.
  fix IH 1. intros [s|r|slots|vs| | |].
  - apply Hs.
  - apply Hn.
  - apply Ho. induction slots as [|[k [x|]] rest IHs]; constructor; simpl;
      first [apply IH | exact I | exact IHs].
  - apply Ha. induction vs as [|[x|] rest IHs]; constructor;
      first [apply IH | exact I | exact IHs].
  - exact Ht.
  - exact Hf.
  - exact Hz.
Qed.

Lemma extend_nil g : extend g [] = g.
Proof. destruct g. unfold extend. simpl. now rewrite app_nil_r. Qed.

Lemma extend_extend g cs1 cs2 : extend (extend g cs1) cs2 = extend g (cs1 ++ cs2).
Proof. unfold extend. simpl. now rewrite app_assoc. Qed.

Lemma emit_unbounded c g :
  room g = None -> emit c g = GenOk (extend g [c]).
Proof. unfold emit, extend. now intros ->. Qed.

Lemma accepts_emit c : accepts (emit c) [c].
Proof. intros g. apply emit_unbounded. Qed.

Lemma accepts_nil : accepts GenOk [].
Proof. intros g _. now rewrite extend_nil. Qed.

Lemma accepts_then first rest cs1 cs2 :
  accepts first cs1 -> accepts rest cs2 ->
  accepts (fun g => first g >>> rest) (cs1 ++ cs2).
Proof.
  intros H1 H2 g Hg. rewrite (H1 g Hg). simpl.
  rewrite (H2 (extend g cs1)) by exact Hg. now rewrite extend_extend.
Qed.

Lemma accepts_config b : accepts (yajl_gen_config_beautify b) [call_config_beautify b].
Proof. intros g _. reflexivity. Qed.

Lemma gen_yajl_val_object slots g :
  gen_yajl_val (Yobject slots) g
  = yajl_gen_map_open g >>> gen_members slots >>> yajl_gen_map_close.
Proof. reflexivity. Qed.

Lemma calls_of_object slots :
  calls_of_val (Yobject slots) = call_map_open :: calls_of_members slots ++ [call_map_close].
Proof. reflexivity. Qed.

Lemma calls_of_members_app ss1 ss2 :
  calls_of_members (ss1 ++ ss2) = calls_of_members ss1 ++ calls_of_members ss2.
Proof.
  induction ss1 as [|[[k|] [x|]] rest IH]; simpl; auto.
  now rewrite IH, app_assoc.
Qed.

(** A parsed tree is emitted by the calls [calls_of_val]. *)
Lemma gen_yajl_val_accepts v :
  parsed v = true -> accepts (gen_yajl_val v) (calls_of_val v).
Proof.
  induction v as [s|r|slots IH|vs IH| | |] using yajl_val_nested_ind; intros Hp;
    try (simpl; apply accepts_emit).
  - (* object *)
    assert (Hm : accepts (gen_members slots) (calls_of_members slots)).
    { simpl in Hp. clear -IH Hp.
      induction slots as [|[[k|] [x|]] rest IHs]; simpl in *; try discriminate.
      - apply accepts_nil.
      - apply andb_prop in Hp as [Hx Hrest]. inversion IH as [|? ? Hhd Htl]; subst.
        simpl in Hhd.
        change (call_string k :: calls_of_val x ++ calls_of_members rest)
          with ([call_string k] ++ calls_of_val x ++ calls_of_members rest).
        rewrite app_assoc.
        apply (accepts_then (fun g => yajl_gen_string k g >>> gen_yajl_val x)).
        + apply (accepts_then (yajl_gen_string k)); [apply accepts_emit|auto].
        + auto. }
    rewrite calls_of_object. intros g Hg. rewrite gen_yajl_val_object.
    change (call_map_open :: calls_of_members slots ++ [call_map_close])
      with ([call_map_open] ++ calls_of_members slots ++ [call_map_close]).
    rewrite app_assoc.
    apply (accepts_then (fun g => yajl_gen_map_open g >>> gen_members slots)
                        yajl_gen_map_close); [|apply accepts_emit|exact Hg].
    apply (accepts_then yajl_gen_map_open); [apply accepts_emit|exact Hm].
  - (* array *)
    set (cells := fix cells (vs : list (option yajl_val)) (g : yajl_gen) : gen_outcome :=
                    match vs with
                    | [] => GenOk g
                    | Some x :: rest => gen_yajl_val x g >>> cells rest
                    | None :: _ => GenUndefined
                    end).
    set (ccells := fix cells (vs : list (option yajl_val)) : list gen_call :=
                     match vs with
                     | [] => []
                     | Some x :: rest => calls_of_val x ++ cells rest
                     | None :: rest => cells rest
                     end).
    assert (Hm : accepts (cells vs) (ccells vs)).
    { simpl in Hp. clear -IH Hp.
      induction vs as [|[x|] rest IHs]; simpl in *; try discriminate.
      - apply accepts_nil.
      - apply andb_prop in Hp as [Hx Hrest]. inversion IH as [|? ? Hhd Htl]; subst.
        apply (accepts_then (gen_yajl_val x)); auto. }
    intros g Hg.
    change (gen_yajl_val (Yarray vs) g)
      with (yajl_gen_array_open g >>> cells vs >>> yajl_gen_array_close).
    change (calls_of_val (Yarray vs))
      with ([call_array_open] ++ ccells vs ++ [call_array_close]).
    rewrite app_assoc.
    apply (accepts_then (fun g => yajl_gen_array_open g >>> cells vs)
                        yajl_gen_array_close); [|apply accepts_emit|exact Hg].
    apply (accepts_then yajl_gen_array_open); [apply accepts_emit|exact Hm].
Qed.

Lemma gen_members_accepts slots :
  parsed (Yobject slots) = true -> accepts (gen_members slots) (calls_of_members slots).
Proof.
  intros Hp. simpl in Hp.
  induction slots as [|[[k|] [x|]] rest IHs]; simpl in *; try discriminate.
  - apply accepts_nil.
  - apply andb_prop in Hp as [Hx Hrest].
    change (call_string k :: calls_of_val x ++ calls_of_members rest)
      with ([call_string k] ++ calls_of_val x ++ calls_of_members rest).
    rewrite app_assoc.
    apply (accepts_then (fun g => yajl_gen_string k g >>> gen_yajl_val x)); auto.
    apply (accepts_then (yajl_gen_string k)); [apply accepts_emit|].
    now apply gen_yajl_val_accepts.
Qed.

End EmitFacts.

(* ===================================================================== *)
(** ** Reading the calls back *)
(* ===================================================================== *)

Section ReadFacts.

Lemma read_calls_string s rest stack stack' :
  push_value (Ystring s) stack = Some stack' ->
  read_calls (call_string s :: rest) stack = read_calls rest stack'.
Proof.
  intros Hp. destruct stack as [|[[x|]|done [k|]|done] st]; simpl in *;
    try discriminate; now inversion Hp.
Qed.

(** The calls of a parsed tree read back as the tree. *)
Lemma read_value v :
  parsed v = true ->
  forall rest stack stack',
    push_value v stack = Some stack' ->
    read_calls (calls_of_val v ++ rest) stack = read_calls rest stack'.
Proof.
  induction v as [s|r|slots IH|vs IH| | |] using yajl_val_nested_ind;
    intros Hp rest stack stack' Hpush.
  - now apply read_calls_string.
  - simpl. now rewrite Hpush.
  - (* object *)
    assert (Hm : forall rest' done st,
               read_calls (calls_of_members slots ++ rest') (Fobject done None :: st)
               = read_calls rest' (Fobject (rev slots ++ done) None :: st)).
    { simpl in Hp. clear -IH Hp.
      induction slots as [|[[k|] [x|]] more IHs]; intros rest' done st;
        simpl in Hp; try discriminate.
      - reflexivity.
      - apply andb_prop in Hp as [Hx Hmore]. inversion IH as [|? ? Hhd Htl]; subst.
        simpl in Hhd.
        change (calls_of_members ((Some k, Some x) :: more) ++ rest')
          with (call_string k :: (calls_of_val x ++ calls_of_members more) ++ rest').
        rewrite <- app_assoc.
        change (read_calls (call_string k :: calls_of_val x ++ calls_of_members more ++ rest')
                  (Fobject done None :: st))
          with (read_calls (calls_of_val x ++ calls_of_members more ++ rest')
                  (Fobject done (Some k) :: st)).
        rewrite (Hhd Hx _ (Fobject done (Some k) :: st) _ eq_refl), (IHs Htl Hmore).
        simpl. now rewrite <- app_assoc. }
    rewrite calls_of_object.
    change ((call_map_open :: calls_of_members slots ++ [call_map_close]) ++ rest)
      with (call_map_open :: (calls_of_members slots ++ [call_map_close]) ++ rest).
    rewrite <- app_assoc.
    change (read_calls (call_map_open :: calls_of_members slots ++ [call_map_close] ++ rest) stack)
      with (read_calls (calls_of_members slots ++ call_map_close :: rest)
              (Fobject [] None :: stack)).
    rewrite Hm, app_nil_r. simpl. now rewrite rev_involutive, Hpush.
  - (* array *)
    set (ccells := fix cells (vs : list (option yajl_val)) : list gen_call :=
                     match vs with
                     | [] => []
                     | Some x :: rest => calls_of_val x ++ cells rest
                     | None :: rest => cells rest
                     end).
    assert (Hm : forall rest' done st,
               read_calls (ccells vs ++ rest') (Farray done :: st)
               = read_calls rest' (Farray (rev vs ++ done) :: st)).
    { simpl in Hp. clear -IH Hp.
      induction vs as [|[x|] more IHs]; intros rest' done st;
        simpl in Hp; try discriminate.
      - reflexivity.
      - apply andb_prop in Hp as [Hx Hmore]. inversion IH as [|? ? Hhd Htl]; subst.
        change (ccells (Some x :: more) ++ rest')
          with ((calls_of_val x ++ ccells more) ++ rest').
        rewrite <- app_assoc.
        rewrite (Hhd Hx _ (Farray done :: st) _ eq_refl), (IHs Htl Hmore).
        simpl. now rewrite <- app_assoc. }
    change (calls_of_val (Yarray vs) ++ rest)
      with (call_array_open :: (ccells vs ++ [call_array_close]) ++ rest).
    rewrite <- app_assoc.
    change (read_calls (call_array_open :: ccells vs ++ [call_array_close] ++ rest) stack)
      with (read_calls (ccells vs ++ call_array_close :: rest) (Farray [] :: stack)).
    rewrite Hm, app_nil_r. simpl. now rewrite rev_involutive, Hpush.
  - simpl. now rewrite Hpush.
  - simpl. now rewrite Hpush.
  - simpl. now rewrite Hpush.
Qed.

Lemma document_of_calls v :
  parsed v = true -> document_of (calls_of_val v) = Some v.
Proof.
  intros Hp. unfold document_of.
  rewrite <- (app_nil_r (calls_of_val v)).
  now rewrite (read_value v Hp [] [Ftop None] [Ftop (Some v)] eq_refl).
Qed.

End ReadFacts.

(* ===================================================================== *)
(** ** Encoding *)
(* ===================================================================== *)

Section GenFacts.

Context (ctx : parser_context).

Lemma gen_bool_member_accepts {R : Type} name (ptr : option R) (f fp : R -> bool) :
  match ptr with Some r => zero_when_absent f fp r = true | None => True end ->
  accepts (gen_bool_member ctx name ptr f fp)
          (bool_member_calls ctx name (ptr ≫= tri_state f fp)).
Proof.
  intros Hz. unfold gen_bool_member, bool_member_calls, tri_state, zero_when_absent in *.
  destruct ptr as [r|]; simpl.
  - destruct (opt ctx OPT_GEN_KEY_VALUE), (fp r) eqn:Hp, (f r) eqn:Hf;
      simpl in *; try discriminate;
      first [apply accepts_nil
            | apply (accepts_then (yajl_gen_string name) _ [_] [_]); apply accepts_emit].
  - destruct (opt ctx OPT_GEN_KEY_VALUE); simpl;
      first [apply accepts_nil
            | apply (accepts_then (yajl_gen_string name) _ [_] [_]); apply accepts_emit].
Qed.

Lemma gen_string_member_accepts {R : Type} name (ptr : option R) (f : R -> option string) :
  accepts (gen_string_member ctx name ptr f)
          (string_member_calls ctx name (ptr ≫= f)).
Proof.
  unfold gen_string_member, string_member_calls.
  destruct ptr as [r|]; simpl.
  - destruct (opt ctx OPT_GEN_KEY_VALUE), (f r) as [s|]; simpl;
      first [apply accepts_nil
            | apply (accepts_then (yajl_gen_string name) _ [_] [_]); apply accepts_emit].
  - destruct (opt ctx OPT_GEN_KEY_VALUE); simpl;
      first [apply accepts_nil
            | apply (accepts_then (yajl_gen_string name) _ [_] [_]); apply accepts_emit].
Qed.

Lemma gen_string_cells_accepts (cells : list (option string)) n : forall i,
  forallb (fun k => match cells !! k with Some (Some _) => true | _ => false end)
          (seq i n) = true ->
  accepts (gen_string_cells cells i n)
          (map call_string (omap id (take n (drop i cells)))).
Proof.
  induction n as [|n IH]; intros i Hall.
  - rewrite take_0. apply accepts_nil.
  - simpl in Hall. apply andb_prop in Hall as [Hi Hrest].
    destruct (cells !! i) as [[s|]|] eqn:E; try discriminate.
    rewrite (drop_S _ _ _ E). intros g Hg. simpl. rewrite E.
    exact (accepts_then (yajl_gen_string s) (gen_string_cells cells (S i) n)
             [call_string s] _ (accepts_emit _) (IH (S i) Hrest) g Hg).
Qed.

Lemma accepts_if (b : bool) c :
  accepts (fun g => if b then yajl_gen_config_beautify c g else GenOk g)
          (if b then [call_config_beautify c] else []).
Proof. destruct b; [apply accepts_config|apply accepts_nil]. Qed.

Lemma array_state_length (cs : list (option string)) len :
  array_ok (Some cs) len = true -> length (omap id (take len cs)) = len.
Proof.
  unfold array_ok. intros H.
  assert (Hgen : forall n i,
             forallb (fun k => match cs !! k with Some (Some _) => true | _ => false end)
                     (seq i n) = true ->
             length (omap id (take n (drop i cs))) = n).
  { induction n as [|n IH]; intros i Hall.
    - now rewrite take_0.
    - simpl in Hall. apply andb_prop in Hall as [Hi Hrest].
      destruct (cs !! i) as [[s|]|] eqn:E; try discriminate.
      rewrite (drop_S _ _ _ E).
      change (length (omap id (take (S n) (Some s :: drop (S i) cs))))
        with (S (length (omap id (take n (drop (S i) cs))))).
      now rewrite (IH (S i) Hrest). }
  specialize (Hgen len 0%nat H). now rewrite drop_0 in Hgen.
Qed.

Lemma accepts_array name (flat : bool) cells cs :
  accepts cells cs ->
  accepts (fun g => yajl_gen_string name g
                    >>> (fun g => if flat then yajl_gen_config_beautify false g
                                  else GenOk g)
                    >>> yajl_gen_array_open
                    >>> cells
                    >>> yajl_gen_array_close
                    >>> (fun g => if flat then yajl_gen_config_beautify true g
                                  else GenOk g))
          ([call_string name]
           ++ (if flat then [call_config_beautify false] else [])
           ++ [call_array_open] ++ cs ++ [call_array_close]
           ++ (if flat then [call_config_beautify true] else [])).
Proof.
  intros Hc. rewrite !app_assoc.
  repeat first [exact Hc | apply accepts_then | apply accepts_emit | apply accepts_if].
Qed.

Lemma gen_string_array_member_accepts {R : Type} name (ptr : option R)
    (f : R -> option (list (option string))) (f_len : R -> nat) :
  match ptr with Some r => array_ok (f r) (f_len r) = true | None => True end ->
  accepts (gen_string_array_member ctx name ptr f f_len)
          (array_member_calls ctx name (ptr ≫= fun r => array_state (f r) (f_len r))).
Proof.
  intros Hok. unfold gen_string_array_member, array_member_calls.
  destruct ptr as [r|].
  - change (Some r ≫= λ r0, array_state (f r0) (f_len r0))
      with (array_state (f r) (f_len r)).
    destruct (f r) as [cs|] eqn:Ef.
    + change (array_state (Some cs) (f_len r)) with (Some (omap id (take (f_len r) cs))).
      cbn [non_null default_array]. rewrite orb_true_r.
      rewrite (array_state_length cs (f_len r) Hok).
      unfold array_ok in Hok.
      pose proof (gen_string_cells_accepts cs (f_len r) 0%nat Hok) as Hcells.
      rewrite drop_0 in Hcells.
      now apply accepts_array.
    + change (array_state None (f_len r)) with (@None (list string)).
      cbn [non_null default_array]. rewrite orb_false_r.
      destruct (opt ctx OPT_GEN_KEY_VALUE).
      * apply (accepts_array name _ (gen_string_cells [] 0 0) []), accepts_nil.
      * apply accepts_nil.
  - change (None ≫= λ r0 : R, array_state (f r0) (f_len r0)) with (@None (list string)).
    cbn [non_null default_array]. rewrite orb_false_r.
    destruct (opt ctx OPT_GEN_KEY_VALUE).
    + apply (accepts_array name _ (gen_string_cells [] 0 0) []), accepts_nil.
    + apply accepts_nil.
Qed.

Lemma gen_residual_accepts {R : Type} (ptr : option R) (resi : R -> option yajl_val) :
  match ptr with Some r => residual_ok (resi r) = true | None => True end ->
  accepts (gen_residual ptr resi) (residual_calls (ptr ≫= resi)).
Proof.
  intros Hok. unfold gen_residual, residual_calls.
  destruct ptr as [r|]; simpl; [|apply accepts_nil].
  destruct (resi r) as [[]|]; simpl in *; try discriminate; [|apply accepts_nil].
  now apply gen_members_accepts.
Qed.

End GenFacts.

Ltac split_andb :=
  repeat match goal with
         | H : _ && _ = true |- _ => apply andb_prop in H as [? ?]
         end.

Lemma gen_cgroup_accepts ctx (ptr : option cgroup) :
  cgroup_ok ptr = true ->
  accepts (fun g => gen_runtime_spec_schema_features_linux_cgroup g ptr ctx)
          (cgroup_calls ctx ptr).
Proof.
  intros Hok. unfold gen_runtime_spec_schema_features_linux_cgroup, cgroup_calls.
  rewrite !app_assoc.
  repeat first [apply accepts_then | apply accepts_emit];
    first [apply gen_bool_member_accepts | apply gen_residual_accepts];
    destruct ptr as [r|]; try exact I;
    cbn [cgroup_ok cgroup_bools forallb fst snd] in Hok; split_andb; assumption.
Qed.

Lemma gen_seccomp_accepts ctx (ptr : option seccomp) :
  seccomp_ok ptr = true ->
  accepts (fun g => gen_runtime_spec_schema_features_linux_seccomp g ptr ctx)
          (seccomp_calls ctx ptr).
Proof.
  intros Hok. unfold gen_runtime_spec_schema_features_linux_seccomp, seccomp_calls.
  rewrite !app_assoc.
  repeat first [apply accepts_then | apply accepts_emit];
    first [apply gen_bool_member_accepts | apply gen_string_array_member_accepts
          | apply gen_residual_accepts];
    destruct ptr as [r|]; try exact I;
    cbn [seccomp_ok] in Hok; split_andb; assumption.
Qed.

Lemma gen_zos_accepts ctx (ptr : option namespace_reference) :
  zos_ok ptr = true ->
  accepts (fun g => gen_runtime_spec_schema_defs_zos_namespace_reference g ptr ctx)
          (zos_calls ctx ptr).
Proof.
  intros Hok. unfold gen_runtime_spec_schema_defs_zos_namespace_reference, zos_calls.
  rewrite !app_assoc.
  repeat first [apply accepts_then | apply accepts_emit];
    first [apply gen_string_member_accepts | apply gen_residual_accepts].
  destruct ptr as [r|]; [exact Hok|exact I].
Qed.

(** C7, the statement refuted.  A record may hold [v1 = true] with the
    present bit clear; under OPT_GEN_KEY_VALUE the encoder then emits
    "v1": true, not the default false. *)
Lemma always_emit_counterexample :
  ~ emits_defaults_for_every_record
      {| v1 := true; v2 := false; systemd := false; systemd_user := false;
         rdma := false; Cgroup._residual := None;
         v1_present := false; v2_present := false; systemd_present := false;
         systemd_user_present := false; rdma_present := false |}
      {| options := OPT_GEN_KEY_VALUE; errfile := None |}.
Proof. unfold emits_defaults_for_every_record. vm_compute. intros H. discriminate H. Qed.

(** C7, amended.  On an emitter that does not fail and for well-formed
    records (an absent boolean holds false, as in every record a decoder
    builds), each encoder emits the opening of an object, its known
    members in schema order, the residual members and the closing.  A
    known member is emitted when OPT_GEN_KEY_VALUE is set or the field is
    present; an absent field is then emitted as false, as the empty string
    or as an empty array.  With the option clear an absent field emits
    nothing. *)
Theorem gen_known_members (g : yajl_gen) (ctx : parser_context)
    (pc : option cgroup) (ps : option seccomp) (pz : option namespace_reference) :
  room g = None ->
  cgroup_ok pc = true ->
  seccomp_ok ps = true ->
  zos_ok pz = true ->
  gen_runtime_spec_schema_features_linux_cgroup g pc ctx
    = GenOk (extend g (cgroup_calls ctx pc))
  /\ gen_runtime_spec_schema_features_linux_seccomp g ps ctx
     = GenOk (extend g (seccomp_calls ctx ps))
  /\ gen_runtime_spec_schema_defs_zos_namespace_reference g pz ctx
     = GenOk (extend g (zos_calls ctx pz)).
Proof.
  intros Hg Hc Hs Hz. repeat split.
  - exact (gen_cgroup_accepts ctx pc Hc g Hg).
  - exact (gen_seccomp_accepts ctx ps Hs g Hg).
  - exact (gen_zos_accepts ctx pz Hz g Hg).
Qed.

Lemma gen_known_members_witness :
  let g := {| calls := []; room := None |} in
  let ctx := {| options := OPT_GEN_KEY_VALUE; errfile := None |} in
  let ps : option seccomp :=
    Some {| Seccomp.enabled := false;
            Seccomp.actions := Some [Some "allow"; Some "kill"; None];
            Seccomp.actions_len := 2;
            Seccomp.operators := None; Seccomp.operators_len := 0;
            Seccomp.archs := None; Seccomp.archs_len := 0;
            Seccomp.known_flags := None; Seccomp.known_flags_len := 0;
            Seccomp.supported_flags := None; Seccomp.supported_flags_len := 0;
            Seccomp._residual := None;
            Seccomp.enabled_present := false |} in
  gen_runtime_spec_schema_features_linux_cgroup g None ctx
    = GenOk (extend g (cgroup_calls ctx None))
  /\ gen_runtime_spec_schema_features_linux_seccomp g ps ctx
     = GenOk (extend g (seccomp_calls ctx ps))
  /\ gen_runtime_spec_schema_defs_zos_namespace_reference g None ctx
     = GenOk (extend g (zos_calls ctx None)).
Proof. intros g ctx ps. apply gen_known_members; reflexivity. Defined.

(* ===================================================================== *)
(** ** Decoding and encoding again *)
(* ===================================================================== *)

Section RoundTrip.

Implicit Types (slots : list slot) (k : string).

Lemma member_app k slots1 slots2 :
  member k (slots1 ++ slots2)
  = match member k slots1 with
    | Some v => Some v
    | None => member k slots2
    end.
Proof.
  induction slots1 as [|[[k'|] [v|]] rest IH]; simpl; auto.
  destruct (String.eqb k k'); auto.
Qed.

Lemma unknown_key_known k :
  In k cgroup_keys -> Cgroup.unknown_key k = false.
Proof.
  unfold cgroup_keys. simpl.
  intros [<-|[<-|[<-|[<-|[<-|[]]]]]]; reflexivity.
Qed.

Lemma unknown_key_eqb k k' :
  In k cgroup_keys -> Cgroup.unknown_key k' = true -> String.eqb k k' = false.
Proof.
  intros Hin Hu. destruct (String.eqb_spec k k') as [->|]; auto.
  now rewrite (unknown_key_known k' Hin) in Hu.
Qed.

Lemma member_unknown_slots k slots :
  In k cgroup_keys -> member k (unknown_slots slots) = None.
Proof.
  intros Hin. unfold unknown_slots.
  induction slots as [|[[k'|] [v|]] rest IH]; simpl; auto.
  - unfold slot_unknown at 1. simpl.
    destruct (Cgroup.unknown_key k') eqn:Hu; auto.
    simpl. now rewrite (unknown_key_eqb k k' Hin Hu).
  - unfold slot_unknown at 1. simpl.
    destruct (Cgroup.unknown_key k'); auto.
Qed.

Lemma unknown_slots_idem slots :
  unknown_slots (unknown_slots slots) = unknown_slots slots.
Proof.
  unfold unknown_slots.
  induction slots as [|s rest IH]; simpl; auto.
  destruct (slot_unknown Cgroup.unknown_key s) eqn:E; simpl; auto.
  now rewrite E, IH.
Qed.

Lemma unknown_slots_known slots : unknown_slots (known_slots slots) = [].
Proof.
  unfold known_slots, cgroup_keys. simpl.
  destruct (bool_field "v1" slots), (bool_field "v2" slots),
    (bool_field "systemd" slots), (bool_field "systemdUser" slots),
    (bool_field "rdma" slots); reflexivity.
Qed.

Lemma member_known_slots k slots :
  In k cgroup_keys ->
  member k (known_slots slots) = yajl_of_bool <$> bool_field k slots.
Proof.
  unfold known_slots, cgroup_keys. simpl.
  intros [<-|[<-|[<-|[<-|[<-|[]]]]]];
    destruct (bool_field "v1" slots), (bool_field "v2" slots),
      (bool_field "systemd" slots), (bool_field "systemdUser" slots),
      (bool_field "rdma" slots); reflexivity.
Qed.

Lemma parsed_filter (f : slot -> bool) slots :
  parsed (Yobject slots) = true -> parsed (Yobject (List.filter f slots)) = true.
Proof.
  simpl. induction slots as [|s rest IH]; simpl; auto.
  intros H. apply andb_prop in H as [Hs Hrest].
  destruct (f s); simpl; auto. now rewrite Hs, IH.
Qed.

Lemma parsed_app slots1 slots2 :
  parsed (Yobject slots1) = true -> parsed (Yobject slots2) = true ->
  parsed (Yobject (slots1 ++ slots2)) = true.
Proof. simpl. intros H1 H2. now rewrite forallb_app, H1, H2. Qed.

Lemma parsed_known_slots slots : parsed (Yobject (known_slots slots)) = true.
Proof.
  unfold known_slots, cgroup_keys. simpl.
  destruct (bool_field "v1" slots) as [[]|], (bool_field "v2" slots) as [[]|],
    (bool_field "systemd" slots) as [[]|], (bool_field "systemdUser" slots) as [[]|],
    (bool_field "rdma" slots) as [[]|]; reflexivity.
Qed.

(** The decoder in closed form over a parsed object. *)
Lemma make_cgroup_closed slots ctx :
  parsed (Yobject slots) = true ->
  make_runtime_spec_schema_features_linux_cgroup (Some (Yobject slots)) ctx
  = Some {| ret := Some (decoded_cgroup slots (opt ctx OPT_PARSE_FULLKEY));
            err := None;
            tree_after :=
              Some (Yobject
                      (if opt ctx OPT_PARSE_FULLKEY
                       then map (fun s => if slot_unknown Cgroup.unknown_key s
                                          then (None, None) else s) slots
                       else slots));
            written :=
              warn_unknown ctx
                (length (List.filter (slot_unknown Cgroup.unknown_key) slots)) |}.
Proof.
  intros Hp.
  pose proof (parsed_object_full slots Hp) as Hslots.
  pose proof (full_keys_present slots Hslots) as Hkeys.
  unfold make_runtime_spec_schema_features_linux_cgroup, decoded_cgroup.
  rewrite !(make_bool_member slots _ Hslots).
  rewrite (residual_loop_closed _ _ slots Hkeys).
  destruct (bool_field "v1" slots), (bool_field "v2" slots),
    (bool_field "systemd" slots), (bool_field "systemdUser" slots),
    (bool_field "rdma" slots), (opt ctx OPT_PARSE_FULLKEY); reflexivity.
Qed.

Lemma decoded_cgroup_ok slots fullkey :
  parsed (Yobject slots) = true ->
  cgroup_ok (Some (decoded_cgroup slots fullkey)) = true.
Proof.
  intros Hp.
  cbn [cgroup_ok cgroup_bools forallb fst snd Cgroup._residual decoded_cgroup].
  assert (Hres : residual_ok
                   (if fullkey
                    then Some (Yobject (List.filter (slot_unknown Cgroup.unknown_key) slots))
                    else None) = true).
  { destruct fullkey; [|reflexivity]. cbn [residual_ok]. now apply parsed_filter. }
  rewrite Hres. unfold zero_when_absent. simpl.
  destruct (bool_field "v1" slots) as [[]|], (bool_field "v2" slots) as [[]|],
    (bool_field "systemd" slots) as [[]|], (bool_field "systemdUser" slots) as [[]|],
    (bool_field "rdma" slots) as [[]|]; reflexivity.
Qed.

(** What decoding with FULLKEY and encoding without KEY_VALUE writes. *)
Lemma decode_encode_closed slots dctx gctx :
  parsed (Yobject slots) = true ->
  opt dctx OPT_PARSE_FULLKEY = true ->
  opt gctx OPT_GEN_KEY_VALUE = false ->
  decode_encode (Yobject slots) dctx gctx
  = Some (Yobject (known_slots slots ++ unknown_slots slots)).
Proof.
  intros Hp Hfull Hkv.
  unfold decode_encode. rewrite (make_cgroup_closed slots dctx Hp), Hfull.
  cbn [mbind option_bind ret].
  pose proof (gen_cgroup_accepts gctx _ (decoded_cgroup_ok slots true Hp)
                {| calls := []; room := None |} eq_refl) as Hgen.
  cbv beta in Hgen. rewrite Hgen.
  cbn [extend calls app].
  replace (cgroup_calls gctx (Some (decoded_cgroup slots true)))
    with (calls_of_val (Yobject (known_slots slots ++ unknown_slots slots))).
  { apply document_of_calls, parsed_app;
      [apply parsed_known_slots | now apply parsed_filter]. }
  rewrite calls_of_object, calls_of_members_app.
  unfold cgroup_calls, bool_member_calls, known_slots, cgroup_keys, tri_state,
    decoded_cgroup.
  rewrite Hkv. cbn [mbind option_bind flat_map orb].
  destruct (bool_field "v1" slots) as [[]|], (bool_field "v2" slots) as [[]|],
    (bool_field "systemd" slots) as [[]|], (bool_field "systemdUser" slots) as [[]|],
    (bool_field "rdma" slots) as [[]|]; reflexivity.
Qed.

End RoundTrip.

(** C1, the statement refuted.  A string under the known key "v1" is
    passed over by the decoder and is not written back. *)
Lemma round_trip_counterexample :
  ~ round_trip_identity
      [(Some "v1", Some (Ystring "yes")); (Some "unknownKey", Some (Ystring "x"))]
      {| options := OPT_PARSE_FULLKEY; errfile := None |}
      {| options := 0; errfile := None |}.
Proof.
  intros (out & Hde & Hknown & _).
  vm_compute in Hde. inversion Hde; subst out.
  specialize (Hknown "v1" ltac:(now left)). vm_compute in Hknown. discriminate.
Qed.

(** C1, amended.  For a parsed object, decoding with OPT_PARSE_FULLKEY and
    encoding the record without OPT_GEN_KEY_VALUE writes an object that
    holds, in schema order, each known key under which the source held a
    JSON boolean, with that boolean, followed by the entries under unknown
    keys, unchanged and in their order; a known key that held anything
    else is not written.  Decoding { "v1": true, "unknownKey": "x" } gives
    v1 present and true, the other fields absent, the residual
    { "unknownKey": "x" }, and the document written back is the source. *)
Theorem round_trip (slots : list slot) (dctx gctx : parser_context) :
  parsed (Yobject slots) = true ->
  opt dctx OPT_PARSE_FULLKEY = true ->
  opt gctx OPT_GEN_KEY_VALUE = false ->
  let example := [(Some "v1", Some Ytrue); (Some "unknownKey", Some (Ystring "x"))] in
  (exists out,
      decode_encode (Yobject slots) dctx gctx = Some (Yobject out)
      /\ out = known_slots slots ++ unknown_slots slots
      /\ (forall k, In k cgroup_keys ->
                    member k out = yajl_of_bool <$> bool_field k slots)
      /\ unknown_slots out = unknown_slots slots)
  /\ (ret <$> make_runtime_spec_schema_features_linux_cgroup (Some (Yobject example)) dctx)
     = Some (Some {| v1 := true; v2 := false; systemd := false;
                     systemd_user := false; rdma := false;
                     Cgroup._residual :=
                       Some (Yobject [(Some "unknownKey", Some (Ystring "x"))]);
                     v1_present := true; v2_present := false;
                     systemd_present := false; systemd_user_present := false;
                     rdma_present := false |})
  /\ decode_encode (Yobject example) dctx gctx = Some (Yobject example).
Proof.
  intros Hp Hfull Hkv example. split; [|split].
  - exists (known_slots slots ++ unknown_slots slots).
    split; [now apply decode_encode_closed|]. split; [reflexivity|]. split.
    + intros k Hk. rewrite member_app, (member_known_slots k slots Hk).
      destruct (bool_field k slots); simpl; auto.
      now apply member_unknown_slots.
    + unfold unknown_slots at 1. rewrite List.filter_app.
      fold (unknown_slots (known_slots slots)).
      fold (unknown_slots (unknown_slots slots)).
      now rewrite unknown_slots_known, unknown_slots_idem.
  - unfold make_runtime_spec_schema_features_linux_cgroup. simpl. now rewrite Hfull.
  - now rewrite (decode_encode_closed example dctx gctx eq_refl Hfull Hkv).
Qed.

Lemma round_trip_witness :
  let slots := [(Some "rdma", Some Yfalse); (Some "note", Some (Yarray [Some Ynull]));
                (Some "v2", Some (Ynumber "2")); (Some "v1", Some Ytrue)] in
  let dctx := {| options := OPT_PARSE_FULLKEY; errfile := None |} in
  let gctx := {| options := OPT_GEN_SIMPLIFY; errfile := None |} in
  let example := [(Some "v1", Some Ytrue); (Some "unknownKey", Some (Ystring "x"))] in
  (exists out,
      decode_encode (Yobject slots) dctx gctx = Some (Yobject out)
      /\ out = [(Some "v1", Some Ytrue); (Some "rdma", Some Yfalse);
                (Some "note", Some (Yarray [Some Ynull]))]
      /\ (forall k, In k cgroup_keys ->
                    member k out = yajl_of_bool <$> bool_field k slots)
      /\ unknown_slots out = unknown_slots slots)
  /\ (ret <$> make_runtime_spec_schema_features_linux_cgroup (Some (Yobject example)) dctx)
     = Some (Some {| v1 := true; v2 := false; systemd := false;
                     systemd_user := false; rdma := false;
                     Cgroup._residual :=
                       Some (Yobject [(Some "unknownKey", Some (Ystring "x"))]);
                     v1_present := true; v2_present := false;
                     systemd_present := false; systemd_user_present := false;
                     rdma_present := false |})
  /\ decode_encode (Yobject example) dctx gctx = Some (Yobject example).
Proof.
  intros slots dctx gctx example.
  exact (round_trip slots dctx gctx eq_refl eq_refl eq_refl).
Defined.

(* ===================================================================== *)
(** ** The store *)
(* ===================================================================== *)

Import Mem.

Section StoreFacts.

Implicit Types (h : gmap loc block) (m : mem) (l p a : loc) (ls : list loc).

Lemma with_heap_same m : with_heap (heap m) m = m.
Proof. now destruct m. Qed.

Lemma with_heap_twice h1 h2 m : with_heap h2 (with_heap h1 m) = with_heap h2 m.
Proof. reflexivity. Qed.

Lemma heap_with_heap h m : heap (with_heap h m) = h.
Proof. reflexivity. Qed.

Lemma lookup_release ls h l :
  release ls h !! l = if decide (l ∈ ls) then None else h !! l.
Proof.
  unfold release. induction ls as [|x ls IH]; simpl.
  - destruct (decide (l ∈ [])) as [Hin|_]; [|reflexivity]. now apply elem_of_nil in Hin.
  - destruct (decide (l = x)) as [->|Hne].
    + rewrite lookup_delete_eq. destruct (decide (x ∈ x :: ls)) as [_|Hn]; [reflexivity|].
      exfalso. apply Hn. now left.
    + rewrite lookup_delete_ne by congruence. rewrite IH.
      destruct (decide (l ∈ ls)) as [Hin|Hn], (decide (l ∈ x :: ls)) as [Hin'|Hn'];
        try reflexivity.
      * exfalso. apply Hn'. now right.
      * exfalso. apply elem_of_cons in Hin' as [?|?]; congruence.
Qed.

Lemma release_app ls1 ls2 h : release (ls1 ++ ls2) h = release ls1 (release ls2 h).
Proof. unfold release. now rewrite foldr_app. Qed.

(** Releasing is insensitive to the order of the addresses. *)
Lemma release_same_elements ls1 ls2 h :
  (forall l, l ∈ ls1 <-> l ∈ ls2) -> release ls1 h = release ls2 h.
Proof.
  intros Hsame. apply map_eq. intros l. rewrite !lookup_release.
  destruct (decide (l ∈ ls1)) as [H1|H1], (decide (l ∈ ls2)) as [H2|H2];
    try reflexivity; exfalso; [apply H2|apply H1]; now apply Hsame.
Qed.

Lemma release_insert_away ls h p b :
  p ∉ ls -> release ls (<[p := b]> h) = <[p := b]> (release ls h).
Proof.
  intros Hp. apply map_eq. intros l. rewrite lookup_release.
  destruct (decide (l = p)) as [->|Hne].
  - rewrite !lookup_insert_eq. now destruct (decide (p ∈ ls)).
  - rewrite !lookup_insert_ne by congruence. now rewrite lookup_release.
Qed.

Lemma alloc_unbounded b m :
  oracle m = [] ->
  alloc b m = (Some (fresh (dom (heap m))),
               {| heap := <[fresh (dom (heap m)) := b]> (heap m); oracle := [] |}).
Proof. unfold alloc. now intros ->. Qed.

Lemma fresh_unused h : h !! fresh (dom h) = None.
Proof. apply not_elem_of_dom, is_fresh. Qed.

Lemma store_allocated l b b0 m :
  heap m !! l = Some b0 -> store l b m = Some (with_heap (<[l := b]> (heap m)) m).
Proof. unfold store. now intros ->. Qed.

Lemma free_allocated l b0 m :
  heap m !! l = Some b0 -> free l m = Some (with_heap (delete l (heap m)) m).
Proof. unfold free. now intros ->. Qed.

End StoreFacts.

(* ===================================================================== *)
(** ** Releasing an array of strings *)
(* ===================================================================== *)

Section FreeArray.

Implicit Types (h : gmap loc block) (m : mem) (l p a : loc) (ls : list loc)
  (cs pre post : list (option loc)).

Lemma lookup_middle pre (c : option loc) post :
  (pre ++ c :: post) !! length pre = Some c.
Proof. now rewrite list_lookup_middle. Qed.

Lemma insert_middle pre (c c' : option loc) post :
  <[length pre := c']> (pre ++ c :: post) = pre ++ c' :: post.
Proof.
  rewrite insert_app_r_alt by lia. now rewrite Nat.sub_diag.
Qed.

(** The loop of [free_*] over the cells [cs] of an array: every string is
    released and its cell set to NULL. *)
Lemma free_cells_spec cs : forall pre post a m,
  heap m !! a = Some (Bcells (pre ++ cs ++ post)) ->
  NoDup (a :: omap id cs) ->
  Forall (fun l => is_Some (heap m !! l)) (omap id cs) ->
  free_cells a (length pre) (length cs) m
  = Some (with_heap
            (<[a := Bcells (pre ++ replicate (length cs) None ++ post)]>
               (release (omap id cs) (heap m))) m).
Proof.
  induction cs as [|[l|] cs IH]; intros pre post a m Ha Hnd Hall.
  - simpl. f_equal. unfold release. simpl.
    rewrite insert_id by exact Ha. now rewrite with_heap_same.
  - (* a string to release *)
    change ((Some l :: cs) ++ post) with (Some l :: cs ++ post) in Ha.
    cbn [free_cells length]. rewrite Ha, lookup_middle.
    simpl in Hnd, Hall.
    apply NoDup_cons in Hnd as [Hal Hnd]. apply NoDup_cons in Hnd as [Hl Hnd].
    apply not_elem_of_cons in Hal as [Hne Hacs].
    apply Forall_cons in Hall as [[b Hb] Hall].
    rewrite (free_allocated l b m Hb). cbn [mbind option_bind].
    rewrite insert_middle.
    erewrite store_allocated
      by (rewrite heap_with_heap, lookup_delete_ne by congruence; exact Ha).
    cbn [mbind option_bind]. rewrite with_heap_twice, heap_with_heap.
    replace (S (length pre)) with (length (pre ++ [None])) by (rewrite length_app; simpl; lia).
    rewrite (IH (pre ++ [None]) post a).
    + rewrite with_heap_twice, heap_with_heap. do 2 f_equal.
      replace ((pre ++ [None]) ++ replicate (length cs) None ++ post)
        with (pre ++ replicate (S (length cs)) None ++ post)
        by (simpl; now rewrite <- app_assoc).
      apply map_eq. intros k.
      destruct (decide (k = a)) as [->|Hka]; [now rewrite !lookup_insert_eq|].
      rewrite !lookup_insert_ne by congruence.
      rewrite !lookup_release.
      change (omap id (Some l :: cs)) with (l :: omap id cs).
      destruct (decide (k = l)) as [->|Hkl].
      * rewrite (decide_True (P := l ∈ l :: omap id cs)) by (now left).
        rewrite decide_False by assumption.
        rewrite lookup_insert_ne by congruence. now rewrite lookup_delete_eq.
      * destruct (decide (k ∈ omap id cs)) as [Hin|Hnin].
        -- rewrite decide_True by (now right). reflexivity.
        -- rewrite decide_False by (intros [?|?]%elem_of_cons; congruence).
           rewrite lookup_insert_ne by congruence.
           now rewrite lookup_delete_ne by congruence.
    + rewrite heap_with_heap, lookup_insert_eq. now rewrite <- app_assoc.
    + now apply NoDup_cons.
    + rewrite heap_with_heap. apply Forall_forall. intros k Hk.
      rewrite Forall_forall in Hall. destruct (Hall k Hk) as [bk Hbk]. exists bk.
      rewrite lookup_insert_ne by (intros ->; contradiction).
      rewrite lookup_delete_ne by (intros ->; contradiction). exact Hbk.
  - (* a NULL cell *)
    change ((None :: cs) ++ post) with (None :: cs ++ post) in Ha.
    cbn [free_cells length]. rewrite Ha, lookup_middle.
    replace (S (length pre)) with (length (pre ++ [None])) by (rewrite length_app; simpl; lia).
    rewrite (IH (pre ++ [None]) post a m).
    + do 3 f_equal. simpl. now rewrite <- app_assoc.
    + now rewrite <- app_assoc.
    + exact Hnd.
    + exact Hall.
Qed.

End FreeArray.

Section FreeField.

Implicit Types (h : gmap loc block) (m : mem) (l p a : loc) (ls F : list loc).

Lemma shape_split (cells : list (option loc)) len :
  Nat.eqb (length cells) (S len)
  && match last cells with Some None => true | _ => false end = true ->
  exists cs, cells = cs ++ [None] /\ length cs = len.
Proof.
  intros H. apply andb_prop in H as [Hlen Hlast].
  apply Nat.eqb_eq in Hlen.
  destruct (last cells) as [[|]|] eqn:E; try discriminate.
  apply last_Some in E as [cs ->]. exists cs. split; [reflexivity|].
  rewrite length_app in Hlen. simpl in Hlen. lia.
Qed.

Lemma omap_snoc_none (cs : list (option loc)) : omap id (cs ++ [None]) = omap id cs.
Proof. rewrite omap_app. simpl. apply app_nil_r. Qed.

(** Objects at addresses whose blocks two stores agree on look alike. *)
Lemma array_locs_agree h h' ptr :
  (forall a, ptr = Some a -> h' !! a = h !! a) ->
  array_locs h' ptr = array_locs h ptr.
Proof. intros H. destruct ptr as [a|]; simpl; [|reflexivity]. now rewrite (H a). Qed.

Lemma array_shape_agree h h' ptr len :
  (forall a, ptr = Some a -> h' !! a = h !! a) ->
  array_shape h' ptr len = array_shape h ptr len.
Proof. intros H. destruct ptr as [a|]; simpl; [|reflexivity]. now rewrite (H a). Qed.

Lemma lookup_rest p F h0 (b : block) l :
  l <> p -> l ∉ F -> (<[p := b]> (release F h0)) !! l = h0 !! l.
Proof.
  intros Hp HF. rewrite lookup_insert_ne by congruence.
  rewrite lookup_release. now rewrite decide_False.
Qed.

(** One array member of [free_*], on a store that is the original store
    [h0] less the addresses [F] released so far. *)
Lemma free_array_field_step fld p h0 F r m :
  lawful fld ->
  heap m = <[p := Bseccomp r]> (release F h0) ->
  array_shape h0 (get_ptr fld r) (get_len fld r) = true ->
  NoDup (p :: array_locs h0 (get_ptr fld r) ++ F) ->
  Forall (fun l => is_Some (h0 !! l)) (array_locs h0 (get_ptr fld r)) ->
  free_array_field fld p m
  = Some (with_heap (<[p := Bseccomp (set_ptr fld None r)]>
                       (release (array_locs h0 (get_ptr fld r) ++ F) h0)) m).
Proof.
  intros Hlaw Hm Hshape Hnd Hall.
  unfold free_array_field, load_seccomp. rewrite Hm, lookup_insert_eq.
  cbn [mbind option_bind].
  destruct (get_ptr fld r) as [a|] eqn:Hptr.
  - cbn [array_locs array_shape] in *.
    destruct (h0 !! a) as [[| cells | | | | | |]|] eqn:Ha; try discriminate.
    destruct (shape_split cells _ Hshape) as (cs & -> & Hlen).
    rewrite omap_snoc_none in *.
    apply NoDup_cons in Hnd as [Hp Hnd].
    apply not_elem_of_cons in Hp as [Hpa Hp].
    apply not_elem_of_app in Hp as [Hpcs HpF].
    apply NoDup_cons in Hnd as [Ha' Hnd].
    apply not_elem_of_app in Ha' as [Hacs HaF].
    apply NoDup_app in Hnd as (Hndcs & Hdisj & HndF).
    apply Forall_cons in Hall as [_ Hall].
    assert (Hm_a : heap m !! a = Some (Bcells ([] ++ cs ++ [None]))).
    { rewrite Hm. rewrite lookup_rest by (auto; congruence). exact Ha. }
    rewrite <- Hlen.
    change 0%nat with (length (@nil (option loc))).
    rewrite (free_cells_spec cs [] [None] a m Hm_a).
    + cbn [mbind option_bind].
      erewrite free_allocated by (rewrite heap_with_heap; apply lookup_insert_eq).
      cbn [mbind option_bind]. rewrite with_heap_twice, heap_with_heap.
      unfold update_seccomp, load_seccomp. rewrite heap_with_heap.
      assert (Hp' : delete a (<[a := Bcells ([] ++ replicate (length cs) None ++ [None])]>
                                (release (omap id cs) (heap m))) !! p
                    = Some (Bseccomp r)).
      { rewrite lookup_delete_ne by congruence.
        rewrite lookup_insert_ne by congruence.
        rewrite lookup_release. rewrite decide_False by assumption.
        rewrite Hm. apply lookup_insert_eq. }
      rewrite Hp'. cbn [mbind option_bind].
      erewrite store_allocated by (rewrite heap_with_heap; exact Hp').
      rewrite with_heap_twice, heap_with_heap. do 2 f_equal.
      apply map_eq. intros k.
      destruct (decide (k = p)) as [->|Hkp]; [now rewrite !lookup_insert_eq|].
      rewrite !lookup_insert_ne by congruence.
      destruct (decide (k = a)) as [->|Hka].
      * rewrite lookup_delete_eq, lookup_release.
        now rewrite decide_True by (now left).
      * rewrite lookup_delete_ne, lookup_insert_ne by congruence.
        rewrite !lookup_release, Hm, lookup_insert_ne by congruence.
        rewrite lookup_release.
        destruct (decide (k ∈ omap id cs)) as [Hin|Hnin].
        -- rewrite decide_True; [reflexivity|]. right. apply elem_of_app. now left.
        -- destruct (decide (k ∈ F)) as [HinF|HninF].
           ++ rewrite decide_True; [reflexivity|]. right. apply elem_of_app. now right.
           ++ rewrite decide_False; [reflexivity|].
              intros [?|[?|?]%elem_of_app]%elem_of_cons; congruence.
    + now apply NoDup_cons.
    + apply Forall_forall. intros k Hk. rewrite Forall_forall in Hall.
      rewrite Hm, lookup_rest; [now apply Hall| |].
      * intros ->. contradiction.
      * intros HkF. exact (Hdisj k Hk HkF).
  - rewrite (Hlaw r Hptr). cbn [array_locs app]. f_equal.
    rewrite <- Hm. now rewrite with_heap_same.
Qed.

End FreeField.

Section FreeRecords.

Implicit Types (h : gmap loc block) (m : mem) (l p a : loc) (ls F : list loc).

Lemma actions_lawful : lawful actions_field.
Proof. intros [] H. simpl in *. now subst. Qed.
Lemma operators_lawful : lawful operators_field.
Proof. intros [] H. simpl in *. now subst. Qed.
Lemma archs_lawful : lawful archs_field.
Proof. intros [] H. simpl in *. now subst. Qed.
Lemma known_flags_lawful : lawful known_flags_field.
Proof. intros [] H. simpl in *. now subst. Qed.
Lemma supported_flags_lawful : lawful supported_flags_field.
Proof. intros [] H. simpl in *. now subst. Qed.

Lemma free_array_field_next fld p h0 F r m :
  lawful fld ->
  m = with_heap (<[p := Bseccomp r]> (release F h0)) m ->
  array_shape h0 (get_ptr fld r) (get_len fld r) = true ->
  NoDup (array_locs h0 (get_ptr fld r)) ->
  p ∉ array_locs h0 (get_ptr fld r) ->
  p ∉ F ->
  NoDup F ->
  (forall x, x ∈ array_locs h0 (get_ptr fld r) -> x ∉ F) ->
  Forall (fun l => is_Some (h0 !! l)) (array_locs h0 (get_ptr fld r)) ->
  free_array_field fld p m
  = Some (with_heap (<[p := Bseccomp (set_ptr fld None r)]>
                       (release (array_locs h0 (get_ptr fld r) ++ F) h0)) m).
Proof.
  intros Hlaw Hm Hshape Hnd Hp HpF HndF Hdisj Hall.
  apply free_array_field_step; auto.
  - rewrite Hm. reflexivity.
  - apply NoDup_cons. split.
    + intros [?|?]%elem_of_app; contradiction.
    + apply NoDup_app. auto.
Qed.

Lemma read_string_allocated h (c : option loc) x :
  read_string h c = Some x -> Forall (fun l => is_Some (h !! l)) (option_list c).
Proof.
  destruct c as [l|]; simpl; [|constructor].
  unfold read_chars. destruct (h !! l) as [b|] eqn:E; [|discriminate].
  intros _. constructor; [now exists b|constructor].
Qed.

Lemma read_cells_allocated h cells xs :
  mapM (read_string h) cells = Some xs ->
  Forall (fun l => is_Some (h !! l)) (omap id cells).
Proof.
  revert xs. induction cells as [|[l|] cells IH]; intros xs H; simpl in *.
  - constructor.
  - unfold read_chars in H. destruct (h !! l) as [b|] eqn:E; [|discriminate].
    destruct (mapM (read_string h) cells) as [ys|] eqn:E2.
    + constructor; [now exists b|]. now apply (IH ys).
    + destruct b; simpl in H; discriminate.
  - destruct (mapM (read_string h) cells) as [ys|] eqn:E2; [|discriminate].
    now apply (IH ys).
Qed.

Lemma read_array_allocated h ptr x :
  read_array h ptr = Some x -> Forall (fun l => is_Some (h !! l)) (array_locs h ptr).
Proof.
  destruct ptr as [a|]; simpl; [|constructor].
  destruct (h !! a) as [[| cells | | | | | |]|] eqn:E; try discriminate.
  destruct (mapM (read_string h) cells) as [ys|] eqn:E2; [|discriminate].
  intros _. constructor; [eauto|]. now apply (read_cells_allocated h cells ys).
Qed.

Lemma release_pointwise ls h0 (X : gmap loc block) :
  (forall k, X !! k = if decide (k ∈ ls) then None else h0 !! k) -> X = release ls h0.
Proof. intros H. apply map_eq. intros k. now rewrite H, lookup_release. Qed.

Lemma yajl_tree_free_spec (t : option loc) x m :
  read_tree (heap m) t = Some x ->
  yajl_tree_free t m = Some (with_heap (release (option_list t) (heap m)) m).
Proof.
  destruct t as [l|]; simpl.
  - destruct (heap m !! l) as [[]|] eqn:E; try discriminate. intros _.
    now rewrite (free_allocated l _ m E).
  - intros _. unfold release. simpl. now rewrite with_heap_same.
Qed.

Lemma not_in_app (x : loc) (A B : list loc) : x ∉ A -> x ∉ B -> x ∉ A ++ B.
Proof. intros HA HB. apply not_elem_of_app. now split. Qed.

Lemma NoDup_app_disjoint (A B : list loc) :
  NoDup A -> NoDup B -> (forall x, x ∈ A -> x ∉ B) -> NoDup (A ++ B).
Proof. intros HA HB HAB. apply NoDup_app. auto. Qed.

(** Away from a concatenation of lists, given that the element is away
    from each of them. *)
Ltac away :=
  repeat apply not_in_app; auto using not_elem_of_nil;
  let Hy := fresh "Hy" in intros Hy; eauto.

(** One array member of [free_*] in the proof of [free_seccomp_spec]. *)
Ltac free_member fld law S N P NF R L :=
  match goal with
  | |- context [free_array_field fld ?p
                  (with_heap (<[?p := Bseccomp ?r]> (release ?F ?h)) ?m)] =>
      let Hp := fresh "Hp" in
      let Hd := fresh "Hd" in
      assert (Hp : p ∉ F) by away;
      assert (Hd : forall x, x ∈ L -> x ∉ F) by (intros ? ?; away);
      rewrite (free_array_field_next fld p h F r
                 (with_heap (<[p := Bseccomp r]> (release F h)) m)
                 law eq_refl S N P Hp NF Hd R)
  end.

(** [free_*] of a seccomp record releases the record, its arrays, their
    strings and the residual tree, and nothing else. *)
Lemma free_seccomp_spec p m v :
  read_seccomp (heap m) p = Some v ->
  seccomp_shape (heap m) p = true ->
  NoDup (seccomp_locs (heap m) p) ->
  free_runtime_spec_schema_features_linux_seccomp (Some p) m
  = Some (with_heap (release (seccomp_locs (heap m) p) (heap m)) m).
Proof.
  intros Hread Hshape Hnd.
  unfold read_seccomp, seccomp_shape, seccomp_locs in *.
  set (h0 := heap m) in *.
  destruct (h0 !! p) as [[| | | |r| | |]|] eqn:Hp; try discriminate.
  destruct r as [e a1 n1 a2 n2 a3 n3 a4 n4 a5 n5 res ep].
  cbn [Seccomp.actions Seccomp.operators Seccomp.archs Seccomp.known_flags
       Seccomp.supported_flags Seccomp._residual Seccomp.actions_len
       Seccomp.operators_len Seccomp.archs_len Seccomp.known_flags_len
       Seccomp.supported_flags_len] in *.
  destruct (read_array h0 a1) as [x1|] eqn:R1; [|discriminate].
  destruct (read_array h0 a2) as [x2|] eqn:R2; [|discriminate].
  destruct (read_array h0 a3) as [x3|] eqn:R3; [|discriminate].
  destruct (read_array h0 a4) as [x4|] eqn:R4; [|discriminate].
  destruct (read_array h0 a5) as [x5|] eqn:R5; [|discriminate].
  destruct (read_tree h0 res) as [xr|] eqn:Rr; [|discriminate].
  clear Hread.
  apply read_array_allocated in R1, R2, R3, R4, R5.
  apply andb_prop in Hshape as [Hshape S5].
  apply andb_prop in Hshape as [Hshape S4].
  apply andb_prop in Hshape as [Hshape S3].
  apply andb_prop in Hshape as [S1 S2].
  set (L1 := array_locs h0 a1) in *. set (L2 := array_locs h0 a2) in *.
  set (L3 := array_locs h0 a3) in *. set (L4 := array_locs h0 a4) in *.
  set (L5 := array_locs h0 a5) in *.
  apply NoDup_cons in Hnd as [Hp_out Hnd].
  apply NoDup_app in Hnd as (N1 & D1 & Hnd).
  apply NoDup_app in Hnd as (N2 & D2 & Hnd).
  apply NoDup_app in Hnd as (N3 & D3 & Hnd).
  apply NoDup_app in Hnd as (N4 & D4 & Hnd).
  apply NoDup_app in Hnd as (N5 & D5 & Nr).
  set (R := option_list res) in *.
  rewrite !not_elem_of_app in Hp_out.
  destruct Hp_out as (P1 & P2 & P3 & P4 & P5 & Pr).
  assert (D1' : forall x, x ∈ L1 -> (x ∉ L2) /\ (x ∉ L3) /\ (x ∉ L4) /\ (x ∉ L5) /\ (x ∉ R))
    by (intros x Hx; specialize (D1 x Hx); rewrite ?not_elem_of_app in D1; exact D1).
  assert (D12 : forall x, x ∈ L1 -> x ∈ L2 -> False)
    by (intros x Hx Hy; destruct (D1' x Hx) as (H & _ & _ & _ & _); now apply H).
  assert (D13 : forall x, x ∈ L1 -> x ∈ L3 -> False)
    by (intros x Hx Hy; destruct (D1' x Hx) as (_ & H & _ & _ & _); now apply H).
  assert (D14 : forall x, x ∈ L1 -> x ∈ L4 -> False)
    by (intros x Hx Hy; destruct (D1' x Hx) as (_ & _ & H & _ & _); now apply H).
  assert (D15 : forall x, x ∈ L1 -> x ∈ L5 -> False)
    by (intros x Hx Hy; destruct (D1' x Hx) as (_ & _ & _ & H & _); now apply H).
  assert (D1r : forall x, x ∈ L1 -> x ∈ R -> False)
    by (intros x Hx Hy; destruct (D1' x Hx) as (_ & _ & _ & _ & H); now apply H).
  clear D1 D1'.
  assert (D2' : forall x, x ∈ L2 -> (x ∉ L3) /\ (x ∉ L4) /\ (x ∉ L5) /\ (x ∉ R))
    by (intros x Hx; specialize (D2 x Hx); rewrite ?not_elem_of_app in D2; exact D2).
  assert (D23 : forall x, x ∈ L2 -> x ∈ L3 -> False)
    by (intros x Hx Hy; destruct (D2' x Hx) as (H & _ & _ & _); now apply H).
  assert (D24 : forall x, x ∈ L2 -> x ∈ L4 -> False)
    by (intros x Hx Hy; destruct (D2' x Hx) as (_ & H & _ & _); now apply H).
  assert (D25 : forall x, x ∈ L2 -> x ∈ L5 -> False)
    by (intros x Hx Hy; destruct (D2' x Hx) as (_ & _ & H & _); now apply H).
  assert (D2r : forall x, x ∈ L2 -> x ∈ R -> False)
    by (intros x Hx Hy; destruct (D2' x Hx) as (_ & _ & _ & H); now apply H).
  clear D2 D2'.
  assert (D3' : forall x, x ∈ L3 -> (x ∉ L4) /\ (x ∉ L5) /\ (x ∉ R))
    by (intros x Hx; specialize (D3 x Hx); rewrite ?not_elem_of_app in D3; exact D3).
  assert (D34 : forall x, x ∈ L3 -> x ∈ L4 -> False)
    by (intros x Hx Hy; destruct (D3' x Hx) as (H & _ & _); now apply H).
  assert (D35 : forall x, x ∈ L3 -> x ∈ L5 -> False)
    by (intros x Hx Hy; destruct (D3' x Hx) as (_ & H & _); now apply H).
  assert (D3r : forall x, x ∈ L3 -> x ∈ R -> False)
    by (intros x Hx Hy; destruct (D3' x Hx) as (_ & _ & H); now apply H).
  clear D3 D3'.
  assert (D4' : forall x, x ∈ L4 -> (x ∉ L5) /\ (x ∉ R))
    by (intros x Hx; specialize (D4 x Hx); rewrite ?not_elem_of_app in D4; exact D4).
  assert (D45 : forall x, x ∈ L4 -> x ∈ L5 -> False)
    by (intros x Hx Hy; destruct (D4' x Hx) as (H & _); now apply H).
  assert (D4r : forall x, x ∈ L4 -> x ∈ R -> False)
    by (intros x Hx Hy; destruct (D4' x Hx) as (_ & H); now apply H).
  clear D4 D4'.
  assert (D5' : forall x, x ∈ L5 -> (x ∉ R))
    by (intros x Hx; specialize (D5 x Hx); rewrite ?not_elem_of_app in D5; exact D5).
  assert (D5r : forall x, x ∈ L5 -> x ∈ R -> False)
    by (intros x Hx Hy; exact (D5' x Hx Hy)).
  clear D5 D5'.
  assert (Hm0 : m = with_heap (<[p := Bseccomp
                 (Seccomp.Build_runtime_spec_schema_features_linux_seccomp loc loc
                    e a1 n1 a2 n2 a3 n3 a4 n4 a5 n5 res ep)]> (release [] h0)) m).
  { unfold release. simpl. rewrite insert_id by exact Hp. subst h0.
    now rewrite with_heap_same. }
  assert (HresF : forall t, res = Some t ->
                            t <> p /\ t ∉ L5 ++ L4 ++ L3 ++ L2 ++ L1 ++ []).
  { intros t Ht. assert (HtR : t ∈ R) by (unfold R; rewrite Ht; now left).
    split; [intros ->; contradiction|]. away. }
  unfold free_runtime_spec_schema_features_linux_seccomp.
  rewrite (free_array_field_next actions_field p h0 [] _ m actions_lawful Hm0
             S1 N1 P1 (not_elem_of_nil p) (NoDup_nil_2 (A := loc))
             (fun x _ => not_elem_of_nil x) R1).
  cbn [mbind option_bind set_ptr get_ptr get_len actions_field heap with_heap
       Seccomp.enabled Seccomp.actions Seccomp.operators Seccomp.archs Seccomp.known_flags Seccomp.supported_flags Seccomp._residual Seccomp.actions_len Seccomp.operators_len 
       Seccomp.archs_len Seccomp.known_flags_len Seccomp.supported_flags_len Seccomp.enabled_present].
  fold L1 L2 L3 L4 L5.
  assert (NF1 : NoDup (L1 ++ []))
    by (apply NoDup_app_disjoint; auto using NoDup_nil_2; intros ? ?; away).
  assert (NF2 : NoDup (L2 ++ L1 ++ []))
    by (apply NoDup_app_disjoint; auto; intros ? ?; away).
  assert (NF3 : NoDup (L3 ++ L2 ++ L1 ++ []))
    by (apply NoDup_app_disjoint; auto; intros ? ?; away).
  assert (NF4 : NoDup (L4 ++ L3 ++ L2 ++ L1 ++ []))
    by (apply NoDup_app_disjoint; auto; intros ? ?; away).
  free_member operators_field operators_lawful S2 N2 P2 NF1 R2 L2.
  cbn [mbind option_bind set_ptr get_ptr get_len operators_field heap with_heap
       Seccomp.enabled Seccomp.actions Seccomp.operators Seccomp.archs Seccomp.known_flags Seccomp.supported_flags Seccomp._residual Seccomp.actions_len Seccomp.operators_len 
       Seccomp.archs_len Seccomp.known_flags_len Seccomp.supported_flags_len Seccomp.enabled_present].
  fold L1 L2 L3 L4 L5.
  rewrite with_heap_twice.
  free_member archs_field archs_lawful S3 N3 P3 NF2 R3 L3.
  cbn [mbind option_bind set_ptr get_ptr get_len archs_field heap with_heap
       Seccomp.enabled Seccomp.actions Seccomp.operators Seccomp.archs Seccomp.known_flags Seccomp.supported_flags Seccomp._residual Seccomp.actions_len Seccomp.operators_len 
       Seccomp.archs_len Seccomp.known_flags_len Seccomp.supported_flags_len Seccomp.enabled_present].
  fold L1 L2 L3 L4 L5.
  rewrite with_heap_twice.
  free_member known_flags_field known_flags_lawful S4 N4 P4 NF3 R4 L4.
  cbn [mbind option_bind set_ptr get_ptr get_len known_flags_field heap with_heap
       Seccomp.enabled Seccomp.actions Seccomp.operators Seccomp.archs Seccomp.known_flags Seccomp.supported_flags Seccomp._residual Seccomp.actions_len Seccomp.operators_len 
       Seccomp.archs_len Seccomp.known_flags_len Seccomp.supported_flags_len Seccomp.enabled_present].
  fold L1 L2 L3 L4 L5.
  rewrite with_heap_twice.
  free_member supported_flags_field supported_flags_lawful S5 N5 P5 NF4 R5 L5.
  cbn [mbind option_bind set_ptr get_ptr get_len supported_flags_field heap with_heap
       Seccomp.enabled Seccomp.actions Seccomp.operators Seccomp.archs Seccomp.known_flags Seccomp.supported_flags Seccomp._residual Seccomp.actions_len Seccomp.operators_len 
       Seccomp.archs_len Seccomp.known_flags_len Seccomp.supported_flags_len Seccomp.enabled_present].
  fold L1 L2 L3 L4 L5.
  rewrite with_heap_twice.
  set (F := L5 ++ L4 ++ L3 ++ L2 ++ L1 ++ []) in *.
  unfold load_seccomp. rewrite heap_with_heap, lookup_insert_eq.
  cbn [mbind option_bind Seccomp._residual].
  match goal with
  | |- context [yajl_tree_free res ?m1] => rewrite (yajl_tree_free_spec res xr m1)
  end.
  2: { cbn [heap with_heap]. destruct res as [t|]; [|exact Rr].
       destruct (HresF t eq_refl) as [Hne HnF].
       cbn [read_tree]. rewrite lookup_rest by assumption.
       exact Rr. }
  cbn [mbind option_bind]. rewrite with_heap_twice, heap_with_heap.
  unfold update_seccomp, load_seccomp. rewrite heap_with_heap.
  fold R.
  assert (Hp5 : forall b : block,
             release R (<[p := b]> (release F h0)) !! p = Some b).
  { intros b. rewrite lookup_release, decide_False by assumption.
    apply lookup_insert_eq. }
  rewrite Hp5. cbn [mbind option_bind].
  erewrite store_allocated by (rewrite heap_with_heap; apply Hp5).
  cbn [mbind option_bind]. rewrite with_heap_twice.
  erewrite free_allocated by (rewrite heap_with_heap; apply lookup_insert_eq).
  rewrite with_heap_twice. cbn [heap with_heap]. do 2 f_equal.
  apply release_pointwise. intros k.
  destruct (decide (k = p)) as [->|Hkp].
  - rewrite lookup_delete_eq. now rewrite decide_True by (now left).
  - rewrite lookup_delete_ne, lookup_insert_ne by congruence.
    rewrite lookup_release.
    destruct (decide (k ∈ R)) as [Hkr|Hkr].
    + rewrite decide_True; [reflexivity|]. right.
      unfold R, L1, L2, L3, L4, L5 in *. rewrite !elem_of_app. tauto.
    + rewrite lookup_insert_ne by congruence. rewrite lookup_release.
      destruct (decide (k ∈ F)) as [HkF|HkF].
      * rewrite decide_True; [reflexivity|].
        unfold F, R, L1, L2, L3, L4, L5 in *.
        rewrite !elem_of_app, elem_of_nil in HkF. right. rewrite !elem_of_app. tauto.
      * rewrite decide_False; [reflexivity|].
        unfold F, R, L1, L2, L3, L4, L5 in *.
        rewrite !not_elem_of_app in HkF.
        rewrite not_elem_of_cons, !not_elem_of_app. tauto.
Qed.

End FreeRecords.

Section SimpleRecords.

Implicit Types (h : gmap loc block) (m : mem) (l p q a : loc) (ls F : list loc).

Lemma release_cons l ls h : release (l :: ls) h = delete l (release ls h).
Proof. reflexivity. Qed.

Lemma release_nil h : release [] h = h.
Proof. reflexivity. Qed.

Lemma lookup_release_away ls h l : l ∉ ls -> release ls h !! l = h !! l.
Proof. intros H. rewrite lookup_release. now rewrite decide_False. Qed.

Lemma read_tree_allocated h (t : option loc) x :
  read_tree h t = Some x -> Forall (fun l => is_Some (h !! l)) (option_list t).
Proof.
  destruct t as [l|]; simpl; [|constructor].
  destruct (h !! l) as [b|] eqn:E; [|discriminate].
  intros _. constructor; [now exists b|constructor].
Qed.

(** The end of every [free_*]: the residual tree, then the record. *)
Lemma free_tail p (res : option loc) (b b' : block) x m :
  heap m !! p = Some b ->
  read_tree (heap m) res = Some x ->
  p ∉ option_list res ->
  (m ← yajl_tree_free res m; m ← store p b' m; free p m)
  = Some (with_heap (release (p :: option_list res) (heap m)) m).
Proof.
  intros Hp Hres Hpr.
  rewrite (yajl_tree_free_spec res x m Hres). cbn [mbind option_bind].
  assert (Hp' : release (option_list res) (heap m) !! p = Some b)
    by (now rewrite lookup_release_away).
  erewrite store_allocated by exact Hp'. cbn [mbind option_bind].
  erewrite free_allocated by (cbn [heap with_heap]; apply lookup_insert_eq).
  cbn [heap with_heap]. rewrite !with_heap_twice, release_cons. do 2 f_equal.
  apply delete_insert_eq.
Qed.

Lemma free_cgroup_spec p m v :
  read_cgroup (heap m) p = Some v ->
  NoDup (cgroup_locs (heap m) p) ->
  free_runtime_spec_schema_features_linux_cgroup (Some p) m
  = Some (with_heap (release (cgroup_locs (heap m) p) (heap m)) m).
Proof.
  unfold read_cgroup, cgroup_locs, free_runtime_spec_schema_features_linux_cgroup.
  destruct (heap m !! p) as [[| | |r| | | |]|] eqn:Hp; try discriminate.
  destruct (read_tree (heap m) (Cgroup._residual r)) as [x|] eqn:Hr; [|discriminate].
  intros _ Hnd. apply NoDup_cons in Hnd as [Hpr _].
  exact (free_tail p _ _ _ x m Hp Hr Hpr).
Qed.

Lemma free_idmap_spec p m v :
  read_idmap (heap m) p = Some v ->
  NoDup (idmap_locs (heap m) p) ->
  free_runtime_spec_schema_features_linux_mount_extensions_idmap (Some p) m
  = Some (with_heap (release (idmap_locs (heap m) p) (heap m)) m).
Proof.
  unfold read_idmap, idmap_locs,
    free_runtime_spec_schema_features_linux_mount_extensions_idmap.
  destruct (heap m !! p) as [[| | | | | |r|]|] eqn:Hp; try discriminate.
  destruct (read_tree (heap m) (Idmap._residual r)) as [x|] eqn:Hr; [|discriminate].
  intros _ Hnd. apply NoDup_cons in Hnd as [Hpr _].
  exact (free_tail p _ _ _ x m Hp Hr Hpr).
Qed.

Lemma idmap_locs_allocated h p v :
  read_idmap h p = Some v -> Forall (fun l => is_Some (h !! l)) (idmap_locs h p).
Proof.
  unfold read_idmap, idmap_locs.
  destruct (h !! p) as [[| | | | | |r|]|] eqn:Hp; try discriminate.
  destruct (read_tree h (Idmap._residual r)) as [x|] eqn:Hr; [|discriminate].
  intros _. constructor; [rewrite Hp; eauto|]. now apply (read_tree_allocated h _ x).
Qed.

Lemma free_mount_extensions_spec p m v :
  read_mount_extensions (heap m) p = Some v ->
  NoDup (mount_extensions_locs (heap m) p) ->
  free_runtime_spec_schema_features_linux_mount_extensions (Some p) m
  = Some (with_heap (release (mount_extensions_locs (heap m) p) (heap m)) m).
Proof.
  unfold read_mount_extensions, mount_extensions_locs,
    free_runtime_spec_schema_features_linux_mount_extensions.
  destruct (heap m !! p) as [[| | | | | | |[i res]]|] eqn:Hp; try discriminate.
  cbn [MountExtensions.idmap MountExtensions._residual].
  destruct i as [i|].
  - destruct (read_idmap (heap m) i) as [vi|] eqn:Hi; [|discriminate].
    cbn [fmap option_fmap option_map mbind option_bind].
    destruct (read_tree (heap m) res) as [x|] eqn:Hr; [|discriminate].
    intros _ Hnd.
    apply NoDup_cons in Hnd as [Hp_out Hnd].
    apply not_elem_of_app in Hp_out as [Hpi Hpr].
    apply NoDup_app in Hnd as (Hndi & Hdisj & _).
    rewrite (free_idmap_spec i m vi Hi Hndi). cbn [mbind option_bind].
    assert (Hp' : release (idmap_locs (heap m) i) (heap m) !! p
                  = Some (Bmount_extensions
                            {| MountExtensions.idmap := Some i;
                               MountExtensions._residual := res |}))
      by (now rewrite lookup_release_away).
    erewrite store_allocated by exact Hp'. cbn [mbind option_bind heap with_heap].
    rewrite ?with_heap_twice.
    set (b1 := Bmount_extensions {| MountExtensions.idmap := None;
                                    MountExtensions._residual := res |}).
    set (h1 := <[p := b1]> (release (idmap_locs (heap m) i) (heap m))).
    assert (Hr1 : read_tree h1 res = Some x).
    { destruct res as [t|]; [|exact Hr]. cbn [read_tree] in *.
      assert (Hti : t ∉ idmap_locs (heap m) i).
      { intros Hin. apply (Hdisj t Hin). now left. }
      assert (Htp : t <> p) by (intros ->; apply Hpr; now left).
      unfold h1. rewrite lookup_insert_ne by congruence.
      now rewrite lookup_release_away. }
    pose proof (free_tail p res b1 (Bmount_extensions mount_extensions_zero) x
                  (with_heap h1 m)) as Htail.
    cbn [heap with_heap] in Htail.
    rewrite Htail; [|apply lookup_insert_eq|exact Hr1|exact Hpr].
    rewrite with_heap_twice. do 2 f_equal.
    apply release_pointwise. intros k. rewrite lookup_release. unfold h1.
    destruct (decide (k ∈ p :: option_list res)) as [Hk|Hk].
    + rewrite decide_True; [reflexivity|].
      apply elem_of_cons in Hk as [->|Hk]; [now left|].
      right. apply elem_of_app. now right.
    + apply not_elem_of_cons in Hk as [Hkp Hkr].
      rewrite lookup_insert_ne by congruence. rewrite lookup_release.
      destruct (decide (k ∈ idmap_locs (heap m) i)) as [Hki|Hki].
      * rewrite decide_True; [reflexivity|]. right. apply elem_of_app. now left.
      * rewrite decide_False; [reflexivity|].
        rewrite not_elem_of_cons, not_elem_of_app. tauto.
  - cbn [mbind option_bind app].
    destruct (read_tree (heap m) res) as [x|] eqn:Hr; [|discriminate].
    intros _ Hnd. apply NoDup_cons in Hnd as [Hpr _].
    exact (free_tail p _ _ _ x m Hp Hr Hpr).
Qed.

End SimpleRecords.

Section ZosRecord.

Implicit Types (h : gmap loc block) (m : mem) (l p q a : loc) (ls F : list loc).

Lemma free_chars_spec (c : option loc) m :
  Forall (fun l => is_Some (heap m !! l)) (option_list c) ->
  free_chars c m = Some (with_heap (release (option_list c) (heap m)) m).
Proof.
  destruct c as [l|]; simpl.
  - intros H. apply Forall_cons in H as [[b Hb] _].
    now rewrite (free_allocated l b m Hb).
  - intros _. now rewrite release_nil, with_heap_same.
Qed.

Lemma option_list_allocated_away h p (b : block) ls (c : option loc) :
  Forall (fun l => is_Some (h !! l)) (option_list c) ->
  p ∉ option_list c ->
  (forall x, x ∈ option_list c -> x ∉ ls) ->
  Forall (fun l => is_Some ((<[p := b]> (release ls h)) !! l)) (option_list c).
Proof.
  intros Hall Hp Hls. apply Forall_forall. intros x Hx.
  rewrite Forall_forall in Hall.
  rewrite lookup_rest; [now apply Hall| |now apply Hls].
  intros ->. contradiction.
Qed.

Lemma free_zos_spec p m v :
  read_zos (heap m) p = Some v ->
  NoDup (zos_locs (heap m) p) ->
  free_runtime_spec_schema_defs_zos_namespace_reference (Some p) m
  = Some (with_heap (release (zos_locs (heap m) p) (heap m)) m).
Proof.
  unfold read_zos, zos_locs, free_runtime_spec_schema_defs_zos_namespace_reference,
    load_zos.
  destruct (heap m !! p) as [[| | | | |[ty pa res]| |]|] eqn:Hp; try discriminate.
  cbn [ZosNs.type ZosNs.path ZosNs._residual mbind option_bind].
  destruct (read_string (heap m) ty) as [xt|] eqn:Ht; [|discriminate].
  destruct (read_string (heap m) pa) as [xp|] eqn:Hpa; [|discriminate].
  destruct (read_tree (heap m) res) as [xr|] eqn:Hr; [|discriminate].
  cbn [mbind option_bind]. intros _ Hnd.
  apply read_string_allocated in Ht, Hpa.
  set (Lt := option_list ty) in *. set (Lp := option_list pa) in *.
  set (Lr := option_list res) in *.
  apply NoDup_cons in Hnd as [Hp_out Hnd].
  rewrite !not_elem_of_app in Hp_out. destruct Hp_out as (Pt & Pp & Pr).
  apply NoDup_app in Hnd as (Nt & Dt & Hnd).
  apply NoDup_app in Hnd as (Np & Dp & Nr).
  rewrite (free_chars_spec ty m Ht). cbn [mbind option_bind].
  fold Lt.
  erewrite store_allocated
    by (cbn [heap with_heap]; rewrite lookup_release_away by exact Pt; exact Hp).
  cbn [mbind option_bind heap with_heap]. rewrite with_heap_twice.
  match goal with
  | |- context [free_chars pa (with_heap (<[p := ?b]> _) m)] => set (b1 := b)
  end.
  rewrite (free_chars_spec pa (with_heap (<[p := b1]> (release Lt (heap m))) m)).
  2: { cbn [heap with_heap]. apply option_list_allocated_away; auto.
       intros x Hx Hy. apply (Dt x Hy). apply elem_of_app. now left. }
  cbn [mbind option_bind heap with_heap]. rewrite with_heap_twice. fold Lp.
  erewrite store_allocated.
  2: { cbn [heap with_heap]. rewrite lookup_release_away by exact Pp.
       apply lookup_insert_eq. }
  cbn [mbind option_bind heap with_heap]. rewrite with_heap_twice.
  match goal with
  | |- context [yajl_tree_free res (with_heap (<[p := ?b]> _) m)] => set (b2 := b)
  end.
  set (h2 := <[p := b2]> (release Lp (<[p := b1]> (release Lt (heap m))))).
  assert (Hr2 : read_tree h2 res = Some xr).
  { destruct res as [t|]; [|exact Hr]. cbn [read_tree] in *.
    assert (HtR : t ∈ Lr) by (now left).
    assert (Htp : t <> p) by (intros ->; contradiction).
    unfold h2. rewrite lookup_insert_ne by congruence.
    rewrite lookup_release_away by (intros Hy; exact (Dp t Hy HtR)).
    rewrite lookup_insert_ne by congruence.
    rewrite lookup_release_away; [exact Hr|].
    intros Hy. apply (Dt t Hy). apply elem_of_app. now right. }
  pose proof (free_tail p res b2 (Bzos zos_zero) xr (with_heap h2 m)) as Htail.
  cbn [heap with_heap] in Htail.
  rewrite Htail; [|apply lookup_insert_eq|exact Hr2|exact Pr].
  rewrite with_heap_twice. do 2 f_equal.
  apply release_pointwise. intros k. rewrite lookup_release. unfold h2.
  fold Lr.
  destruct (decide (k ∈ p :: Lr)) as [Hk|Hk].
  - rewrite decide_True; [reflexivity|].
    apply elem_of_cons in Hk as [->|Hk]; [now left|].
    right. rewrite !elem_of_app. tauto.
  - apply not_elem_of_cons in Hk as [Hkp Hkr].
    rewrite lookup_insert_ne by congruence. rewrite lookup_release.
    destruct (decide (k ∈ Lp)) as [Hkp'|Hkp'].
    + rewrite decide_True; [reflexivity|]. right. rewrite !elem_of_app. tauto.
    + rewrite lookup_insert_ne by congruence. rewrite lookup_release.
      destruct (decide (k ∈ Lt)) as [Hkt|Hkt].
      * rewrite decide_True; [reflexivity|]. right. rewrite !elem_of_app. tauto.
      * rewrite decide_False; [reflexivity|].
        rewrite not_elem_of_cons, !not_elem_of_app. tauto.
Qed.

End ZosRecord.

(* ===================================================================== *)
(** ** Cloning *)
(* ===================================================================== *)

Section CloneSimple.

Implicit Types (h : gmap loc block) (m : mem) (l p q a : loc) (ls F : list loc).

Lemma fresh_insert h q (b : block) :
  let l := fresh (dom (<[q := b]> h)) in l <> q /\ h !! l = None.
Proof.
  intros l. pose proof (fresh_unused (<[q := b]> h)) as H. fold l in H.
  destruct (decide (l = q)) as [E|E].
  - rewrite E, lookup_insert_eq in H. discriminate.
  - split; [exact E|]. now rewrite lookup_insert_ne in H by congruence.
Qed.

Lemma mem_eta m : oracle m = [] -> m = {| heap := heap m; oracle := [] |}.
Proof. destruct m; simpl. now intros ->. Qed.

Lemma clone_cgroup_spec p m v :
  oracle m = [] ->
  read_cgroup (heap m) p = Some v ->
  exists q m',
    clone_runtime_spec_schema_features_linux_cgroup p m = Some (Some q, m')
    /\ oracle m' = []
    /\ read_cgroup (heap m') q = Some (cgroup_with_residual None v)
    /\ cgroup_locs (heap m') q = [q]
    /\ release [q] (heap m') = heap m.
Proof.
  intros Ho Hread. unfold clone_runtime_spec_schema_features_linux_cgroup.
  rewrite (alloc_unbounded _ m Ho).
  set (q := fresh (dom (heap m))).
  assert (Hq : heap m !! q = None) by apply fresh_unused.
  unfold read_cgroup in Hread.
  destruct (heap m !! p) as [[| | |s| | | |]|] eqn:Hp; try discriminate.
  assert (Hqp : q <> p) by (intros E; rewrite E in Hq; congruence).
  cbn [heap]. rewrite lookup_insert_ne by exact Hqp. rewrite Hp.
  erewrite store_allocated by (cbn [heap]; apply lookup_insert_eq).
  cbn [mbind option_bind].
  eexists _, _. split; [reflexivity|]. cbn [heap oracle with_heap].
  rewrite insert_insert_eq.
  split; [reflexivity|].
  destruct (read_tree (heap m) (Cgroup._residual s)) as [x|] eqn:Hr; [|discriminate].
  injection Hread as <-.
  unfold read_cgroup, cgroup_locs. rewrite lookup_insert_eq.
  repeat split.
  rewrite release_cons, release_nil. now apply delete_insert_id.
Qed.

Lemma clone_idmap_spec p m v :
  oracle m = [] ->
  read_idmap (heap m) p = Some v ->
  exists q m',
    clone_runtime_spec_schema_features_linux_mount_extensions_idmap p m
      = Some (Some q, m')
    /\ oracle m' = []
    /\ read_idmap (heap m') q
       = Some (idmap_cloned v)
    /\ idmap_locs (heap m') q = [q]
    /\ release [q] (heap m') = heap m.
Proof.
  intros Ho Hread.
  unfold clone_runtime_spec_schema_features_linux_mount_extensions_idmap.
  rewrite (alloc_unbounded _ m Ho).
  set (q := fresh (dom (heap m))).
  assert (Hq : heap m !! q = None) by apply fresh_unused.
  unfold read_idmap in Hread.
  destruct (heap m !! p) as [[| | | | | |s|]|] eqn:Hp; try discriminate.
  assert (Hqp : q <> p) by (intros E; rewrite E in Hq; congruence).
  cbn [heap]. rewrite lookup_insert_ne by exact Hqp. rewrite Hp.
  erewrite store_allocated by (cbn [heap]; apply lookup_insert_eq).
  cbn [mbind option_bind].
  eexists _, _. split; [reflexivity|]. cbn [heap oracle with_heap].
  rewrite insert_insert_eq.
  split; [reflexivity|].
  destruct (read_tree (heap m) (Idmap._residual s)) as [x|] eqn:Hr; [|discriminate].
  injection Hread as <-.
  unfold read_idmap, idmap_locs. rewrite lookup_insert_eq.
  repeat split.
  rewrite release_cons, release_nil. now apply delete_insert_id.
Qed.

Lemma strdup_spec p s m :
  oracle m = [] ->
  heap m !! p = Some (Bchars s) ->
  strdup p m = Some (Some (fresh (dom (heap m))),
                     {| heap := <[fresh (dom (heap m)) := Bchars s]> (heap m);
                        oracle := [] |}).
Proof. intros Ho Hp. unfold strdup. rewrite Hp. now rewrite (alloc_unbounded _ m Ho). Qed.

End CloneSimple.

Section CloneNested.

Implicit Types (h : gmap loc block) (m : mem) (l p q a : loc) (ls F : list loc).

Lemma read_idmap_agree h h' q :
  (forall l, l ∈ idmap_locs h q -> h' !! l = h !! l) ->
  read_idmap h' q = read_idmap h q /\ idmap_locs h' q = idmap_locs h q.
Proof.
  intros H. unfold read_idmap, idmap_locs in *.
  rewrite (H q) by (now left).
  destruct (h !! q) as [[| | | | | |r|]|] eqn:E; auto.
  destruct (Idmap._residual r) as [t|]; auto.
  cbn [read_tree option_list] in *.
  rewrite (H t) by (right; now left). auto.
Qed.

Lemma clone_mount_extensions_spec p m v :
  oracle m = [] ->
  read_mount_extensions (heap m) p = Some v ->
  exists q m',
    clone_runtime_spec_schema_features_linux_mount_extensions p m = Some (Some q, m')
    /\ oracle m' = []
    /\ read_mount_extensions (heap m') q
       = Some (mount_extensions_cloned v)
    /\ NoDup (mount_extensions_locs (heap m') q)
    /\ release (mount_extensions_locs (heap m') q) (heap m') = heap m.
Proof.
  intros Ho Hread. unfold clone_runtime_spec_schema_features_linux_mount_extensions.
  rewrite (alloc_unbounded _ m Ho).
  set (q := fresh (dom (heap m))).
  assert (Hq : heap m !! q = None) by apply fresh_unused.
  unfold read_mount_extensions in Hread.
  destruct (heap m !! p) as [[| | | | | | |[i res]]|] eqn:Hp; try discriminate.
  assert (Hqp : q <> p) by (intros E; rewrite E in Hq; congruence).
  cbn [heap]. rewrite lookup_insert_ne by exact Hqp. rewrite Hp.
  cbn [MountExtensions.idmap MountExtensions._residual] in *.
  destruct i as [i|].
  - destruct (read_idmap (heap m) i) as [vi|] eqn:Hi; [|discriminate].
    cbn [fmap option_fmap option_map mbind option_bind] in Hread.
    destruct (read_tree (heap m) res) as [x|] eqn:Hr; [|discriminate].
    injection Hread as <-.
    set (m1 := {| heap := <[q := Bmount_extensions mount_extensions_zero]> (heap m);
                  oracle := [] |}).
    assert (Hi1 : read_idmap (heap m1) i = Some vi).
    { rewrite <- Hi. apply read_idmap_agree. intros l Hl. cbn [heap m1].
      apply lookup_insert_ne. intros <-.
      pose proof (idmap_locs_allocated (heap m) i vi Hi) as Hall.
      rewrite Forall_forall in Hall. destruct (Hall q Hl) as [? ?]. congruence. }
    destruct (clone_idmap_spec i m1 vi eq_refl Hi1)
      as (ci & m2 & Hclone & Ho2 & Hread2 & Hlocs2 & Hrel2).
    rewrite Hclone. cbn [mbind option_bind].
    assert (Hci : ci <> q /\ heap m2 !! q = Some (Bmount_extensions mount_extensions_zero)).
    { assert (H : release [ci] (heap m2) !! q
                  = Some (Bmount_extensions mount_extensions_zero))
        by (rewrite Hrel2; apply lookup_insert_eq).
      rewrite lookup_release in H.
      destruct (decide (q ∈ [ci])) as [?|Hn]; [discriminate|].
      split; [|exact H]. intros ->. apply Hn. now left. }
    destruct Hci as [Hciq Hq2].
    erewrite store_allocated by exact Hq2. cbn [mbind option_bind].
    eexists _, _. split; [reflexivity|]. cbn [heap oracle with_heap].
    split; [exact Ho2|].
    set (b := Bmount_extensions _).
    assert (Hag : forall l, l ∈ idmap_locs (heap m2) ci ->
                            (<[q := b]> (heap m2)) !! l = heap m2 !! l).
    { intros l Hl. rewrite Hlocs2 in Hl. apply list_elem_of_singleton in Hl as ->.
      now apply lookup_insert_ne. }
    destruct (read_idmap_agree (heap m2) (<[q := b]> (heap m2)) ci Hag) as [Hr3 Hl3].
    unfold read_mount_extensions, mount_extensions_locs.
    rewrite lookup_insert_eq. subst b.
    cbn [MountExtensions.idmap MountExtensions._residual].
    rewrite Hr3, Hread2, Hl3, Hlocs2.
    split; [reflexivity|]. split.
    + cbn [option_list option_rect app]. apply NoDup_cons. split.
      * intros ?%list_elem_of_singleton. congruence.
      * apply NoDup_singleton.
    + change (option_list (@None loc)) with (@nil loc).
      cbn [app]. apply map_eq. intros k.
      rewrite lookup_release.
      destruct (decide (k ∈ [q; ci])) as [Hk|Hk].
      * apply elem_of_cons in Hk as [->|Hk]; [now rewrite Hq|].
        apply list_elem_of_singleton in Hk as ->.
        assert (H : release [ci] (heap m2) !! ci = None)
          by (rewrite lookup_release; now rewrite decide_True by (now left)).
        rewrite Hrel2 in H. cbn [heap m1] in H.
        now rewrite lookup_insert_ne in H by congruence.
      * apply not_elem_of_cons in Hk as [Hkq Hk].
        rewrite lookup_insert_ne by congruence.
        assert (H : release [ci] (heap m2) !! k = heap m2 !! k)
          by (now apply lookup_release_away).
        rewrite <- H, Hrel2. cbn [heap m1]. now apply lookup_insert_ne.
  - cbn [mbind option_bind] in Hread.
    destruct (read_tree (heap m) res) as [x|] eqn:Hr; [|discriminate].
    injection Hread as <-.
    eexists _, _. split; [reflexivity|]. cbn [heap oracle].
    split; [reflexivity|].
    unfold read_mount_extensions, mount_extensions_locs. rewrite lookup_insert_eq.
    cbn. split; [reflexivity|]. split; [apply NoDup_singleton|].
    rewrite release_cons, release_nil. now apply delete_insert_id.
Qed.

Lemma read_string_insert_fresh h l (b : block) (c : option loc) x :
  h !! l = None ->
  read_string h c = Some x -> read_string (<[l := b]> h) c = Some x.
Proof.
  intros Hl. destruct c as [s|]; [|auto]. cbn [read_string]. unfold read_chars.
  destruct (decide (s = l)) as [->|Hne]; [now rewrite Hl|].
  now rewrite lookup_insert_ne by congruence.
Qed.

Lemma clone_zos_spec p m v :
  oracle m = [] ->
  read_zos (heap m) p = Some v ->
  exists q m',
    clone_runtime_spec_schema_defs_zos_namespace_reference p m = Some (Some q, m')
    /\ oracle m' = []
    /\ read_zos (heap m') q
       = Some (zos_cloned v)
    /\ NoDup (zos_locs (heap m') q)
    /\ release (zos_locs (heap m') q) (heap m') = heap m.
Proof.
  intros Ho Hread. unfold clone_runtime_spec_schema_defs_zos_namespace_reference.
  rewrite (alloc_unbounded _ m Ho).
  set (q := fresh (dom (heap m))).
  assert (Hq : heap m !! q = None) by apply fresh_unused.
  unfold read_zos in Hread. unfold load_zos.
  destruct (heap m !! p) as [[| | | | |[ty pa res]| |]|] eqn:Hp; try discriminate.
  assert (Hqp : q <> p) by (intros E; rewrite E in Hq; congruence).
  cbn [heap]. rewrite lookup_insert_ne by exact Hqp. rewrite Hp.
  cbn [ZosNs.type ZosNs.path ZosNs._residual mbind option_bind] in *.
  destruct (read_string (heap m) ty) as [xt|] eqn:Ht; [|discriminate].
  destruct (read_string (heap m) pa) as [xp|] eqn:Hpa; [|discriminate].
  destruct (read_tree (heap m) res) as [xr|] eqn:Hr; [|discriminate].
  cbn [mbind option_bind] in Hread. injection Hread as <-.
  cbn [ZosNs.type ZosNs.path].
  set (h1 := <[q := Bzos zos_zero]> (heap m)).
  destruct ty as [t|], pa as [a|].
  - (* both strings *)
    cbn [read_string] in Ht, Hpa. unfold read_chars in Ht, Hpa.
    destruct (heap m !! t) as [[st| | | | | | |]|] eqn:Et; try discriminate.
    destruct (heap m !! a) as [[sa| | | | | | |]|] eqn:Ea; try discriminate.
    cbn in Ht, Hpa. injection Ht as <-. injection Hpa as <-.
    assert (Htq : t <> q) by (intros E; rewrite E in Et; congruence).
    assert (Haq : a <> q) by (intros E; rewrite E in Ea; congruence).
    erewrite (strdup_spec t st) by (first [reflexivity | cbn [heap]; unfold h1;
                                           rewrite lookup_insert_ne by congruence; exact Et]).
    cbn [mbind option_bind heap]. fold h1.
    set (ct := fresh (dom h1)).
    destruct (fresh_insert (heap m) q (Bzos zos_zero)) as [Hct Hct'].
    change (ct <> q) in Hct. change (heap m !! ct = None) in Hct'.
    erewrite store_allocated
      by (cbn [heap]; rewrite lookup_insert_ne by congruence; apply lookup_insert_eq).
    cbn [mbind option_bind heap with_heap].
    set (b2 := Bzos {| ZosNs.type := Some ct; ZosNs.path := None; ZosNs._residual := None |}).
    set (h2 := <[q := b2]> (<[ct := Bchars st]> h1)).
    assert (Ha2 : h2 !! a = Some (Bchars sa)).
    { unfold h2, h1. assert (a <> ct) by (intros E; rewrite E in Ea; congruence).
      now rewrite !lookup_insert_ne by congruence. }
    erewrite (strdup_spec a sa) by (first [reflexivity | exact Ha2]).
    cbn [mbind option_bind heap with_heap].
    set (cp := fresh (dom h2)).
    assert (Hcp : h2 !! cp = None) by apply fresh_unused.
    assert (Hcpq : cp <> q) by (intros E; unfold h2 in Hcp; rewrite E, lookup_insert_eq in Hcp;
                                discriminate).
    assert (Hcpt : cp <> ct).
    { intros E. unfold h2 in Hcp. rewrite E in Hcp.
      rewrite lookup_insert_ne, lookup_insert_eq in Hcp by congruence. discriminate. }
    assert (Hcp0 : heap m !! cp = None).
    { unfold h2, h1 in Hcp. now rewrite !lookup_insert_ne in Hcp by congruence. }
    erewrite store_allocated
      by (cbn [heap]; rewrite lookup_insert_ne by congruence; apply lookup_insert_eq).
    cbn [mbind option_bind].
    eexists _, _. split; [reflexivity|]. cbn [heap oracle with_heap].
    split; [reflexivity|].
    unfold read_zos, zos_locs. rewrite lookup_insert_eq.
    cbn [ZosNs.type ZosNs.path ZosNs._residual read_string read_tree option_list option_rect app].
    unfold read_chars, h2, h1.
    rewrite (lookup_insert_ne _ q ct) by congruence.
    rewrite (lookup_insert_ne _ cp ct) by congruence.
    rewrite (lookup_insert_ne _ q ct) by congruence.
    rewrite (lookup_insert_eq _ ct).
    rewrite (lookup_insert_ne _ q cp) by congruence.
    rewrite (lookup_insert_eq _ cp).
    split; [reflexivity|]. split.
    + repeat (apply NoDup_cons; split);
        rewrite ?not_elem_of_cons; repeat split; auto using not_elem_of_nil, NoDup_nil_2.
    + apply map_eq. intros k. rewrite lookup_release.
      destruct (decide (k ∈ [q; ct; cp])) as [Hk|Hk].
      * rewrite !elem_of_cons, elem_of_nil in Hk.
        destruct Hk as [->|[->|[->|[]]]]; auto.
      * rewrite !not_elem_of_cons in Hk. destruct Hk as (K1 & K2 & K3 & _).
        now rewrite !lookup_insert_ne by congruence.
  - (* type only *)
    cbn [read_string] in Ht, Hpa. unfold read_chars in Ht.
    destruct (heap m !! t) as [[st| | | | | | |]|] eqn:Et; try discriminate.
    cbn in Ht. injection Ht as <-. injection Hpa as <-.
    assert (Htq : t <> q) by (intros E; rewrite E in Et; congruence).
    erewrite (strdup_spec t st) by (first [reflexivity | cbn [heap]; unfold h1;
                                           rewrite lookup_insert_ne by congruence; exact Et]).
    cbn [mbind option_bind heap]. fold h1.
    set (ct := fresh (dom h1)).
    destruct (fresh_insert (heap m) q (Bzos zos_zero)) as [Hct Hct'].
    change (ct <> q) in Hct. change (heap m !! ct = None) in Hct'.
    erewrite store_allocated
      by (cbn [heap]; rewrite lookup_insert_ne by congruence; apply lookup_insert_eq).
    cbn [mbind option_bind].
    eexists _, _. split; [reflexivity|]. cbn [heap oracle with_heap].
    split; [reflexivity|].
    unfold read_zos, zos_locs. rewrite lookup_insert_eq.
    cbn [ZosNs.type ZosNs.path ZosNs._residual read_string read_tree option_list option_rect app].
    unfold read_chars, h1.
    rewrite (lookup_insert_ne _ q ct) by congruence.
    rewrite (lookup_insert_eq _ ct).
    split; [reflexivity|]. split.
    + repeat (apply NoDup_cons; split);
        rewrite ?not_elem_of_cons; repeat split; auto using not_elem_of_nil, NoDup_nil_2.
    + apply map_eq. intros k. rewrite lookup_release.
      destruct (decide (k ∈ [q; ct])) as [Hk|Hk].
      * rewrite !elem_of_cons, elem_of_nil in Hk.
        destruct Hk as [->|[->|[]]]; auto.
      * rewrite !not_elem_of_cons in Hk. destruct Hk as (K1 & K2 & _).
        now rewrite !lookup_insert_ne by congruence.
  - (* path only *)
    cbn [read_string] in Ht, Hpa. unfold read_chars in Hpa.
    destruct (heap m !! a) as [[sa| | | | | | |]|] eqn:Ea; try discriminate.
    cbn in Hpa. injection Ht as <-. injection Hpa as <-.
    assert (Haq : a <> q) by (intros E; rewrite E in Ea; congruence).
    erewrite (strdup_spec a sa) by (first [reflexivity | cbn [heap]; unfold h1;
                                           rewrite lookup_insert_ne by congruence; exact Ea]).
    cbn [mbind option_bind heap]. fold h1.
    set (cp := fresh (dom h1)).
    destruct (fresh_insert (heap m) q (Bzos zos_zero)) as [Hcp Hcp'].
    change (cp <> q) in Hcp. change (heap m !! cp = None) in Hcp'.
    erewrite store_allocated
      by (cbn [heap]; rewrite lookup_insert_ne by congruence; apply lookup_insert_eq).
    cbn [mbind option_bind].
    eexists _, _. split; [reflexivity|]. cbn [heap oracle with_heap].
    split; [reflexivity|].
    unfold read_zos, zos_locs. rewrite lookup_insert_eq.
    cbn [ZosNs.type ZosNs.path ZosNs._residual read_string read_tree option_list option_rect app].
    unfold read_chars, h1.
    rewrite (lookup_insert_ne _ q cp) by congruence.
    rewrite (lookup_insert_eq _ cp).
    split; [reflexivity|]. split.
    + repeat (apply NoDup_cons; split);
        rewrite ?not_elem_of_cons; repeat split; auto using not_elem_of_nil, NoDup_nil_2.
    + apply map_eq. intros k. rewrite lookup_release.
      destruct (decide (k ∈ [q; cp])) as [Hk|Hk].
      * rewrite !elem_of_cons, elem_of_nil in Hk.
        destruct Hk as [->|[->|[]]]; auto.
      * rewrite !not_elem_of_cons in Hk. destruct Hk as (K1 & K2 & _).
        now rewrite !lookup_insert_ne by congruence.
  - (* no string *)
    injection Ht as <-. injection Hpa as <-.
    eexists _, _. split; [reflexivity|]. cbn [heap oracle].
    split; [reflexivity|].
    unfold read_zos, zos_locs, h1. rewrite lookup_insert_eq.
    cbn. split; [reflexivity|]. split; [apply NoDup_singleton|].
    rewrite release_cons, release_nil. now apply delete_insert_id.
Qed.

End CloneNested.

Section CloneCells.

Implicit Types (h : gmap loc block) (m : mem) (l p q a : loc) (ls F : list loc).

Lemma length_snoc (pre : list (option loc)) c : length (pre ++ [c]) = S (length pre).
Proof. induction pre as [|? ? IH]; simpl; congruence. Qed.

Lemma read_string_agree h h' (c : option loc) :
  (forall l, c = Some l -> h' !! l = h !! l) -> read_string h' c = read_string h c.
Proof.
  destruct c as [l|]; [|reflexivity]. intros H. cbn [read_string]. unfold read_chars.
  now rewrite (H l eq_refl).
Qed.

Lemma read_cells_agree h h' (cs : list (option loc)) xs :
  (forall l, l ∈ omap id cs -> h' !! l = h !! l) ->
  Forall2 (fun c x => read_string h c = Some x) cs xs ->
  Forall2 (fun c x => read_string h' c = Some x) cs xs.
Proof.
  intros Hag H. induction H as [|c x cs xs Hc H IH]; constructor.
  - rewrite <- Hc. apply read_string_agree. intros l ->. apply Hag. now left.
  - apply IH. intros l Hl. apply Hag. destruct c; simpl; [right|]; auto.
Qed.

Lemma read_cells_chars h (cs : list (option loc)) xs l :
  Forall2 (fun c x => read_string h c = Some x) cs xs ->
  l ∈ omap id cs -> exists str, h !! l = Some (Bchars str).
Proof.
  intros H. induction H as [|c x cs xs Hc H IH]; simpl.
  - intros []%elem_of_nil.
  - destruct c as [s|]; simpl; [|exact IH].
    intros [->|Hl]%elem_of_cons; [|auto].
    cbn [read_string] in Hc. unfold read_chars in Hc.
    destruct (h !! s) as [[str| | | | | | |]|]; try discriminate. eauto.
Qed.

(** The loop of [clone_*] over the cells [cs] of the source array, when
    no allocation fails: the cells of the copy hold fresh strings with the
    same contents, and nothing else changes. *)
Lemma clone_cells_spec cs : forall xs pre post dpre dpost src dst m,
  oracle m = [] ->
  src <> dst ->
  heap m !! src = Some (Bcells (pre ++ cs ++ post)) ->
  heap m !! dst = Some (Bcells (dpre ++ replicate (length cs) None ++ dpost)) ->
  length dpre = length pre ->
  Forall2 (fun c x => read_string (heap m) c = Some x) cs xs ->
  exists m' ds,
    clone_cells src dst (length pre) (length cs) m = Some (true, m')
    /\ oracle m' = []
    /\ heap m' !! dst = Some (Bcells (dpre ++ ds ++ dpost))
    /\ length ds = length cs
    /\ Forall2 (fun c x => read_string (heap m') c = Some x) ds xs
    /\ NoDup (omap id ds)
    /\ (forall l, l ∈ omap id ds -> heap m !! l = None)
    /\ (forall l, l <> dst -> l ∉ omap id ds -> heap m' !! l = heap m !! l).
Proof.
  induction cs as [|c cs IH]; intros xs pre post dpre dpost src dst m
    Ho Hsd Hsrc Hdst Hlen Hread.
  - inversion Hread; subst. exists m, []. cbn.
    repeat split; auto using NoDup_nil_2. intros l []%elem_of_nil.
  - inversion Hread as [|c' x cs' xs' Hc Hrest]; subst.
    change ((c :: cs) ++ post) with (c :: (cs ++ post)) in Hsrc.
    cbn [length replicate app] in Hdst |- *.
    cbn [clone_cells]. rewrite Hsrc, lookup_middle.
    destruct c as [s|].
    + cbn [read_string] in Hc. unfold read_chars in Hc.
      destruct (heap m !! s) as [[str| | | | | | |]|] eqn:Es; try discriminate.
      cbn in Hc. injection Hc as <-.
      rewrite (strdup_spec s str m Ho Es). cbn [mbind option_bind heap].
      set (l := fresh (dom (heap m))).
      assert (Hl : heap m !! l = None) by apply fresh_unused.
      assert (Hld : l <> dst) by (intros E; rewrite E in Hl; congruence).
      assert (Hls : l <> src) by (intros E; rewrite E in Hl; congruence).
      rewrite lookup_insert_ne by congruence. rewrite Hdst.
      rewrite decide_True
        by (rewrite <- Hlen, List.length_app; simpl; lia).
      erewrite store_allocated
        by (cbn [heap]; rewrite lookup_insert_ne by congruence; exact Hdst).
      cbn [mbind option_bind heap with_heap oracle].
      rewrite <- Hlen, insert_middle, Hlen.
      set (m2 := {| heap := <[dst := Bcells (dpre ++ Some l :: replicate (length cs) None
                                              ++ dpost)]>
                              (<[l := Bchars str]> (heap m));
                    oracle := [] |}).
      assert (Hag : forall l0, is_Some (heap m !! l0) -> l0 <> dst ->
                               heap m2 !! l0 = heap m !! l0).
      { intros l0 [b Hb] Hne. cbn [heap m2].
        rewrite !lookup_insert_ne; auto. intros <-. congruence. }
      destruct (IH xs' (pre ++ [Some s]) post (dpre ++ [Some l]) dpost src dst m2)
        as (m' & ds & Hc & Ho' & Hd' & Hlen' & Hread' & Hnd' & Hfresh' & Hframe').
      * reflexivity.
      * exact Hsd.
      * rewrite Hag by (rewrite ?Hsrc; eauto). rewrite Hsrc, <- app_assoc. reflexivity.
      * cbn [heap m2]. rewrite lookup_insert_eq, <- app_assoc. reflexivity.
      * rewrite !length_snoc. congruence.
      * apply (read_cells_agree (heap m)); [|exact Hrest].
        intros l0 Hl0.
        destruct (read_cells_chars _ _ _ l0 Hrest Hl0) as [str0 Hs0].
        apply Hag; [rewrite Hs0; eauto|]. intros ->. congruence.
      * assert (Hl2 : heap m2 !! l = Some (Bchars str)).
        { cbn [heap m2]. rewrite lookup_insert_ne by congruence. apply lookup_insert_eq. }
        assert (Hlds : l ∉ omap id ds).
        { intros Hin. apply Hfresh' in Hin. congruence. }
        exists m', (Some l :: ds). rewrite length_snoc in Hc.
        split; [exact Hc|]. split; [exact Ho'|]. split.
        { rewrite Hd', <- app_assoc. reflexivity. }
        split; [simpl; congruence|]. split.
        { constructor; [|exact Hread'].
          cbn [read_string]. unfold read_chars.
          rewrite Hframe' by auto. now rewrite Hl2. }
        split; [cbn; apply NoDup_cons; auto|]. split.
        { intros l0 Hl0. cbn in Hl0. apply elem_of_cons in Hl0 as [->|Hl0]; [exact Hl|].
          pose proof (Hfresh' l0 Hl0) as H0. cbn [heap m2] in H0.
          destruct (decide (l0 = dst)) as [->|Hn1];
            [rewrite lookup_insert_eq in H0; discriminate|].
          rewrite lookup_insert_ne in H0 by congruence.
          destruct (decide (l0 = l)) as [->|Hn2]; [exact Hl|].
          now rewrite lookup_insert_ne in H0 by congruence. }
        intros l0 Hn Hout. cbn in Hout. apply not_elem_of_cons in Hout as [Hn2 Hout].
        rewrite Hframe' by auto. cbn [heap m2].
        now rewrite !lookup_insert_ne by congruence.
    + cbn in Hc. injection Hc as <-.
      destruct (IH xs' (pre ++ [None]) post (dpre ++ [None]) dpost src dst m)
        as (m' & ds & Hc & Ho' & Hd' & Hlen' & Hread' & Hnd' & Hfresh' & Hframe');
        auto.
      * rewrite Hsrc, <- app_assoc. reflexivity.
      * rewrite Hdst, <- app_assoc. reflexivity.
      * rewrite !length_snoc. congruence.
      * exists m', (None :: ds). rewrite length_snoc in Hc.
        split; [exact Hc|]. split; [exact Ho'|]. split.
        { rewrite Hd', <- app_assoc. reflexivity. }
        split; [simpl; congruence|]. split; [constructor; auto|].
        cbn. auto.
Qed.

End CloneCells.

Section CloneField.

Implicit Types (h : gmap loc block) (m : mem) (l p q a : loc) (ls F : list loc).

Lemma update_seccomp_allocated p f r m :
  heap m !! p = Some (Bseccomp r) ->
  update_seccomp p f m = Some (with_heap (<[p := Bseccomp (f r)]> (heap m)) m).
Proof.
  intros Hp. unfold update_seccomp, load_seccomp. rewrite Hp. cbn [mbind option_bind].
  now rewrite (store_allocated p _ _ m Hp).
Qed.

(** One array member of [clone_*], when no allocation fails. *)
Lemma clone_array_field_spec fld src ret m s r x :
  oracle m = [] ->
  src <> ret ->
  heap m !! src = Some (Bseccomp s) ->
  heap m !! ret = Some (Bseccomp r) ->
  read_array (heap m) (get_ptr fld s) = Some x ->
  array_shape (heap m) (get_ptr fld s) (get_len fld s) = true ->
  exists m' d,
    clone_array_field fld src ret m = Some (true, m')
    /\ oracle m' = []
    /\ heap m' !! ret
       = Some (Bseccomp match get_ptr fld s with
                        | None => r
                        | Some _ => set_ptr fld d (set_len fld (get_len fld s) r)
                        end)
    /\ (d = None <-> get_ptr fld s = None)
    /\ read_array (heap m') d = Some x
    /\ array_shape (heap m') d (get_len fld s) = true
    /\ NoDup (array_locs (heap m') d)
    /\ (forall l, l ∈ array_locs (heap m') d -> heap m !! l = None)
    /\ (forall l, l <> ret -> l ∉ array_locs (heap m') d -> heap m' !! l = heap m !! l).
Proof.
  intros Ho Hsr Hsrc Hret Hread Hshape.
  unfold clone_array_field, load_seccomp. rewrite Hsrc. cbn [mbind option_bind].
  destruct (get_ptr fld s) as [a|] eqn:Ea.
  - (* the member is copied *)
    cbn [read_array array_shape] in Hread, Hshape.
    destruct (heap m !! a) as [[|cells| | | | | |]|] eqn:Ha; try discriminate.
    destruct (shape_split cells _ Hshape) as (cs & -> & Hlen).
    destruct (mapM (read_string (heap m)) (cs ++ [None])) as [xfull|] eqn:Hm;
      [|discriminate].
    cbn in Hread. injection Hread as <-.
    apply mapM_Some_1, Forall2_app_inv_l in Hm as (xs & xlast & Hxs & Hlast & ->).
    apply Forall2_cons_inv_l in Hlast as (x0 & k0 & Hx0 & Hk0 & ->).
    apply Forall2_nil_inv_l in Hk0 as ->. cbn in Hx0. injection Hx0 as <-.
    rewrite (update_seccomp_allocated ret _ r m Hret). cbn [mbind option_bind].
    set (r1 := set_len fld (get_len fld s) r).
    set (h1 := <[ret := Bseccomp r1]> (heap m)).
    rewrite (alloc_unbounded _ (with_heap h1 m) Ho). cbn [heap with_heap].
    set (d := fresh (dom h1)).
    assert (Hd1 : h1 !! d = None) by apply fresh_unused.
    assert (Hdr : d <> ret)
      by (intros E; unfold h1 in Hd1; rewrite E, lookup_insert_eq in Hd1; discriminate).
    assert (Hd0 : heap m !! d = None)
      by (unfold h1 in Hd1; now rewrite lookup_insert_ne in Hd1 by congruence).
    set (h2 := <[d := Bcells (replicate (S (get_len fld s)) None)]> h1).
    rewrite (update_seccomp_allocated ret _ r1 {| heap := h2; oracle := [] |})
      by (cbn [heap]; unfold h2, h1; rewrite lookup_insert_ne by congruence;
          apply lookup_insert_eq).
    cbn [mbind option_bind heap with_heap oracle].
    set (r2 := set_ptr fld (Some d) r1).
    set (m3 := {| heap := <[ret := Bseccomp r2]> h2; oracle := [] |}).
    assert (Hag : forall l0, is_Some (heap m !! l0) -> l0 <> ret ->
                             heap m3 !! l0 = heap m !! l0).
    { intros l0 [b Hb] Hne. cbn [heap m3]. unfold h2, h1.
      rewrite !lookup_insert_ne; auto. intros <-. congruence. }
    assert (Har : a <> ret) by (intros E; rewrite E in Ha; congruence).
    assert (Had : a <> d) by (intros E; rewrite E in Ha; congruence).
    destruct (clone_cells_spec cs xs [] [None] [] [None] a d m3)
      as (m' & ds & Hc & Ho' & Hd' & Hlen' & Hread' & Hnd' & Hfresh' & Hframe').
    + reflexivity.
    + exact Had.
    + rewrite Hag by (rewrite ?Ha; eauto). exact Ha.
    + cbn [heap m3]. rewrite lookup_insert_ne by congruence.
      unfold h2. rewrite lookup_insert_eq, Hlen, replicate_S_end. reflexivity.
    + reflexivity.
    + apply (read_cells_agree (heap m)); [|exact Hxs].
      intros l0 Hl0. destruct (read_cells_chars _ _ _ l0 Hxs Hl0) as [str0 Hs0].
      apply Hag; [rewrite Hs0; eauto|]. intros ->. congruence.
    + assert (Hret3 : heap m3 !! ret = Some (Bseccomp r2))
        by (cbn [heap m3]; apply lookup_insert_eq).
      assert (Hd3 : is_Some (heap m3 !! d)).
      { cbn [heap m3]. rewrite lookup_insert_ne by congruence.
        unfold h2. rewrite lookup_insert_eq. eauto. }
      assert (Hrds : ret ∉ omap id ds)
        by (intros Hin; apply Hfresh' in Hin; congruence).
      assert (Hdds : d ∉ omap id ds).
      { intros Hin. apply Hfresh' in Hin. rewrite Hin in Hd3. now destruct Hd3. }
      cbn [length app] in Hc, Hd'. rewrite Hlen in Hc.
      exists m', (Some d). split; [exact Hc|]. split; [exact Ho'|].
      cbn [read_array array_shape array_locs]. rewrite Hd', omap_snoc_none.
      split; [rewrite Hframe' by auto; exact Hret3|].
      split; [split; discriminate|]. split.
      { erewrite mapM_Some_2; [reflexivity|].
        apply Forall2_app; [exact Hread'|]. constructor; [reflexivity|constructor]. }
      split.
      { rewrite length_snoc, Hlen', Hlen, Nat.eqb_refl, last_snoc. reflexivity. }
      split; [apply NoDup_cons; auto|]. split.
      { intros l0 [->|Hl0]%elem_of_cons; [exact Hd0|].
        pose proof (Hfresh' l0 Hl0) as H0. cbn [heap m3] in H0.
        destruct (decide (l0 = ret)) as [->|Hn1];
          [rewrite lookup_insert_eq in H0; discriminate|].
        rewrite lookup_insert_ne in H0 by congruence. unfold h2 in H0.
        destruct (decide (l0 = d)) as [->|Hn2]; [exact Hd0|].
        rewrite lookup_insert_ne in H0 by congruence. unfold h1 in H0.
        now rewrite lookup_insert_ne in H0 by congruence. }
      intros l0 Hn [Hn2 Hout]%not_elem_of_cons.
      rewrite Hframe' by auto. cbn [heap m3]. unfold h2, h1.
      now rewrite !lookup_insert_ne by congruence.
  - (* the member is NULL in the source *)
    exists m, None. cbn [read_array array_shape array_locs].
    repeat split; auto using NoDup_nil_2. intros l []%elem_of_nil.
Qed.

End CloneField.

Section CloneSeccomp.

Implicit Types (h : gmap loc block) (m : mem) (l p q a : loc) (ls F N L : list loc).

Lemma cells_agree h h' (cells : list (option loc)) :
  (forall l, l ∈ omap id cells -> h' !! l = h !! l) ->
  mapM (read_string h') cells = mapM (read_string h) cells.
Proof.
  intros H. apply Forall_mapM_ext, Forall_forall. intros c Hc.
  apply read_string_agree. intros l ->. apply H, list_elem_of_omap. eauto.
Qed.

(** An array that lies in blocks the two stores agree on reads the same
    in both. *)
Lemma array_carried h h' (d : option loc) x n L N :
  read_array h d = Some x ->
  array_shape h d n = true ->
  array_locs h d = L ->
  (forall l, l ∈ L -> l ∈ N) ->
  (forall l, l ∈ N -> h' !! l = h !! l) ->
  read_array h' d = Some x /\ array_shape h' d n = true /\ array_locs h' d = L.
Proof.
  intros Hr Hs <- Hsub Hag.
  destruct d as [a|]; [|auto].
  cbn [read_array array_shape array_locs] in *.
  assert (Ha : h' !! a = h !! a) by (apply Hag, Hsub; now left).
  rewrite Ha. destruct (h !! a) as [[|cells| | | | | |]|] eqn:E; try discriminate.
  rewrite (cells_agree h h'); [auto|].
  intros l Hl. apply Hag, Hsub. now right.
Qed.

Lemma cloned_len_read h (ptr : option loc) (x : option (list (option string))) n :
  read_array h ptr = Some x -> cloned_len ptr n = cloned_len x n.
Proof.
  destruct ptr as [a|]; cbn [read_array].
  - destruct (h !! a) as [[|cells| | | | | |]|]; try discriminate.
    destruct (mapM (read_string h) cells); cbn; [|discriminate].
    now intros [= <-].
  - now intros [= <-].
Qed.

(** One array member of [clone_*] in the course of a clone: [m0] is the
    store before the clone, [q] the copy under construction and [N] the
    blocks the copy owns so far. *)
Lemma clone_member_step fld p q (h0 : gmap loc block) m s r x N :
  oracle m = [] ->
  h0 !! p = Some (Bseccomp s) ->
  h0 !! q = None ->
  read_array h0 (get_ptr fld s) = Some x ->
  array_shape h0 (get_ptr fld s) (get_len fld s) = true ->
  heap m !! q = Some (Bseccomp r) ->
  NoDup N ->
  (forall l, l ∈ N -> h0 !! l = None /\ l <> q /\ is_Some (heap m !! l)) ->
  (forall l, l <> q -> l ∉ N -> heap m !! l = h0 !! l) ->
  exists m' d L,
    clone_array_field fld p q m = Some (true, m')
    /\ oracle m' = []
    /\ heap m' !! q
       = Some (Bseccomp match get_ptr fld s with
                        | None => r
                        | Some _ => set_ptr fld d (set_len fld (get_len fld s) r)
                        end)
    /\ (d = None <-> get_ptr fld s = None)
    /\ (read_array (heap m') d = Some x
        /\ array_shape (heap m') d (cloned_len (get_ptr fld s) (get_len fld s)) = true
        /\ array_locs (heap m') d = L)
    /\ NoDup (N ++ L)
    /\ (forall l, l ∈ N ++ L -> h0 !! l = None /\ l <> q /\ is_Some (heap m' !! l))
    /\ (forall l, l <> q -> l ∉ N ++ L -> heap m' !! l = h0 !! l)
    /\ (forall l, l ∈ N -> heap m' !! l = heap m !! l).
Proof.
  intros Ho Hp Hq Hread Hshape Hret HndN HN Hframe.
  assert (Hold : forall l, is_Some (h0 !! l) -> heap m !! l = h0 !! l).
  { intros l [b Hb]. apply Hframe; [intros ->; congruence|].
    intros Hin. destruct (HN l Hin) as [H0 _]. congruence. }
  assert (Hpq : p <> q) by (intros ->; congruence).
  assert (Hsrc : heap m !! p = Some (Bseccomp s)) by (rewrite Hold; [|rewrite Hp]; eauto).
  pose proof (read_array_allocated _ _ _ Hread) as Hall.
  rewrite Forall_forall in Hall.
  destruct (array_carried h0 (heap m) (get_ptr fld s) x (get_len fld s)
              (array_locs h0 (get_ptr fld s)) (array_locs h0 (get_ptr fld s))
              Hread Hshape eq_refl (fun _ H => H))
    as (Hread' & Hshape' & _).
  { intros l Hl. apply Hold, Hall, Hl. }
  destruct (clone_array_field_spec fld p q m s r x Ho Hpq Hsrc Hret Hread' Hshape')
    as (m' & d & Hc & Ho' & Hq' & Hd & Hr' & Hs' & Hnd' & Hfresh' & Hframe').
  exists m', d, (array_locs (heap m') d).
  pose proof (read_array_allocated _ _ _ Hr') as Hall'.
  rewrite Forall_forall in Hall'.
  assert (Hdisj : forall l, l ∈ N -> l ∉ array_locs (heap m') d).
  { intros l Hl Hin. destruct (HN l Hl) as (_ & _ & [b Hb]).
    rewrite (Hfresh' l Hin) in Hb. discriminate. }
  assert (HLq : forall l, l ∈ array_locs (heap m') d -> l <> q).
  { intros l Hl ->. rewrite (Hfresh' q Hl) in Hret. discriminate. }
  assert (HLN : forall l, l ∈ array_locs (heap m') d -> l ∉ N).
  { intros l Hl Hin. exact (Hdisj l Hin Hl). }
  split; [exact Hc|]. split; [exact Ho'|]. split; [exact Hq'|]. split; [exact Hd|].
  split.
  { split; [exact Hr'|]. split; [|reflexivity].
    destruct (get_ptr fld s) as [a|] eqn:Ea; [exact Hs'|].
    destruct Hd as [_ Hd]. now rewrite (Hd eq_refl). }
  split; [apply NoDup_app; auto|]. split.
  { intros l [Hl|Hl]%elem_of_app.
    - destruct (HN l Hl) as (H0 & H1 & H2). repeat split; auto.
      rewrite Hframe' by auto. exact H2.
    - repeat split; auto.
      rewrite <- Hframe by auto. now apply Hfresh'. }
  split.
  { intros l Hn [H1 H2]%not_elem_of_app. rewrite Hframe' by auto. now apply Hframe. }
  intros l Hl. destruct (HN l Hl) as (_ & H1 & _). apply Hframe'; auto.
Qed.

End CloneSeccomp.

Section CloneSeccompRecord.

Implicit Types (h : gmap loc block) (m : mem) (l p q a : loc) (ls F N L : list loc).

(** [clone_*] of a seccomp record, when no allocation fails: the copy
    holds the scalar members and arrays of the source and no residual; it
    owns fresh blocks only, and the store is otherwise as before. *)
Lemma clone_seccomp_spec p m v :
  oracle m = [] ->
  read_seccomp (heap m) p = Some v ->
  seccomp_shape (heap m) p = true ->
  exists q m',
    clone_runtime_spec_schema_features_linux_seccomp p m = Some (Some q, m')
    /\ oracle m' = []
    /\ read_seccomp (heap m') q = Some (seccomp_cloned v)
    /\ seccomp_shape (heap m') q = true
    /\ NoDup (seccomp_locs (heap m') q)
    /\ release (seccomp_locs (heap m') q) (heap m') = heap m.
Proof.
  intros Ho Hread Hshape.
  unfold clone_runtime_spec_schema_features_linux_seccomp.
  rewrite (alloc_unbounded _ m Ho).
  set (q := fresh (dom (heap m))).
  assert (Hq : heap m !! q = None) by apply fresh_unused.
  unfold read_seccomp in Hread. unfold seccomp_shape in Hshape.
  destruct (heap m !! p) as [[| | | |s| | |]|] eqn:Hp; try discriminate.
  assert (Hqp : q <> p) by (intros E; rewrite E in Hq; congruence).
  destruct (read_array (heap m) (Seccomp.actions s)) as [x1|] eqn:R1; [|discriminate].
  destruct (read_array (heap m) (Seccomp.operators s)) as [x2|] eqn:R2; [|discriminate].
  destruct (read_array (heap m) (Seccomp.archs s)) as [x3|] eqn:R3; [|discriminate].
  destruct (read_array (heap m) (Seccomp.known_flags s)) as [x4|] eqn:R4; [|discriminate].
  destruct (read_array (heap m) (Seccomp.supported_flags s)) as [x5|] eqn:R5;
    [|discriminate].
  destruct (read_tree (heap m) (Seccomp._residual s)) as [xr|] eqn:Rr; [|discriminate].
  cbn [mbind option_bind] in Hread. injection Hread as <-.
  apply andb_prop in Hshape as [Hshape S5].
  apply andb_prop in Hshape as [Hshape S4].
  apply andb_prop in Hshape as [Hshape S3].
  apply andb_prop in Hshape as [S1 S2].
  unfold load_seccomp at 1. cbn [heap].
  rewrite lookup_insert_ne by exact Hqp. rewrite Hp. cbn [mbind option_bind].
  rewrite (update_seccomp_allocated q _ seccomp_zero)
    by (cbn [heap]; apply lookup_insert_eq).
  cbn [mbind option_bind heap]. rewrite insert_insert_eq.
  set (r0 := seccomp_set_enabled (Seccomp.enabled s) (Seccomp.enabled_present s)
               seccomp_zero).
  set (m1 := with_heap (<[q := Bseccomp r0]> (heap m)) _).
  assert (Q0 : heap m1 !! q = Some (Bseccomp r0)) by apply lookup_insert_eq.
  assert (I0 : forall l, l ∈ [] -> heap m !! l = None /\ l <> q /\ is_Some (heap m1 !! l))
    by (intros l []%elem_of_nil).
  assert (F0 : forall l, l <> q -> l ∉ [] -> heap m1 !! l = heap m !! l)
    by (intros l Hl _; cbn [heap m1 with_heap]; now apply lookup_insert_ne).
  (* actions *)
  destruct (clone_member_step actions_field p q (heap m) m1 s r0 x1 []
              eq_refl Hp Hq R1 S1 Q0 (NoDup_nil_2 (A := loc)) I0 F0)
    as (m2 & d1 & L1 & C1 & O1 & Q1 & Dn1 & A1 & N1 & I1 & F1 & K1).
  unfold or_return_null at 1. rewrite C1. cbn [mbind option_bind].
  (* operators *)
  destruct (clone_member_step operators_field p q (heap m) m2 s _ x2 _
              O1 Hp Hq R2 S2 Q1 N1 I1 F1)
    as (m3 & d2 & L2 & C2 & O2 & Q2 & Dn2 & A2 & N2 & I2 & F2 & K2).
  unfold or_return_null at 1. rewrite C2. cbn [mbind option_bind].
  (* archs *)
  destruct (clone_member_step archs_field p q (heap m) m3 s _ x3 _
              O2 Hp Hq R3 S3 Q2 N2 I2 F2)
    as (m4 & d3 & L3 & C3 & O3 & Q3 & Dn3 & A3 & N3 & I3 & F3 & K3).
  unfold or_return_null at 1. rewrite C3. cbn [mbind option_bind].
  (* known_flags *)
  destruct (clone_member_step known_flags_field p q (heap m) m4 s _ x4 _
              O3 Hp Hq R4 S4 Q3 N3 I3 F3)
    as (m5 & d4 & L4 & C4 & O4 & Q4 & Dn4 & A4 & N4 & I4 & F4 & K4).
  unfold or_return_null at 1. rewrite C4. cbn [mbind option_bind].
  (* supported_flags *)
  destruct (clone_member_step supported_flags_field p q (heap m) m5 s _ x5 _
              O4 Hp Hq R5 S5 Q4 N4 I4 F4)
    as (m6 & d5 & L5 & C5 & O5 & Q5 & Dn5 & A5 & N5 & I5 & F5 & K5).
  unfold or_return_null at 1. rewrite C5. cbn [mbind option_bind].
  exists q, m6. split; [reflexivity|]. split; [exact O5|].
  (* the arrays, carried to the final store *)
  cbn [app] in *.
  destruct A1 as (A1r & A1s & A1l), A2 as (A2r & A2s & A2l), A3 as (A3r & A3s & A3l),
    A4 as (A4r & A4s & A4l).
  destruct (array_carried _ (heap m3) _ _ _ _ L1 A1r A1s A1l (fun _ H => H) K2)
    as (A1r3 & A1s3 & A1l3).
  destruct (array_carried _ (heap m4) _ _ _ _ (L1 ++ L2) A1r3 A1s3 A1l3) as (A1r4 & A1s4 & A1l4);
    [intros l Hl; rewrite !elem_of_app; tauto | exact K3 |].
  destruct (array_carried _ (heap m5) _ _ _ _ ((L1 ++ L2) ++ L3) A1r4 A1s4 A1l4)
    as (A1r5 & A1s5 & A1l5);
    [intros l Hl; rewrite !elem_of_app; tauto | exact K4 |].
  destruct (array_carried _ (heap m6) _ _ _ _ (((L1 ++ L2) ++ L3) ++ L4) A1r5 A1s5 A1l5)
    as (A1r6 & A1s6 & A1l6);
    [intros l Hl; rewrite !elem_of_app; tauto | exact K5 |].
  destruct (array_carried _ (heap m4) _ _ _ _ (L1 ++ L2) A2r A2s A2l) as (A2r4 & A2s4 & A2l4);
    [intros l Hl; rewrite !elem_of_app; tauto | exact K3 |].
  destruct (array_carried _ (heap m5) _ _ _ _ ((L1 ++ L2) ++ L3) A2r4 A2s4 A2l4)
    as (A2r5 & A2s5 & A2l5);
    [intros l Hl; rewrite !elem_of_app; tauto | exact K4 |].
  destruct (array_carried _ (heap m6) _ _ _ _ (((L1 ++ L2) ++ L3) ++ L4) A2r5 A2s5 A2l5)
    as (A2r6 & A2s6 & A2l6);
    [intros l Hl; rewrite !elem_of_app; tauto | exact K5 |].
  destruct (array_carried _ (heap m5) _ _ _ _ ((L1 ++ L2) ++ L3) A3r A3s A3l)
    as (A3r5 & A3s5 & A3l5);
    [intros l Hl; rewrite !elem_of_app; tauto | exact K4 |].
  destruct (array_carried _ (heap m6) _ _ _ _ (((L1 ++ L2) ++ L3) ++ L4) A3r5 A3s5 A3l5)
    as (A3r6 & A3s6 & A3l6);
    [intros l Hl; rewrite !elem_of_app; tauto | exact K5 |].
  destruct (array_carried _ (heap m6) _ _ _ _ (((L1 ++ L2) ++ L3) ++ L4) A4r A4s A4l)
    as (A4r6 & A4s6 & A4l6);
    [intros l Hl; rewrite !elem_of_app; tauto | exact K5 |].
  destruct A5 as (A5r6 & A5s6 & A5l6).
  (* the record of the copy *)
  assert (Q6 : heap m6 !! q
               = Some (Bseccomp
                         (Seccomp.Build_runtime_spec_schema_features_linux_seccomp loc loc
                             (Seccomp.enabled s)
                             d1 (cloned_len (Seccomp.actions s) (Seccomp.actions_len s))
                             d2 (cloned_len (Seccomp.operators s) (Seccomp.operators_len s))
                             d3 (cloned_len (Seccomp.archs s) (Seccomp.archs_len s))
                             d4 (cloned_len (Seccomp.known_flags s)
                                   (Seccomp.known_flags_len s))
                             d5 (cloned_len (Seccomp.supported_flags s)
                                   (Seccomp.supported_flags_len s))
                             None (Seccomp.enabled_present s)))).
  { rewrite Q5. unfold r0. clear -Dn1 Dn2 Dn3 Dn4 Dn5.
    cbn [get_ptr get_len actions_field operators_field archs_field known_flags_field
         supported_flags_field] in *.
    destruct (Seccomp.actions s);
      [|destruct Dn1 as [_ Dn1]; rewrite (Dn1 eq_refl)];
    (destruct (Seccomp.operators s);
      [|destruct Dn2 as [_ Dn2]; rewrite (Dn2 eq_refl)]);
    (destruct (Seccomp.archs s);
      [|destruct Dn3 as [_ Dn3]; rewrite (Dn3 eq_refl)]);
    (destruct (Seccomp.known_flags s);
      [|destruct Dn4 as [_ Dn4]; rewrite (Dn4 eq_refl)]);
    (destruct (Seccomp.supported_flags s);
      [|destruct Dn5 as [_ Dn5]; rewrite (Dn5 eq_refl)]);
    reflexivity. }
  cbn [get_ptr get_len actions_field operators_field archs_field known_flags_field
       supported_flags_field] in *.
  unfold read_seccomp, seccomp_shape, seccomp_locs. rewrite Q6.
  cbn [Seccomp.enabled Seccomp.actions Seccomp.operators Seccomp.archs
       Seccomp.known_flags Seccomp.supported_flags Seccomp._residual
       Seccomp.actions_len Seccomp.operators_len Seccomp.archs_len
       Seccomp.known_flags_len Seccomp.supported_flags_len Seccomp.enabled_present].
  rewrite A1r6, A2r6, A3r6, A4r6, A5r6, A1s6, A2s6, A3s6, A4s6, A5s6,
    A1l6, A2l6, A3l6, A4l6, A5l6.
  change (option_list (@None loc)) with (@nil loc).
  rewrite app_nil_r.
  cbn [mbind option_bind read_tree andb].
  split.
  { unfold seccomp_cloned.
    cbn [Seccomp.enabled Seccomp.actions Seccomp.operators Seccomp.archs
         Seccomp.known_flags Seccomp.supported_flags Seccomp._residual
         Seccomp.actions_len Seccomp.operators_len Seccomp.archs_len
         Seccomp.known_flags_len Seccomp.supported_flags_len Seccomp.enabled_present].
    rewrite (cloned_len_read _ _ _ (Seccomp.actions_len s) R1),
      (cloned_len_read _ _ _ (Seccomp.operators_len s) R2),
      (cloned_len_read _ _ _ (Seccomp.archs_len s) R3),
      (cloned_len_read _ _ _ (Seccomp.known_flags_len s) R4),
      (cloned_len_read _ _ _ (Seccomp.supported_flags_len s) R5).
    reflexivity. }
  split; [reflexivity|].
  assert (Hsame : forall l, l ∈ L1 ++ L2 ++ L3 ++ L4 ++ L5
                            <-> l ∈ (((L1 ++ L2) ++ L3) ++ L4) ++ L5)
    by (intros l; rewrite !elem_of_app; tauto).
  split.
  { apply NoDup_cons. split.
    - intros Hin. apply Hsame in Hin. destruct (I5 q Hin) as (_ & H & _). now apply H.
    - rewrite <- !app_assoc in N5. exact N5. }
  apply map_eq. intros k. rewrite lookup_release.
  destruct (decide (k ∈ q :: L1 ++ L2 ++ L3 ++ L4 ++ L5)) as [Hk|Hk].
  - apply elem_of_cons in Hk as [->|Hk]; [now rewrite Hq|].
    apply Hsame in Hk. destruct (I5 k Hk) as (H & _ & _). now rewrite H.
  - apply not_elem_of_cons in Hk as [Hkq Hk]. apply F5; [exact Hkq|].
    intros Hin. apply Hk, Hsame, Hin.
Qed.

End CloneSeccompRecord.

(* ===================================================================== *)
(** ** Reading through a larger store *)
(* ===================================================================== *)

Section Monotone.

Implicit Types (h : gmap loc block) (m : mem) (l p q a : loc).

Lemma read_chars_mono h h' l s :
  h ⊆ h' -> read_chars h l = Some s -> read_chars h' l = Some s.
Proof.
  intros Hs. unfold read_chars.
  destruct (h !! l) as [b|] eqn:E; [|discriminate].
  now rewrite (lookup_weaken _ _ _ _ E Hs).
Qed.

Lemma read_string_mono h h' (c : option loc) x :
  h ⊆ h' -> read_string h c = Some x -> read_string h' c = Some x.
Proof.
  intros Hs. destruct c as [l|]; [|auto]. cbn [read_string].
  destruct (read_chars h l) as [s|] eqn:E; [|discriminate].
  now rewrite (read_chars_mono _ _ _ _ Hs E).
Qed.

Lemma read_tree_mono h h' (c : option loc) x :
  h ⊆ h' -> read_tree h c = Some x -> read_tree h' c = Some x.
Proof.
  intros Hs. destruct c as [l|]; [|auto]. cbn [read_tree].
  destruct (h !! l) as [b|] eqn:E; [|discriminate].
  now rewrite (lookup_weaken _ _ _ _ E Hs).
Qed.

Lemma read_array_mono h h' (c : option loc) x :
  h ⊆ h' -> read_array h c = Some x -> read_array h' c = Some x.
Proof.
  intros Hs. destruct c as [a|]; [|auto]. cbn [read_array].
  destruct (h !! a) as [b|] eqn:E; [|discriminate].
  rewrite (lookup_weaken _ _ _ _ E Hs).
  destruct b as [|cells| | | | | |]; try discriminate.
  destruct (mapM (read_string h) cells) as [xs|] eqn:Em; [|discriminate].
  intros <-. erewrite mapM_Some_2; [reflexivity|].
  apply mapM_Some_1 in Em. eapply Forall2_impl; [exact Em|].
  intros c y Hc. now apply (read_string_mono h).
Qed.

Lemma read_cgroup_mono h h' p v :
  h ⊆ h' -> read_cgroup h p = Some v -> read_cgroup h' p = Some v.
Proof.
  intros Hs. unfold read_cgroup.
  destruct (h !! p) as [b|] eqn:E; [|discriminate].
  rewrite (lookup_weaken _ _ _ _ E Hs).
  destruct b as [| | |r| | | |]; try discriminate.
  destruct (read_tree h (Cgroup._residual r)) as [x|] eqn:Et; [|discriminate].
  now rewrite (read_tree_mono _ _ _ _ Hs Et).
Qed.

Lemma read_idmap_mono h h' p v :
  h ⊆ h' -> read_idmap h p = Some v -> read_idmap h' p = Some v.
Proof.
  intros Hs. unfold read_idmap.
  destruct (h !! p) as [b|] eqn:E; [|discriminate].
  rewrite (lookup_weaken _ _ _ _ E Hs).
  destruct b as [| | | | | |r|]; try discriminate.
  destruct (read_tree h (Idmap._residual r)) as [x|] eqn:Et; [|discriminate].
  now rewrite (read_tree_mono _ _ _ _ Hs Et).
Qed.

Lemma read_mount_extensions_mono h h' p v :
  h ⊆ h' -> read_mount_extensions h p = Some v -> read_mount_extensions h' p = Some v.
Proof.
  intros Hs. unfold read_mount_extensions.
  destruct (h !! p) as [b|] eqn:E; [|discriminate].
  rewrite (lookup_weaken _ _ _ _ E Hs).
  destruct b as [| | | | | | |r]; try discriminate.
  destruct (MountExtensions.idmap r) as [i|].
  - destruct (read_idmap h i) as [vi|] eqn:Ei; [|discriminate].
    rewrite (read_idmap_mono _ _ _ _ Hs Ei).
    cbn [fmap option_fmap option_map mbind option_bind].
    destruct (read_tree h (MountExtensions._residual r)) as [x|] eqn:Et; [|discriminate].
    now rewrite (read_tree_mono _ _ _ _ Hs Et).
  - cbn [mbind option_bind].
    destruct (read_tree h (MountExtensions._residual r)) as [x|] eqn:Et; [|discriminate].
    now rewrite (read_tree_mono _ _ _ _ Hs Et).
Qed.

Lemma read_zos_mono h h' p v :
  h ⊆ h' -> read_zos h p = Some v -> read_zos h' p = Some v.
Proof.
  intros Hs. unfold read_zos.
  destruct (h !! p) as [b|] eqn:E; [|discriminate].
  rewrite (lookup_weaken _ _ _ _ E Hs).
  destruct b as [| | | | |r| |]; try discriminate.
  destruct (read_string h (ZosNs.type r)) as [x1|] eqn:E1; [|discriminate].
  rewrite (read_string_mono _ _ _ _ Hs E1).
  destruct (read_string h (ZosNs.path r)) as [x2|] eqn:E2; [|discriminate].
  rewrite (read_string_mono _ _ _ _ Hs E2).
  destruct (read_tree h (ZosNs._residual r)) as [x|] eqn:Et; [|discriminate].
  now rewrite (read_tree_mono _ _ _ _ Hs Et).
Qed.

Lemma read_seccomp_mono h h' p v :
  h ⊆ h' -> read_seccomp h p = Some v -> read_seccomp h' p = Some v.
Proof.
  intros Hs. unfold read_seccomp.
  destruct (h !! p) as [b|] eqn:E; [|discriminate].
  rewrite (lookup_weaken _ _ _ _ E Hs).
  destruct b as [| | | |r| | |]; try discriminate.
  destruct (read_array h (Seccomp.actions r)) as [x1|] eqn:E1; [|discriminate].
  rewrite (read_array_mono _ _ _ _ Hs E1).
  destruct (read_array h (Seccomp.operators r)) as [x2|] eqn:E2; [|discriminate].
  rewrite (read_array_mono _ _ _ _ Hs E2).
  destruct (read_array h (Seccomp.archs r)) as [x3|] eqn:E3; [|discriminate].
  rewrite (read_array_mono _ _ _ _ Hs E3).
  destruct (read_array h (Seccomp.known_flags r)) as [x4|] eqn:E4; [|discriminate].
  rewrite (read_array_mono _ _ _ _ Hs E4).
  destruct (read_array h (Seccomp.supported_flags r)) as [x5|] eqn:E5; [|discriminate].
  rewrite (read_array_mono _ _ _ _ Hs E5).
  destruct (read_tree h (Seccomp._residual r)) as [x|] eqn:Et; [|discriminate].
  now rewrite (read_tree_mono _ _ _ _ Hs Et).
Qed.

Lemma released_subseteq (L : list loc) h h' : release L h' = h -> h ⊆ h'.
Proof.
  intros <-. apply map_subseteq_spec. intros i x. rewrite lookup_release.
  destruct (decide (i ∈ L)); [discriminate|auto].
Qed.

Lemma released_fresh (L : list loc) h h' l : release L h' = h -> l ∈ L -> h !! l = None.
Proof. intros <- Hl. rewrite lookup_release. now rewrite decide_True. Qed.

End Monotone.

(* ===================================================================== *)
(** ** Clone and release, for every record *)
(* ===================================================================== *)

Section OwnershipFacts.

Context {V : Type}.
Variable read : gmap loc block -> loc -> option V.
Variable locs : gmap loc block -> loc -> list loc.
Variable free_record : option loc -> mem -> option mem.
Variable clone_record : loc -> mem -> option (option loc * mem).

Hypothesis read_mono :
  forall h h' p v, h ⊆ h' -> read h p = Some v -> read h' p = Some v.

Lemma independent_copy_intro (copy_of : V -> V) p v m q m' :
  oracle m = [] ->
  oracle m' = [] ->
  read (heap m) p = Some v ->
  clone_record p m = Some (Some q, m') ->
  read (heap m') q = Some (copy_of v) ->
  NoDup (locs (heap m') q) ->
  release (locs (heap m') q) (heap m') = heap m ->
  free_record (Some q) m'
  = Some (with_heap (release (locs (heap m') q) (heap m')) m') ->
  independent_copy read locs free_record clone_record copy_of p v m.
Proof.
  intros Ho Ho' Hread Hclone Hread' Hnd Hrel Hfree.
  pose proof (released_subseteq _ _ _ Hrel) as Hsub.
  exists q, m'. split; [exact Hclone|]. split; [exact Hread'|]. split; [exact Hnd|].
  split; [intros l Hl; exact (released_fresh _ _ _ l Hrel Hl)|].
  split.
  { intros l b Hl. apply (read_mono (heap m)); [|exact Hread].
    apply insert_subseteq_r; [exact (released_fresh _ _ _ l Hrel Hl)|exact Hsub]. }
  split; [exact (read_mono _ _ _ _ Hsub Hread)|].
  rewrite Hfree, Hrel. unfold with_heap. rewrite Ho'.
  destruct m as [hm om]. cbn in *. now subst.
Qed.

Lemma releases_intro p m :
  (forall m0, free_record None m0 = Some m0) ->
  (forall m0, heap m0 !! p = None -> free_record (Some p) m0 = None) ->
  p ∈ locs (heap m) p ->
  free_record (Some p) m
  = Some (with_heap (release (locs (heap m) p) (heap m)) m) ->
  releases locs free_record p m.
Proof.
  intros Hnull Hstale Hin Hfree. eexists. split; [exact Hfree|].
  cbn [heap oracle with_heap]. split; [reflexivity|]. split; [reflexivity|].
  split; [apply Hnull|]. apply Hstale. cbn [heap with_heap].
  rewrite lookup_release. now rewrite decide_True.
Qed.

End OwnershipFacts.

(* ===================================================================== *)
(** ** The claims on clone and release *)
(* ===================================================================== *)

Section StalePointer.

Implicit Types (m : mem) (p : loc).

Lemma free_cgroup_stale p m :
  heap m !! p = None -> free_runtime_spec_schema_features_linux_cgroup (Some p) m = None.
Proof. intros H. unfold free_runtime_spec_schema_features_linux_cgroup. now rewrite H. Qed.

Lemma free_idmap_stale p m :
  heap m !! p = None ->
  free_runtime_spec_schema_features_linux_mount_extensions_idmap (Some p) m = None.
Proof.
  intros H. unfold free_runtime_spec_schema_features_linux_mount_extensions_idmap.
  now rewrite H.
Qed.

Lemma free_mount_extensions_stale p m :
  heap m !! p = None ->
  free_runtime_spec_schema_features_linux_mount_extensions (Some p) m = None.
Proof.
  intros H. unfold free_runtime_spec_schema_features_linux_mount_extensions.
  now rewrite H.
Qed.

Lemma free_zos_stale p m :
  heap m !! p = None ->
  free_runtime_spec_schema_defs_zos_namespace_reference (Some p) m = None.
Proof.
  intros H. unfold free_runtime_spec_schema_defs_zos_namespace_reference, load_zos.
  now rewrite H.
Qed.

Lemma free_seccomp_stale p m :
  heap m !! p = None ->
  free_runtime_spec_schema_features_linux_seccomp (Some p) m = None.
Proof.
  intros H. unfold free_runtime_spec_schema_features_linux_seccomp, free_array_field,
    load_seccomp.
  now rewrite H.
Qed.

End StalePointer.

Section TriState.

Lemma tri_state_decoded slots fullkey x :
  x ∈ cgroup_bools ->
  tri_state (snd (fst x)) (snd x) (decoded_cgroup slots fullkey)
  = bool_field (fst (fst x)) slots.
Proof.
  intros Hx. unfold cgroup_bools in Hx. rewrite !elem_of_cons, elem_of_nil in Hx.
  destruct Hx as [->|[->|[->|[->|[->|[]]]]]]; cbn [fst snd];
    unfold tri_state, decoded_cgroup;
    cbn [v1 v2 systemd systemd_user rdma v1_present v2_present systemd_present
         systemd_user_present rdma_present];
    match goal with |- context [bool_field ?n slots] =>
      destruct (bool_field n slots) as [[]|] end; reflexivity.
Qed.

Lemma bool_field_of_input name slots :
  tri_state_of_input name slots (bool_field name slots).
Proof.
  unfold tri_state_of_input, bool_field.
  destruct (member name slots) as [[]|]; repeat split; intros; congruence.
Qed.

Lemma tri_state_cloned (r : cgroup) x :
  x ∈ cgroup_bools ->
  tri_state (snd (fst x)) (snd x) (cgroup_with_residual None r)
  = tri_state (snd (fst x)) (snd x) r.
Proof.
  intros Hx. unfold cgroup_bools in Hx. rewrite !elem_of_cons, elem_of_nil in Hx.
  destruct Hx as [->|[->|[->|[->|[->|[]]]]]]; reflexivity.
Qed.

End TriState.

(** C2, the statement refuted.  The cgroup record at 1 of the example
    store has a residual tree; its clone has none. *)
Lemma clone_residual_counterexample :
  ~ clone_copies_everything read_cgroup
      clone_runtime_spec_schema_features_linux_cgroup 1%positive example_store.
Proof.
  intros (v & q & m' & Hr & Hc & Hr').
  vm_compute in Hr. injection Hr as <-.
  vm_compute in Hc. injection Hc as <- <-.
  vm_compute in Hr'. discriminate.
Qed.

(** C2, amended.  When no allocation fails, [clone_*] of a well-formed
    record returns a copy that holds the scalar members, strings, string
    arrays and nested record of the source, and no residual tree (the
    generated code never copies [_residual]).  The copy owns distinct
    blocks that were not in use before the call, so it shares none with
    the source; a write to any block of the copy leaves the source as it
    was, and releasing the copy gives back the store the call started
    from. *)
Theorem clone_independent_copy (m : mem) :
  oracle m = [] ->
  (forall p v,
      read_cgroup (heap m) p = Some v ->
      independent_copy read_cgroup cgroup_locs
        free_runtime_spec_schema_features_linux_cgroup
        clone_runtime_spec_schema_features_linux_cgroup
        (cgroup_with_residual None) p v m)
  /\ (forall p v,
        read_seccomp (heap m) p = Some v ->
        seccomp_shape (heap m) p = true ->
        independent_copy read_seccomp seccomp_locs
          free_runtime_spec_schema_features_linux_seccomp
          clone_runtime_spec_schema_features_linux_seccomp
          seccomp_cloned p v m)
  /\ (forall p v,
        read_zos (heap m) p = Some v ->
        independent_copy read_zos zos_locs
          free_runtime_spec_schema_defs_zos_namespace_reference
          clone_runtime_spec_schema_defs_zos_namespace_reference
          zos_cloned p v m)
  /\ (forall p v,
        read_mount_extensions (heap m) p = Some v ->
        independent_copy read_mount_extensions mount_extensions_locs
          free_runtime_spec_schema_features_linux_mount_extensions
          clone_runtime_spec_schema_features_linux_mount_extensions
          mount_extensions_cloned p v m).
Proof.
  intros Ho. repeat split.
  - intros p v Hread.
    destruct (clone_cgroup_spec p m v Ho Hread) as (q & m' & Hc & Ho' & Hr' & Hl & Hrel).
    assert (Hnd : NoDup (cgroup_locs (heap m') q))
      by (rewrite Hl; apply NoDup_singleton).
    rewrite <- Hl in Hrel.
    apply (independent_copy_intro _ _ _ _ read_cgroup_mono _ p v m q m'); auto.
    exact (free_cgroup_spec q m' _ Hr' Hnd).
  - intros p v Hread Hshape.
    destruct (clone_seccomp_spec p m v Ho Hread Hshape)
      as (q & m' & Hc & Ho' & Hr' & Hs' & Hnd & Hrel).
    apply (independent_copy_intro _ _ _ _ read_seccomp_mono _ p v m q m'); auto.
    exact (free_seccomp_spec q m' _ Hr' Hs' Hnd).
  - intros p v Hread.
    destruct (clone_zos_spec p m v Ho Hread) as (q & m' & Hc & Ho' & Hr' & Hnd & Hrel).
    apply (independent_copy_intro _ _ _ _ read_zos_mono _ p v m q m'); auto.
    exact (free_zos_spec q m' _ Hr' Hnd).
  - intros p v Hread.
    destruct (clone_mount_extensions_spec p m v Ho Hread)
      as (q & m' & Hc & Ho' & Hr' & Hnd & Hrel).
    apply (independent_copy_intro _ _ _ _ read_mount_extensions_mono _ p v m q m'); auto.
    exact (free_mount_extensions_spec q m' _ Hr' Hnd).
Qed.

Lemma clone_independent_copy_witness :
  (exists v,
      independent_copy read_cgroup cgroup_locs
        free_runtime_spec_schema_features_linux_cgroup
        clone_runtime_spec_schema_features_linux_cgroup
        (cgroup_with_residual None) 1%positive v example_store)
  /\ (exists v,
        independent_copy read_seccomp seccomp_locs
          free_runtime_spec_schema_features_linux_seccomp
          clone_runtime_spec_schema_features_linux_seccomp
          seccomp_cloned 10%positive v example_store)
  /\ (exists v,
        independent_copy read_zos zos_locs
          free_runtime_spec_schema_defs_zos_namespace_reference
          clone_runtime_spec_schema_defs_zos_namespace_reference
          zos_cloned 20%positive v example_store)
  /\ (exists v,
        independent_copy read_mount_extensions mount_extensions_locs
          free_runtime_spec_schema_features_linux_mount_extensions
          clone_runtime_spec_schema_features_linux_mount_extensions
          mount_extensions_cloned 30%positive v example_store).
Proof.
  destruct (clone_independent_copy example_store eq_refl) as (H1 & H2 & H3 & H4).
  split; [eexists; apply H1; vm_compute; reflexivity|].
  split; [eexists; apply H2; vm_compute; reflexivity|].
  split; [eexists; apply H3; vm_compute; reflexivity|].
  eexists; apply H4; vm_compute; reflexivity.
Defined.

(** C9.  [free_*] of a NULL record returns at once and leaves the store
    as it is; so does a further [free_*] through a handle that was zeroed
    or moved out ([move_ptr] leaves NULL behind).  [free_*] of a
    well-formed record is defined (no block is released twice and none is
    used after its release) and takes away the blocks the record owns and
    nothing else: the record, its nested record, every string of every
    array and the array, the strings and the residual tree. *)
Theorem free_releases_owned_blocks (m : mem) :
  (free_runtime_spec_schema_features_linux_cgroup None m = Some m
   /\ free_runtime_spec_schema_features_linux_seccomp None m = Some m
   /\ free_runtime_spec_schema_defs_zos_namespace_reference None m = Some m
   /\ free_runtime_spec_schema_features_linux_mount_extensions_idmap None m = Some m
   /\ free_runtime_spec_schema_features_linux_mount_extensions None m = Some m)
  /\ (forall p v,
        read_cgroup (heap m) p = Some v ->
        NoDup (cgroup_locs (heap m) p) ->
        releases cgroup_locs free_runtime_spec_schema_features_linux_cgroup p m)
  /\ (forall p v,
        read_seccomp (heap m) p = Some v ->
        seccomp_shape (heap m) p = true ->
        NoDup (seccomp_locs (heap m) p) ->
        releases seccomp_locs free_runtime_spec_schema_features_linux_seccomp p m)
  /\ (forall p v,
        read_zos (heap m) p = Some v ->
        NoDup (zos_locs (heap m) p) ->
        releases zos_locs free_runtime_spec_schema_defs_zos_namespace_reference p m)
  /\ (forall p v,
        read_idmap (heap m) p = Some v ->
        NoDup (idmap_locs (heap m) p) ->
        releases idmap_locs
          free_runtime_spec_schema_features_linux_mount_extensions_idmap p m)
  /\ (forall p v,
        read_mount_extensions (heap m) p = Some v ->
        NoDup (mount_extensions_locs (heap m) p) ->
        releases mount_extensions_locs
          free_runtime_spec_schema_features_linux_mount_extensions p m).
Proof.
  split; [repeat split|]. repeat split.
  - intros p v Hread Hnd. apply releases_intro; auto using free_cgroup_stale.
    + now left.
    + exact (free_cgroup_spec p m v Hread Hnd).
  - intros p v Hread Hshape Hnd. apply releases_intro; auto using free_seccomp_stale.
    + now left.
    + exact (free_seccomp_spec p m v Hread Hshape Hnd).
  - intros p v Hread Hnd. apply releases_intro; auto using free_zos_stale.
    + now left.
    + exact (free_zos_spec p m v Hread Hnd).
  - intros p v Hread Hnd. apply releases_intro; auto using free_idmap_stale.
    + now left.
    + exact (free_idmap_spec p m v Hread Hnd).
  - intros p v Hread Hnd. apply releases_intro; auto using free_mount_extensions_stale.
    + now left.
    + exact (free_mount_extensions_spec p m v Hread Hnd).
Qed.

Lemma free_releases_owned_blocks_witness :
  releases cgroup_locs free_runtime_spec_schema_features_linux_cgroup
    1%positive example_store
  /\ releases seccomp_locs free_runtime_spec_schema_features_linux_seccomp
       10%positive example_store
  /\ releases zos_locs free_runtime_spec_schema_defs_zos_namespace_reference
       20%positive example_store
  /\ releases idmap_locs
       free_runtime_spec_schema_features_linux_mount_extensions_idmap
       31%positive example_store
  /\ releases mount_extensions_locs
       free_runtime_spec_schema_features_linux_mount_extensions
       30%positive example_store.
Proof.
  destruct (free_releases_owned_blocks example_store) as (_ & H1 & H2 & H3 & H4 & H5).
  split; [eapply H1; [vm_compute; reflexivity
                     | apply (bool_decide_unpack _); vm_compute; exact I]|].
  split; [eapply H2; [vm_compute; reflexivity | vm_compute; reflexivity
                     | apply (bool_decide_unpack _); vm_compute; exact I]|].
  split; [eapply H3; [vm_compute; reflexivity
                     | apply (bool_decide_unpack _); vm_compute; exact I]|].
  split; [eapply H4; [vm_compute; reflexivity
                     | apply (bool_decide_unpack _); vm_compute; exact I]|].
  eapply H5; [vm_compute; reflexivity
             | apply (bool_decide_unpack _); vm_compute; exact I].
Defined.

(** C4.  Decoding a parsed object against the cgroup schema succeeds, and
    each boolean member of the record is absent when the object lacks the
    key, present and false when the key holds JSON-false, present and true
    when it holds JSON-true.  A clone of the decoded record has each
    boolean member in the same state, so the three states are told apart
    in the clone as in the record. *)
Theorem tri_state_decode_clone (slots : list slot) (ctx : parser_context)
    (m : mem) (p : loc) :
  parsed (Yobject slots) = true ->
  oracle m = [] ->
  exists md r,
    make_runtime_spec_schema_features_linux_cgroup (Some (Yobject slots)) ctx = Some md
    /\ ret md = Some r
    /\ err md = None
    /\ (forall x, x ∈ cgroup_bools ->
          tri_state_of_input (fst (fst x)) slots (tri_state (snd (fst x)) (snd x) r))
    /\ (read_cgroup (heap m) p = Some r ->
        exists q m' r',
          clone_runtime_spec_schema_features_linux_cgroup p m = Some (Some q, m')
          /\ read_cgroup (heap m') q = Some r'
          /\ forall x, x ∈ cgroup_bools ->
               tri_state (snd (fst x)) (snd x) r' = tri_state (snd (fst x)) (snd x) r
               /\ tri_state_of_input (fst (fst x)) slots
                    (tri_state (snd (fst x)) (snd x) r')).
Proof.
  intros Hp Ho. rewrite (make_cgroup_closed slots ctx Hp).
  eexists _, _. split; [reflexivity|]. cbn [ret err].
  split; [reflexivity|]. split; [reflexivity|].
  assert (Hdec : forall x, x ∈ cgroup_bools ->
            tri_state_of_input (fst (fst x)) slots
              (tri_state (snd (fst x)) (snd x)
                 (decoded_cgroup slots (opt ctx OPT_PARSE_FULLKEY)))).
  { intros x Hx. rewrite (tri_state_decoded slots _ x Hx). apply bool_field_of_input. }
  split; [exact Hdec|].
  intros Hread.
  destruct (clone_cgroup_spec p m _ Ho Hread) as (q & m' & Hc & _ & Hr' & _).
  do 3 eexists. split; [exact Hc|]. split; [exact Hr'|].
  intros x Hx. rewrite (tri_state_cloned _ x Hx). split; [reflexivity|auto].
Qed.

Lemma tri_state_decode_clone_witness :
  exists q m' r',
    clone_runtime_spec_schema_features_linux_cgroup 1%positive example_store
    = Some (Some q, m')
    /\ read_cgroup (heap m') q = Some r'
    /\ tri_state v1 v1_present r' = Some false
    /\ tri_state v2 v2_present r' = Some true
    /\ tri_state systemd systemd_present r' = None.
Proof.
  destruct (tri_state_decode_clone example_slots
              {| options := OPT_PARSE_FULLKEY; errfile := None |}
              example_store 1%positive eq_refl eq_refl)
    as (md & r & Hm & Hr & _ & _ & Hclone).
  vm_compute in Hm. injection Hm as <-. cbn in Hr. injection Hr as <-.
  destruct (Hclone eq_refl) as (q & m' & r' & Hc & Hr' & Hst).
  exists q, m', r'. split; [exact Hc|]. split; [exact Hr'|].
  split; [|split].
  - destruct (Hst ("v1", v1, v1_present)) as (_ & _ & H & _); [now left|].
    exact (H eq_refl).
  - destruct (Hst ("v2", v2, v2_present)) as (_ & _ & _ & H); [right; now left|].
    exact (H eq_refl).
  - destruct (Hst ("systemd", systemd, systemd_present)) as (_ & H & _);
      [right; right; now left|].
    exact (H eq_refl).
Defined.

(* ===================================================================== *)
(** ** Closed forms of the decoders *)
(* ===================================================================== *)

Section ClosedForms.

Implicit Types (slots : list slot) (name k : string) (ctx : parser_context).

Lemma make_string_array_member slots name :
  forallb slot_full slots = true ->
  make_string_array (Yobject slots) name = Some (string_array_field name slots).
Proof.
  intros H. unfold make_string_array, get_val, string_array_field.
  rewrite (find_key_member name slots H).
  destruct (member name slots) as [[]|]; reflexivity.
Qed.

Lemma make_seccomp_closed slots ctx :
  parsed (Yobject slots) = true ->
  make_runtime_spec_schema_features_linux_seccomp (Some (Yobject slots)) ctx
  = Some {| ret := Some (decoded_seccomp slots (opt ctx OPT_PARSE_FULLKEY));
            err := None;
            tree_after :=
              Some (Yobject (source_after Seccomp.unknown_key
                               (opt ctx OPT_PARSE_FULLKEY) slots));
            written :=
              warn_unknown ctx (length (moved Seccomp.unknown_key slots)) |}.
Proof.
  intros Hp.
  pose proof (parsed_object_full slots Hp) as Hslots.
  pose proof (full_keys_present slots Hslots) as Hkeys.
  unfold make_runtime_spec_schema_features_linux_seccomp, decoded_seccomp.
  rewrite (make_bool_member slots _ Hslots).
  rewrite !(make_string_array_member slots _ Hslots).
  rewrite (residual_loop_closed _ _ slots Hkeys).
  destruct (bool_field "enabled" slots),
    (string_array_field "actions" slots), (string_array_field "operators" slots),
    (string_array_field "archs" slots), (string_array_field "knownFlags" slots),
    (string_array_field "supportedFlags" slots),
    (opt ctx OPT_PARSE_FULLKEY); reflexivity.
Qed.

Lemma make_zos_closed slots ctx :
  parsed (Yobject slots) = true ->
  make_runtime_spec_schema_defs_zos_namespace_reference (Some (Yobject slots)) ctx
  = Some (match string_field "type" slots with
          | Some _ =>
              {| ret := Some (decoded_zos slots (opt ctx OPT_PARSE_FULLKEY));
                 err := None;
                 tree_after :=
                   Some (Yobject (source_after ZosNs.unknown_key
                                    (opt ctx OPT_PARSE_FULLKEY) slots));
                 written :=
                   warn_unknown ctx (length (moved ZosNs.unknown_key slots)) |}
          | None =>
              {| ret := None;
                 err := Some (required_field_error "type");
                 tree_after := Some (Yobject slots);
                 written := [] |}
          end).
Proof.
  intros Hp.
  pose proof (parsed_object_full slots Hp) as Hslots.
  pose proof (full_keys_present slots Hslots) as Hkeys.
  unfold make_runtime_spec_schema_defs_zos_namespace_reference, decoded_zos.
  rewrite !(make_string_member slots _ Hslots).
  cbn [mbind option_bind].
  destruct (string_field "type" slots); [|reflexivity].
  rewrite (residual_loop_closed _ _ slots Hkeys).
  destruct (opt ctx OPT_PARSE_FULLKEY); reflexivity.
Qed.

End ClosedForms.


(* ===================================================================== *)
(** ** The source tree after a decode that keeps unknown keys *)
(* ===================================================================== *)

Section FullKey.

Implicit Types (slots : list slot) (name k : string) (ctx : parser_context).

Lemma residual_loop_null_key unknown fullkey slots :
  keys_present slots = false -> residual_loop unknown fullkey slots = None.
Proof.
  induction slots as [|[[k|] v] rest IH]; simpl; try discriminate; auto.
  intros H. now rewrite (IH H).
Qed.

Lemma nulled_keys unknown slots :
  keys_present slots = true ->
  keys_present (nulled unknown slots) = negb (existsb (slot_unknown unknown) slots).
Proof.
  induction slots as [|[[k|] v] rest IH]; simpl; try discriminate; auto.
  intros H. unfold nulled in *. cbn [map existsb keys_present forallb fst] in *.
  unfold slot_unknown at 1 3. cbn [fst].
  destruct (unknown k); cbn [forallb fst andb orb negb]; auto.
Qed.

Lemma nulled_none unknown slots :
  existsb (slot_unknown unknown) slots = false -> nulled unknown slots = slots.
Proof.
  induction slots as [|s rest IH]; simpl; auto.
  intros H. apply orb_false_elim in H as [Hs Hrest].
  now rewrite Hs, (IH Hrest).
Qed.

Lemma moved_nulled_length unknown slots :
  (length (moved unknown slots)
   + length (List.filter (fun s => negb (slot_unknown unknown s)) slots))%nat
  = length slots.
Proof.
  unfold moved. induction slots as [|s rest IH]; simpl; auto.
  destruct (slot_unknown unknown s); simpl; lia.
Qed.

Lemma make_cgroup_null_key slots ctx :
  keys_present slots = false ->
  make_runtime_spec_schema_features_linux_cgroup (Some (Yobject slots)) ctx = None.
Proof.
  intros H. unfold make_runtime_spec_schema_features_linux_cgroup.
  rewrite (residual_loop_null_key _ _ _ H).
  destruct (make_bool _ "v1") as [[? ?]|]; [|reflexivity].
  destruct (make_bool _ "v2") as [[? ?]|]; [|reflexivity].
  destruct (make_bool _ "systemd") as [[? ?]|]; [|reflexivity].
  destruct (make_bool _ "systemdUser") as [[? ?]|]; [|reflexivity].
  destruct (make_bool _ "rdma") as [[? ?]|]; reflexivity.
Qed.

Lemma make_seccomp_null_key slots ctx :
  keys_present slots = false ->
  make_runtime_spec_schema_features_linux_seccomp (Some (Yobject slots)) ctx = None.
Proof.
  intros H. unfold make_runtime_spec_schema_features_linux_seccomp.
  rewrite (residual_loop_null_key _ _ _ H).
  destruct (make_bool _ "enabled") as [[? ?]|]; [|reflexivity].
  destruct (make_string_array _ "actions") as [[? ?]|]; [|reflexivity].
  destruct (make_string_array _ "operators") as [[? ?]|]; [|reflexivity].
  destruct (make_string_array _ "archs") as [[? ?]|]; [|reflexivity].
  destruct (make_string_array _ "knownFlags") as [[? ?]|]; [|reflexivity].
  destruct (make_string_array _ "supportedFlags") as [[? ?]|]; reflexivity.
Qed.

End FullKey.


(** X1.  Decoding a parsed object with OPT_PARSE_FULLKEY takes the entries
    under unknown keys out of the source tree: they are the members of the
    residual, in their order, and each leaves a slot with a NULL key and a
    NULL value behind, while the entries under known keys stay where they
    were; no entry is lost or held twice.  The tree can be decoded again
    only if it had no unknown key: otherwise the second decode hands a
    NULL key to strcmp. *)
Theorem fullkey_moves_unknown_entries (slots : list slot) (ctx : parser_context) :
  parsed (Yobject slots) = true ->
  opt ctx OPT_PARSE_FULLKEY = true ->
  (exists m r,
      make_runtime_spec_schema_features_linux_cgroup (Some (Yobject slots)) ctx = Some m
      /\ ret m = Some r
      /\ Cgroup._residual r = Some (Yobject (moved Cgroup.unknown_key slots))
      /\ tree_after m = Some (Yobject (nulled Cgroup.unknown_key slots))
      /\ forall ctx',
           make_runtime_spec_schema_features_linux_cgroup (tree_after m) ctx'
           = if existsb (slot_unknown Cgroup.unknown_key) slots then None
             else make_runtime_spec_schema_features_linux_cgroup
                    (Some (Yobject slots)) ctx')
  /\ (exists m r,
        make_runtime_spec_schema_features_linux_seccomp (Some (Yobject slots)) ctx = Some m
        /\ ret m = Some r
        /\ Seccomp._residual r = Some (Yobject (moved Seccomp.unknown_key slots))
        /\ tree_after m = Some (Yobject (nulled Seccomp.unknown_key slots))
        /\ forall ctx',
             make_runtime_spec_schema_features_linux_seccomp (tree_after m) ctx'
             = if existsb (slot_unknown Seccomp.unknown_key) slots then None
               else make_runtime_spec_schema_features_linux_seccomp
                      (Some (Yobject slots)) ctx')
  /\ (forall unknown,
        (length (moved unknown slots)
         + length (List.filter slot_full (nulled unknown slots)))%nat = length slots
        /\ forall i s, slots !! i = Some s ->
             nulled unknown slots !! i
             = Some (if slot_unknown unknown s then (None, None) else s)).
Proof.
  intros Hp Hfull.
  pose proof (full_keys_present slots (parsed_object_full slots Hp)) as Hkeys.
  split; [|split].
  - rewrite (make_cgroup_closed slots ctx Hp), Hfull.
    eexists _, _. split; [reflexivity|]. cbn [ret tree_after decoded_cgroup Cgroup._residual].
    repeat split. intros ctx'.
    destruct (existsb (slot_unknown Cgroup.unknown_key) slots) eqn:E.
    + apply make_cgroup_null_key. fold (nulled Cgroup.unknown_key slots).
      now rewrite (nulled_keys _ _ Hkeys), E.
    + fold (nulled Cgroup.unknown_key slots). now rewrite (nulled_none _ _ E).
  - rewrite (make_seccomp_closed slots ctx Hp), Hfull.
    eexists _, _. split; [reflexivity|].
    cbn [ret tree_after decoded_seccomp Seccomp._residual residual_of source_after].
    repeat split. intros ctx'.
    destruct (existsb (slot_unknown Seccomp.unknown_key) slots) eqn:E.
    + apply make_seccomp_null_key. now rewrite (nulled_keys _ _ Hkeys), E.
    + now rewrite (nulled_none _ _ E).
  - intros unknown. split.
    + rewrite <- (moved_nulled_length unknown slots). f_equal.
      pose proof (parsed_object_full slots Hp) as Hall. clear -Hall.
      unfold nulled. induction slots as [|s rest IH]; simpl in *; auto.
      apply andb_prop in Hall as [Hs Hrest].
      destruct (slot_unknown unknown s); simpl; [now apply IH|].
      rewrite Hs. simpl. f_equal. now apply IH.
    + intros i s Hi. unfold nulled. rewrite list_lookup_fmap, Hi. reflexivity.
Qed.

Lemma fullkey_moves_unknown_entries_witness :
  exists m r,
    make_runtime_spec_schema_features_linux_cgroup (Some (Yobject example_slots))
      {| options := OPT_PARSE_FULLKEY; errfile := None |} = Some m
    /\ ret m = Some r
    /\ Cgroup._residual r = Some (Yobject [(Some "unknownKey", Some (Ystring "x"))])
    /\ tree_after m = Some (Yobject [(Some "v1", Some Yfalse); (Some "v2", Some Ytrue);
                                     (None, None)])
    /\ forall ctx',
         make_runtime_spec_schema_features_linux_cgroup (tree_after m) ctx' = None.
Proof.
  destruct (fullkey_moves_unknown_entries example_slots
              {| options := OPT_PARSE_FULLKEY; errfile := None |} eq_refl eq_refl)
    as ((m & r & Hm & Hr & Hres & Ht & Hagain) & _).
  exists m, r. repeat split; assumption.
Defined.


(* ===================================================================== *)
(** ** What a decoder returns can be encoded *)
(* ===================================================================== *)

Section DecodedOk.

Implicit Types (slots : list slot) (name k : string) (ctx : parser_context).

Lemma member_parsed name slots v :
  parsed (Yobject slots) = true -> member name slots = Some v -> parsed v = true.
Proof.
  cbn [parsed]. induction slots as [|[[k|] [x|]] rest IH]; simpl; try discriminate.
  intros H. apply andb_prop in H as [Hx Hrest].
  destruct (String.eqb name k); [now intros [= <-]|auto].
Qed.

Lemma cells_lookup (vs : list (option yajl_val)) i :
  (i < length vs)%nat ->
  forallb (fun c => match c with Some x => parsed x | None => false end) vs = true ->
  exists s, (map make_string_cell vs ++ [None]) !! i = Some (Some s).
Proof.
  revert i. induction vs as [|[x|] rest IH]; simpl; intros i Hi H; try lia;
    try discriminate.
  apply andb_prop in H as [_ Hrest].
  destruct i as [|i]; [eauto|]. apply IH; [lia|assumption].
Qed.

Lemma string_array_field_ok name slots :
  parsed (Yobject slots) = true ->
  array_ok (fst (string_array_field name slots)) (snd (string_array_field name slots))
  = true.
Proof.
  intros Hp. unfold string_array_field.
  destruct (member name slots) as [v|] eqn:E; [|reflexivity].
  pose proof (member_parsed name slots v Hp E) as Hv.
  destruct v as [| | |vs| | |]; try reflexivity.
  cbn [fst snd array_ok]. apply forallb_forall. intros i Hi.
  apply in_seq in Hi as [_ Hi]. cbn [parsed] in Hv.
  destruct (cells_lookup vs i ltac:(lia) Hv) as [s ->]. reflexivity.
Qed.

Lemma strings_of_cells (vs : list (option yajl_val)) :
  omap id (take (length vs) (map make_string_cell vs ++ [None]))
  = map string_of_element (omap id vs).
Proof.
  rewrite take_app_length'; [|now rewrite length_map].
  induction vs as [|[x|] rest IH]; [reflexivity| |exact IH].
  destruct x; simpl; f_equal; exact IH.
Qed.

Lemma string_array_field_state name slots :
  array_state (fst (string_array_field name slots)) (snd (string_array_field name slots))
  = strings_field name slots.
Proof.
  unfold string_array_field, strings_field, array_state.
  destruct (member name slots) as [[| | |vs| | |]|]; try reflexivity.
  cbn [fst snd fmap option_fmap option_map]. now rewrite strings_of_cells.
Qed.

Lemma residual_of_ok unknown fullkey slots :
  parsed (Yobject slots) = true ->
  residual_ok (residual_of unknown fullkey slots) = true.
Proof.
  intros Hp. destruct fullkey; [|reflexivity].
  cbn [residual_of residual_ok]. now apply parsed_filter.
Qed.

Lemma decoded_seccomp_ok slots fullkey :
  parsed (Yobject slots) = true ->
  seccomp_ok (Some (decoded_seccomp slots fullkey)) = true.
Proof.
  intros Hp. cbn [seccomp_ok decoded_seccomp Seccomp.enabled Seccomp.enabled_present
                  Seccomp.actions Seccomp.actions_len Seccomp.operators
                  Seccomp.operators_len Seccomp.archs Seccomp.archs_len
                  Seccomp.known_flags Seccomp.known_flags_len Seccomp.supported_flags
                  Seccomp.supported_flags_len Seccomp._residual].
  rewrite !(string_array_field_ok _ slots Hp), (residual_of_ok _ _ _ Hp).
  unfold zero_when_absent.
  cbn [decoded_seccomp Seccomp.enabled Seccomp.enabled_present].
  destruct (bool_field "enabled" slots) as [[]|]; reflexivity.
Qed.

Lemma decoded_zos_ok slots fullkey :
  parsed (Yobject slots) = true ->
  zos_ok (Some (decoded_zos slots fullkey)) = true.
Proof. intros Hp. cbn [zos_ok decoded_zos ZosNs._residual]. now apply residual_of_ok. Qed.

End DecodedOk.

(** X2.  The string arrays of seccomp.  When the first value under the key
    of an array member is an array, the member holds one string for each
    element, in order: the content of an element that is a string, the
    empty string for one that is not; its length is the number of elements
    and one more cell, NULL, ends the array.  When the key is missing or
    holds anything but an array the member is NULL and its length 0. *)
Theorem make_seccomp_arrays (slots : list slot) (ctx : parser_context) :
  parsed (Yobject slots) = true ->
  exists m r,
    make_runtime_spec_schema_features_linux_seccomp (Some (Yobject slots)) ctx = Some m
    /\ ret m = Some r
    /\ err m = None
    /\ forall x, x ∈ seccomp_arrays ->
         let f := snd (fst x) in
         let f_len := snd x in
         array_state (f r) (f_len r) = strings_field (fst (fst x)) slots
         /\ match member (fst (fst x)) slots with
            | Some (Yarray vs) =>
                f_len r = length vs
                /\ exists cells, f r = Some (cells ++ [None]) /\ length cells = length vs
            | _ => f r = None /\ f_len r = O
            end.
Proof.
  intros Hp. rewrite (make_seccomp_closed slots ctx Hp).
  eexists _, _. split; [reflexivity|]. cbn [ret err].
  split; [reflexivity|]. split; [reflexivity|].
  intros x Hx. cbv zeta.
  unfold seccomp_arrays in Hx. rewrite !elem_of_cons, elem_of_nil in Hx.
  destruct Hx as [->|[->|[->|[->|[->|[]]]]]];
    cbn [fst snd decoded_seccomp Seccomp.actions Seccomp.actions_len Seccomp.operators
         Seccomp.operators_len Seccomp.archs Seccomp.archs_len
         Seccomp.known_flags Seccomp.known_flags_len Seccomp.supported_flags
         Seccomp.supported_flags_len];
    (split; [apply string_array_field_state|]);
    unfold string_array_field;
    match goal with |- context [member ?n slots] =>
      destruct (member n slots) as [[| | |vs| | |]|] end;
    cbn [fst snd]; auto;
    (split; [reflexivity|]); eexists; (split; [reflexivity|]); apply length_map.
Qed.

Lemma make_seccomp_arrays_witness :
  exists m r,
    make_runtime_spec_schema_features_linux_seccomp
      (Some (Yobject [(Some "actions",
                       Some (Yarray [Some (Ystring "SCMP_ACT_ALLOW"); Some (Ynumber "7")]));
                      (Some "archs", Some (Ystring "SCMP_ARCH_X86"))]))
      {| options := 0; errfile := None |} = Some m
    /\ ret m = Some r
    /\ Seccomp.actions r = Some [Some "SCMP_ACT_ALLOW"; Some EmptyString; None]
    /\ Seccomp.actions_len r = 2%nat
    /\ Seccomp.archs r = None.
Proof.
  destruct (make_seccomp_arrays
              [(Some "actions",
                Some (Yarray [Some (Ystring "SCMP_ACT_ALLOW"); Some (Ynumber "7")]));
               (Some "archs", Some (Ystring "SCMP_ARCH_X86"))]
              {| options := 0; errfile := None |} eq_refl)
    as (m & r & Hm & Hr & _ & _).
  exists m, r. split; [exact Hm|]. split; [exact Hr|].
  vm_compute in Hm. injection Hm as <-. cbn in Hr. injection Hr as <-.
  repeat split.
Defined.


Section AnyParsedTree.

Implicit Types (t : yajl_val) (slots : list slot) (ctx : parser_context).

Lemma parsed_object_slots t : parsed t = true -> parsed (Yobject (object_slots t)) = true.
Proof. destruct t; auto. Qed.

(** A tree that is not an object has no member and gets no residual. *)
Lemma make_cgroup_parsed t ctx :
  parsed t = true ->
  exists m,
    make_runtime_spec_schema_features_linux_cgroup (Some t) ctx = Some m
    /\ ret m = Some (decoded_cgroup (object_slots t)
                       (is_object t && opt ctx OPT_PARSE_FULLKEY))
    /\ err m = None.
Proof.
  intros Hp. destruct t; try (eexists; repeat split; reflexivity).
  rewrite (make_cgroup_closed _ ctx Hp). eexists. repeat split.
Qed.

Lemma make_seccomp_parsed t ctx :
  parsed t = true ->
  exists m,
    make_runtime_spec_schema_features_linux_seccomp (Some t) ctx = Some m
    /\ ret m = Some (decoded_seccomp (object_slots t)
                       (is_object t && opt ctx OPT_PARSE_FULLKEY))
    /\ err m = None.
Proof.
  intros Hp. destruct t; try (eexists; repeat split; reflexivity).
  rewrite (make_seccomp_closed _ ctx Hp). eexists. repeat split.
Qed.

Lemma make_zos_parsed t ctx :
  parsed t = true ->
  exists m,
    make_runtime_spec_schema_defs_zos_namespace_reference (Some t) ctx = Some m
    /\ ret m = match string_field "type" (object_slots t) with
               | Some _ => Some (decoded_zos (object_slots t)
                                   (is_object t && opt ctx OPT_PARSE_FULLKEY))
               | None => None
               end.
Proof.
  intros Hp. destruct t as [| |ss| | | |]; try (eexists; repeat split; reflexivity).
  rewrite (make_zos_closed _ ctx Hp). cbn [object_slots is_object andb].
  destruct (string_field "type" ss); eexists; repeat split.
Qed.

End AnyParsedTree.

(** X3.  Whatever a decoder returns for a parsed tree can be encoded: for
    every tree the parser can build, object or not, and all options, the
    decoder returns, and the encoder, given what it returned (the record,
    or NULL when the required "type" is missing), runs to the end on an
    emitter that does not fail.  It never reads a cell past an array or
    takes the length of a NULL string. *)
Theorem encode_decoded_defined (t : yajl_val) (dctx gctx : parser_context)
    (g : yajl_gen) :
  parsed t = true ->
  room g = None ->
  (exists m,
      make_runtime_spec_schema_features_linux_cgroup (Some t) dctx = Some m
      /\ gen_runtime_spec_schema_features_linux_cgroup g (ret m) gctx
         = GenOk (extend g (cgroup_calls gctx (ret m))))
  /\ (exists m,
        make_runtime_spec_schema_features_linux_seccomp (Some t) dctx = Some m
        /\ gen_runtime_spec_schema_features_linux_seccomp g (ret m) gctx
           = GenOk (extend g (seccomp_calls gctx (ret m))))
  /\ (exists m,
        make_runtime_spec_schema_defs_zos_namespace_reference (Some t) dctx = Some m
        /\ gen_runtime_spec_schema_defs_zos_namespace_reference g (ret m) gctx
           = GenOk (extend g (zos_calls gctx (ret m)))).
Proof.
  intros Hp Hg. pose proof (parsed_object_slots t Hp) as Hs.
  split; [|split].
  - destruct (make_cgroup_parsed t dctx Hp) as (m & Hm & Hr & _).
    exists m. split; [exact Hm|]. rewrite Hr.
    apply (gen_cgroup_accepts gctx); [|exact Hg]. now apply decoded_cgroup_ok.
  - destruct (make_seccomp_parsed t dctx Hp) as (m & Hm & Hr & _).
    exists m. split; [exact Hm|]. rewrite Hr.
    apply (gen_seccomp_accepts gctx); [|exact Hg]. now apply decoded_seccomp_ok.
  - destruct (make_zos_parsed t dctx Hp) as (m & Hm & Hr).
    exists m. split; [exact Hm|]. rewrite Hr.
    apply (gen_zos_accepts gctx); [|exact Hg].
    destruct (string_field "type" (object_slots t)); [|reflexivity].
    now apply decoded_zos_ok.
Qed.

Lemma encode_decoded_defined_witness :
  let t := Yobject [(Some "actions", Some (Yarray [Some Ynull; Some (Ystring "a")]));
                    (Some "type", Some (Ystring "pid"));
                    (Some "v1", Some Ytrue)] in
  let dctx := {| options := OPT_PARSE_FULLKEY; errfile := None |} in
  let gctx := {| options := OPT_GEN_KEY_VALUE; errfile := None |} in
  let g := {| calls := []; room := None |} in
  (exists m,
      make_runtime_spec_schema_features_linux_cgroup (Some t) dctx = Some m
      /\ gen_runtime_spec_schema_features_linux_cgroup g (ret m) gctx
         = GenOk (extend g (cgroup_calls gctx (ret m))))
  /\ (exists m,
        make_runtime_spec_schema_features_linux_seccomp (Some t) dctx = Some m
        /\ gen_runtime_spec_schema_features_linux_seccomp g (ret m) gctx
           = GenOk (extend g (seccomp_calls gctx (ret m))))
  /\ (exists m,
        make_runtime_spec_schema_defs_zos_namespace_reference (Some t) dctx = Some m
        /\ gen_runtime_spec_schema_defs_zos_namespace_reference g (ret m) gctx
           = GenOk (extend g (zos_calls gctx (ret m)))).
Proof.
  intros t dctx gctx g. exact (encode_decoded_defined t dctx gctx g eq_refl eq_refl).
Defined.


(* ===================================================================== *)
(** ** Reading back what an encoder emits *)
(* ===================================================================== *)

Section ReadMembers.

Implicit Types (slots es : list slot) (cs : list gen_call) (ctx : parser_context).

Lemma reads_nil : reads_as [] [].
Proof. intros rest done st. reflexivity. Qed.

Lemma reads_app cs1 cs2 es1 es2 :
  reads_as cs1 es1 -> reads_as cs2 es2 -> reads_as (cs1 ++ cs2) (es1 ++ es2).
Proof.
  intros H1 H2 rest done st.
  rewrite <- app_assoc, H1, H2, rev_app_distr, <- app_assoc. reflexivity.
Qed.

Lemma reads_entry k v :
  parsed v = true -> reads_as (call_string k :: calls_of_val v) [(Some k, Some v)].
Proof.
  intros Hp rest done st.
  change ((call_string k :: calls_of_val v) ++ rest)
    with (call_string k :: (calls_of_val v ++ rest)).
  cbn [read_calls].
  now rewrite (read_value v Hp rest (Fobject done (Some k) :: st)
                 (Fobject ((Some k, Some v) :: done) None :: st) eq_refl).
Qed.

Lemma reads_members slots :
  parsed (Yobject slots) = true -> reads_as (calls_of_members slots) slots.
Proof.
  cbn [parsed]. induction slots as [|[[k|] [v|]] rest IH]; simpl; try discriminate.
  - intros _. apply reads_nil.
  - intros H. apply andb_prop in H as [Hv Hrest].
    change (call_string k :: calls_of_val v ++ calls_of_members rest)
      with ((call_string k :: calls_of_val v) ++ calls_of_members rest).
    change ((Some k, Some v) :: rest) with ([(Some k, Some v)] ++ rest).
    apply reads_app; [now apply reads_entry|auto].
Qed.

Lemma reads_bool ctx name (field : option bool) :
  reads_as (bool_member_calls ctx name field) (bool_entry ctx name field).
Proof.
  unfold bool_member_calls, bool_entry.
  destruct (opt ctx OPT_GEN_KEY_VALUE || non_null field); [|apply reads_nil].
  destruct (default_bool field);
    [exact (reads_entry name Ytrue eq_refl)|exact (reads_entry name Yfalse eq_refl)].
Qed.

Lemma reads_string ctx name (field : option string) :
  reads_as (string_member_calls ctx name field) (string_entry ctx name field).
Proof.
  unfold string_member_calls, string_entry.
  destruct (opt ctx OPT_GEN_KEY_VALUE || non_null field); [|apply reads_nil].
  exact (reads_entry name (Ystring _) eq_refl).
Qed.

Lemma calls_of_strings (strs : list string) :
  calls_of_val (Yarray (map (fun s => Some (Ystring s)) strs))
  = [call_array_open] ++ map call_string strs ++ [call_array_close].
Proof.
  cbn [calls_of_val app]. f_equal. f_equal.
  induction strs as [|s rest IH]; simpl; [reflexivity|]. now rewrite IH.
Qed.

Lemma parsed_strings (strs : list string) :
  parsed (Yarray (map (fun s => Some (Ystring s)) strs)) = true.
Proof. cbn [parsed]. induction strs; simpl; auto. Qed.

Lemma reads_strings ctx name (field : option (list string)) :
  reads_as (array_member_calls ctx name field) (strings_entry ctx name field).
Proof.
  unfold array_member_calls, strings_entry.
  destruct (opt ctx OPT_GEN_KEY_VALUE || non_null field); [|apply reads_nil].
  intros rest done st. cbv zeta.
  set (strs := default_array field).
  set (arr := Yarray (map (fun s => Some (Ystring s)) strs)).
  assert (E : forall tail,
             [call_array_open] ++ map call_string strs ++ [call_array_close] ++ tail
             = calls_of_val arr ++ tail).
  { intros tail. unfold arr. rewrite calls_of_strings, <- !app_assoc. reflexivity. }
  rewrite E.
  pose proof (read_value arr (parsed_strings strs)) as Hv.
  destruct (Nat.eqb (length strs) 0%nat && negb (opt ctx OPT_GEN_SIMPLIFY));
    cbn [app read_calls]; rewrite <- app_assoc;
    rewrite (Hv _ (Fobject done (Some name) :: st) _ eq_refl); reflexivity.
Qed.

Lemma reads_residual unknown fullkey slots :
  parsed (Yobject slots) = true ->
  reads_as (residual_calls (residual_of unknown fullkey slots))
           (residual_entries unknown fullkey slots).
Proof.
  intros Hp. unfold residual_of, residual_entries.
  destruct fullkey; [|apply reads_nil].
  cbn [residual_calls]. apply reads_members. now apply parsed_filter.
Qed.

Lemma reads_no_residual unknown fullkey :
  reads_as (residual_calls None) (residual_entries unknown fullkey []).
Proof. unfold residual_entries. destruct fullkey; apply reads_nil. Qed.

Lemma closes_end : closes_as [call_map_close] [].
Proof.
  intros rest done stack stack' Hpush. cbn [app read_calls].
  rewrite app_nil_r in Hpush. now rewrite Hpush.
Qed.

Lemma closes_app cs1 es1 cs es :
  reads_as cs1 es1 -> closes_as cs es -> closes_as (cs1 ++ cs) (es1 ++ es).
Proof.
  intros H1 H2 rest done stack stack' Hpush.
  rewrite <- app_assoc, H1. apply H2.
  now rewrite rev_app_distr, rev_involutive, <- app_assoc.
Qed.

Lemma closes_last cs es : reads_as cs es -> closes_as (cs ++ [call_map_close]) es.
Proof.
  intros H. rewrite <- (app_nil_r es). apply closes_app; [exact H|apply closes_end].
Qed.

Lemma reads_object cs es :
  closes_as cs es -> reads_value ([call_map_open] ++ cs) (Yobject es).
Proof. intros H rest stack stack' Hpush. cbn [app read_calls]. now apply H. Qed.

Lemma reads_value_entry k cs v :
  reads_value cs v -> reads_as (call_string k :: cs) [(Some k, Some v)].
Proof.
  intros H rest done st. cbn [app read_calls]. now apply H.
Qed.

Lemma document_of_value cs v : reads_value cs v -> document_of cs = Some v.
Proof.
  intros H. unfold document_of. rewrite <- (app_nil_r cs).
  now rewrite (H [] [Ftop None] [Ftop (Some v)] eq_refl).
Qed.

Lemma document_of_closes cs es :
  closes_as cs es -> document_of ([call_map_open] ++ cs) = Some (Yobject es).
Proof. intros H. now apply document_of_value, reads_object. Qed.

End ReadMembers.


(* ===================================================================== *)
(** ** Decoding and encoding again *)
(* ===================================================================== *)

Section WrittenBack.

Implicit Types (slots : list slot) (dctx gctx : parser_context).

Lemma tri_state_norm (o : option bool) :
  (if non_null o then Some (default_bool o) else None) = o.
Proof. now destruct o. Qed.

Lemma cgroup_reads (sub : option (list slot)) dctx gctx :
  (forall s, sub = Some s -> parsed (Yobject s) = true) ->
  reads_value
    (cgroup_calls gctx ((fun s => decoded_cgroup s (opt dctx OPT_PARSE_FULLKEY)) <$> sub))
    (Yobject (cgroup_written (default [] sub) dctx gctx)).
Proof.
  intros Hp. unfold cgroup_calls, cgroup_written. apply reads_object.
  destruct sub as [s|]; cbn [fmap option_fmap option_map mbind option_bind from_option id].
  - unfold tri_state, decoded_cgroup.
    cbn [v1 v2 systemd systemd_user rdma v1_present v2_present systemd_present
         systemd_user_present rdma_present Cgroup._residual].
    rewrite !tri_state_norm.
    repeat (apply closes_app; [apply reads_bool|]).
    apply closes_last. exact (reads_residual Cgroup.unknown_key _ s (Hp s eq_refl)).
  - repeat (apply closes_app; [apply reads_bool|]).
    apply closes_last, reads_no_residual.
Qed.

Lemma seccomp_reads (sub : option (list slot)) dctx gctx :
  (forall s, sub = Some s -> parsed (Yobject s) = true) ->
  reads_value
    (seccomp_calls gctx
       ((fun s => decoded_seccomp s (opt dctx OPT_PARSE_FULLKEY)) <$> sub))
    (Yobject (seccomp_written (default [] sub) dctx gctx)).
Proof.
  intros Hp. unfold seccomp_calls, seccomp_written. apply reads_object.
  destruct sub as [s|]; cbn [fmap option_fmap option_map mbind option_bind from_option id].
  - unfold tri_state, decoded_seccomp.
    cbn [Seccomp.enabled Seccomp.enabled_present Seccomp.actions Seccomp.actions_len
         Seccomp.operators Seccomp.operators_len Seccomp.archs Seccomp.archs_len
         Seccomp.known_flags Seccomp.known_flags_len Seccomp.supported_flags
         Seccomp.supported_flags_len Seccomp._residual].
    rewrite !tri_state_norm, !string_array_field_state.
    repeat (apply closes_app; [first [apply reads_bool | apply reads_strings]|]).
    apply closes_last. exact (reads_residual Seccomp.unknown_key _ s (Hp s eq_refl)).
  - repeat (apply closes_app; [first [apply reads_bool | apply reads_strings]|]).
    apply closes_last, reads_no_residual.
Qed.

Lemma cgroup_written_back slots dctx gctx :
  parsed (Yobject slots) = true ->
  decode_then_encode make_runtime_spec_schema_features_linux_cgroup
    gen_runtime_spec_schema_features_linux_cgroup (Yobject slots) dctx gctx
  = Some (Yobject (cgroup_written slots dctx gctx)).
Proof.
  intros Hp. unfold decode_then_encode.
  rewrite (make_cgroup_closed slots dctx Hp). cbn [mbind option_bind ret].
  rewrite (gen_cgroup_accepts gctx _ (decoded_cgroup_ok slots _ Hp)
             {| calls := []; room := None |} eq_refl).
  cbn [extend calls app]. apply document_of_value.
  apply (cgroup_reads (Some slots)). now intros s [= <-].
Qed.

Lemma seccomp_written_back slots dctx gctx :
  parsed (Yobject slots) = true ->
  decode_then_encode make_runtime_spec_schema_features_linux_seccomp
    gen_runtime_spec_schema_features_linux_seccomp (Yobject slots) dctx gctx
  = Some (Yobject (seccomp_written slots dctx gctx)).
Proof.
  intros Hp. unfold decode_then_encode.
  rewrite (make_seccomp_closed slots dctx Hp). cbn [mbind option_bind ret].
  rewrite (gen_seccomp_accepts gctx _ (decoded_seccomp_ok slots _ Hp)
             {| calls := []; room := None |} eq_refl).
  cbn [extend calls app]. apply document_of_value.
  apply (seccomp_reads (Some slots)). now intros s [= <-].
Qed.

Lemma zos_written_back slots dctx gctx :
  parsed (Yobject slots) = true ->
  decode_then_encode make_runtime_spec_schema_defs_zos_namespace_reference
    gen_runtime_spec_schema_defs_zos_namespace_reference (Yobject slots) dctx gctx
  = Some (Yobject (zos_written slots dctx gctx)).
Proof.
  intros Hp. unfold decode_then_encode, zos_written.
  rewrite (make_zos_closed slots dctx Hp). cbn [mbind option_bind].
  destruct (string_field "type" slots) as [ty|] eqn:Ety; cbn [ret].
  - rewrite (gen_zos_accepts gctx _ (decoded_zos_ok slots _ Hp)
               {| calls := []; room := None |} eq_refl).
    cbn [extend calls app]. unfold zos_calls.
    apply document_of_closes.
    cbn [mbind option_bind decoded_zos type path ZosNs._residual].
    rewrite Ety.
    repeat (apply closes_app; [apply reads_string|]).
    apply closes_last. exact (reads_residual ZosNs.unknown_key _ slots Hp).
  - rewrite (gen_zos_accepts gctx None eq_refl {| calls := []; room := None |} eq_refl).
    cbn [extend calls app]. unfold zos_calls.
    apply document_of_closes.
    cbn [mbind option_bind residual_calls app].
    apply closes_app; [apply reads_string|].
    apply closes_last, reads_string.
Qed.

End WrittenBack.


Section Idempotent.

Implicit Types (slots rest : list slot) (k n : string) (dctx gctx ctx : parser_context).

Lemma member_skip k n (c : bool) (v : yajl_val) rest :
  String.eqb k n = false ->
  member k ((if c then [(Some n, Some v)] else []) ++ rest) = member k rest.
Proof. intros E. destruct c; [|reflexivity]. cbn [app member]. now rewrite E. Qed.

Lemma member_hit n (c : bool) (v : yajl_val) rest :
  member n ((if c then [(Some n, Some v)] else []) ++ rest)
  = if c then Some v else member n rest.
Proof. destruct c; [|reflexivity]. cbn [app member]. now rewrite String.eqb_refl. Qed.

Lemma member_residual_entries k unknown fullkey slots :
  unknown k = false -> member k (residual_entries unknown fullkey slots) = None.
Proof.
  intros Hk. unfold residual_entries, moved. destruct fullkey; [|reflexivity].
  induction slots as [|[[k'|] [v|]] rest IH]; simpl; auto.
  - unfold slot_unknown at 1. simpl.
    destruct (unknown k') eqn:Hu; auto. simpl.
    destruct (String.eqb_spec k k') as [->|]; [congruence|auto].
  - unfold slot_unknown at 1. simpl. destruct (unknown k'); auto.
Qed.

Lemma moved_skip unknown n (c : bool) (v : yajl_val) rest :
  unknown n = false ->
  moved unknown ((if c then [(Some n, Some v)] else []) ++ rest) = moved unknown rest.
Proof.
  intros Hn. destruct c; [|reflexivity]. unfold moved. cbn [app List.filter].
  unfold slot_unknown at 1. cbn [fst]. now rewrite Hn.
Qed.

Lemma moved_idem unknown slots : moved unknown (moved unknown slots) = moved unknown slots.
Proof.
  unfold moved. induction slots as [|s rest IH]; simpl; auto.
  destruct (slot_unknown unknown s) eqn:E; simpl; auto. now rewrite E, IH.
Qed.

Lemma residual_entries_again unknown fullkey slots :
  residual_entries unknown fullkey (residual_entries unknown fullkey slots)
  = residual_entries unknown fullkey slots.
Proof. unfold residual_entries. destruct fullkey; [apply moved_idem|reflexivity]. Qed.

Lemma residual_entries_moved unknown fullkey slots out :
  moved unknown out = moved unknown (residual_entries unknown fullkey slots) ->
  residual_entries unknown fullkey out = residual_entries unknown fullkey slots.
Proof.
  unfold residual_entries. destruct fullkey; [|reflexivity].
  intros ->. apply moved_idem.
Qed.

Lemma bool_entry_norm ctx n (o : option bool) :
  bool_entry ctx n
    (if opt ctx OPT_GEN_KEY_VALUE || non_null o then Some (default_bool o) else None)
  = bool_entry ctx n o.
Proof.
  unfold bool_entry. destruct (opt ctx OPT_GEN_KEY_VALUE), o as [[]|]; reflexivity.
Qed.

Lemma string_entry_norm ctx n (o : option string) :
  string_entry ctx n
    (if opt ctx OPT_GEN_KEY_VALUE || non_null o then Some (default_string o) else None)
  = string_entry ctx n o.
Proof.
  unfold string_entry. destruct (opt ctx OPT_GEN_KEY_VALUE), o; reflexivity.
Qed.

Lemma strings_entry_norm ctx n (o : option (list string)) :
  strings_entry ctx n
    (if opt ctx OPT_GEN_KEY_VALUE || non_null o then Some (default_array o) else None)
  = strings_entry ctx n o.
Proof.
  unfold strings_entry. destruct (opt ctx OPT_GEN_KEY_VALUE), o; reflexivity.
Qed.

Lemma strings_again (strs : list string) :
  map string_of_element (omap id (map (fun s => Some (Ystring s)) strs)) = strs.
Proof. induction strs as [|s rest IH]; [reflexivity|]. simpl. f_equal. exact IH. Qed.

Lemma parsed_entry (c : bool) n (v : yajl_val) rest :
  parsed v = true -> parsed (Yobject rest) = true ->
  parsed (Yobject ((if c then [(Some n, Some v)] else []) ++ rest)) = true.
Proof. intros Hv Hr. destruct c; [|exact Hr]. cbn [parsed app forallb] in *. now rewrite Hv. Qed.

Lemma parsed_residual_entries unknown fullkey slots :
  parsed (Yobject slots) = true ->
  parsed (Yobject (residual_entries unknown fullkey slots)) = true.
Proof.
  intros Hp. unfold residual_entries. destruct fullkey; [|reflexivity].
  now apply parsed_filter.
Qed.

Lemma parsed_bool (b : bool) : parsed (yajl_of_bool b) = true.
Proof. now destruct b. Qed.

(** The members of a written document, key by key. *)
Ltac find_members :=
  repeat first [ rewrite member_skip by reflexivity
               | rewrite member_hit
               | rewrite member_residual_entries by reflexivity
               | rewrite app_nil_r ].

Ltac skip_known :=
  repeat (rewrite moved_skip by reflexivity).

Lemma cgroup_written_parsed slots dctx gctx :
  parsed (Yobject slots) = true ->
  parsed (Yobject (cgroup_written slots dctx gctx)) = true.
Proof.
  intros Hp. unfold cgroup_written, bool_entry.
  repeat (apply parsed_entry; [apply parsed_bool|]).
  now apply parsed_residual_entries.
Qed.

Lemma cgroup_written_field slots dctx gctx k :
  In k cgroup_keys ->
  bool_field k (cgroup_written slots dctx gctx)
  = if opt gctx OPT_GEN_KEY_VALUE || non_null (bool_field k slots)
    then Some (default_bool (bool_field k slots)) else None.
Proof.
  unfold cgroup_keys. cbn [In].
  intros [<-|[<-|[<-|[<-|[<-|[]]]]]]; unfold cgroup_written;
    generalize (bool_field "v1" slots) (bool_field "v2" slots)
      (bool_field "systemd" slots) (bool_field "systemdUser" slots)
      (bool_field "rdma" slots);
    intros o1 o2 o3 o4 o5; unfold bool_field, bool_entry; find_members;
    destruct (opt gctx OPT_GEN_KEY_VALUE), o1 as [[]|], o2 as [[]|], o3 as [[]|],
      o4 as [[]|], o5 as [[]|]; reflexivity.
Qed.

Lemma cgroup_written_again slots dctx gctx :
  cgroup_written (cgroup_written slots dctx gctx) dctx gctx
  = cgroup_written slots dctx gctx.
Proof.
  set (out := cgroup_written slots dctx gctx).
  unfold cgroup_written at 1.
  assert (Hres : residual_entries Cgroup.unknown_key (opt dctx OPT_PARSE_FULLKEY) out
                 = residual_entries Cgroup.unknown_key (opt dctx OPT_PARSE_FULLKEY) slots).
  { apply residual_entries_moved. unfold out, cgroup_written, bool_entry.
    now skip_known. }
  rewrite Hres. unfold out.
  rewrite !cgroup_written_field by (unfold cgroup_keys; cbn [In]; tauto).
  rewrite !bool_entry_norm. reflexivity.
Qed.

Lemma seccomp_written_parsed slots dctx gctx :
  parsed (Yobject slots) = true ->
  parsed (Yobject (seccomp_written slots dctx gctx)) = true.
Proof.
  intros Hp. unfold seccomp_written, bool_entry, strings_entry.
  repeat (apply parsed_entry; [first [apply parsed_bool | apply parsed_strings]|]).
  now apply parsed_residual_entries.
Qed.

Lemma seccomp_written_enabled slots dctx gctx :
  bool_field "enabled" (seccomp_written slots dctx gctx)
  = if opt gctx OPT_GEN_KEY_VALUE || non_null (bool_field "enabled" slots)
    then Some (default_bool (bool_field "enabled" slots)) else None.
Proof.
  unfold seccomp_written.
  generalize (bool_field "enabled" slots). intros o.
  unfold bool_field, bool_entry, strings_entry. find_members.
  destruct (opt gctx OPT_GEN_KEY_VALUE), o as [[]|]; reflexivity.
Qed.

Lemma seccomp_written_strings slots dctx gctx n :
  In n ["actions"; "operators"; "archs"; "knownFlags"; "supportedFlags"] ->
  strings_field n (seccomp_written slots dctx gctx)
  = if opt gctx OPT_GEN_KEY_VALUE || non_null (strings_field n slots)
    then Some (default_array (strings_field n slots)) else None.
Proof.
  cbn [In].
  intros [<-|[<-|[<-|[<-|[<-|[]]]]]]; unfold seccomp_written;
    generalize (strings_field "actions" slots) (strings_field "operators" slots)
      (strings_field "archs" slots) (strings_field "knownFlags" slots)
      (strings_field "supportedFlags" slots);
    intros a1 a2 a3 a4 a5; unfold strings_field, bool_entry, strings_entry;
    find_members;
    destruct (opt gctx OPT_GEN_KEY_VALUE), a1, a2, a3, a4, a5;
    cbn [orb non_null default_array]; rewrite ?strings_again; reflexivity.
Qed.

Lemma seccomp_written_again slots dctx gctx :
  seccomp_written (seccomp_written slots dctx gctx) dctx gctx
  = seccomp_written slots dctx gctx.
Proof.
  set (out := seccomp_written slots dctx gctx).
  unfold seccomp_written at 1.
  assert (Hres : residual_entries Seccomp.unknown_key (opt dctx OPT_PARSE_FULLKEY) out
                 = residual_entries Seccomp.unknown_key (opt dctx OPT_PARSE_FULLKEY) slots).
  { apply residual_entries_moved. unfold out, seccomp_written, bool_entry, strings_entry.
    now skip_known. }
  rewrite Hres. unfold out.
  rewrite seccomp_written_enabled.
  rewrite !seccomp_written_strings by (cbn [In]; tauto).
  rewrite bool_entry_norm, !strings_entry_norm. reflexivity.
Qed.

Lemma zos_written_parsed slots dctx gctx :
  parsed (Yobject slots) = true ->
  parsed (Yobject (zos_written slots dctx gctx)) = true.
Proof.
  intros Hp. unfold zos_written, string_entry.
  destruct (string_field "type" slots).
  - repeat (apply parsed_entry; [reflexivity|]). now apply parsed_residual_entries.
  - apply parsed_entry; [reflexivity|].
    destruct (opt gctx OPT_GEN_KEY_VALUE || non_null None); reflexivity.
Qed.

Lemma zos_written_again slots dctx gctx :
  zos_written (zos_written slots dctx gctx) dctx gctx = zos_written slots dctx gctx.
Proof.
  destruct (string_field "type" slots) as [ty|] eqn:Ety.
  - assert (Hout : zos_written slots dctx gctx
                   = string_entry gctx "type" (Some ty)
                     ++ string_entry gctx "path" (string_field "path" slots)
                     ++ residual_entries ZosNs.unknown_key
                          (opt dctx OPT_PARSE_FULLKEY) slots)
      by (unfold zos_written; now rewrite Ety).
    rewrite Hout. set (out := string_entry gctx "type" (Some ty) ++ _).
    assert (Hres : residual_entries ZosNs.unknown_key (opt dctx OPT_PARSE_FULLKEY) out
                   = residual_entries ZosNs.unknown_key (opt dctx OPT_PARSE_FULLKEY) slots).
    { apply residual_entries_moved. unfold out, string_entry. now skip_known. }
    assert (Hty : string_field "type" out = Some ty).
    { unfold out, string_field, string_entry. find_members.
      now rewrite orb_true_r. }
    assert (Hpa : string_field "path" out
                  = if opt gctx OPT_GEN_KEY_VALUE || non_null (string_field "path" slots)
                    then Some (default_string (string_field "path" slots)) else None).
    { unfold out. generalize (string_field "path" slots). intros o.
      unfold string_field, string_entry. find_members.
      destruct (opt gctx OPT_GEN_KEY_VALUE), o; reflexivity. }
    unfold zos_written. rewrite Hty, Hpa, Hres, string_entry_norm. reflexivity.
  - unfold zos_written. rewrite Ety.
    unfold string_entry, string_field, residual_entries, moved.
    destruct (opt gctx OPT_GEN_KEY_VALUE), (opt dctx OPT_PARSE_FULLKEY); reflexivity.
Qed.

End Idempotent.

(** X4.  What is written back, for all options.  Decoding a parsed object
    and encoding what the decoder returned writes an object that holds the
    known members in schema order and then, if the decoder ran with
    OPT_PARSE_FULLKEY, the entries under unknown keys, unchanged and in
    their order.  A known member is written when the key held a value of
    its kind (a JSON boolean; a string; an array, each element that is not
    a string written as the empty string) or when OPT_GEN_KEY_VALUE is
    set, then with the zero value of its kind.  When the required "type"
    of a namespace reference is missing the decoder returns NULL and the
    encoder writes the members of no record. *)
Theorem decode_encode_written (slots : list slot) (dctx gctx : parser_context) :
  parsed (Yobject slots) = true ->
  decode_then_encode make_runtime_spec_schema_features_linux_cgroup
    gen_runtime_spec_schema_features_linux_cgroup (Yobject slots) dctx gctx
  = Some (Yobject (cgroup_written slots dctx gctx))
  /\ decode_then_encode make_runtime_spec_schema_features_linux_seccomp
       gen_runtime_spec_schema_features_linux_seccomp (Yobject slots) dctx gctx
     = Some (Yobject (seccomp_written slots dctx gctx))
  /\ decode_then_encode make_runtime_spec_schema_defs_zos_namespace_reference
       gen_runtime_spec_schema_defs_zos_namespace_reference (Yobject slots) dctx gctx
     = Some (Yobject (zos_written slots dctx gctx)).
Proof.
  intros Hp. split; [|split].
  - now apply cgroup_written_back.
  - now apply seccomp_written_back.
  - now apply zos_written_back.
Qed.

Lemma decode_encode_written_witness :
  let slots := [(Some "archs", Some (Yarray [Some (Ystring "x86"); Some Ytrue]));
                (Some "note", Some Ynull);
                (Some "enabled", Some Yfalse);
                (Some "type", Some (Ynumber "1"))] in
  let dctx := {| options := OPT_PARSE_FULLKEY; errfile := None |} in
  let gctx := {| options := 0; errfile := None |} in
  decode_then_encode make_runtime_spec_schema_features_linux_seccomp
    gen_runtime_spec_schema_features_linux_seccomp (Yobject slots) dctx gctx
  = Some (Yobject [(Some "enabled", Some Yfalse);
                   (Some "archs",
                    Some (Yarray [Some (Ystring "x86"); Some (Ystring EmptyString)]));
                   (Some "note", Some Ynull);
                   (Some "type", Some (Ynumber "1"))])
  /\ decode_then_encode make_runtime_spec_schema_defs_zos_namespace_reference
       gen_runtime_spec_schema_defs_zos_namespace_reference (Yobject slots) dctx gctx
     = Some (Yobject []).
Proof.
  intros slots dctx gctx.
  destruct (decode_encode_written slots dctx gctx eq_refl) as (_ & H2 & H3).
  split; [exact H2|exact H3].
Defined.

(** X5.  A document that was written back is a fixed point: decoding it
    and encoding again, with the same options, writes the same document.
    This holds for all options. *)
Theorem decode_encode_stable (slots : list slot) (dctx gctx : parser_context) :
  parsed (Yobject slots) = true ->
  (exists out,
      decode_then_encode make_runtime_spec_schema_features_linux_cgroup
        gen_runtime_spec_schema_features_linux_cgroup (Yobject slots) dctx gctx
      = Some (Yobject out)
      /\ decode_then_encode make_runtime_spec_schema_features_linux_cgroup
           gen_runtime_spec_schema_features_linux_cgroup (Yobject out) dctx gctx
         = Some (Yobject out))
  /\ (exists out,
        decode_then_encode make_runtime_spec_schema_features_linux_seccomp
          gen_runtime_spec_schema_features_linux_seccomp (Yobject slots) dctx gctx
        = Some (Yobject out)
        /\ decode_then_encode make_runtime_spec_schema_features_linux_seccomp
             gen_runtime_spec_schema_features_linux_seccomp (Yobject out) dctx gctx
           = Some (Yobject out))
  /\ (exists out,
        decode_then_encode make_runtime_spec_schema_defs_zos_namespace_reference
          gen_runtime_spec_schema_defs_zos_namespace_reference (Yobject slots) dctx gctx
        = Some (Yobject out)
        /\ decode_then_encode make_runtime_spec_schema_defs_zos_namespace_reference
             gen_runtime_spec_schema_defs_zos_namespace_reference (Yobject out) dctx gctx
           = Some (Yobject out)).
Proof.
  intros Hp. split; [|split]; eexists; (split; [|]).
  - now apply cgroup_written_back.
  - rewrite (cgroup_written_back _ dctx gctx (cgroup_written_parsed slots dctx gctx Hp)).
    now rewrite cgroup_written_again.
  - now apply seccomp_written_back.
  - rewrite (seccomp_written_back _ dctx gctx (seccomp_written_parsed slots dctx gctx Hp)).
    now rewrite seccomp_written_again.
  - now apply zos_written_back.
  - rewrite (zos_written_back _ dctx gctx (zos_written_parsed slots dctx gctx Hp)).
    now rewrite zos_written_again.
Qed.

Lemma decode_encode_stable_witness :
  let slots := [(Some "archs", Some (Yarray [Some (Ystring "x86"); Some Ytrue]));
                (Some "note", Some Ynull);
                (Some "enabled", Some Yfalse)] in
  let dctx := {| options := OPT_PARSE_FULLKEY; errfile := None |} in
  let gctx := {| options := OPT_GEN_KEY_VALUE; errfile := None |} in
  exists out,
    decode_then_encode make_runtime_spec_schema_features_linux_seccomp
      gen_runtime_spec_schema_features_linux_seccomp (Yobject slots) dctx gctx
    = Some (Yobject out)
    /\ decode_then_encode make_runtime_spec_schema_features_linux_seccomp
         gen_runtime_spec_schema_features_linux_seccomp (Yobject out) dctx gctx
       = Some (Yobject out).
Proof.
  intros slots dctx gctx.
  destruct (decode_encode_stable slots dctx gctx eq_refl) as (_ & H & _). exact H.
Defined.


(* ===================================================================== *)
(** ** Encoding on an emitter that fails *)
(* ===================================================================== *)

Section FeedFacts.

Implicit Types (cs : list gen_call) (g : yajl_gen) (n : nat).

Lemma and_then_ok (o : gen_outcome) : o >>> GenOk = o.
Proof. now destruct o. Qed.

Lemma and_then_assoc (o : gen_outcome) k1 k2 :
  o >>> k1 >>> k2 = o >>> (fun g => k1 g >>> k2).
Proof. now destruct o. Qed.

Lemma and_then_ext (o : gen_outcome) k1 k2 :
  (forall g, k1 g = k2 g) -> o >>> k1 = o >>> k2.
Proof. intros H. destruct o; simpl; auto. Qed.

Lemma feed_app cs1 cs2 g : feed (cs1 ++ cs2) g = feed cs1 g >>> feed cs2.
Proof.
  revert g. induction cs1 as [|c rest IH]; intros g; [reflexivity|].
  cbn [app feed]. rewrite and_then_assoc. apply and_then_ext. exact IH.
Qed.

Lemma runs_emit c : counted c = true -> runs (emit c) [c].
Proof. intros Hc g. cbn [feed]. now rewrite Hc, and_then_ok. Qed.

Lemma runs_nil : runs GenOk [].
Proof. intros g. reflexivity. Qed.

Lemma runs_then first rest cs1 cs2 :
  runs first cs1 -> runs rest cs2 -> runs (fun g => first g >>> rest) (cs1 ++ cs2).
Proof.
  intros H1 H2 g. rewrite feed_app, (H1 g). apply and_then_ext. exact H2.
Qed.

Lemma runs_config b : runs (yajl_gen_config_beautify b) [call_config_beautify b].
Proof. intros g. reflexivity. Qed.

Lemma feed_unbounded cs g : room g = None -> feed cs g = GenOk (extend g cs).
Proof.
  revert g. induction cs as [|c rest IH]; intros g Hg.
  - now rewrite extend_nil.
  - cbn [feed]. destruct (counted c).
    + rewrite (emit_unbounded c g Hg). cbn [and_then].
      rewrite IH by exact Hg. now rewrite extend_extend.
    + cbn [and_then]. rewrite IH by exact Hg.
      unfold extend. cbn [calls room]. now rewrite <- app_assoc, Hg.
Qed.

Lemma feed_bounded cs : forall g n,
  room g = Some n ->
  feed cs g
  = bounded_outcome g n cs.
Proof.
  unfold bounded_outcome.
  induction cs as [|c rest IH]; intros [gc gr] n Hg; cbn [room calls] in *; subst gr.
  - cbn [feed cost List.filter length taken Nat.leb]. now rewrite app_nil_r, Nat.sub_0_r.
  - cbn [feed taken]. unfold cost. cbn [List.filter].
    destruct (counted c); cbn [length].
    + unfold emit. cbn [room calls]. destruct n as [|n].
      * cbn [and_then Nat.leb]. now rewrite app_nil_r.
      * cbn [and_then].
        rewrite (IH {| calls := gc ++ [c]; room := Some n |} n eq_refl).
        cbn [calls Nat.leb Nat.sub]. fold (cost rest).
        rewrite <- !app_assoc. reflexivity.
    + cbn [and_then calls room].
      rewrite (IH {| calls := gc ++ [c]; room := Some n |} n eq_refl).
      cbn [calls]. fold (cost rest). rewrite <- !app_assoc. reflexivity.
Qed.

Lemma taken_prefix n cs : taken n cs `prefix_of` cs.
Proof.
  revert n. induction cs as [|c rest IH]; intros n; [reflexivity|].
  cbn [taken]. destruct (counted c); [destruct n|].
  - apply prefix_nil.
  - apply prefix_cons, IH.
  - apply prefix_cons, IH.
Qed.

Lemma taken_cost n cs : (n < cost cs)%nat -> cost (taken n cs) = n.
Proof.
  revert n. unfold cost. induction cs as [|c rest IH]; intros n; cbn [taken List.filter].
  - cbn. lia.
  - destruct (counted c) eqn:E; cbn [length].
    + destruct n as [|n]; [reflexivity|]. intros H. cbn [List.filter]. rewrite E.
      cbn [length]. rewrite IH; lia.
    + intros H. cbn [List.filter]. rewrite E. now apply IH.
Qed.


Lemma gen_yajl_val_runs v :
  parsed v = true -> runs (gen_yajl_val v) (calls_of_val v).
Proof.
  induction v as [s|r|slots IH|vs IH| | |] using yajl_val_nested_ind; intros Hp;
    try (simpl; (apply runs_emit; reflexivity)).
  - (* object *)
    assert (Hm : runs (gen_members slots) (calls_of_members slots)).
    { simpl in Hp. clear -IH Hp.
      induction slots as [|[[k|] [x|]] rest IHs]; simpl in *; try discriminate.
      - apply runs_nil.
      - apply andb_prop in Hp as [Hx Hrest]. inversion IH as [|? ? Hhd Htl]; subst.
        simpl in Hhd.
        change (call_string k :: calls_of_val x ++ calls_of_members rest)
          with ([call_string k] ++ calls_of_val x ++ calls_of_members rest).
        rewrite app_assoc.
        apply (runs_then (fun g => yajl_gen_string k g >>> gen_yajl_val x)).
        + apply (runs_then (yajl_gen_string k)); [(apply runs_emit; reflexivity)|auto].
        + auto. }
    rewrite calls_of_object. intros g. rewrite gen_yajl_val_object.
    change (call_map_open :: calls_of_members slots ++ [call_map_close])
      with ([call_map_open] ++ calls_of_members slots ++ [call_map_close]).
    rewrite app_assoc.
    apply (runs_then (fun g => yajl_gen_map_open g >>> gen_members slots)
                        yajl_gen_map_close); [|(apply runs_emit; reflexivity)].
    apply (runs_then yajl_gen_map_open); [(apply runs_emit; reflexivity)|exact Hm].
  - (* array *)
    set (cells := fix cells (vs : list (option yajl_val)) (g : yajl_gen) : gen_outcome :=
                    match vs with
                    | [] => GenOk g
                    | Some x :: rest => gen_yajl_val x g >>> cells rest
                    | None :: _ => GenUndefined
                    end).
    set (ccells := fix cells (vs : list (option yajl_val)) : list gen_call :=
                     match vs with
                     | [] => []
                     | Some x :: rest => calls_of_val x ++ cells rest
                     | None :: rest => cells rest
                     end).
    assert (Hm : runs (cells vs) (ccells vs)).
    { simpl in Hp. clear -IH Hp.
      induction vs as [|[x|] rest IHs]; simpl in *; try discriminate.
      - apply runs_nil.
      - apply andb_prop in Hp as [Hx Hrest]. inversion IH as [|? ? Hhd Htl]; subst.
        apply (runs_then (gen_yajl_val x)); auto. }
    intros g.
    change (gen_yajl_val (Yarray vs) g)
      with (yajl_gen_array_open g >>> cells vs >>> yajl_gen_array_close).
    change (calls_of_val (Yarray vs))
      with ([call_array_open] ++ ccells vs ++ [call_array_close]).
    rewrite app_assoc.
    apply (runs_then (fun g => yajl_gen_array_open g >>> cells vs)
                        yajl_gen_array_close); [|(apply runs_emit; reflexivity)].
    apply (runs_then yajl_gen_array_open); [(apply runs_emit; reflexivity)|exact Hm].
Qed.

Lemma gen_members_runs slots :
  parsed (Yobject slots) = true -> runs (gen_members slots) (calls_of_members slots).
Proof.
  intros Hp. simpl in Hp.
  induction slots as [|[[k|] [x|]] rest IHs]; simpl in *; try discriminate.
  - apply runs_nil.
  - apply andb_prop in Hp as [Hx Hrest].
    change (call_string k :: calls_of_val x ++ calls_of_members rest)
      with ([call_string k] ++ calls_of_val x ++ calls_of_members rest).
    rewrite app_assoc.
    apply (runs_then (fun g => yajl_gen_string k g >>> gen_yajl_val x)); auto.
    apply (runs_then (yajl_gen_string k)); [(apply runs_emit; reflexivity)|].
    now apply gen_yajl_val_runs.
Qed.

End FeedFacts.

Section GenRuns.

Context (ctx : parser_context).

Lemma gen_bool_member_runs {R : Type} name (ptr : option R) (f fp : R -> bool) :
  match ptr with Some r => zero_when_absent f fp r = true | None => True end ->
  runs (gen_bool_member ctx name ptr f fp)
          (bool_member_calls ctx name (ptr ≫= tri_state f fp)).
Proof.
  intros Hz. unfold gen_bool_member, bool_member_calls, tri_state, zero_when_absent in *.
  destruct ptr as [r|]; simpl.
  - destruct (opt ctx OPT_GEN_KEY_VALUE), (fp r) eqn:Hp, (f r) eqn:Hf;
      simpl in *; try discriminate;
      first [apply runs_nil
            | apply (runs_then (yajl_gen_string name) _ [_] [_]); (apply runs_emit; reflexivity)].
  - destruct (opt ctx OPT_GEN_KEY_VALUE); simpl;
      first [apply runs_nil
            | apply (runs_then (yajl_gen_string name) _ [_] [_]); (apply runs_emit; reflexivity)].
Qed.

Lemma gen_string_member_runs {R : Type} name (ptr : option R) (f : R -> option string) :
  runs (gen_string_member ctx name ptr f)
          (string_member_calls ctx name (ptr ≫= f)).
Proof.
  unfold gen_string_member, string_member_calls.
  destruct ptr as [r|]; simpl.
  - destruct (opt ctx OPT_GEN_KEY_VALUE), (f r) as [s|]; simpl;
      first [apply runs_nil
            | apply (runs_then (yajl_gen_string name) _ [_] [_]); (apply runs_emit; reflexivity)].
  - destruct (opt ctx OPT_GEN_KEY_VALUE); simpl;
      first [apply runs_nil
            | apply (runs_then (yajl_gen_string name) _ [_] [_]); (apply runs_emit; reflexivity)].
Qed.

Lemma gen_string_cells_runs (cells : list (option string)) n : forall i,
  forallb (fun k => match cells !! k with Some (Some _) => true | _ => false end)
          (seq i n) = true ->
  runs (gen_string_cells cells i n)
          (map call_string (omap id (take n (drop i cells)))).
Proof.
  induction n as [|n IH]; intros i Hall.
  - rewrite take_0. apply runs_nil.
  - simpl in Hall. apply andb_prop in Hall as [Hi Hrest].
    destruct (cells !! i) as [[s|]|] eqn:E; try discriminate.
    rewrite (drop_S _ _ _ E). intros g. simpl. rewrite E.
    exact (runs_then (yajl_gen_string s) (gen_string_cells cells (S i) n)
             [call_string s] _ (runs_emit (call_string s) eq_refl) (IH (S i) Hrest) g).
Qed.

Lemma runs_if (b : bool) c :
  runs (fun g => if b then yajl_gen_config_beautify c g else GenOk g)
          (if b then [call_config_beautify c] else []).
Proof. destruct b; [apply runs_config|apply runs_nil]. Qed.

Lemma runs_array name (flat : bool) cells cs :
  runs cells cs ->
  runs (fun g => yajl_gen_string name g
                    >>> (fun g => if flat then yajl_gen_config_beautify false g
                                  else GenOk g)
                    >>> yajl_gen_array_open
                    >>> cells
                    >>> yajl_gen_array_close
                    >>> (fun g => if flat then yajl_gen_config_beautify true g
                                  else GenOk g))
          ([call_string name]
           ++ (if flat then [call_config_beautify false] else [])
           ++ [call_array_open] ++ cs ++ [call_array_close]
           ++ (if flat then [call_config_beautify true] else [])).
Proof.
  intros Hc. rewrite !app_assoc.
  repeat first [exact Hc | apply runs_then | (apply runs_emit; reflexivity) | apply runs_if].
Qed.

Lemma gen_string_array_member_runs {R : Type} name (ptr : option R)
    (f : R -> option (list (option string))) (f_len : R -> nat) :
  match ptr with Some r => array_ok (f r) (f_len r) = true | None => True end ->
  runs (gen_string_array_member ctx name ptr f f_len)
          (array_member_calls ctx name (ptr ≫= fun r => array_state (f r) (f_len r))).
Proof.
  intros Hok. unfold gen_string_array_member, array_member_calls.
  destruct ptr as [r|].
  - change (Some r ≫= λ r0, array_state (f r0) (f_len r0))
      with (array_state (f r) (f_len r)).
    destruct (f r) as [cs|] eqn:Ef.
    + change (array_state (Some cs) (f_len r)) with (Some (omap id (take (f_len r) cs))).
      cbn [non_null default_array]. rewrite orb_true_r.
      rewrite (array_state_length cs (f_len r) Hok).
      unfold array_ok in Hok.
      pose proof (gen_string_cells_runs cs (f_len r) 0%nat Hok) as Hcells.
      rewrite drop_0 in Hcells.
      now apply runs_array.
    + change (array_state None (f_len r)) with (@None (list string)).
      cbn [non_null default_array]. rewrite orb_false_r.
      destruct (opt ctx OPT_GEN_KEY_VALUE).
      * apply (runs_array name _ (gen_string_cells [] 0 0) []), runs_nil.
      * apply runs_nil.
  - change (None ≫= λ r0 : R, array_state (f r0) (f_len r0)) with (@None (list string)).
    cbn [non_null default_array]. rewrite orb_false_r.
    destruct (opt ctx OPT_GEN_KEY_VALUE).
    + apply (runs_array name _ (gen_string_cells [] 0 0) []), runs_nil.
    + apply runs_nil.
Qed.

Lemma gen_residual_runs {R : Type} (ptr : option R) (resi : R -> option yajl_val) :
  match ptr with Some r => residual_ok (resi r) = true | None => True end ->
  runs (gen_residual ptr resi) (residual_calls (ptr ≫= resi)).
Proof.
  intros Hok. unfold gen_residual, residual_calls.
  destruct ptr as [r|]; simpl; [|apply runs_nil].
  destruct (resi r) as [[]|]; simpl in *; try discriminate; [|apply runs_nil].
  now apply gen_members_runs.
Qed.

End GenRuns.

Lemma gen_cgroup_runs ctx (ptr : option cgroup) :
  cgroup_ok ptr = true ->
  runs (fun g => gen_runtime_spec_schema_features_linux_cgroup g ptr ctx)
          (cgroup_calls ctx ptr).
Proof.
  intros Hok. unfold gen_runtime_spec_schema_features_linux_cgroup, cgroup_calls.
  rewrite !app_assoc.
  repeat first [apply runs_then | (apply runs_emit; reflexivity)];
    first [apply gen_bool_member_runs | apply gen_residual_runs];
    destruct ptr as [r|]; try exact I;
    cbn [cgroup_ok cgroup_bools forallb fst snd] in Hok; split_andb; assumption.
Qed.

Lemma gen_seccomp_runs ctx (ptr : option seccomp) :
  seccomp_ok ptr = true ->
  runs (fun g => gen_runtime_spec_schema_features_linux_seccomp g ptr ctx)
          (seccomp_calls ctx ptr).
Proof.
  intros Hok. unfold gen_runtime_spec_schema_features_linux_seccomp, seccomp_calls.
  rewrite !app_assoc.
  repeat first [apply runs_then | (apply runs_emit; reflexivity)];
    first [apply gen_bool_member_runs | apply gen_string_array_member_runs
          | apply gen_residual_runs];
    destruct ptr as [r|]; try exact I;
    cbn [seccomp_ok] in Hok; split_andb; assumption.
Qed.

Lemma gen_zos_runs ctx (ptr : option namespace_reference) :
  zos_ok ptr = true ->
  runs (fun g => gen_runtime_spec_schema_defs_zos_namespace_reference g ptr ctx)
          (zos_calls ctx ptr).
Proof.
  intros Hok. unfold gen_runtime_spec_schema_defs_zos_namespace_reference, zos_calls.
  rewrite !app_assoc.
  repeat first [apply runs_then | (apply runs_emit; reflexivity)];
    first [apply gen_string_member_runs | apply gen_residual_runs].
  destruct ptr as [r|]; [exact Hok|exact I].
Qed.

(** X6.  An emitter that fails.  On an emitter with room for [n] more
    calls, each encoder, given a well-formed record or NULL, hands it the
    calls of the record in order.  With room for all of them it returns
    yajl_gen_status_ok; otherwise it returns the status of the first call
    that failed and makes no call after it, so that what the emitter
    received is a prefix of the calls of the record, [n] of them counted. *)
Theorem gen_stops_at_first_error (g : yajl_gen) (n : nat) (ctx : parser_context) :
  room g = Some n ->
  (forall ptr, cgroup_ok ptr = true ->
     gen_runtime_spec_schema_features_linux_cgroup g ptr ctx
     = bounded_outcome g n (cgroup_calls ctx ptr))
  /\ (forall ptr, seccomp_ok ptr = true ->
        gen_runtime_spec_schema_features_linux_seccomp g ptr ctx
        = bounded_outcome g n (seccomp_calls ctx ptr))
  /\ (forall ptr, zos_ok ptr = true ->
        gen_runtime_spec_schema_defs_zos_namespace_reference g ptr ctx
        = bounded_outcome g n (zos_calls ctx ptr))
  /\ (forall cs, taken n cs `prefix_of` cs
                 /\ ((n < cost cs)%nat -> cost (taken n cs) = n)).
Proof.
  intros Hg. repeat split.
  - intros ptr Hok. rewrite (gen_cgroup_runs ctx ptr Hok g). now apply feed_bounded.
  - intros ptr Hok. rewrite (gen_seccomp_runs ctx ptr Hok g). now apply feed_bounded.
  - intros ptr Hok. rewrite (gen_zos_runs ctx ptr Hok g). now apply feed_bounded.
  - apply taken_prefix.
  - apply taken_cost.
Qed.

Lemma gen_stops_at_first_error_witness :
  gen_runtime_spec_schema_features_linux_seccomp
    {| calls := []; room := Some 4%nat |}
    (Some (decoded_seccomp
             [(Some "enabled", Some Ytrue);
              (Some "actions", Some (Yarray [Some (Ystring "a"); Some (Ystring "b")]))]
             false))
    {| options := 0; errfile := None |}
  = GenError yajl_gen_in_error_state
      {| calls := [call_map_open; call_string "enabled"; call_bool true;
                   call_string "actions"];
         room := Some O |}.
Proof.
  destruct (gen_stops_at_first_error {| calls := []; room := Some 4%nat |} 4
              {| options := 0; errfile := None |} eq_refl) as (_ & H & _).
  rewrite H by reflexivity. reflexivity.
Defined.

(* ===================================================================== *)
(** ** Nested records: the decoders in closed form *)
(* ===================================================================== *)

Section NestedFacts.

Implicit Types (slots s : list slot) (name k : string) (ctx : parser_context).

Lemma get_val_object slots name :
  forallb slot_full slots = true ->
  get_val (Yobject slots) name yajl_t_object = Some (Yobject <$> nested_slots name slots).
Proof.
  intros H. unfold get_val, nested_slots. rewrite (find_key_member name slots H).
  destruct (member name slots) as [[]|]; reflexivity.
Qed.

Lemma put_slot_full name v slots :
  forallb slot_full slots = true ->
  forallb slot_full (put_slot name (Some v) slots) = true.
Proof.
  induction slots as [|[[k|] [x|]] rest IH]; simpl; try discriminate; auto.
  intros H. destruct (c_true (strcmp name k)); simpl; auto.
Qed.

Lemma member_put_slot name name' v slots :
  String.eqb name name' = false ->
  member name' (put_slot name (Some v) slots) = member name' slots.
Proof.
  intros Hne. induction slots as [|[[k|] [x|]] rest IH]; simpl; auto;
    rewrite c_true_strcmp; destruct (String.eqb_spec name k) as [->|Hk]; simpl; auto.
  - rewrite String.eqb_sym in Hne. now rewrite Hne.
  - now rewrite IH.
  - rewrite String.eqb_sym in Hne. now rewrite Hne.
Qed.

Lemma nested_after_full name after slots :
  forallb slot_full slots = true ->
  forallb slot_full (nested_after name after slots) = true.
Proof.
  intros H. unfold nested_after. destruct (nested_slots name slots); auto.
  now apply put_slot_full.
Qed.

Lemma nested_slots_after name name' after slots :
  String.eqb name name' = false ->
  nested_slots name' (nested_after name after slots) = nested_slots name' slots.
Proof.
  intros Hne. unfold nested_after. destruct (nested_slots name slots); auto.
  unfold nested_slots. now rewrite member_put_slot.
Qed.

Lemma moved_put_slot unknown name v slots :
  unknown name = false ->
  moved unknown (put_slot name v slots) = moved unknown slots.
Proof.
  intros Hn. unfold moved.
  induction slots as [|[[k|] x] rest IH]; [reflexivity| |reflexivity].
  cbn [put_slot]. rewrite c_true_strcmp.
  destruct (String.eqb_spec name k) as [<-|Hk]; cbn [negb List.filter].
  - unfold slot_unknown. cbn [fst]. now rewrite Hn.
  - change (slot_unknown unknown (Some k, x)) with (unknown k).
    destruct (unknown k); [f_equal|]; exact IH.
Qed.

Lemma moved_nested_after unknown name after slots :
  unknown name = false ->
  moved unknown (nested_after name after slots) = moved unknown slots.
Proof.
  intros Hn. unfold nested_after. destruct (nested_slots name slots); auto.
  now apply moved_put_slot.
Qed.

Lemma nested_slots_parsed name slots s :
  parsed (Yobject slots) = true -> nested_slots name slots = Some s ->
  parsed (Yobject s) = true.
Proof.
  unfold nested_slots. intros Hp H.
  destruct (member name slots) as [v|] eqn:E; [|discriminate].
  pose proof (member_parsed name slots v Hp E) as Hv.
  destruct v; try discriminate. now injection H as <-.
Qed.

(** A nested member, when the [make_*] of its type is in closed form. *)
Lemma make_nested_closed {S R : Type}
    (make_f : option yajl_val -> parser_context -> option (made S))
    (dec : list slot -> S) (after : list slot -> list slot)
    (warn : list slot -> list string)
    name ctx slots w e (rest : option S -> progress -> option (made R)) :
  (forall s, parsed (Yobject s) = true ->
     make_f (Some (Yobject s)) ctx
     = Some {| ret := Some (dec s); err := None;
               tree_after := Some (Yobject (after s)); written := warn s |}) ->
  make_f None ctx = Some {| ret := None; err := None; tree_after := None; written := [] |} ->
  forallb slot_full slots = true ->
  (forall s, nested_slots name slots = Some s -> parsed (Yobject s) = true) ->
  make_nested make_f name ctx
    {| tree_now := Yobject slots; written_now := w; err_now := e |} rest
  = rest (dec <$> nested_slots name slots)
      {| tree_now := Yobject (nested_after name after slots);
         written_now := w ++ nested_warnings name warn slots;
         err_now := None |}.
Proof.
  intros Hf Hnull Hfull Hsub. unfold make_nested, nested_after, nested_warnings.
  cbn [tree_now written_now err_now]. rewrite (get_val_object slots name Hfull).
  cbn [mbind option_bind].
  destruct (nested_slots name slots) as [s|] eqn:E.
  - cbn [fmap option_fmap option_map]. rewrite (Hf s (Hsub s eq_refl)).
    cbn [mbind option_bind ret err tree_after written non_null negb andb put_val].
    reflexivity.
  - cbn [fmap option_fmap option_map]. rewrite Hnull.
    cbn [mbind option_bind ret err tree_after written non_null negb andb].
    reflexivity.
Qed.

Lemma make_close_closed {R : Type} unknown ctx (record : option yajl_val -> R)
    slots w e :
  forallb slot_full slots = true ->
  make_close unknown ctx record
    {| tree_now := Yobject slots; written_now := w; err_now := e |}
  = Some {| ret := Some (record (residual_of unknown (opt ctx OPT_PARSE_FULLKEY) slots));
            err := e;
            tree_after :=
              Some (Yobject (source_after unknown (opt ctx OPT_PARSE_FULLKEY) slots));
            written := w ++ unknown_warning ctx unknown slots |}.
Proof.
  intros Hfull. unfold make_close. cbn [tree_now written_now err_now].
  rewrite (residual_loop_closed _ _ slots (full_keys_present slots Hfull)).
  cbn [mbind option_bind]. unfold residual_of, source_after, unknown_warning, moved, nulled.
  destruct (opt ctx OPT_PARSE_FULLKEY); reflexivity.
Qed.

End NestedFacts.

Section EnabledRecord.

Context {R : Type}.
Variables (build : bool -> option yajl_val -> bool -> R)
          (enabled enabled_present : R -> bool)
          (_residual : R -> option yajl_val).
Hypotheses (enabled_build : forall b r p, enabled (build b r p) = b)
           (residual_build : forall b r p, _residual (build b r p) = r)
           (present_build : forall b r p, enabled_present (build b r p) = p).

Implicit Types (slots : list slot) (ctx dctx gctx : parser_context).

Lemma make_enabled_closed slots ctx :
  parsed (Yobject slots) = true ->
  EnabledOnly.make_enabled build (Some (Yobject slots)) ctx
  = Some {| ret := Some (decoded_enabled build slots (opt ctx OPT_PARSE_FULLKEY));
            err := None;
            tree_after :=
              Some (Yobject (source_after EnabledOnly.unknown_key
                               (opt ctx OPT_PARSE_FULLKEY) slots));
            written := unknown_warning ctx EnabledOnly.unknown_key slots |}.
Proof.
  intros Hp.
  pose proof (parsed_object_full slots Hp) as Hslots.
  pose proof (full_keys_present slots Hslots) as Hkeys.
  unfold EnabledOnly.make_enabled, decoded_enabled.
  rewrite (make_bool_member slots _ Hslots).
  rewrite (residual_loop_closed _ _ slots Hkeys).
  destruct (bool_field "enabled" slots), (opt ctx OPT_PARSE_FULLKEY); reflexivity.
Qed.

Lemma decoded_enabled_ok slots fullkey :
  parsed (Yobject slots) = true ->
  enabled_ok enabled enabled_present _residual
    (Some (decoded_enabled build slots fullkey)) = true.
Proof.
  intros Hp. unfold enabled_ok, decoded_enabled, zero_when_absent.
  rewrite enabled_build, residual_build, present_build, (residual_of_ok _ _ _ Hp).
  destruct (bool_field "enabled" slots) as [[]|]; reflexivity.
Qed.

Lemma gen_enabled_runs ctx (ptr : option R) :
  enabled_ok enabled enabled_present _residual ptr = true ->
  runs (fun g => EnabledOnly.gen_enabled enabled enabled_present _residual g ptr ctx)
       (enabled_calls enabled enabled_present _residual ctx ptr).
Proof.
  intros Hok. unfold EnabledOnly.gen_enabled, enabled_calls.
  rewrite !app_assoc.
  repeat first [apply runs_then | (apply runs_emit; reflexivity)];
    first [apply gen_bool_member_runs | apply gen_residual_runs];
    destruct ptr as [r|]; try exact I;
    cbn [enabled_ok] in Hok; split_andb; assumption.
Qed.

Lemma enabled_reads (sub : option (list slot)) dctx gctx :
  (forall s, sub = Some s -> parsed (Yobject s) = true) ->
  reads_value
    (enabled_calls enabled enabled_present _residual gctx
       ((fun s => decoded_enabled build s (opt dctx OPT_PARSE_FULLKEY)) <$> sub))
    (Yobject (enabled_written (default [] sub) dctx gctx)).
Proof.
  intros Hp. unfold enabled_calls, enabled_written. apply reads_object.
  destruct sub as [s|]; cbn [fmap option_fmap option_map mbind option_bind from_option id].
  - unfold tri_state, decoded_enabled.
    rewrite enabled_build, residual_build, present_build, tri_state_norm.
    apply closes_app; [apply reads_bool|].
    apply closes_last. exact (reads_residual EnabledOnly.unknown_key _ s (Hp s eq_refl)).
  - apply closes_app; [apply reads_bool|].
    apply closes_last, reads_no_residual.
Qed.

End EnabledRecord.

Section EnabledWritten.

Implicit Types (slots : list slot) (ctx dctx gctx : parser_context).

Lemma enabled_written_parsed slots dctx gctx :
  parsed (Yobject slots) = true ->
  parsed (Yobject (enabled_written slots dctx gctx)) = true.
Proof.
  intros Hp. unfold enabled_written, bool_entry.
  apply parsed_entry; [apply parsed_bool|]. now apply parsed_residual_entries.
Qed.

Lemma enabled_written_again slots dctx gctx :
  enabled_written (enabled_written slots dctx gctx) dctx gctx
  = enabled_written slots dctx gctx.
Proof.
  set (out := enabled_written slots dctx gctx).
  unfold enabled_written at 1.
  assert (Hres : residual_entries EnabledOnly.unknown_key (opt dctx OPT_PARSE_FULLKEY) out
                 = residual_entries EnabledOnly.unknown_key
                     (opt dctx OPT_PARSE_FULLKEY) slots).
  { apply residual_entries_moved. unfold out, enabled_written, bool_entry.
    now rewrite moved_skip by reflexivity. }
  assert (Hen : bool_field "enabled" out
                = if opt gctx OPT_GEN_KEY_VALUE || non_null (bool_field "enabled" slots)
                  then Some (default_bool (bool_field "enabled" slots)) else None).
  { unfold out, enabled_written. generalize (bool_field "enabled" slots). intros o.
    unfold bool_field, bool_entry.
    rewrite member_hit, member_residual_entries by reflexivity.
    destruct (opt gctx OPT_GEN_KEY_VALUE), o as [[]|]; reflexivity. }
  rewrite Hres, Hen, bool_entry_norm. reflexivity.
Qed.

End EnabledWritten.

Section NestedMembers.

Implicit Types (slots s : list slot) (name : string) (ctx dctx gctx : parser_context).

Lemma gen_nested_member_runs {R S : Type} ctx name (ptr : option R) (f : R -> option S)
    (gen_f : yajl_gen -> option S -> parser_context -> gen_outcome)
    (calls_f : parser_context -> option S -> list gen_call) :
  runs (fun g => gen_f g (ptr ≫= f) ctx) (calls_f ctx (ptr ≫= f)) ->
  runs (gen_nested_member ctx name ptr f gen_f) (nested_calls ctx name (ptr ≫= f) calls_f).
Proof.
  intros H. unfold gen_nested_member, nested_calls.
  assert (E : match ptr with Some r => non_null (f r) | None => false end
              = non_null (ptr ≫= f)) by now destruct ptr.
  assert (E' : match ptr with Some r => f r | None => None end = ptr ≫= f)
    by now destruct ptr.
  rewrite E, E'.
  destruct (opt ctx OPT_GEN_KEY_VALUE || non_null (ptr ≫= f)); [|apply runs_nil].
  apply (runs_then (yajl_gen_string name) _ [_] _); [apply runs_emit; reflexivity|exact H].
Qed.

Lemma reads_nested {S : Type} gctx name (sub : option (list slot)) (dec : list slot -> S)
    (calls_f : parser_context -> option S -> list gen_call)
    (written_f : list slot -> list slot) :
  reads_value (calls_f gctx (dec <$> sub)) (Yobject (written_f (default [] sub))) ->
  reads_as (nested_calls gctx name (dec <$> sub) calls_f)
           (nested_entry gctx name sub written_f).
Proof.
  intros H. unfold nested_calls, nested_entry.
  assert (E : non_null (dec <$> sub) = non_null sub) by now destruct sub.
  rewrite E. destruct (opt gctx OPT_GEN_KEY_VALUE || non_null sub); [|apply reads_nil].
  now apply reads_value_entry.
Qed.

Lemma nested_slots_entry name n (c : bool) (v : yajl_val) rest :
  String.eqb name n = false ->
  nested_slots name ((if c then [(Some n, Some v)] else []) ++ rest)
  = nested_slots name rest.
Proof. intros E. unfold nested_slots. now rewrite member_skip. Qed.

Lemma nested_slots_nested_entry_skip name n gctx sub written_f rest :
  String.eqb name n = false ->
  nested_slots name (nested_entry gctx n sub written_f ++ rest) = nested_slots name rest.
Proof. intros E. unfold nested_entry. now apply nested_slots_entry. Qed.

Lemma nested_slots_nested_entry_hit n gctx sub written_f rest :
  nested_slots n (nested_entry gctx n sub written_f ++ rest)
  = if opt gctx OPT_GEN_KEY_VALUE || non_null sub
    then Some (written_f (default [] sub))
    else nested_slots n rest.
Proof.
  unfold nested_entry, nested_slots. rewrite member_hit.
  now destruct (opt gctx OPT_GEN_KEY_VALUE || non_null sub).
Qed.

Lemma nested_slots_residual_entries name unknown fullkey slots :
  unknown name = false ->
  nested_slots name (residual_entries unknown fullkey slots) = None.
Proof. intros H. unfold nested_slots. now rewrite member_residual_entries. Qed.

Lemma moved_nested_entry unknown n gctx sub written_f rest :
  unknown n = false ->
  moved unknown (nested_entry gctx n sub written_f ++ rest) = moved unknown rest.
Proof. intros H. unfold nested_entry. now apply moved_skip. Qed.

Lemma member_nested_entry k n gctx sub written_f rest :
  String.eqb k n = false ->
  member k (nested_entry gctx n sub written_f ++ rest) = member k rest.
Proof. intros H. unfold nested_entry. now apply member_skip. Qed.

Lemma parsed_nested_entry gctx n sub written_f rest :
  parsed (Yobject (written_f (default [] sub))) = true ->
  parsed (Yobject rest) = true ->
  parsed (Yobject (nested_entry gctx n sub written_f ++ rest)) = true.
Proof. intros H1 H2. unfold nested_entry. now apply parsed_entry. Qed.

(** Writing a nested entry again: it is written under the same condition
    and holds what writing its object again gives. *)
Lemma nested_entry_norm gctx n sub (written_f : list slot -> list slot) :
  (forall s, written_f (written_f s) = written_f s) ->
  nested_entry gctx n
    (if opt gctx OPT_GEN_KEY_VALUE || non_null sub
     then Some (written_f (default [] sub)) else None) written_f
  = nested_entry gctx n sub written_f.
Proof.
  intros H. unfold nested_entry.
  destruct (opt gctx OPT_GEN_KEY_VALUE), sub as [s|];
    unfold id; cbn [orb non_null from_option]; rewrite ?H; try reflexivity.
Qed.

End NestedMembers.

Section MountExtensionsFacts.

Implicit Types (slots s : list slot) (ctx dctx gctx : parser_context).

Lemma make_idmap_closed slots ctx :
  parsed (Yobject slots) = true ->
  MountExtensionsCode.make_runtime_spec_schema_features_linux_mount_extensions_idmap
    (Some (Yobject slots)) ctx
  = Some {| ret := Some (decoded_idmap slots (opt ctx OPT_PARSE_FULLKEY));
            err := None;
            tree_after :=
              Some (Yobject (source_after EnabledOnly.unknown_key
                               (opt ctx OPT_PARSE_FULLKEY) slots));
            written := unknown_warning ctx EnabledOnly.unknown_key slots |}.
Proof. apply make_enabled_closed. Qed.

Lemma make_mount_extensions_closed slots ctx :
  parsed (Yobject slots) = true ->
  MountExtensionsCode.make_runtime_spec_schema_features_linux_mount_extensions
    (Some (Yobject slots)) ctx
  = Some {| ret := Some (decoded_mount_extensions slots (opt ctx OPT_PARSE_FULLKEY));
            err := None;
            tree_after :=
              Some (Yobject (mount_extensions_after slots (opt ctx OPT_PARSE_FULLKEY)));
            written := mount_extensions_warnings ctx slots |}.
Proof.
  intros Hp. pose proof (parsed_object_full slots Hp) as Hfull.
  unfold MountExtensionsCode.make_runtime_spec_schema_features_linux_mount_extensions.
  rewrite (make_nested_closed _
             (fun s => decoded_idmap s (opt ctx OPT_PARSE_FULLKEY))
             (source_after EnabledOnly.unknown_key (opt ctx OPT_PARSE_FULLKEY))
             (unknown_warning ctx EnabledOnly.unknown_key)
             "idmap" ctx slots [] None _
             (fun s Hs => make_idmap_closed s ctx Hs) eq_refl Hfull
             (fun s Hs => nested_slots_parsed "idmap" slots s Hp Hs)).
  rewrite (make_close_closed _ _ _ _ _ _ (nested_after_full _ _ _ Hfull)).
  unfold decoded_mount_extensions, mount_extensions_after, mount_extensions_warnings,
    residual_of, unknown_warning.
  rewrite (moved_nested_after _ "idmap") by reflexivity.
  reflexivity.
Qed.

Lemma decoded_idmap_ok s fullkey :
  parsed (Yobject s) = true -> idmap_ok (Some (decoded_idmap s fullkey)) = true.
Proof. now apply decoded_enabled_ok. Qed.

Lemma decoded_mount_extensions_ok slots fullkey :
  parsed (Yobject slots) = true ->
  mount_extensions_ok (Some (decoded_mount_extensions slots fullkey)) = true.
Proof.
  intros Hp. unfold mount_extensions_ok, decoded_mount_extensions.
  cbn [MountExtensions.idmap MountExtensions._residual].
  rewrite (residual_of_ok _ _ _ Hp), andb_true_r.
  destruct (nested_slots "idmap" slots) as [s|] eqn:E; [|reflexivity].
  apply decoded_idmap_ok. exact (nested_slots_parsed _ _ _ Hp E).
Qed.

Lemma gen_idmap_runs ctx (ptr : option idmap) :
  idmap_ok ptr = true ->
  runs (fun g =>
          MountExtensionsCode.gen_runtime_spec_schema_features_linux_mount_extensions_idmap
            g ptr ctx)
       (idmap_calls ctx ptr).
Proof. apply gen_enabled_runs. Qed.

Lemma gen_mount_extensions_runs ctx (ptr : option mount_extensions) :
  mount_extensions_ok ptr = true ->
  runs (fun g =>
          MountExtensionsCode.gen_runtime_spec_schema_features_linux_mount_extensions
            g ptr ctx)
       (mount_extensions_calls ctx ptr).
Proof.
  intros Hok.
  unfold MountExtensionsCode.gen_runtime_spec_schema_features_linux_mount_extensions,
    mount_extensions_calls.
  rewrite !app_assoc.
  repeat first [apply runs_then | (apply runs_emit; reflexivity)].
  - apply gen_nested_member_runs, gen_idmap_runs.
    destruct ptr as [r|]; [|reflexivity].
    cbn [mount_extensions_ok] in Hok. split_andb. assumption.
  - apply gen_residual_runs. destruct ptr as [r|]; [|exact I].
    cbn [mount_extensions_ok] in Hok. split_andb. assumption.
Qed.

Lemma idmap_reads (sub : option (list slot)) dctx gctx :
  (forall s, sub = Some s -> parsed (Yobject s) = true) ->
  reads_value
    (idmap_calls gctx ((fun s => decoded_idmap s (opt dctx OPT_PARSE_FULLKEY)) <$> sub))
    (Yobject (enabled_written (default [] sub) dctx gctx)).
Proof. now apply enabled_reads. Qed.

Lemma mount_extensions_reads (sub : option (list slot)) dctx gctx :
  (forall s, sub = Some s -> parsed (Yobject s) = true) ->
  reads_value
    (mount_extensions_calls gctx
       ((fun s => decoded_mount_extensions s (opt dctx OPT_PARSE_FULLKEY)) <$> sub))
    (Yobject (mount_extensions_written (default [] sub) dctx gctx)).
Proof.
  intros Hp. unfold mount_extensions_calls, mount_extensions_written. apply reads_object.
  destruct sub as [s|]; cbn [fmap option_fmap option_map mbind option_bind from_option id].
  - unfold decoded_mount_extensions.
    cbn [MountExtensions.idmap MountExtensions._residual].
    apply closes_app.
    + apply (reads_nested gctx "idmap" (nested_slots "idmap" s)
               (fun s => decoded_idmap s (opt dctx OPT_PARSE_FULLKEY)) idmap_calls
               (fun s => enabled_written s dctx gctx)).
      apply idmap_reads. intros s' Hs'.
      exact (nested_slots_parsed _ _ _ (Hp s eq_refl) Hs').
    + apply closes_last.
      exact (reads_residual MountExtensionsCode.unknown_key _ s (Hp s eq_refl)).
  - apply closes_app.
    + apply (reads_nested gctx "idmap" None
               (fun s => decoded_idmap s (opt dctx OPT_PARSE_FULLKEY)) idmap_calls
               (fun s => enabled_written s dctx gctx)).
      apply (idmap_reads None). discriminate.
    + apply closes_last, reads_no_residual.
Qed.

Lemma mount_extensions_written_parsed slots dctx gctx :
  parsed (Yobject slots) = true ->
  parsed (Yobject (mount_extensions_written slots dctx gctx)) = true.
Proof.
  intros Hp. unfold mount_extensions_written.
  apply parsed_nested_entry; [|now apply parsed_residual_entries].
  apply enabled_written_parsed.
  destruct (nested_slots "idmap" slots) as [s|] eqn:E; [|reflexivity].
  exact (nested_slots_parsed _ _ _ Hp E).
Qed.

Lemma mount_extensions_written_again slots dctx gctx :
  mount_extensions_written (mount_extensions_written slots dctx gctx) dctx gctx
  = mount_extensions_written slots dctx gctx.
Proof.
  set (out := mount_extensions_written slots dctx gctx).
  unfold mount_extensions_written at 1.
  assert (Hres : residual_entries MountExtensionsCode.unknown_key
                   (opt dctx OPT_PARSE_FULLKEY) out
                 = residual_entries MountExtensionsCode.unknown_key
                     (opt dctx OPT_PARSE_FULLKEY) slots).
  { apply residual_entries_moved. unfold out, mount_extensions_written.
    now rewrite moved_nested_entry by reflexivity. }
  assert (Hid : nested_slots "idmap" out
                = if opt gctx OPT_GEN_KEY_VALUE || non_null (nested_slots "idmap" slots)
                  then Some (enabled_written (default [] (nested_slots "idmap" slots))
                               dctx gctx)
                  else None).
  { unfold out, mount_extensions_written.
    rewrite nested_slots_nested_entry_hit.
    now rewrite nested_slots_residual_entries by reflexivity. }
  rewrite Hres, Hid.
  rewrite (nested_entry_norm gctx "idmap" _ (fun s => enabled_written s dctx gctx))
    by (intros s; apply enabled_written_again).
  reflexivity.
Qed.

End MountExtensionsFacts.

Section FeaturesFacts.

Import FeaturesLinux.

Implicit Types (slots s : list slot) (ctx dctx gctx : parser_context).

Lemma make_apparmor_closed s ctx :
  parsed (Yobject s) = true ->
  Apparmor.make_runtime_spec_schema_features_linux_apparmor (Some (Yobject s)) ctx
  = Some {| ret := Some (decoded_apparmor s (opt ctx OPT_PARSE_FULLKEY));
            err := None;
            tree_after :=
              Some (Yobject (source_after EnabledOnly.unknown_key
                               (opt ctx OPT_PARSE_FULLKEY) s));
            written := unknown_warning ctx EnabledOnly.unknown_key s |}.
Proof. apply make_enabled_closed. Qed.

Lemma decoded_apparmor_ok s fullkey :
  parsed (Yobject s) = true -> apparmor_ok (Some (decoded_apparmor s fullkey)) = true.
Proof. now apply decoded_enabled_ok. Qed.

Lemma gen_apparmor_runs ctx ptr :
  apparmor_ok ptr = true ->
  runs (fun g => Apparmor.gen_runtime_spec_schema_features_linux_apparmor g ptr ctx)
       (apparmor_calls ctx ptr).
Proof. apply gen_enabled_runs. Qed.

Lemma apparmor_reads (sub : option (list slot)) dctx gctx :
  (forall s, sub = Some s -> parsed (Yobject s) = true) ->
  reads_value
    (apparmor_calls gctx ((fun s => decoded_apparmor s (opt dctx OPT_PARSE_FULLKEY)) <$> sub))
    (Yobject (enabled_written (default [] sub) dctx gctx)).
Proof. now apply enabled_reads. Qed.

Lemma make_selinux_closed s ctx :
  parsed (Yobject s) = true ->
  Selinux.make_runtime_spec_schema_features_linux_selinux (Some (Yobject s)) ctx
  = Some {| ret := Some (decoded_selinux s (opt ctx OPT_PARSE_FULLKEY));
            err := None;
            tree_after :=
              Some (Yobject (source_after EnabledOnly.unknown_key
                               (opt ctx OPT_PARSE_FULLKEY) s));
            written := unknown_warning ctx EnabledOnly.unknown_key s |}.
Proof. apply make_enabled_closed. Qed.

Lemma decoded_selinux_ok s fullkey :
  parsed (Yobject s) = true -> selinux_ok (Some (decoded_selinux s fullkey)) = true.
Proof. now apply decoded_enabled_ok. Qed.

Lemma gen_selinux_runs ctx ptr :
  selinux_ok ptr = true ->
  runs (fun g => Selinux.gen_runtime_spec_schema_features_linux_selinux g ptr ctx)
       (selinux_calls ctx ptr).
Proof. apply gen_enabled_runs. Qed.

Lemma selinux_reads (sub : option (list slot)) dctx gctx :
  (forall s, sub = Some s -> parsed (Yobject s) = true) ->
  reads_value
    (selinux_calls gctx ((fun s => decoded_selinux s (opt dctx OPT_PARSE_FULLKEY)) <$> sub))
    (Yobject (enabled_written (default [] sub) dctx gctx)).
Proof. now apply enabled_reads. Qed.

Lemma make_intel_rdt_closed s ctx :
  parsed (Yobject s) = true ->
  IntelRdt.make_runtime_spec_schema_features_linux_intel_rdt (Some (Yobject s)) ctx
  = Some {| ret := Some (decoded_intel_rdt s (opt ctx OPT_PARSE_FULLKEY));
            err := None;
            tree_after :=
              Some (Yobject (source_after EnabledOnly.unknown_key
                               (opt ctx OPT_PARSE_FULLKEY) s));
            written := unknown_warning ctx EnabledOnly.unknown_key s |}.
Proof. apply make_enabled_closed. Qed.

Lemma decoded_intel_rdt_ok s fullkey :
  parsed (Yobject s) = true -> intel_rdt_ok (Some (decoded_intel_rdt s fullkey)) = true.
Proof. now apply decoded_enabled_ok. Qed.

Lemma gen_intel_rdt_runs ctx ptr :
  intel_rdt_ok ptr = true ->
  runs (fun g => IntelRdt.gen_runtime_spec_schema_features_linux_intel_rdt g ptr ctx)
       (intel_rdt_calls ctx ptr).
Proof. apply gen_enabled_runs. Qed.

Lemma intel_rdt_reads (sub : option (list slot)) dctx gctx :
  (forall s, sub = Some s -> parsed (Yobject s) = true) ->
  reads_value
    (intel_rdt_calls gctx ((fun s => decoded_intel_rdt s (opt dctx OPT_PARSE_FULLKEY)) <$> sub))
    (Yobject (enabled_written (default [] sub) dctx gctx)).
Proof. now apply enabled_reads. Qed.

Lemma make_net_devices_closed s ctx :
  parsed (Yobject s) = true ->
  NetDevices.make_runtime_spec_schema_features_linux_net_devices (Some (Yobject s)) ctx
  = Some {| ret := Some (decoded_net_devices s (opt ctx OPT_PARSE_FULLKEY));
            err := None;
            tree_after :=
              Some (Yobject (source_after EnabledOnly.unknown_key
                               (opt ctx OPT_PARSE_FULLKEY) s));
            written := unknown_warning ctx EnabledOnly.unknown_key s |}.
Proof. apply make_enabled_closed. Qed.

Lemma decoded_net_devices_ok s fullkey :
  parsed (Yobject s) = true -> net_devices_ok (Some (decoded_net_devices s fullkey)) = true.
Proof. now apply decoded_enabled_ok. Qed.

Lemma gen_net_devices_runs ctx ptr :
  net_devices_ok ptr = true ->
  runs (fun g => NetDevices.gen_runtime_spec_schema_features_linux_net_devices g ptr ctx)
       (net_devices_calls ctx ptr).
Proof. apply gen_enabled_runs. Qed.

Lemma net_devices_reads (sub : option (list slot)) dctx gctx :
  (forall s, sub = Some s -> parsed (Yobject s) = true) ->
  reads_value
    (net_devices_calls gctx ((fun s => decoded_net_devices s (opt dctx OPT_PARSE_FULLKEY)) <$> sub))
    (Yobject (enabled_written (default [] sub) dctx gctx)).
Proof. now apply enabled_reads. Qed.

Lemma nested_parsed_after name name' after cur :
  String.eqb name name' = false ->
  (forall s, nested_slots name' cur = Some s -> parsed (Yobject s) = true) ->
  forall s, nested_slots name' (nested_after name after cur) = Some s ->
            parsed (Yobject s) = true.
Proof. intros Hne H s. rewrite nested_slots_after by exact Hne. apply H. Qed.

Lemma make_features_closed slots ctx :
  parsed (Yobject slots) = true ->
  make_runtime_spec_schema_features_linux (Some (Yobject slots)) ctx
  = Some {| ret := Some (decoded_features slots (opt ctx OPT_PARSE_FULLKEY));
            err := None;
            tree_after :=
              Some (Yobject (features_after slots (opt ctx OPT_PARSE_FULLKEY)));
            written := features_warnings ctx slots |}.
Proof.
  intros Hp. pose proof (parsed_object_full slots Hp) as Hfull.
  pose proof (fun name s => nested_slots_parsed name slots s Hp) as Hsub.
  unfold make_runtime_spec_schema_features_linux.
  rewrite !(make_string_array_member slots _ Hfull). cbn [mbind option_bind].
  unfold decoded_features, features_after, features_warnings.
  destruct (string_array_field "namespaces" slots) as [a1 n1].
  destruct (string_array_field "capabilities" slots) as [a2 n2].
  cbn [fst snd].
  set (fk := opt ctx OPT_PARSE_FULLKEY).
  set (c1 := nested_after "cgroup" (source_after Cgroup.unknown_key fk) slots).
  set (c2 := nested_after "seccomp" (source_after Seccomp.unknown_key fk) c1).
  set (c3 := nested_after "apparmor" (source_after EnabledOnly.unknown_key fk) c2).
  set (c4 := nested_after "selinux" (source_after EnabledOnly.unknown_key fk) c3).
  set (c5 := nested_after "intelRdt" (source_after EnabledOnly.unknown_key fk) c4).
  set (c6 := nested_after "mountExtensions" (fun s => mount_extensions_after s fk) c5).
  set (c7 := nested_after "netDevices" (source_after EnabledOnly.unknown_key fk) c6).
  assert (F1 : forallb slot_full c1 = true) by now apply nested_after_full.
  assert (F2 : forallb slot_full c2 = true) by now apply nested_after_full.
  assert (F3 : forallb slot_full c3 = true) by now apply nested_after_full.
  assert (F4 : forallb slot_full c4 = true) by now apply nested_after_full.
  assert (F5 : forallb slot_full c5 = true) by now apply nested_after_full.
  assert (F6 : forallb slot_full c6 = true) by now apply nested_after_full.
  assert (F7 : forallb slot_full c7 = true) by now apply nested_after_full.
  assert (E2 : nested_slots "seccomp" c1 = nested_slots "seccomp" slots)
    by (unfold c1; now rewrite !nested_slots_after by reflexivity).
  assert (E3 : nested_slots "apparmor" c2 = nested_slots "apparmor" slots)
    by (unfold c2, c1; now rewrite !nested_slots_after by reflexivity).
  assert (E4 : nested_slots "selinux" c3 = nested_slots "selinux" slots)
    by (unfold c3, c2, c1; now rewrite !nested_slots_after by reflexivity).
  assert (E5 : nested_slots "intelRdt" c4 = nested_slots "intelRdt" slots)
    by (unfold c4, c3, c2, c1; now rewrite !nested_slots_after by reflexivity).
  assert (E6 : nested_slots "mountExtensions" c5 = nested_slots "mountExtensions" slots)
    by (unfold c5, c4, c3, c2, c1; now rewrite !nested_slots_after by reflexivity).
  assert (E7 : nested_slots "netDevices" c6 = nested_slots "netDevices" slots)
    by (unfold c6, c5, c4, c3, c2, c1; now rewrite !nested_slots_after by reflexivity).
  assert (M : moved unknown_key c7 = moved unknown_key slots)
    by (unfold c7, c6, c5, c4, c3, c2, c1; now rewrite !moved_nested_after by reflexivity).
  rewrite (make_nested_closed _
             (fun s => decoded_cgroup s fk) (source_after Cgroup.unknown_key fk)
             (unknown_warning ctx Cgroup.unknown_key) "cgroup" ctx slots [] None _
             (fun s Hs => make_cgroup_closed s ctx Hs) eq_refl Hfull (Hsub _)).
  fold c1.
  rewrite (make_nested_closed _
             (fun s => decoded_seccomp s fk) (source_after Seccomp.unknown_key fk)
             (unknown_warning ctx Seccomp.unknown_key) "seccomp" ctx c1 _ None _
             (fun s Hs => make_seccomp_closed s ctx Hs) eq_refl F1);
    [|rewrite E2; apply Hsub].
  fold c2.
  rewrite (make_nested_closed _
             (fun s => decoded_apparmor s fk) (source_after EnabledOnly.unknown_key fk)
             (unknown_warning ctx EnabledOnly.unknown_key) "apparmor" ctx c2 _ None _
             (fun s Hs => make_apparmor_closed s ctx Hs) eq_refl F2);
    [|rewrite E3; apply Hsub].
  fold c3.
  rewrite (make_nested_closed _
             (fun s => decoded_selinux s fk) (source_after EnabledOnly.unknown_key fk)
             (unknown_warning ctx EnabledOnly.unknown_key) "selinux" ctx c3 _ None _
             (fun s Hs => make_selinux_closed s ctx Hs) eq_refl F3);
    [|rewrite E4; apply Hsub].
  fold c4.
  rewrite (make_nested_closed _
             (fun s => decoded_intel_rdt s fk) (source_after EnabledOnly.unknown_key fk)
             (unknown_warning ctx EnabledOnly.unknown_key) "intelRdt" ctx c4 _ None _
             (fun s Hs => make_intel_rdt_closed s ctx Hs) eq_refl F4);
    [|rewrite E5; apply Hsub].
  fold c5.
  rewrite (make_nested_closed _
             (fun s => decoded_mount_extensions s fk)
             (fun s => mount_extensions_after s fk)
             (mount_extensions_warnings ctx) "mountExtensions" ctx c5 _ None _
             (fun s Hs => make_mount_extensions_closed s ctx Hs) eq_refl F5);
    [|rewrite E6; apply Hsub].
  fold c6.
  rewrite (make_nested_closed _
             (fun s => decoded_net_devices s fk) (source_after EnabledOnly.unknown_key fk)
             (unknown_warning ctx EnabledOnly.unknown_key) "netDevices" ctx c6 _ None _
             (fun s Hs => make_net_devices_closed s ctx Hs) eq_refl F6);
    [|rewrite E7; apply Hsub].
  fold c7.
  rewrite (make_close_closed _ _ _ _ _ _ F7).
  unfold nested_warnings, residual_of, unknown_warning at 7. fold fk.
  rewrite E2, E3, E4, E5, E6, E7, M.
  rewrite <- !app_assoc. reflexivity.
Qed.

Lemma nested_ok {S : Type} (ok : option S -> bool) (dec : list slot -> S) name slots :
  ok None = true ->
  (forall s, parsed (Yobject s) = true -> ok (Some (dec s)) = true) ->
  parsed (Yobject slots) = true ->
  ok (dec <$> nested_slots name slots) = true.
Proof.
  intros H0 H Hp. destruct (nested_slots name slots) as [s|] eqn:E; [|exact H0].
  apply H. exact (nested_slots_parsed _ _ _ Hp E).
Qed.

Lemma decoded_features_ok slots fullkey :
  parsed (Yobject slots) = true ->
  features_ok (Some (decoded_features slots fullkey)) = true.
Proof.
  intros Hp. unfold features_ok, decoded_features.
  cbn [namespaces namespaces_len capabilities capabilities_len cgroup seccomp apparmor
       selinux intel_rdt mount_extensions net_devices _residual].
  rewrite !(string_array_field_ok _ slots Hp), (residual_of_ok _ _ _ Hp).
  rewrite (nested_ok cgroup_ok (fun s => decoded_cgroup s fullkey) _ slots eq_refl
             (fun s Hs => decoded_cgroup_ok s fullkey Hs) Hp).
  rewrite (nested_ok seccomp_ok (fun s => decoded_seccomp s fullkey) _ slots eq_refl
             (fun s Hs => decoded_seccomp_ok s fullkey Hs) Hp).
  rewrite (nested_ok apparmor_ok (fun s => decoded_apparmor s fullkey) _ slots eq_refl
             (fun s Hs => decoded_apparmor_ok s fullkey Hs) Hp).
  rewrite (nested_ok selinux_ok (fun s => decoded_selinux s fullkey) _ slots eq_refl
             (fun s Hs => decoded_selinux_ok s fullkey Hs) Hp).
  rewrite (nested_ok intel_rdt_ok (fun s => decoded_intel_rdt s fullkey) _ slots eq_refl
             (fun s Hs => decoded_intel_rdt_ok s fullkey Hs) Hp).
  rewrite (nested_ok mount_extensions_ok (fun s => decoded_mount_extensions s fullkey)
             _ slots eq_refl
             (fun s Hs => decoded_mount_extensions_ok s fullkey Hs) Hp).
  rewrite (nested_ok net_devices_ok (fun s => decoded_net_devices s fullkey) _ slots
             eq_refl
             (fun s Hs => decoded_net_devices_ok s fullkey Hs) Hp).
  reflexivity.
Qed.

Lemma features_member_ok {S : Type} (ptr : option runtime_spec_schema_features_linux)
    (f : runtime_spec_schema_features_linux -> option S) (ok : option S -> bool) :
  ok None = true ->
  match ptr with Some r => ok (f r) = true | None => True end ->
  ok (ptr ≫= f) = true.
Proof. intros H0 H. now destruct ptr. Qed.

Lemma gen_features_runs ctx (ptr : option runtime_spec_schema_features_linux) :
  features_ok ptr = true ->
  runs (fun g => gen_runtime_spec_schema_features_linux g ptr ctx)
       (features_calls ctx ptr).
Proof.
  intros Hok.
  assert (H : match ptr with
              | Some r =>
                  array_ok (namespaces r) (namespaces_len r) = true
                  /\ array_ok (capabilities r) (capabilities_len r) = true
                  /\ cgroup_ok (cgroup r) = true
                  /\ seccomp_ok (seccomp r) = true
                  /\ apparmor_ok (apparmor r) = true
                  /\ selinux_ok (selinux r) = true
                  /\ intel_rdt_ok (intel_rdt r) = true
                  /\ mount_extensions_ok (mount_extensions r) = true
                  /\ net_devices_ok (net_devices r) = true
                  /\ residual_ok (_residual r) = true
              | None => True
              end).
  { destruct ptr as [r|]; [|exact I]. cbn [features_ok] in Hok. split_andb.
    repeat split; assumption. }
  clear Hok.
  unfold gen_runtime_spec_schema_features_linux, features_calls.
  rewrite !app_assoc.
  repeat first [apply runs_then | (apply runs_emit; reflexivity)].
  - apply gen_string_array_member_runs. destruct ptr; [apply H|exact I].
  - apply gen_string_array_member_runs. destruct ptr; [apply H|exact I].
  - apply gen_nested_member_runs, gen_cgroup_runs.
    apply features_member_ok; [reflexivity|]. destruct ptr; [apply H|exact I].
  - apply gen_nested_member_runs, gen_seccomp_runs.
    apply features_member_ok; [reflexivity|]. destruct ptr; [apply H|exact I].
  - apply gen_nested_member_runs, gen_apparmor_runs.
    apply features_member_ok; [reflexivity|].
    destruct ptr; [apply H|exact I].
  - apply gen_nested_member_runs, gen_selinux_runs.
    apply features_member_ok; [reflexivity|].
    destruct ptr; [apply H|exact I].
  - apply gen_nested_member_runs, gen_intel_rdt_runs.
    apply features_member_ok; [reflexivity|].
    destruct ptr; [apply H|exact I].
  - apply gen_nested_member_runs, gen_mount_extensions_runs.
    apply features_member_ok; [reflexivity|]. destruct ptr; [apply H|exact I].
  - apply gen_nested_member_runs, gen_net_devices_runs.
    apply features_member_ok; [reflexivity|].
    destruct ptr; [apply H|exact I].
  - apply gen_residual_runs. destruct ptr; [apply H|exact I].
Qed.

Lemma sub_parsed name (sub : option (list slot)) :
  (forall s, sub = Some s -> parsed (Yobject s) = true) ->
  forall s, (sub ≫= nested_slots name) = Some s -> parsed (Yobject s) = true.
Proof.
  intros Hp s. destruct sub as [s0|]; [|discriminate]. cbn [mbind option_bind].
  apply nested_slots_parsed. now apply Hp.
Qed.

Lemma features_reads (sub : option (list slot)) dctx gctx :
  (forall s, sub = Some s -> parsed (Yobject s) = true) ->
  reads_value
    (features_calls gctx
       ((fun s => decoded_features s (opt dctx OPT_PARSE_FULLKEY)) <$> sub))
    (Yobject (features_written (default [] sub) dctx gctx)).
Proof.
  intros Hp. unfold features_calls, features_written. apply reads_object.
  set (fk := opt dctx OPT_PARSE_FULLKEY).
  set (ptr := (fun s => decoded_features s fk) <$> sub).
  set (slots := default [] sub).
  assert (Hs : parsed (Yobject slots) = true).
  { unfold slots. destruct sub as [s|]; [now apply Hp|reflexivity]. }
  assert (A1 : (ptr ≫= fun r => array_state (namespaces r) (namespaces_len r))
               = strings_field "namespaces" slots).
  { unfold ptr, slots. destruct sub as [s|]; [|reflexivity].
    apply string_array_field_state. }
  assert (A2 : (ptr ≫= fun r => array_state (capabilities r) (capabilities_len r))
               = strings_field "capabilities" slots).
  { unfold ptr, slots. destruct sub as [s|]; [|reflexivity].
    apply string_array_field_state. }
  assert (N : forall {S : Type} (f : runtime_spec_schema_features_linux -> option S)
                     (dec : list slot -> S) name,
             (forall s, f (decoded_features s fk) = dec <$> nested_slots name s) ->
             ptr ≫= f = dec <$> nested_slots name slots).
  { intros S f dec name Hf. unfold ptr, slots. destruct sub as [s|]; [apply Hf|reflexivity]. }
  rewrite A1, A2.
  rewrite (N _ cgroup (fun s => decoded_cgroup s fk) "cgroup" (fun s => eq_refl)).
  rewrite (N _ seccomp (fun s => decoded_seccomp s fk) "seccomp" (fun s => eq_refl)).
  rewrite (N _ apparmor (fun s => decoded_apparmor s fk) "apparmor" (fun s => eq_refl)).
  rewrite (N _ selinux (fun s => decoded_selinux s fk) "selinux" (fun s => eq_refl)).
  rewrite (N _ intel_rdt (fun s => decoded_intel_rdt s fk) "intelRdt" (fun s => eq_refl)).
  rewrite (N _ mount_extensions (fun s => decoded_mount_extensions s fk)
             "mountExtensions" (fun s => eq_refl)).
  rewrite (N _ net_devices (fun s => decoded_net_devices s fk) "netDevices"
             (fun s => eq_refl)).
  assert (Hn : forall name s, nested_slots name slots = Some s -> parsed (Yobject s) = true)
    by (intros name s; now apply nested_slots_parsed).
  apply closes_app; [apply reads_strings|].
  apply closes_app; [apply reads_strings|].
  apply closes_app; [apply reads_nested, cgroup_reads, Hn|].
  apply closes_app; [apply reads_nested, seccomp_reads, Hn|].
  apply closes_app; [apply reads_nested, apparmor_reads, Hn|].
  apply closes_app; [apply reads_nested, selinux_reads, Hn|].
  apply closes_app; [apply reads_nested, intel_rdt_reads, Hn|].
  apply closes_app; [apply reads_nested, mount_extensions_reads, Hn|].
  apply closes_app; [apply reads_nested, net_devices_reads, Hn|].
  apply closes_last.
  unfold ptr, slots. destruct sub as [s|].
  - exact (reads_residual FeaturesLinux.unknown_key _ s (Hp s eq_refl)).
  - apply reads_no_residual.
Qed.

End FeaturesFacts.

Section WrittenMembers.

Implicit Types (slots rest : list slot) (k n name : string)
  (dctx gctx ctx : parser_context).

Lemma strings_field_skip k n ctx f rest :
  String.eqb k n = false ->
  strings_field k (strings_entry ctx n f ++ rest) = strings_field k rest.
Proof. intros E. unfold strings_field, strings_entry. now rewrite member_skip. Qed.

Lemma strings_field_nested_skip k n ctx sub written_f rest :
  String.eqb k n = false ->
  strings_field k (nested_entry ctx n sub written_f ++ rest) = strings_field k rest.
Proof. intros E. unfold strings_field. now rewrite member_nested_entry. Qed.

Lemma strings_field_hit n ctx f rest :
  strings_field n (strings_entry ctx n f ++ rest)
  = if opt ctx OPT_GEN_KEY_VALUE || non_null f
    then Some (default_array f) else strings_field n rest.
Proof.
  unfold strings_field, strings_entry. rewrite member_hit.
  destruct (opt ctx OPT_GEN_KEY_VALUE || non_null f); [|reflexivity].
  now rewrite strings_again.
Qed.

Lemma strings_field_residual_entries k unknown fullkey slots :
  unknown k = false -> strings_field k (residual_entries unknown fullkey slots) = None.
Proof. intros H. unfold strings_field. now rewrite member_residual_entries. Qed.

Lemma nested_slots_strings_skip k n ctx f rest :
  String.eqb k n = false ->
  nested_slots k (strings_entry ctx n f ++ rest) = nested_slots k rest.
Proof. intros E. unfold nested_slots, strings_entry. now rewrite member_skip. Qed.

Lemma moved_strings_entry unknown n ctx f rest :
  unknown n = false ->
  moved unknown (strings_entry ctx n f ++ rest) = moved unknown rest.
Proof. intros H. unfold strings_entry. now apply moved_skip. Qed.

Lemma parsed_strings_entry ctx n f rest :
  parsed (Yobject rest) = true ->
  parsed (Yobject (strings_entry ctx n f ++ rest)) = true.
Proof. intros H. unfold strings_entry. apply parsed_entry; [apply parsed_strings|exact H]. Qed.


End WrittenMembers.

Ltac walk_strings :=
  repeat first [ rewrite strings_field_skip by reflexivity
               | rewrite strings_field_nested_skip by reflexivity
               | rewrite strings_field_hit
               | rewrite strings_field_residual_entries by reflexivity ].

Ltac walk_nested :=
  repeat first [ rewrite nested_slots_strings_skip by reflexivity
               | rewrite nested_slots_nested_entry_skip by reflexivity
               | rewrite nested_slots_nested_entry_hit
               | rewrite nested_slots_residual_entries by reflexivity ].

Section FeaturesWritten.

Implicit Types (slots : list slot) (dctx gctx : parser_context).

Lemma nested_written_parsed name slots (written_f : list slot -> list slot) :
  (forall s, parsed (Yobject s) = true -> parsed (Yobject (written_f s)) = true) ->
  parsed (Yobject slots) = true ->
  parsed (Yobject (written_f (default [] (nested_slots name slots)))) = true.
Proof.
  intros H Hp. apply H.
  destruct (nested_slots name slots) as [s|] eqn:E; [|reflexivity].
  exact (nested_slots_parsed _ _ _ Hp E).
Qed.

Lemma features_written_parsed slots dctx gctx :
  parsed (Yobject slots) = true ->
  parsed (Yobject (features_written slots dctx gctx)) = true.
Proof.
  intros Hp. unfold features_written.
  repeat (apply parsed_strings_entry).
  repeat (apply parsed_nested_entry;
          [first [ apply (nested_written_parsed _ slots
                            (fun s => cgroup_written s dctx gctx));
                   [intros s Hs; now apply cgroup_written_parsed|exact Hp]
                 | apply (nested_written_parsed _ slots
                            (fun s => seccomp_written s dctx gctx));
                   [intros s Hs; now apply seccomp_written_parsed|exact Hp]
                 | apply (nested_written_parsed _ slots
                            (fun s => enabled_written s dctx gctx));
                   [intros s Hs; now apply enabled_written_parsed|exact Hp]
                 | apply (nested_written_parsed _ slots
                            (fun s => mount_extensions_written s dctx gctx));
                   [intros s Hs; now apply mount_extensions_written_parsed|exact Hp] ]|]).
  now apply parsed_residual_entries.
Qed.

Lemma features_written_again slots dctx gctx :
  features_written (features_written slots dctx gctx) dctx gctx
  = features_written slots dctx gctx.
Proof.
  set (out := features_written slots dctx gctx).
  unfold features_written at 1.
  assert (Hres : residual_entries FeaturesLinux.unknown_key
                   (opt dctx OPT_PARSE_FULLKEY) out
                 = residual_entries FeaturesLinux.unknown_key
                     (opt dctx OPT_PARSE_FULLKEY) slots).
  { apply residual_entries_moved. unfold out, features_written.
    rewrite !moved_strings_entry by reflexivity.
    now rewrite !moved_nested_entry by reflexivity. }
  assert (S1 : strings_field "namespaces" out
               = if opt gctx OPT_GEN_KEY_VALUE
                    || non_null (strings_field "namespaces" slots)
                 then Some (default_array (strings_field "namespaces" slots)) else None)
    by (unfold out, features_written; now walk_strings).
  assert (S2 : strings_field "capabilities" out
               = if opt gctx OPT_GEN_KEY_VALUE
                    || non_null (strings_field "capabilities" slots)
                 then Some (default_array (strings_field "capabilities" slots)) else None)
    by (unfold out, features_written; now walk_strings).
  assert (N : forall name written_f,
             In (name, written_f)
                [("cgroup", fun s => cgroup_written s dctx gctx);
                 ("seccomp", fun s => seccomp_written s dctx gctx);
                 ("apparmor", fun s => enabled_written s dctx gctx);
                 ("selinux", fun s => enabled_written s dctx gctx);
                 ("intelRdt", fun s => enabled_written s dctx gctx);
                 ("mountExtensions", fun s => mount_extensions_written s dctx gctx);
                 ("netDevices", fun s => enabled_written s dctx gctx)] ->
             nested_slots name out
             = if opt gctx OPT_GEN_KEY_VALUE || non_null (nested_slots name slots)
               then Some (written_f (default [] (nested_slots name slots)))
               else None).
  { intros name written_f. cbn [In].
    intros [[= <- <-]|[[= <- <-]|[[= <- <-]|[[= <- <-]|[[= <- <-]|[[= <- <-]|[[= <- <-]|[]]]]]]]];
      unfold out, features_written; now walk_nested. }
  rewrite Hres, S1, S2.
  rewrite (N "cgroup" (fun s => cgroup_written s dctx gctx)) by (cbn [In]; tauto).
  rewrite (N "seccomp" (fun s => seccomp_written s dctx gctx)) by (cbn [In]; tauto).
  rewrite (N "apparmor" (fun s => enabled_written s dctx gctx)) by (cbn [In]; tauto).
  rewrite (N "selinux" (fun s => enabled_written s dctx gctx)) by (cbn [In]; tauto).
  rewrite (N "intelRdt" (fun s => enabled_written s dctx gctx)) by (cbn [In]; tauto).
  rewrite (N "mountExtensions" (fun s => mount_extensions_written s dctx gctx))
    by (cbn [In]; tauto).
  rewrite (N "netDevices" (fun s => enabled_written s dctx gctx)) by (cbn [In]; tauto).
  rewrite !strings_entry_norm.
  rewrite (nested_entry_norm gctx "cgroup" _ (fun s => cgroup_written s dctx gctx))
    by (intros s; apply cgroup_written_again).
  rewrite (nested_entry_norm gctx "seccomp" _ (fun s => seccomp_written s dctx gctx))
    by (intros s; apply seccomp_written_again).
  rewrite (nested_entry_norm gctx "apparmor" _ (fun s => enabled_written s dctx gctx))
    by (intros s; apply enabled_written_again).
  rewrite (nested_entry_norm gctx "selinux" _ (fun s => enabled_written s dctx gctx))
    by (intros s; apply enabled_written_again).
  rewrite (nested_entry_norm gctx "intelRdt" _ (fun s => enabled_written s dctx gctx))
    by (intros s; apply enabled_written_again).
  rewrite (nested_entry_norm gctx "mountExtensions" _
             (fun s => mount_extensions_written s dctx gctx))
    by (intros s; apply mount_extensions_written_again).
  rewrite (nested_entry_norm gctx "netDevices" _ (fun s => enabled_written s dctx gctx))
    by (intros s; apply enabled_written_again).
  reflexivity.
Qed.

End FeaturesWritten.

Section NestedWrittenBack.

Import FeaturesLinux.

Implicit Types (slots s : list slot) (ctx dctx gctx : parser_context).

(** Decoding and encoding again, from the closed form of the decoder, the
    calls of the encoder and what the calls read as. *)
Lemma written_back {R : Type}
    (make : option yajl_val -> parser_context -> option (made R))
    (gen : yajl_gen -> option R -> parser_context -> gen_outcome)
    (dec : list slot -> bool -> R) (calls_f : parser_context -> option R -> list gen_call)
    (written_f : list slot -> parser_context -> parser_context -> list slot)
    slots dctx gctx :
  (exists m, make (Some (Yobject slots)) dctx = Some m
             /\ ret m = Some (dec slots (opt dctx OPT_PARSE_FULLKEY))) ->
  runs (fun g => gen g (Some (dec slots (opt dctx OPT_PARSE_FULLKEY))) gctx)
       (calls_f gctx (Some (dec slots (opt dctx OPT_PARSE_FULLKEY)))) ->
  reads_value (calls_f gctx (Some (dec slots (opt dctx OPT_PARSE_FULLKEY))))
              (Yobject (written_f slots dctx gctx)) ->
  decode_then_encode make gen (Yobject slots) dctx gctx
  = Some (Yobject (written_f slots dctx gctx)).
Proof.
  intros (m & Hm & Hr) Hruns Hreads. unfold decode_then_encode.
  rewrite Hm. cbn [mbind option_bind]. rewrite Hr.
  rewrite (Hruns {| calls := []; room := None |}).
  rewrite (feed_unbounded _ {| calls := []; room := None |} eq_refl).
  cbn [extend calls app].
  now apply document_of_value.
Qed.

Lemma one_parsed slots :
  parsed (Yobject slots) = true ->
  forall s, Some slots = Some s -> parsed (Yobject s) = true.
Proof. now intros Hp s [= <-]. Qed.

Lemma idmap_written_back slots dctx gctx :
  parsed (Yobject slots) = true ->
  decode_then_encode
    MountExtensionsCode.make_runtime_spec_schema_features_linux_mount_extensions_idmap
    MountExtensionsCode.gen_runtime_spec_schema_features_linux_mount_extensions_idmap
    (Yobject slots) dctx gctx
  = Some (Yobject (enabled_written slots dctx gctx)).
Proof.
  intros Hp. apply (written_back _ _ decoded_idmap idmap_calls enabled_written).
  - rewrite (make_idmap_closed slots dctx Hp). now eexists.
  - apply gen_idmap_runs. now apply decoded_idmap_ok.
  - apply (idmap_reads (Some slots)). now apply one_parsed.
Qed.

Lemma apparmor_written_back slots dctx gctx :
  parsed (Yobject slots) = true ->
  decode_then_encode Apparmor.make_runtime_spec_schema_features_linux_apparmor
    Apparmor.gen_runtime_spec_schema_features_linux_apparmor (Yobject slots) dctx gctx
  = Some (Yobject (enabled_written slots dctx gctx)).
Proof.
  intros Hp. apply (written_back _ _ decoded_apparmor apparmor_calls enabled_written).
  - rewrite (make_apparmor_closed slots dctx Hp). now eexists.
  - apply gen_apparmor_runs. now apply decoded_apparmor_ok.
  - apply (apparmor_reads (Some slots)). now apply one_parsed.
Qed.

Lemma selinux_written_back slots dctx gctx :
  parsed (Yobject slots) = true ->
  decode_then_encode Selinux.make_runtime_spec_schema_features_linux_selinux
    Selinux.gen_runtime_spec_schema_features_linux_selinux (Yobject slots) dctx gctx
  = Some (Yobject (enabled_written slots dctx gctx)).
Proof.
  intros Hp. apply (written_back _ _ decoded_selinux selinux_calls enabled_written).
  - rewrite (make_selinux_closed slots dctx Hp). now eexists.
  - apply gen_selinux_runs. now apply decoded_selinux_ok.
  - apply (selinux_reads (Some slots)). now apply one_parsed.
Qed.

Lemma intel_rdt_written_back slots dctx gctx :
  parsed (Yobject slots) = true ->
  decode_then_encode IntelRdt.make_runtime_spec_schema_features_linux_intel_rdt
    IntelRdt.gen_runtime_spec_schema_features_linux_intel_rdt (Yobject slots) dctx gctx
  = Some (Yobject (enabled_written slots dctx gctx)).
Proof.
  intros Hp. apply (written_back _ _ decoded_intel_rdt intel_rdt_calls enabled_written).
  - rewrite (make_intel_rdt_closed slots dctx Hp). now eexists.
  - apply gen_intel_rdt_runs. now apply decoded_intel_rdt_ok.
  - apply (intel_rdt_reads (Some slots)). now apply one_parsed.
Qed.

Lemma net_devices_written_back slots dctx gctx :
  parsed (Yobject slots) = true ->
  decode_then_encode NetDevices.make_runtime_spec_schema_features_linux_net_devices
    NetDevices.gen_runtime_spec_schema_features_linux_net_devices (Yobject slots) dctx gctx
  = Some (Yobject (enabled_written slots dctx gctx)).
Proof.
  intros Hp. apply (written_back _ _ decoded_net_devices net_devices_calls enabled_written).
  - rewrite (make_net_devices_closed slots dctx Hp). now eexists.
  - apply gen_net_devices_runs. now apply decoded_net_devices_ok.
  - apply (net_devices_reads (Some slots)). now apply one_parsed.
Qed.

Lemma mount_extensions_written_back slots dctx gctx :
  parsed (Yobject slots) = true ->
  decode_then_encode
    MountExtensionsCode.make_runtime_spec_schema_features_linux_mount_extensions
    MountExtensionsCode.gen_runtime_spec_schema_features_linux_mount_extensions
    (Yobject slots) dctx gctx
  = Some (Yobject (mount_extensions_written slots dctx gctx)).
Proof.
  intros Hp.
  apply (written_back _ _ decoded_mount_extensions mount_extensions_calls
           mount_extensions_written).
  - rewrite (make_mount_extensions_closed slots dctx Hp). now eexists.
  - apply gen_mount_extensions_runs. now apply decoded_mount_extensions_ok.
  - apply (mount_extensions_reads (Some slots)). now apply one_parsed.
Qed.

Lemma features_written_back slots dctx gctx :
  parsed (Yobject slots) = true ->
  decode_then_encode make_runtime_spec_schema_features_linux
    gen_runtime_spec_schema_features_linux (Yobject slots) dctx gctx
  = Some (Yobject (features_written slots dctx gctx)).
Proof.
  intros Hp.
  apply (written_back _ _ decoded_features features_calls features_written).
  - rewrite (make_features_closed slots dctx Hp). now eexists.
  - apply gen_features_runs. now apply decoded_features_ok.
  - apply (features_reads (Some slots)). now apply one_parsed.
Qed.

(** Without OPT_PARSE_FULLKEY a nested [make_*] leaves the member as it
    found it. *)
Lemma put_slot_same name slots (v : yajl_val) :
  forallb slot_full slots = true ->
  member name slots = Some v ->
  put_slot name (Some v) slots = slots.
Proof.
  induction slots as [|[[k|] [x|]] rest IH]; simpl; try discriminate.
  intros Hfull. rewrite c_true_strcmp.
  destruct (String.eqb name k); simpl.
  - now intros [= ->].
  - intros H. now rewrite IH.
Qed.

Lemma nested_after_same name (after : list slot -> list slot) slots :
  forallb slot_full slots = true ->
  (forall s, after s = s) ->
  nested_after name after slots = slots.
Proof.
  intros Hfull Hid. unfold nested_after, nested_slots.
  destruct (member name slots) as [v|] eqn:E; [|reflexivity].
  destruct v; try reflexivity. rewrite Hid. now apply put_slot_same.
Qed.

Lemma mount_extensions_after_same slots :
  forallb slot_full slots = true -> mount_extensions_after slots false = slots.
Proof.
  intros H. unfold mount_extensions_after. cbn [source_after].
  now apply nested_after_same.
Qed.

Lemma nested_slots_full name slots s :
  parsed (Yobject slots) = true -> nested_slots name slots = Some s ->
  forallb slot_full s = true.
Proof. intros Hp E. apply parsed_object_full. exact (nested_slots_parsed _ _ _ Hp E). Qed.

Lemma nested_after_ext name (after after' : list slot -> list slot) slots :
  (forall s, nested_slots name slots = Some s -> after s = after' s) ->
  nested_after name after slots = nested_after name after' slots.
Proof.
  intros H. unfold nested_after.
  destruct (nested_slots name slots) as [s|]; [|reflexivity]. now rewrite (H s).
Qed.

Lemma features_after_same slots :
  parsed (Yobject slots) = true -> features_after slots false = slots.
Proof.
  intros Hp. pose proof (parsed_object_full slots Hp) as Hfull.
  unfold features_after. cbn [source_after].
  assert (I : forall name, nested_after name (fun s => s) slots = slots)
    by (intros name; now apply nested_after_same).
  rewrite !I.
  rewrite (nested_after_ext "mountExtensions" _ (fun s => s)).
  - now rewrite !I.
  - intros s Hs. apply mount_extensions_after_same.
    exact (nested_slots_full _ _ _ Hp Hs).
Qed.

End NestedWrittenBack.

Section NestedTheorems.

Import FeaturesLinux.

Implicit Types (slots s : list slot) (ctx dctx gctx : parser_context).

Lemma decoded_by_closed {S : Type}
    (make_f : option yajl_val -> parser_context -> option (made S))
    (dec : list slot -> S) (after : list slot -> list slot)
    (warn : list slot -> list string) ctx name slots :
  (forall s, parsed (Yobject s) = true ->
     make_f (Some (Yobject s)) ctx
     = Some {| ret := Some (dec s); err := None;
               tree_after := Some (Yobject (after s)); written := warn s |}) ->
  parsed (Yobject slots) = true ->
  decoded_by make_f ctx name slots (dec <$> nested_slots name slots).
Proof.
  intros Hf Hp. unfold decoded_by, nested_slots.
  destruct (member name slots) as [v|] eqn:E; [|reflexivity].
  pose proof (member_parsed name slots v Hp E) as Hv.
  destruct v; try reflexivity.
  rewrite (Hf _ Hv). now eexists _, _.
Qed.

Lemma feed_outcome cs g : feed cs g = emitter_outcome g cs.
Proof.
  unfold emitter_outcome. destruct (room g) as [n|] eqn:E.
  - now apply feed_bounded.
  - now apply feed_unbounded.
Qed.

Lemma warn_unknown_silent ctx j :
  opt ctx OPT_PARSE_STRICT = false \/ errfile ctx = None -> warn_unknown ctx j = [].
Proof.
  unfold warn_unknown. intros [->| ->]; [reflexivity|].
  cbn [non_null]. now rewrite andb_false_r.
Qed.

Lemma features_warnings_silent ctx slots :
  opt ctx OPT_PARSE_STRICT = false \/ errfile ctx = None ->
  features_warnings ctx slots = [].
Proof.
  intros H. unfold features_warnings, nested_warnings, mount_extensions_warnings,
    nested_warnings, unknown_warning.
  repeat match goal with
         | |- context [match ?x with Some _ => _ | None => _ end] => destruct x
         end;
    now rewrite ?(warn_unknown_silent ctx _ H).
Qed.

End NestedTheorems.

(** X7.  Decoding nested records.  For every tree the parser can build
    the decoder of the features record, and the one of mount_extensions,
    returns a record and reports no error.  Each nested member is what the
    decoder of its type returns for the first value under the member's key
    when that value is an object; it is NULL when the key is missing or
    holds a value of any other kind, which is not an error.  The two
    arrays hold the strings of the arrays under "namespaces" and
    "capabilities", and the residual holds the entries under the keys the
    object itself does not know.  A tree that is not an object has no
    members: every member of its record is NULL, the residual too. *)
Theorem nested_members_decoded (t : yajl_val) (ctx : parser_context) :
  parsed t = true ->
  (exists m r,
      FeaturesLinux.make_runtime_spec_schema_features_linux (Some t) ctx = Some m
      /\ ret m = Some r /\ err m = None
      /\ decoded_by make_runtime_spec_schema_features_linux_cgroup ctx
           "cgroup" (object_slots t) (FeaturesLinux.cgroup r)
      /\ decoded_by make_runtime_spec_schema_features_linux_seccomp ctx
           "seccomp" (object_slots t) (FeaturesLinux.seccomp r)
      /\ decoded_by Apparmor.make_runtime_spec_schema_features_linux_apparmor ctx
           "apparmor" (object_slots t) (FeaturesLinux.apparmor r)
      /\ decoded_by Selinux.make_runtime_spec_schema_features_linux_selinux ctx
           "selinux" (object_slots t) (FeaturesLinux.selinux r)
      /\ decoded_by IntelRdt.make_runtime_spec_schema_features_linux_intel_rdt ctx
           "intelRdt" (object_slots t) (FeaturesLinux.intel_rdt r)
      /\ decoded_by
           MountExtensionsCode.make_runtime_spec_schema_features_linux_mount_extensions
           ctx "mountExtensions" (object_slots t) (FeaturesLinux.mount_extensions r)
      /\ decoded_by NetDevices.make_runtime_spec_schema_features_linux_net_devices ctx
           "netDevices" (object_slots t) (FeaturesLinux.net_devices r)
      /\ array_state (FeaturesLinux.namespaces r) (FeaturesLinux.namespaces_len r)
         = strings_field "namespaces" (object_slots t)
      /\ array_state (FeaturesLinux.capabilities r) (FeaturesLinux.capabilities_len r)
         = strings_field "capabilities" (object_slots t)
      /\ FeaturesLinux._residual r
         = residual_of FeaturesLinux.unknown_key
             (is_object t && opt ctx OPT_PARSE_FULLKEY) (object_slots t))
  /\ (exists m r,
        MountExtensionsCode.make_runtime_spec_schema_features_linux_mount_extensions
          (Some t) ctx = Some m
        /\ ret m = Some r /\ err m = None
        /\ decoded_by
             MountExtensionsCode.make_runtime_spec_schema_features_linux_mount_extensions_idmap
             ctx "idmap" (object_slots t) (MountExtensions.idmap r)
        /\ MountExtensions._residual r
           = residual_of MountExtensionsCode.unknown_key
               (is_object t && opt ctx OPT_PARSE_FULLKEY) (object_slots t)).
Proof.
  intros Hp.
  destruct t as [| |slots| | | |];
    try (split; eexists _, _; repeat split; reflexivity).
  cbn [object_slots is_object andb]. split.
  - rewrite (make_features_closed slots ctx Hp).
    eexists _, _. split; [reflexivity|]. split; [reflexivity|]. split; [reflexivity|].
    cbn [decoded_features FeaturesLinux.cgroup FeaturesLinux.seccomp
         FeaturesLinux.apparmor FeaturesLinux.selinux FeaturesLinux.intel_rdt
         FeaturesLinux.mount_extensions FeaturesLinux.net_devices
         FeaturesLinux.namespaces FeaturesLinux.namespaces_len
         FeaturesLinux.capabilities FeaturesLinux.capabilities_len
         FeaturesLinux._residual].
    repeat split; try apply string_array_field_state.
    + exact (decoded_by_closed _ _ _ _ ctx "cgroup" slots
               (fun s Hs => make_cgroup_closed s ctx Hs) Hp).
    + exact (decoded_by_closed _ _ _ _ ctx "seccomp" slots
               (fun s Hs => make_seccomp_closed s ctx Hs) Hp).
    + exact (decoded_by_closed _ _ _ _ ctx "apparmor" slots
               (fun s Hs => make_apparmor_closed s ctx Hs) Hp).
    + exact (decoded_by_closed _ _ _ _ ctx "selinux" slots
               (fun s Hs => make_selinux_closed s ctx Hs) Hp).
    + exact (decoded_by_closed _ _ _ _ ctx "intelRdt" slots
               (fun s Hs => make_intel_rdt_closed s ctx Hs) Hp).
    + exact (decoded_by_closed _ _ _ _ ctx "mountExtensions" slots
               (fun s Hs => make_mount_extensions_closed s ctx Hs) Hp).
    + exact (decoded_by_closed _ _ _ _ ctx "netDevices" slots
               (fun s Hs => make_net_devices_closed s ctx Hs) Hp).
  - rewrite (make_mount_extensions_closed slots ctx Hp).
    eexists _, _. split; [reflexivity|]. split; [reflexivity|]. split; [reflexivity|].
    split; [|reflexivity].
    exact (decoded_by_closed _ _ _ _ ctx "idmap" slots
             (fun s Hs => make_idmap_closed s ctx Hs) Hp).
Qed.

Lemma nested_members_decoded_witness :
  exists m r,
    FeaturesLinux.make_runtime_spec_schema_features_linux
      (Some (Yobject example_features)) {| options := OPT_PARSE_FULLKEY; errfile := None |}
    = Some m
    /\ ret m = Some r /\ err m = None
    /\ FeaturesLinux.seccomp r = None
    /\ FeaturesLinux.selinux r = None
    /\ FeaturesLinux._residual r
       = Some (Yobject [(Some "future", Some (Ynumber "2"))]).
Proof.
  destruct (nested_members_decoded (Yobject example_features)
              {| options := OPT_PARSE_FULLKEY; errfile := None |} eq_refl)
    as [(m & r & Hm & Hr & He & _ & Hs & _ & Hl & _ & _ & _ & _ & _ & Hres) _].
  exists m, r. repeat split; assumption.
Defined.

(** X8.  What decoding does to the source tree, and what it writes.
    Decoding the features record from a parsed object leaves the object as
    the nested decoders and the closing loop left it: with
    OPT_PARSE_FULLKEY the slots under unknown keys are nulled in every
    object that was decoded, the nested ones included; without it the
    object is as it was.  The warnings are written one per decoded object
    that holds an unknown key, those of the nested records first, in the
    order of the schema, then the one of the object itself; nothing is
    written unless OPT_PARSE_STRICT is set and there is an error file. *)
Theorem nested_source_and_warnings (slots : list slot) (ctx : parser_context) :
  parsed (Yobject slots) = true ->
  exists m,
    FeaturesLinux.make_runtime_spec_schema_features_linux (Some (Yobject slots)) ctx
    = Some m
    /\ tree_after m
       = Some (Yobject (features_after slots (opt ctx OPT_PARSE_FULLKEY)))
    /\ (opt ctx OPT_PARSE_FULLKEY = false -> tree_after m = Some (Yobject slots))
    /\ written m = features_warnings ctx slots
    /\ (opt ctx OPT_PARSE_STRICT = false \/ errfile ctx = None -> written m = []).
Proof.
  intros Hp. rewrite (make_features_closed slots ctx Hp).
  eexists. split; [reflexivity|]. cbn [tree_after written].
  split; [reflexivity|]. split; [|split; [reflexivity|]].
  - intros ->. now rewrite features_after_same.
  - apply features_warnings_silent.
Qed.

Lemma nested_source_and_warnings_witness :
  exists m,
    FeaturesLinux.make_runtime_spec_schema_features_linux
      (Some (Yobject example_features))
      {| options := Z.lor OPT_PARSE_FULLKEY OPT_PARSE_STRICT; errfile := Some tt |}
    = Some m
    /\ tree_after m
       = Some (Yobject
                 [(Some "namespaces",
                   Some (Yarray [Some (Ystring "mount"); Some (Ynumber "1")]));
                  (Some "cgroup", Some (Yobject [(Some "v1", Some Ytrue); (None, None)]));
                  (Some "seccomp", Some (Ystring "yes"));
                  (Some "mountExtensions",
                   Some (Yobject [(Some "idmap",
                                   Some (Yobject [(Some "enabled", Some Ytrue);
                                                  (None, None)]))]));
                  (Some "apparmor",
                   Some (Yobject [(Some "enabled", Some (Ystring "true"))]));
                  (None, None)])
    /\ written m = [unknown_key_warning; unknown_key_warning; unknown_key_warning].
Proof.
  destruct (nested_source_and_warnings example_features
              {| options := Z.lor OPT_PARSE_FULLKEY OPT_PARSE_STRICT;
                 errfile := Some tt |} eq_refl)
    as (m & Hm & Ht & _ & Hw & _).
  exists m. repeat split; assumption.
Defined.

(** X9.  What is written back for records with nested members, for all
    options.  Decoding a parsed object and encoding what the decoder
    returned writes the known members in schema order and then, if the
    decoder ran with OPT_PARSE_FULLKEY, the entries under unknown keys.  A
    nested member is written when the key held an object, as the object
    that decoding and encoding that member alone writes, or when
    OPT_GEN_KEY_VALUE is set, then as what is written for the members of
    no record.  This holds for the features record and for
    mount_extensions. *)
Theorem nested_written_document (slots : list slot) (dctx gctx : parser_context) :
  parsed (Yobject slots) = true ->
  decode_then_encode FeaturesLinux.make_runtime_spec_schema_features_linux
    FeaturesLinux.gen_runtime_spec_schema_features_linux (Yobject slots) dctx gctx
  = Some (Yobject (features_written slots dctx gctx))
  /\ decode_then_encode
       MountExtensionsCode.make_runtime_spec_schema_features_linux_mount_extensions
       MountExtensionsCode.gen_runtime_spec_schema_features_linux_mount_extensions
       (Yobject slots) dctx gctx
     = Some (Yobject (mount_extensions_written slots dctx gctx)).
Proof.
  intros Hp. split.
  - now apply features_written_back.
  - now apply mount_extensions_written_back.
Qed.

Lemma nested_written_document_witness :
  decode_then_encode FeaturesLinux.make_runtime_spec_schema_features_linux
    FeaturesLinux.gen_runtime_spec_schema_features_linux (Yobject example_features)
    {| options := OPT_PARSE_FULLKEY; errfile := None |}
    {| options := 0; errfile := None |}
  = Some (Yobject
            [(Some "namespaces",
              Some (Yarray [Some (Ystring "mount"); Some (Ystring EmptyString)]));
             (Some "cgroup",
              Some (Yobject [(Some "v1", Some Ytrue); (Some "extra", Some Ynull)]));
             (Some "apparmor", Some (Yobject []));
             (Some "mountExtensions",
              Some (Yobject [(Some "idmap",
                              Some (Yobject [(Some "enabled", Some Ytrue);
                                             (Some "x", Some Yfalse)]))]));
             (Some "future", Some (Ynumber "2"))]).
Proof.
  destruct (nested_written_document example_features
              {| options := OPT_PARSE_FULLKEY; errfile := None |}
              {| options := 0; errfile := None |} eq_refl) as (H & _).
  exact H.
Defined.

(** X10.  A document that was written back is a fixed point, also with
    nested members: decoding it and encoding again, with the same options,
    writes the same document.  This holds for all options, for the
    features record and for mount_extensions. *)
Theorem nested_written_stable (slots : list slot) (dctx gctx : parser_context) :
  parsed (Yobject slots) = true ->
  (exists out,
      decode_then_encode FeaturesLinux.make_runtime_spec_schema_features_linux
        FeaturesLinux.gen_runtime_spec_schema_features_linux (Yobject slots) dctx gctx
      = Some (Yobject out)
      /\ decode_then_encode FeaturesLinux.make_runtime_spec_schema_features_linux
           FeaturesLinux.gen_runtime_spec_schema_features_linux (Yobject out) dctx gctx
         = Some (Yobject out))
  /\ (exists out,
        decode_then_encode
          MountExtensionsCode.make_runtime_spec_schema_features_linux_mount_extensions
          MountExtensionsCode.gen_runtime_spec_schema_features_linux_mount_extensions
          (Yobject slots) dctx gctx
        = Some (Yobject out)
        /\ decode_then_encode
             MountExtensionsCode.make_runtime_spec_schema_features_linux_mount_extensions
             MountExtensionsCode.gen_runtime_spec_schema_features_linux_mount_extensions
             (Yobject out) dctx gctx
           = Some (Yobject out)).
Proof.
  intros Hp. split; eexists; (split; [|]).
  - now apply features_written_back.
  - rewrite (features_written_back _ dctx gctx
               (features_written_parsed slots dctx gctx Hp)).
    now rewrite features_written_again.
  - now apply mount_extensions_written_back.
  - rewrite (mount_extensions_written_back _ dctx gctx
               (mount_extensions_written_parsed slots dctx gctx Hp)).
    now rewrite mount_extensions_written_again.
Qed.

Lemma nested_written_stable_witness :
  exists out,
    decode_then_encode FeaturesLinux.make_runtime_spec_schema_features_linux
      FeaturesLinux.gen_runtime_spec_schema_features_linux (Yobject example_features)
      {| options := OPT_PARSE_FULLKEY; errfile := None |}
      {| options := OPT_GEN_KEY_VALUE; errfile := None |}
    = Some (Yobject out)
    /\ decode_then_encode FeaturesLinux.make_runtime_spec_schema_features_linux
         FeaturesLinux.gen_runtime_spec_schema_features_linux (Yobject out)
         {| options := OPT_PARSE_FULLKEY; errfile := None |}
         {| options := OPT_GEN_KEY_VALUE; errfile := None |}
       = Some (Yobject out).
Proof.
  destruct (nested_written_stable example_features
              {| options := OPT_PARSE_FULLKEY; errfile := None |}
              {| options := OPT_GEN_KEY_VALUE; errfile := None |} eq_refl) as (H & _).
  exact H.
Defined.

(** X11.  The encoders of the records with nested members on any emitter.
    For a well-formed record, or NULL, the encoder hands the emitter the
    calls of the record in order, those of a nested record between the
    name of the member and the next member.  An emitter that never fails
    receives them all; an emitter that fails receives the calls up to the
    first it refuses, and the encoder returns that failure: no call is
    made after it, also not by the encoder of the enclosing record. *)
Theorem gen_nested_on_any_emitter (g : yajl_gen) (ctx : parser_context) :
  (forall ptr, features_ok ptr = true ->
     FeaturesLinux.gen_runtime_spec_schema_features_linux g ptr ctx
     = emitter_outcome g (features_calls ctx ptr))
  /\ (forall ptr, mount_extensions_ok ptr = true ->
        MountExtensionsCode.gen_runtime_spec_schema_features_linux_mount_extensions
          g ptr ctx
        = emitter_outcome g (mount_extensions_calls ctx ptr))
  /\ (forall ptr, idmap_ok ptr = true ->
        MountExtensionsCode.gen_runtime_spec_schema_features_linux_mount_extensions_idmap
          g ptr ctx
        = emitter_outcome g (idmap_calls ctx ptr))
  /\ (forall ptr, apparmor_ok ptr = true ->
        Apparmor.gen_runtime_spec_schema_features_linux_apparmor g ptr ctx
        = emitter_outcome g (apparmor_calls ctx ptr))
  /\ (forall ptr, selinux_ok ptr = true ->
        Selinux.gen_runtime_spec_schema_features_linux_selinux g ptr ctx
        = emitter_outcome g (selinux_calls ctx ptr))
  /\ (forall ptr, intel_rdt_ok ptr = true ->
        IntelRdt.gen_runtime_spec_schema_features_linux_intel_rdt g ptr ctx
        = emitter_outcome g (intel_rdt_calls ctx ptr))
  /\ (forall ptr, net_devices_ok ptr = true ->
        NetDevices.gen_runtime_spec_schema_features_linux_net_devices g ptr ctx
        = emitter_outcome g (net_devices_calls ctx ptr)).
Proof.
  repeat split; intros ptr Hok; rewrite <- feed_outcome.
  - exact (gen_features_runs ctx ptr Hok g).
  - exact (gen_mount_extensions_runs ctx ptr Hok g).
  - exact (gen_idmap_runs ctx ptr Hok g).
  - exact (gen_apparmor_runs ctx ptr Hok g).
  - exact (gen_selinux_runs ctx ptr Hok g).
  - exact (gen_intel_rdt_runs ctx ptr Hok g).
  - exact (gen_net_devices_runs ctx ptr Hok g).
Qed.

Lemma gen_nested_on_any_emitter_witness :
  FeaturesLinux.gen_runtime_spec_schema_features_linux
    {| calls := []; room := Some 6%nat |}
    (Some (decoded_features example_features false))
    {| options := OPT_GEN_SIMPLIFY; errfile := None |}
  = GenError yajl_gen_in_error_state
      {| calls := [call_map_open; call_string "namespaces"; call_array_open;
                   call_string "mount"; call_string EmptyString; call_array_close];
         room := Some O |}.
Proof.
  destruct (gen_nested_on_any_emitter {| calls := []; room := Some 6%nat |}
              {| options := OPT_GEN_SIMPLIFY; errfile := None |}) as (H & _).
  rewrite (H (Some (decoded_features example_features false)) eq_refl).
  reflexivity.
Defined.

(** X12.  The records whose only member is "enabled": apparmor, selinux,
    intel_rdt, mount_extensions_idmap and net_devices.  For every tree the
    parser can build the decoder returns a record and reports no error.
    "enabled" is present exactly when the tree is an object and the first
    value under the key is a JSON boolean, and then holds it; a value of
    another kind leaves it absent and false.  The residual holds the
    entries under all other keys when the tree is an object and
    OPT_PARSE_FULLKEY is set, and is NULL otherwise. *)
Theorem enabled_member_tri_state (t : yajl_val) (ctx : parser_context) :
  parsed t = true ->
  (exists m r,
      Apparmor.make_runtime_spec_schema_features_linux_apparmor (Some t) ctx = Some m
      /\ ret m = Some r /\ err m = None
      /\ tri_state Apparmor.enabled Apparmor.enabled_present r
         = bool_field "enabled" (object_slots t)
      /\ (Apparmor.enabled_present r = false -> Apparmor.enabled r = false)
      /\ Apparmor._residual r
         = residual_of EnabledOnly.unknown_key
             (is_object t && opt ctx OPT_PARSE_FULLKEY) (object_slots t))
  /\ (exists m r,
        Selinux.make_runtime_spec_schema_features_linux_selinux (Some t) ctx = Some m
        /\ ret m = Some r /\ err m = None
        /\ tri_state Selinux.enabled Selinux.enabled_present r
           = bool_field "enabled" (object_slots t)
        /\ (Selinux.enabled_present r = false -> Selinux.enabled r = false)
        /\ Selinux._residual r
           = residual_of EnabledOnly.unknown_key
               (is_object t && opt ctx OPT_PARSE_FULLKEY) (object_slots t))
  /\ (exists m r,
        IntelRdt.make_runtime_spec_schema_features_linux_intel_rdt (Some t) ctx = Some m
        /\ ret m = Some r /\ err m = None
        /\ tri_state IntelRdt.enabled IntelRdt.enabled_present r
           = bool_field "enabled" (object_slots t)
        /\ (IntelRdt.enabled_present r = false -> IntelRdt.enabled r = false)
        /\ IntelRdt._residual r
           = residual_of EnabledOnly.unknown_key
               (is_object t && opt ctx OPT_PARSE_FULLKEY) (object_slots t))
  /\ (exists m r,
        MountExtensionsCode.make_runtime_spec_schema_features_linux_mount_extensions_idmap
          (Some t) ctx = Some m
        /\ ret m = Some r /\ err m = None
        /\ tri_state Idmap.enabled Idmap.enabled_present r
           = bool_field "enabled" (object_slots t)
        /\ (Idmap.enabled_present r = false -> Idmap.enabled r = false)
        /\ Idmap._residual r
           = residual_of EnabledOnly.unknown_key
               (is_object t && opt ctx OPT_PARSE_FULLKEY) (object_slots t))
  /\ (exists m r,
        NetDevices.make_runtime_spec_schema_features_linux_net_devices (Some t) ctx
        = Some m
        /\ ret m = Some r /\ err m = None
        /\ tri_state NetDevices.enabled NetDevices.enabled_present r
           = bool_field "enabled" (object_slots t)
        /\ (NetDevices.enabled_present r = false -> NetDevices.enabled r = false)
        /\ NetDevices._residual r
           = residual_of EnabledOnly.unknown_key
               (is_object t && opt ctx OPT_PARSE_FULLKEY) (object_slots t)).
Proof.
  intros Hp.
  destruct t as [| |slots| | | |];
    try (repeat split; eexists _, _; repeat split; reflexivity).
  cbn [object_slots is_object andb].
  split; [rewrite (make_apparmor_closed slots ctx Hp)|].
  2: split; [rewrite (make_selinux_closed slots ctx Hp)|].
  3: split; [rewrite (make_intel_rdt_closed slots ctx Hp)|].
  4: split; [rewrite (make_idmap_closed slots ctx Hp)
            |rewrite (make_net_devices_closed slots ctx Hp)].
  all: eexists _, _; split; [reflexivity|]; split; [reflexivity|];
    split; [reflexivity|]; unfold tri_state; cbn;
    destruct (bool_field "enabled" slots) as [[]|]; cbn; repeat split;
    discriminate.
Qed.

Lemma enabled_member_tri_state_witness :
  exists m r,
    Selinux.make_runtime_spec_schema_features_linux_selinux
      (Some (Yobject [(Some "enabled", Some (Ystring "true"));
                      (Some "enabled", Some Ytrue);
                      (Some "mode", Some (Ystring "enforcing"))]))
      {| options := OPT_PARSE_FULLKEY; errfile := None |} = Some m
    /\ ret m = Some r /\ err m = None
    /\ tri_state Selinux.enabled Selinux.enabled_present r = None
    /\ Selinux._residual r
       = Some (Yobject [(Some "mode", Some (Ystring "enforcing"))]).
Proof.
  destruct (enabled_member_tri_state
              (Yobject [(Some "enabled", Some (Ystring "true"));
                        (Some "enabled", Some Ytrue);
                        (Some "mode", Some (Ystring "enforcing"))])
              {| options := OPT_PARSE_FULLKEY; errfile := None |} eq_refl)
    as (_ & (m & r & Hm & Hr & He & Ht & _ & Hres) & _).
  exists m, r. repeat split; assumption.
Defined.

(** X13.  Decoding and encoding the records whose only member is
    "enabled", for all options.  What is written for a parsed object is
    the member "enabled", when the first value under the key is a JSON
    boolean or OPT_GEN_KEY_VALUE is set (then false for an absent one),
    followed by the entries under the other keys if the decoder ran with
    OPT_PARSE_FULLKEY; and that document is a fixed point of decoding and
    encoding again with the same options. *)
Theorem enabled_written_document (slots : list slot) (dctx gctx : parser_context) :
  parsed (Yobject slots) = true ->
  let out := enabled_written slots dctx gctx in
  (decode_then_encode Apparmor.make_runtime_spec_schema_features_linux_apparmor
     Apparmor.gen_runtime_spec_schema_features_linux_apparmor (Yobject slots) dctx gctx
   = Some (Yobject out)
   /\ decode_then_encode Apparmor.make_runtime_spec_schema_features_linux_apparmor
        Apparmor.gen_runtime_spec_schema_features_linux_apparmor (Yobject out) dctx gctx
      = Some (Yobject out))
  /\ (decode_then_encode Selinux.make_runtime_spec_schema_features_linux_selinux
        Selinux.gen_runtime_spec_schema_features_linux_selinux (Yobject slots) dctx gctx
      = Some (Yobject out)
      /\ decode_then_encode Selinux.make_runtime_spec_schema_features_linux_selinux
           Selinux.gen_runtime_spec_schema_features_linux_selinux (Yobject out) dctx gctx
         = Some (Yobject out))
  /\ (decode_then_encode IntelRdt.make_runtime_spec_schema_features_linux_intel_rdt
        IntelRdt.gen_runtime_spec_schema_features_linux_intel_rdt
        (Yobject slots) dctx gctx
      = Some (Yobject out)
      /\ decode_then_encode IntelRdt.make_runtime_spec_schema_features_linux_intel_rdt
           IntelRdt.gen_runtime_spec_schema_features_linux_intel_rdt
           (Yobject out) dctx gctx
         = Some (Yobject out))
  /\ (decode_then_encode
        MountExtensionsCode.make_runtime_spec_schema_features_linux_mount_extensions_idmap
        MountExtensionsCode.gen_runtime_spec_schema_features_linux_mount_extensions_idmap
        (Yobject slots) dctx gctx
      = Some (Yobject out)
      /\ decode_then_encode
           MountExtensionsCode.make_runtime_spec_schema_features_linux_mount_extensions_idmap
           MountExtensionsCode.gen_runtime_spec_schema_features_linux_mount_extensions_idmap
           (Yobject out) dctx gctx
         = Some (Yobject out))
  /\ (decode_then_encode NetDevices.make_runtime_spec_schema_features_linux_net_devices
        NetDevices.gen_runtime_spec_schema_features_linux_net_devices
        (Yobject slots) dctx gctx
      = Some (Yobject out)
      /\ decode_then_encode NetDevices.make_runtime_spec_schema_features_linux_net_devices
           NetDevices.gen_runtime_spec_schema_features_linux_net_devices
           (Yobject out) dctx gctx
         = Some (Yobject out)).
Proof.
  intros Hp out.
  pose proof (enabled_written_parsed slots dctx gctx Hp) as Hout.
  pose proof (enabled_written_again slots dctx gctx) as Hagain. fold out in Hout, Hagain.
  repeat split.
  - now apply apparmor_written_back.
  - rewrite (apparmor_written_back _ dctx gctx Hout). now rewrite Hagain.
  - now apply selinux_written_back.
  - rewrite (selinux_written_back _ dctx gctx Hout). now rewrite Hagain.
  - now apply intel_rdt_written_back.
  - rewrite (intel_rdt_written_back _ dctx gctx Hout). now rewrite Hagain.
  - now apply idmap_written_back.
  - rewrite (idmap_written_back _ dctx gctx Hout). now rewrite Hagain.
  - now apply net_devices_written_back.
  - rewrite (net_devices_written_back _ dctx gctx Hout). now rewrite Hagain.
Qed.

Lemma enabled_written_document_witness :
  decode_then_encode NetDevices.make_runtime_spec_schema_features_linux_net_devices
    NetDevices.gen_runtime_spec_schema_features_linux_net_devices
    (Yobject [(Some "mtu", Some (Ynumber "1500")); (Some "enabled", Some (Ynumber "1"))])
    {| options := OPT_PARSE_FULLKEY; errfile := None |}
    {| options := OPT_GEN_KEY_VALUE; errfile := None |}
  = Some (Yobject [(Some "enabled", Some Yfalse); (Some "mtu", Some (Ynumber "1500"))]).
Proof.
  destruct (enabled_written_document
              [(Some "mtu", Some (Ynumber "1500")); (Some "enabled", Some (Ynumber "1"))]
              {| options := OPT_PARSE_FULLKEY; errfile := None |}
              {| options := OPT_GEN_KEY_VALUE; errfile := None |} eq_refl)
    as (_ & _ & _ & _ & H & _).
  exact H.
Defined.

(* ===================================================================== *)
(** ** Cloning when an allocation fails *)
(* ===================================================================== *)

Section AllocatorFails.

Implicit Types (h : gmap loc block) (m : mem) (l p q i : loc).

Lemma oracle_cases m :
  (exists rest, oracle m = false :: rest) \/ head (oracle m) <> Some false.
Proof.
  destruct (oracle m) as [|[] rest]; cbn; [right|right|left]; try discriminate.
  now exists rest.
Qed.

Lemma alloc_fails b m rest :
  oracle m = false :: rest -> alloc b m = (None, {| heap := heap m; oracle := rest |}).
Proof. unfold alloc. now intros ->. Qed.

Lemma alloc_succeeds b m :
  head (oracle m) <> Some false ->
  alloc b m = (Some (fresh (dom (heap m))),
               {| heap := <[fresh (dom (heap m)) := b]> (heap m);
                  oracle := tail (oracle m) |}).
Proof.
  unfold alloc. destruct (oracle m) as [|[] rest]; cbn; try reflexivity.
  intros H. now destruct H.
Qed.

Lemma false_in_tail (o : list bool) : false ∈ tail o -> false ∈ o.
Proof. destruct o; cbn; [auto|]. intros H. now right. Qed.

Lemma false_in_head (o rest : list bool) : o = false :: rest -> false ∈ o.
Proof. intros ->. now left. Qed.

Lemma clone_cgroup_any p m v :
  read_cgroup (heap m) p = Some v ->
  clone_frame clone_runtime_spec_schema_features_linux_cgroup p m.
Proof.
  intros Hread. unfold clone_frame, clone_runtime_spec_schema_features_linux_cgroup.
  unfold read_cgroup in Hread.
  destruct (heap m !! p) as [[| | |s| | | |]|] eqn:Hp; try discriminate. clear Hread.
  destruct (oracle_cases m) as [[rest Ho]|Ho].
  - rewrite (alloc_fails _ m rest Ho). eexists None, _. split; [reflexivity|].
    cbn [heap]. split; [split; [reflexivity|exact (false_in_head _ _ Ho)]|reflexivity].
  - rewrite (alloc_succeeds _ m Ho). set (l := fresh (dom (heap m))).
    assert (Hl : heap m !! l = None) by apply fresh_unused.
    assert (Hlp : l <> p) by (intros E; rewrite E in Hl; congruence).
    cbn [heap]. rewrite lookup_insert_ne by exact Hlp. rewrite Hp.
    erewrite store_allocated by (cbn [heap]; apply lookup_insert_eq).
    cbn [mbind option_bind]. eexists (Some l), _. split; [reflexivity|].
    cbn [heap with_heap]. split; [split; [exact Hl|]|intros H; contradiction].
    rewrite insert_insert_eq. now apply insert_subseteq.
Qed.

Lemma clone_idmap_shape i si m :
  heap m !! i = Some (Bidmap si) ->
  clone_runtime_spec_schema_features_linux_mount_extensions_idmap i m
  = match oracle m with
    | false :: rest => Some (None, {| heap := heap m; oracle := rest |})
    | _ =>
        Some (Some (fresh (dom (heap m))),
              {| heap := <[fresh (dom (heap m)) := Bidmap (idmap_set_residual None si)]>
                           (heap m);
                 oracle := tail (oracle m) |})
    end.
Proof.
  intros Hi. unfold clone_runtime_spec_schema_features_linux_mount_extensions_idmap.
  destruct (oracle_cases m) as [[rest Ho]|Ho].
  - rewrite (alloc_fails _ m rest Ho). now rewrite Ho.
  - rewrite (alloc_succeeds _ m Ho). set (l := fresh (dom (heap m))).
    assert (Hl : heap m !! l = None) by apply fresh_unused.
    assert (Hli : l <> i) by (intros E; rewrite E in Hl; congruence).
    cbn [heap]. rewrite lookup_insert_ne by exact Hli. rewrite Hi.
    erewrite store_allocated by (cbn [heap]; apply lookup_insert_eq).
    cbn [mbind option_bind heap with_heap oracle]. rewrite insert_insert_eq.
    destruct (oracle m) as [|[] rest]; cbn in *; try reflexivity. now destruct Ho.
Qed.

Lemma clone_idmap_any p m v :
  read_idmap (heap m) p = Some v ->
  clone_frame clone_runtime_spec_schema_features_linux_mount_extensions_idmap p m.
Proof.
  intros Hread. unfold clone_frame. unfold read_idmap in Hread.
  destruct (heap m !! p) as [[| | | | | |s|]|] eqn:Hp; try discriminate. clear Hread.
  rewrite (clone_idmap_shape p s m Hp).
  destruct (oracle m) as [|[] rest] eqn:Ho.
  - eexists (Some _), _. split; [reflexivity|]. cbn [heap].
    split; [split; [apply fresh_unused|apply insert_subseteq, fresh_unused]|discriminate].
  - eexists (Some _), _. split; [reflexivity|]. cbn [heap].
    split; [split; [apply fresh_unused|apply insert_subseteq, fresh_unused]|discriminate].
  - eexists None, _. split; [reflexivity|]. cbn [heap].
    split; [split; [reflexivity|now left]|reflexivity].
Qed.

Lemma clone_mount_extensions_any p m v :
  read_mount_extensions (heap m) p = Some v ->
  clone_frame clone_runtime_spec_schema_features_linux_mount_extensions p m.
Proof.
  intros Hread. unfold clone_frame,
    clone_runtime_spec_schema_features_linux_mount_extensions.
  unfold read_mount_extensions in Hread.
  destruct (heap m !! p) as [[| | | | | | |[oi res]]|] eqn:Hp; try discriminate.
  cbn [MountExtensions.idmap MountExtensions._residual] in Hread.
  destruct (oracle_cases m) as [[rest Ho]|Ho].
  { rewrite (alloc_fails _ m rest Ho). eexists None, _. split; [reflexivity|].
    cbn [heap]. split; [split; [reflexivity|exact (false_in_head _ _ Ho)]|reflexivity]. }
  rewrite (alloc_succeeds _ m Ho). set (l := fresh (dom (heap m))).
  assert (Hl : heap m !! l = None) by apply fresh_unused.
  assert (Hlp : l <> p) by (intros E; rewrite E in Hl; congruence).
  cbn [heap]. rewrite lookup_insert_ne by exact Hlp. rewrite Hp.
  cbn [MountExtensions.idmap].
  destruct oi as [i|].
  2:{ eexists (Some l), _. split; [reflexivity|]. cbn [heap].
      split; [split; [exact Hl|now apply insert_subseteq]|intros H; contradiction]. }
  destruct (read_idmap (heap m) i) as [vi|] eqn:Hi; [|discriminate]. clear Hread.
  unfold read_idmap in Hi.
  destruct (heap m !! i) as [[| | | | | |si|]|] eqn:Hsi; try discriminate. clear Hi.
  assert (Hli : l <> i) by (intros E; rewrite E in Hl; congruence).
  set (m1 := {| heap := <[l := Bmount_extensions mount_extensions_zero]> (heap m);
                oracle := tail (oracle m) |}).
  assert (Hi1 : heap m1 !! i = Some (Bidmap si))
    by (cbn [m1 heap]; now rewrite lookup_insert_ne by exact Hli).
  rewrite (clone_idmap_shape i si m1 Hi1). cbn [m1 heap oracle].
  destruct (fresh_insert (heap m) l (Bmount_extensions mount_extensions_zero))
    as [Hl2 Hl2'].
  set (l2 := fresh (dom (<[l := Bmount_extensions mount_extensions_zero]> (heap m)))) in *.
  assert (Hgrow : forall b b2,
             heap m ⊆ <[l := b]> (<[l2 := b2]>
                        (<[l := Bmount_extensions mount_extensions_zero]> (heap m)))).
  { intros b b2. apply insert_subseteq_r; [exact Hl|].
    apply insert_subseteq_r; [exact Hl2'|]. now apply insert_subseteq. }
  assert (Hok : forall o' : list bool,
             exists r m',
               (m0 ← store l (Bmount_extensions
                               {| MountExtensions.idmap := Some l2;
                                  MountExtensions._residual := None |})
                      {| heap := <[l2 := Bidmap (idmap_set_residual None si)]>
                                   (<[l := Bmount_extensions mount_extensions_zero]>
                                      (heap m));
                         oracle := o' |};
                Some (Some l, m0)) = Some (r, m')
               /\ match r with
                  | None => heap m' = heap m /\ false ∈ oracle m
                  | Some q => heap m !! q = None /\ heap m ⊆ heap m'
                  end
               /\ (head (oracle m) = Some false -> r = None)).
  { intros o'. erewrite store_allocated
      by (cbn [heap]; rewrite lookup_insert_ne by congruence; apply lookup_insert_eq).
    cbn [mbind option_bind]. eexists (Some l), _. split; [reflexivity|].
    cbn [heap with_heap].
    split; [split; [exact Hl|apply Hgrow]|intros H; contradiction]. }
  destruct (tail (oracle m)) as [|[] rest'] eqn:Ht; cbn [mbind option_bind tail];
    try apply Hok.
  (* the nested clone failed: the copy is released *)
  set (m2 := {| heap := <[l := Bmount_extensions mount_extensions_zero]> (heap m);
                oracle := rest' |}).
  assert (Hr2 : read_mount_extensions (heap m2) l
                = Some {| MountExtensions.idmap := None;
                          MountExtensions._residual := None |}).
  { unfold read_mount_extensions. cbn [m2 heap]. now rewrite lookup_insert_eq. }
  assert (Hlocs : mount_extensions_locs (heap m2) l = [l]).
  { unfold mount_extensions_locs. cbn [m2 heap]. now rewrite lookup_insert_eq. }
  rewrite (free_mount_extensions_spec l m2 _ Hr2)
    by (rewrite Hlocs; apply NoDup_singleton).
  cbn [mbind option_bind]. eexists None, _. split; [reflexivity|].
  cbn [heap with_heap]. rewrite Hlocs, release_cons, release_nil.
  cbn [m2 heap]. rewrite delete_insert_id by exact Hl.
  split; [split; [reflexivity|]|reflexivity].
  apply false_in_tail. rewrite Ht. now left.
Qed.

End AllocatorFails.

Section AllocatorFailsZos.

Implicit Types (h : gmap loc block) (m : mem) (l p q : loc).

Lemma strdup_any p s m :
  heap m !! p = Some (Bchars s) -> strdup p m = Some (alloc (Bchars s) m).
Proof. intros H. unfold strdup. now rewrite H. Qed.

Lemma release_two h l c (b b' bc : block) :
  h !! l = None -> h !! c = None -> c <> l ->
  release [l; c] (<[l := b']> (<[c := bc]> (<[l := b]> h))) = h.
Proof.
  intros Hl Hc Hcl. rewrite !release_cons, release_nil.
  apply map_eq. intros k.
  destruct (decide (k = l)) as [->|Hkl]; [now rewrite lookup_delete_eq|].
  rewrite lookup_delete_ne by congruence.
  destruct (decide (k = c)) as [->|Hkc]; [now rewrite lookup_delete_eq|].
  rewrite lookup_delete_ne by congruence.
  now rewrite lookup_insert_ne, lookup_insert_ne, lookup_insert_ne by congruence.
Qed.

(** The copy of "path", from a copy at [l] that holds the copy [ty] of
    "type" and nothing else. *)
Lemma clone_zos_path l (s : zos_struct) (ty : option loc) mX h :
  h !! l = None ->
  match ty with
  | None => heap mX = <[l := Bzos zos_zero]> h
  | Some ct =>
      exists st,
        h !! ct = None /\ ct <> l
        /\ heap mX
           = <[l := Bzos {| ZosNs.type := Some ct; ZosNs.path := None;
                            ZosNs._residual := None |}]>
               (<[ct := Bchars st]> (<[l := Bzos zos_zero]> h))
  end ->
  (forall pp, ZosNs.path s = Some pp -> exists sp, h !! pp = Some (Bchars sp)) ->
  exists r m',
    match ZosNs.path s with
    | Some p =>
        '(c, m) ← strdup p mX;
        match c with
        | Some cp =>
            m ← store l (Bzos {| ZosNs.type := ty; ZosNs.path := Some cp;
                                 ZosNs._residual := None |}) m;
            Some (Some l, m)
        | None =>
            m ← free_runtime_spec_schema_defs_zos_namespace_reference (Some l) m;
            Some (None, m)
        end
    | None => Some (Some l, mX)
    end = Some (r, m')
    /\ match r with
       | None => heap m' = h /\ false ∈ oracle mX
       | Some q => q = l /\ h ⊆ heap m'
       end.
Proof.
  intros Hl Hty Hpath.
  assert (Hsub : h ⊆ heap mX).
  { destruct ty as [ct|].
    - destruct Hty as (st & Hct & Hne & ->).
      apply insert_subseteq_r; [exact Hl|].
      apply insert_subseteq_r; [exact Hct|]. now apply insert_subseteq.
    - rewrite Hty. now apply insert_subseteq. }
  assert (Hlx : exists b, heap mX !! l = Some b).
  { destruct ty as [ct|].
    - destruct Hty as (st & Hct & Hne & ->). rewrite lookup_insert_eq. eauto.
    - rewrite Hty, lookup_insert_eq. eauto. }
  destruct Hlx as [bl Hlx].
  destruct (ZosNs.path s) as [pp|] eqn:Hp.
  2:{ eexists (Some l), _. split; [reflexivity|]. split; [reflexivity|exact Hsub]. }
  destruct (Hpath pp eq_refl) as [sp Hpp].
  rewrite (strdup_any pp sp mX (lookup_weaken _ _ _ _ Hpp Hsub)).
  cbn [mbind option_bind].
  destruct (oracle_cases mX) as [[rest Ho]|Ho].
  - rewrite (alloc_fails _ mX rest Ho).
    set (m2 := {| heap := heap mX; oracle := rest |}).
    destruct ty as [ct|].
    + destruct Hty as (st & Hct & Hne & HX).
      assert (Hr2 : read_zos (heap m2) l
                    = Some {| ZosNs.type := Some st; ZosNs.path := None;
                              ZosNs._residual := None |}).
      { unfold read_zos. cbn [m2 heap]. rewrite HX, lookup_insert_eq.
        cbn [ZosNs.type ZosNs.path ZosNs._residual read_string read_tree].
        unfold read_chars.
        rewrite lookup_insert_ne by congruence. now rewrite lookup_insert_eq. }
      assert (Hlocs : zos_locs (heap m2) l = [l; ct]).
      { unfold zos_locs. cbn [m2 heap]. now rewrite HX, lookup_insert_eq. }
      rewrite (free_zos_spec l m2 _ Hr2).
      2:{ rewrite Hlocs. apply NoDup_cons. split; [|apply NoDup_singleton].
          intros Hin. apply list_elem_of_singleton in Hin. congruence. }
      cbn [mbind option_bind]. eexists None, _. split; [reflexivity|].
      cbn [heap with_heap]. rewrite Hlocs. cbn [m2 heap]. rewrite HX.
      split; [now apply release_two|]. rewrite Ho. now left.
    + assert (Hr2 : read_zos (heap m2) l
                    = Some {| ZosNs.type := None; ZosNs.path := None;
                              ZosNs._residual := None |}).
      { unfold read_zos. cbn [m2 heap]. now rewrite Hty, lookup_insert_eq. }
      assert (Hlocs : zos_locs (heap m2) l = [l]).
      { unfold zos_locs. cbn [m2 heap]. now rewrite Hty, lookup_insert_eq. }
      rewrite (free_zos_spec l m2 _ Hr2) by (rewrite Hlocs; apply NoDup_singleton).
      cbn [mbind option_bind]. eexists None, _. split; [reflexivity|].
      cbn [heap with_heap]. rewrite Hlocs, release_cons, release_nil.
      cbn [m2 heap]. rewrite Hty.
      split; [now apply delete_insert_id|]. rewrite Ho. now left.
  - rewrite (alloc_succeeds _ mX Ho). set (cp := fresh (dom (heap mX))).
    assert (Hcp : heap mX !! cp = None) by apply fresh_unused.
    assert (Hcl : cp <> l) by (intros E; rewrite E in Hcp; congruence).
    erewrite store_allocated
      by (cbn [heap]; rewrite lookup_insert_ne by congruence; exact Hlx).
    cbn [mbind option_bind]. eexists (Some l), _. split; [reflexivity|].
    split; [reflexivity|]. cbn [heap with_heap].
    apply insert_subseteq_r; [exact Hl|].
    apply insert_subseteq_r; [|exact Hsub].
    destruct (h !! cp) as [b|] eqn:E; [|reflexivity].
    rewrite (lookup_weaken _ _ _ _ E Hsub) in Hcp. discriminate.
Qed.

Lemma clone_zos_any p m v :
  read_zos (heap m) p = Some v ->
  clone_frame clone_runtime_spec_schema_defs_zos_namespace_reference p m.
Proof.
  intros Hread. unfold clone_frame,
    clone_runtime_spec_schema_defs_zos_namespace_reference.
  unfold read_zos in Hread.
  destruct (heap m !! p) as [[| | | | |s| |]|] eqn:Hp; try discriminate.
  destruct (read_string (heap m) (ZosNs.type s)) as [vt|] eqn:Hvt; [|discriminate].
  destruct (read_string (heap m) (ZosNs.path s)) as [vp|] eqn:Hvp; [|discriminate].
  clear Hread.
  assert (Hpath : forall pp, ZosNs.path s = Some pp ->
                             exists sp, heap m !! pp = Some (Bchars sp)).
  { intros pp E. rewrite E in Hvp. cbn [read_string] in Hvp. unfold read_chars in Hvp.
    destruct (heap m !! pp) as [[]|]; try discriminate. eauto. }
  destruct (oracle_cases m) as [[rest Ho]|Ho].
  { rewrite (alloc_fails _ m rest Ho). eexists None, _. split; [reflexivity|].
    cbn [heap]. split; [split; [reflexivity|exact (false_in_head _ _ Ho)]|reflexivity]. }
  rewrite (alloc_succeeds _ m Ho). set (l := fresh (dom (heap m))).
  assert (Hl : heap m !! l = None) by apply fresh_unused.
  assert (Hlp : l <> p) by (intros E; rewrite E in Hl; congruence).
  unfold load_zos at 1. cbn [heap]. rewrite lookup_insert_ne by exact Hlp. rewrite Hp.
  cbn [mbind option_bind].
  set (m1 := {| heap := <[l := Bzos zos_zero]> (heap m); oracle := tail (oracle m) |}).
  destruct (ZosNs.type s) as [t|] eqn:Ht.
  - cbn [read_string] in Hvt. unfold read_chars in Hvt.
    destruct (heap m !! t) as [[st| | | | | | |]|] eqn:Hst; try discriminate.
    assert (Hlt : l <> t) by (intros E; rewrite E in Hl; congruence).
    rewrite (strdup_any t st m1) by (cbn [m1 heap]; now rewrite lookup_insert_ne).
    cbn [mbind option_bind].
    destruct (oracle_cases m1) as [[rest Ho1]|Ho1].
    + rewrite (alloc_fails _ m1 rest Ho1).
      set (m2 := {| heap := heap m1; oracle := rest |}).
      assert (Hr2 : read_zos (heap m2) l
                    = Some {| ZosNs.type := None; ZosNs.path := None;
                              ZosNs._residual := None |}).
      { unfold read_zos. cbn [m2 m1 heap]. now rewrite lookup_insert_eq. }
      assert (Hlocs : zos_locs (heap m2) l = [l]).
      { unfold zos_locs. cbn [m2 m1 heap]. now rewrite lookup_insert_eq. }
      rewrite (free_zos_spec l m2 _ Hr2) by (rewrite Hlocs; apply NoDup_singleton).
      cbn [mbind option_bind]. eexists None, _. split; [reflexivity|].
      cbn [heap with_heap]. rewrite Hlocs, release_cons, release_nil.
      cbn [m2 m1 heap].
      split; [split; [now apply delete_insert_id|]|reflexivity].
      apply false_in_tail. exact (false_in_head _ _ Ho1).
    + rewrite (alloc_succeeds _ m1 Ho1).
      destruct (fresh_insert (heap m) l (Bzos zos_zero)) as [Hct Hct'].
      cbn [m1 heap]. set (ct := fresh (dom (<[l := Bzos zos_zero]> (heap m)))) in *.
      erewrite store_allocated
        by (cbn [heap]; rewrite lookup_insert_ne by congruence; apply lookup_insert_eq).
      cbn [mbind option_bind].
      match goal with
      | |- exists r m', ?X = _ /\ _ =>
          destruct (clone_zos_path l s (Some ct)
                      (with_heap
                         (<[l := Bzos {| ZosNs.type := Some ct; ZosNs.path := None;
                                         ZosNs._residual := None |}]>
                            (<[ct := Bchars st]> (<[l := Bzos zos_zero]> (heap m))))
                         {| heap := <[ct := Bchars st]> (<[l := Bzos zos_zero]> (heap m));
                            oracle := tail (oracle m1) |})
                      (heap m) Hl)
            as (r & m' & E & Hr)
      end.
      * exists st. repeat split; assumption.
      * exact Hpath.
      * exists r, m'. split; [exact E|].
        destruct r as [q|].
        -- destruct Hr as [-> Hsub]. split; [split; [exact Hl|exact Hsub]|].
           intros H; contradiction.
        -- destruct Hr as [Hh Hf]. split; [split; [exact Hh|]|reflexivity].
           cbn [with_heap oracle] in Hf. apply false_in_tail.
           cbn [m1 oracle] in Hf. now apply false_in_tail.
  - destruct (clone_zos_path l s None m1 (heap m) Hl eq_refl Hpath)
      as (r & m' & E & Hr).
    exists r, m'. split; [exact E|].
    destruct r as [q|].
    + destruct Hr as [-> Hsub]. split; [split; [exact Hl|exact Hsub]|].
      intros H; contradiction.
    + destruct Hr as [Hh Hf]. split; [split; [exact Hh|]|reflexivity].
      cbn [m1 oracle] in Hf. now apply false_in_tail.
Qed.

End AllocatorFailsZos.

(* ===================================================================== *)
(** ** Cloning a seccomp record when an allocation fails *)
(* ===================================================================== *)

Section CloneCellsAny.

Implicit Types (h : gmap loc block) (m : mem) (l p q a : loc) (ls F : list loc).

Lemma omap_replicate_none n : omap id (replicate n (@None loc)) = [].
Proof. induction n as [|n IH]; [reflexivity|exact IH]. Qed.

Lemma read_replicate_none h n :
  Forall (fun c => is_Some (read_string h c)) (replicate n (@None loc)).
Proof. apply Forall_replicate. cbn. eauto. Qed.

(** The loop of [clone_*] over the cells [cs] of the source array, under
    an allocator that may fail: the cells copied so far hold fresh
    strings, the others are NULL, and nothing else changes. *)
Lemma clone_cells_any cs : forall xs pre post dpre dpost src dst m,
  src <> dst ->
  heap m !! src = Some (Bcells (pre ++ cs ++ post)) ->
  heap m !! dst = Some (Bcells (dpre ++ replicate (length cs) None ++ dpost)) ->
  length dpre = length pre ->
  Forall2 (fun c x => read_string (heap m) c = Some x) cs xs ->
  exists ok m' ds,
    clone_cells src dst (length pre) (length cs) m = Some (ok, m')
    /\ (ok = false -> false ∈ oracle m)
    /\ (false ∈ oracle m' -> false ∈ oracle m)
    /\ heap m' !! dst = Some (Bcells (dpre ++ ds ++ dpost))
    /\ length ds = length cs
    /\ Forall (fun c => is_Some (read_string (heap m') c)) ds
    /\ NoDup (omap id ds)
    /\ (forall l, l ∈ omap id ds -> heap m !! l = None)
    /\ (forall l, l <> dst -> l ∉ omap id ds -> heap m' !! l = heap m !! l).
Proof.
  induction cs as [|c cs IH]; intros xs pre post dpre dpost src dst m
    Hsd Hsrc Hdst Hlen Hread.
  - inversion Hread; subst. exists true, m, []. cbn.
    repeat split; auto using NoDup_nil_2; try discriminate.
    intros l []%elem_of_nil.
  - inversion Hread as [|c' x cs' xs' Hc Hrest]; subst.
    change ((c :: cs) ++ post) with (c :: (cs ++ post)) in Hsrc.
    cbn [length] in Hdst |- *.
    cbn [clone_cells]. rewrite Hsrc, lookup_middle.
    destruct c as [s|].
    + cbn [read_string] in Hc. unfold read_chars in Hc.
      destruct (heap m !! s) as [[str| | | | | | |]|] eqn:Es; try discriminate.
      cbn in Hc. injection Hc as <-.
      rewrite (strdup_any s str m Es). cbn [mbind option_bind].
      destruct (oracle_cases m) as [[rest Ho]|Ho].
      * (* strdup fails *)
        rewrite (alloc_fails _ m rest Ho).
        exists false, {| heap := heap m; oracle := rest |},
          (replicate (S (length cs)) None).
        cbn [heap oracle]. split; [reflexivity|].
        split; [intros _; exact (false_in_head _ _ Ho)|].
        split; [intros H; rewrite Ho; now right|].
        split; [exact Hdst|]. split; [apply length_replicate|].
        split; [apply read_replicate_none|].
        rewrite omap_replicate_none.
        split; [apply NoDup_nil_2|]. split; [intros l []%elem_of_nil|].
        reflexivity.
      * rewrite (alloc_succeeds _ m Ho). cbn [heap].
        set (l := fresh (dom (heap m))).
        assert (Hl : heap m !! l = None) by apply fresh_unused.
        assert (Hld : l <> dst) by (intros E; rewrite E in Hl; congruence).
        assert (Hls : l <> src) by (intros E; rewrite E in Hl; congruence).
        rewrite lookup_insert_ne by congruence. rewrite Hdst.
        rewrite decide_True
          by (rewrite <- Hlen, List.length_app; simpl; lia).
        erewrite store_allocated
          by (cbn [heap]; rewrite lookup_insert_ne by congruence; exact Hdst).
        cbn [mbind option_bind heap with_heap oracle replicate app].
        rewrite <- Hlen, insert_middle, Hlen.
        set (m2 := {| heap := <[dst := Bcells (dpre ++ Some l :: replicate (length cs) None
                                                ++ dpost)]>
                                (<[l := Bchars str]> (heap m));
                      oracle := tail (oracle m) |}).
        assert (Hag : forall l0, is_Some (heap m !! l0) -> l0 <> dst ->
                                 heap m2 !! l0 = heap m !! l0).
        { intros l0 [b Hb] Hne. cbn [heap m2].
          rewrite !lookup_insert_ne; auto. intros <-. congruence. }
        destruct (IH xs' (pre ++ [Some s]) post (dpre ++ [Some l]) dpost src dst m2)
          as (ok & m' & ds & Hc & Hok & Hor & Hd' & Hlen' & Hread' & Hnd' & Hfresh'
              & Hframe').
        -- exact Hsd.
        -- rewrite Hag by (rewrite ?Hsrc; eauto). rewrite Hsrc, <- app_assoc. reflexivity.
        -- cbn [heap m2]. rewrite lookup_insert_eq, <- app_assoc. reflexivity.
        -- rewrite !length_snoc. congruence.
        -- apply (read_cells_agree (heap m)); [|exact Hrest].
           intros l0 Hl0.
           destruct (read_cells_chars _ _ _ l0 Hrest Hl0) as [str0 Hs0].
           apply Hag; [rewrite Hs0; eauto|]. intros ->. congruence.
        -- assert (Hl2 : heap m2 !! l = Some (Bchars str)).
           { cbn [heap m2]. rewrite lookup_insert_ne by congruence.
             apply lookup_insert_eq. }
           assert (Hlds : l ∉ omap id ds).
           { intros Hin. apply Hfresh' in Hin. congruence. }
           exists ok, m', (Some l :: ds). rewrite length_snoc in Hc.
           split; [exact Hc|].
           split; [intros E; apply false_in_tail; exact (Hok E)|].
           split; [intros E; apply false_in_tail; exact (Hor E)|].
           split; [rewrite Hd', <- app_assoc; reflexivity|].
           split; [simpl; congruence|]. split.
           { constructor; [|exact Hread'].
             cbn [read_string]. unfold read_chars.
             rewrite Hframe' by auto. rewrite Hl2. cbn. eauto. }
           split; [cbn; apply NoDup_cons; auto|]. split.
           { intros l0 Hl0. cbn in Hl0.
             apply elem_of_cons in Hl0 as [->|Hl0]; [exact Hl|].
             pose proof (Hfresh' l0 Hl0) as H0. cbn [heap m2] in H0.
             destruct (decide (l0 = dst)) as [->|Hn1];
               [rewrite lookup_insert_eq in H0; discriminate|].
             rewrite lookup_insert_ne in H0 by congruence.
             destruct (decide (l0 = l)) as [->|Hn2]; [exact Hl|].
             now rewrite lookup_insert_ne in H0 by congruence. }
           intros l0 Hn Hout. cbn in Hout.
           apply not_elem_of_cons in Hout as [Hn2 Hout].
           rewrite Hframe' by auto. cbn [heap m2].
           now rewrite !lookup_insert_ne by congruence.
    + cbn in Hc. injection Hc as <-. cbn [replicate app] in Hdst.
      destruct (IH xs' (pre ++ [None]) post (dpre ++ [None]) dpost src dst m)
        as (ok & m' & ds & Hc & Hok & Hor & Hd' & Hlen' & Hread' & Hnd' & Hfresh'
            & Hframe'); auto.
      * rewrite Hsrc, <- app_assoc. reflexivity.
      * rewrite Hdst, <- app_assoc. reflexivity.
      * rewrite !length_snoc. congruence.
      * exists ok, m', (None :: ds). rewrite length_snoc in Hc.
        split; [exact Hc|]. split; [exact Hok|]. split; [exact Hor|]. split.
        { rewrite Hd', <- app_assoc. reflexivity. }
        split; [simpl; congruence|].
        split; [constructor; [cbn; eauto|exact Hread']|].
        cbn. auto.
Qed.

End CloneCellsAny.

Section CloneFieldAny.

Implicit Types (h : gmap loc block) (m : mem) (l p q a : loc) (ls F : list loc).

(** One array member of [clone_*], under an allocator that may fail.  [d]
    is what the member of the copy points to afterwards: NULL when the
    member of the source is NULL or calloc failed. *)
Lemma clone_array_field_any fld src ret m s r x :
  src <> ret ->
  heap m !! src = Some (Bseccomp s) ->
  heap m !! ret = Some (Bseccomp r) ->
  read_array (heap m) (get_ptr fld s) = Some x ->
  array_shape (heap m) (get_ptr fld s) (get_len fld s) = true ->
  exists ok m' d,
    clone_array_field fld src ret m = Some (ok, m')
    /\ (ok = false -> false ∈ oracle m)
    /\ (false ∈ oracle m' -> false ∈ oracle m)
    /\ heap m' !! ret
       = Some (Bseccomp match get_ptr fld s with
                        | None => r
                        | Some _ =>
                            match d with
                            | Some _ => set_ptr fld d (set_len fld (get_len fld s) r)
                            | None => set_len fld (get_len fld s) r
                            end
                        end)
    /\ (get_ptr fld s = None -> d = None)
    /\ is_Some (read_array (heap m') d)
    /\ array_shape (heap m') d (get_len fld s) = true
    /\ NoDup (array_locs (heap m') d)
    /\ (forall l, l ∈ array_locs (heap m') d -> heap m !! l = None)
    /\ (forall l, l <> ret -> l ∉ array_locs (heap m') d -> heap m' !! l = heap m !! l).
Proof.
  intros Hsr Hsrc Hret Hread Hshape.
  unfold clone_array_field, load_seccomp. rewrite Hsrc. cbn [mbind option_bind].
  destruct (get_ptr fld s) as [a|] eqn:Ea.
  - (* the member is copied *)
    cbn [read_array array_shape] in Hread, Hshape.
    destruct (heap m !! a) as [[|cells| | | | | |]|] eqn:Ha; try discriminate.
    destruct (shape_split cells _ Hshape) as (cs & -> & Hlen).
    destruct (mapM (read_string (heap m)) (cs ++ [None])) as [xfull|] eqn:Hm;
      [|discriminate].
    cbn in Hread. injection Hread as <-.
    apply mapM_Some_1, Forall2_app_inv_l in Hm as (xs & xlast & Hxs & Hlast & ->).
    apply Forall2_cons_inv_l in Hlast as (x0 & k0 & Hx0 & Hk0 & ->).
    apply Forall2_nil_inv_l in Hk0 as ->. cbn in Hx0. injection Hx0 as <-.
    rewrite (update_seccomp_allocated ret _ r m Hret). cbn [mbind option_bind].
    set (r1 := set_len fld (get_len fld s) r).
    set (h1 := <[ret := Bseccomp r1]> (heap m)).
    assert (Hh1 : forall l, l <> ret -> h1 !! l = heap m !! l)
      by (intros l Hl; unfold h1; now rewrite lookup_insert_ne by congruence).
    destruct (oracle_cases (with_heap h1 m)) as [[rest Ho]|Ho].
    + (* calloc fails *)
      rewrite (alloc_fails _ (with_heap h1 m) rest Ho). cbn [heap with_heap].
      exists false, {| heap := h1; oracle := rest |}, None.
      cbn [heap oracle read_array array_shape array_locs].
      split; [reflexivity|].
      split; [intros _; exact (false_in_head _ _ Ho)|].
      split; [intros H; cbn [with_heap oracle] in Ho; rewrite Ho; now right|].
      split; [unfold h1; apply lookup_insert_eq|].
      split; [discriminate|]. split; [eauto|]. split; [reflexivity|].
      split; [apply NoDup_nil_2|]. split; [intros l []%elem_of_nil|].
      intros l Hl _. now apply Hh1.
    + rewrite (alloc_succeeds _ (with_heap h1 m) Ho). cbn [heap with_heap oracle].
      set (d := fresh (dom h1)).
      assert (Hd1 : h1 !! d = None) by apply fresh_unused.
      assert (Hdr : d <> ret)
        by (intros E; unfold h1 in Hd1; rewrite E, lookup_insert_eq in Hd1; discriminate).
      assert (Hd0 : heap m !! d = None) by (now rewrite <- Hh1).
      set (h2 := <[d := Bcells (replicate (S (get_len fld s)) None)]> h1).
      rewrite (update_seccomp_allocated ret _ r1 {| heap := h2; oracle := tail (oracle m) |})
        by (cbn [heap]; unfold h2, h1; rewrite lookup_insert_ne by congruence;
            apply lookup_insert_eq).
      cbn [mbind option_bind heap with_heap oracle].
      set (r2 := set_ptr fld (Some d) r1).
      set (m3 := {| heap := <[ret := Bseccomp r2]> h2; oracle := tail (oracle m) |}).
      assert (Hag : forall l0, is_Some (heap m !! l0) -> l0 <> ret ->
                               heap m3 !! l0 = heap m !! l0).
      { intros l0 [b Hb] Hne. cbn [heap m3]. unfold h2, h1.
        rewrite !lookup_insert_ne; auto. intros <-. congruence. }
      assert (Har : a <> ret) by (intros E; rewrite E in Ha; congruence).
      assert (Had : a <> d) by (intros E; rewrite E in Ha; congruence).
      destruct (clone_cells_any cs xs [] [None] [] [None] a d m3)
        as (ok & m' & ds & Hc & Hok & Hor & Hd' & Hlen' & Hread' & Hnd' & Hfresh'
            & Hframe').
      * exact Had.
      * rewrite Hag by (rewrite ?Ha; eauto). exact Ha.
      * cbn [heap m3]. rewrite lookup_insert_ne by congruence.
        unfold h2. rewrite lookup_insert_eq, Hlen, replicate_S_end. reflexivity.
      * reflexivity.
      * apply (read_cells_agree (heap m)); [|exact Hxs].
        intros l0 Hl0. destruct (read_cells_chars _ _ _ l0 Hxs Hl0) as [str0 Hs0].
        apply Hag; [rewrite Hs0; eauto|]. intros ->. congruence.
      * assert (Hret3 : heap m3 !! ret = Some (Bseccomp r2))
          by (cbn [heap m3]; apply lookup_insert_eq).
        assert (Hd3 : is_Some (heap m3 !! d)).
        { cbn [heap m3]. rewrite lookup_insert_ne by congruence.
          unfold h2. rewrite lookup_insert_eq. eauto. }
        assert (Hrds : ret ∉ omap id ds)
          by (intros Hin; apply Hfresh' in Hin; congruence).
        assert (Hdds : d ∉ omap id ds).
        { intros Hin. apply Hfresh' in Hin. rewrite Hin in Hd3. now destruct Hd3. }
        cbn [length app] in Hc, Hd'. rewrite Hlen in Hc.
        exists ok, m', (Some d). split; [exact Hc|].
        split; [intros E; apply false_in_tail; exact (Hok E)|].
        split; [intros E; apply false_in_tail; exact (Hor E)|].
        cbn [read_array array_shape array_locs]. rewrite Hd', omap_snoc_none.
        split; [rewrite Hframe' by auto; exact Hret3|].
        split; [discriminate|]. split.
        { assert (Hall : Forall (fun c => is_Some (read_string (heap m') c)) (ds ++ [None])).
          { apply Forall_app. split; [exact Hread'|]. constructor; [cbn; eauto|constructor]. }
          clear -Hall. induction (ds ++ [None]) as [|c rest IH]; [cbn; eauto|].
          apply Forall_cons in Hall as [[y Hy] Hrest]. destruct (IH Hrest) as [ys Hys].
          cbn [fmap option_fmap option_map] in Hys.
          destruct (mapM (read_string (heap m')) rest) as [zs|] eqn:Ez; [|discriminate].
          cbn [mapM]. rewrite Hy, Ez. cbn. eauto. }
        split.
        { rewrite length_snoc, Hlen', Hlen, Nat.eqb_refl, last_snoc. reflexivity. }
        split; [apply NoDup_cons; auto|]. split.
        { intros l0 [->|Hl0]%elem_of_cons; [exact Hd0|].
          pose proof (Hfresh' l0 Hl0) as H0. cbn [heap m3] in H0.
          destruct (decide (l0 = ret)) as [->|Hn1];
            [rewrite lookup_insert_eq in H0; discriminate|].
          rewrite lookup_insert_ne in H0 by congruence. unfold h2 in H0.
          destruct (decide (l0 = d)) as [->|Hn2]; [exact Hd0|].
          rewrite lookup_insert_ne in H0 by congruence. unfold h1 in H0.
          now rewrite lookup_insert_ne in H0 by congruence. }
        intros l0 Hn [Hn2 Hout]%not_elem_of_cons.
        rewrite Hframe' by auto. cbn [heap m3]. unfold h2, h1.
        now rewrite !lookup_insert_ne by congruence.
  - (* the member is NULL in the source *)
    exists true, m, None. cbn [read_array array_shape array_locs].
    repeat split; auto using NoDup_nil_2; try discriminate; eauto.
    intros l []%elem_of_nil.
Qed.

End CloneFieldAny.

Section CloneMemberAny.

Implicit Types (h : gmap loc block) (m : mem) (l p q a : loc) (ls F N L : list loc).

Lemma array_carried_some h h' (d : option loc) n L N :
  is_Some (read_array h d) /\ array_shape h d n = true /\ array_locs h d = L ->
  (forall l, l ∈ L -> l ∈ N) ->
  (forall l, l ∈ N -> h' !! l = h !! l) ->
  is_Some (read_array h' d) /\ array_shape h' d n = true /\ array_locs h' d = L.
Proof.
  intros ([x Hr] & Hs & Hl) Hsub Hag.
  destruct (array_carried h h' d x n L N Hr Hs Hl Hsub Hag) as (H1 & H2 & H3).
  eauto.
Qed.

Lemma no_array h n :
  is_Some (read_array h None) /\ array_shape h None n = true /\ array_locs h None = [].
Proof. cbn. eauto. Qed.

(** One array member of [clone_*] in the course of a clone, under an
    allocator that may fail: [h0] is the store before the clone, [q] the
    copy under construction and [N] the blocks the copy owns so far. *)
Lemma clone_member_any fld p q (h0 : gmap loc block) m s r x N :
  h0 !! p = Some (Bseccomp s) ->
  h0 !! q = None ->
  read_array h0 (get_ptr fld s) = Some x ->
  array_shape h0 (get_ptr fld s) (get_len fld s) = true ->
  heap m !! q = Some (Bseccomp r) ->
  NoDup N ->
  (forall l, l ∈ N -> h0 !! l = None /\ l <> q /\ is_Some (heap m !! l)) ->
  (forall l, l <> q -> l ∉ N -> heap m !! l = h0 !! l) ->
  exists ok m' d L,
    clone_array_field fld p q m = Some (ok, m')
    /\ (ok = false -> false ∈ oracle m)
    /\ (false ∈ oracle m' -> false ∈ oracle m)
    /\ heap m' !! q
       = Some (Bseccomp match get_ptr fld s with
                        | None => r
                        | Some _ =>
                            match d with
                            | Some _ => set_ptr fld d (set_len fld (get_len fld s) r)
                            | None => set_len fld (get_len fld s) r
                            end
                        end)
    /\ (get_ptr fld s = None -> d = None)
    /\ (is_Some (read_array (heap m') d)
        /\ array_shape (heap m') d (cloned_len (get_ptr fld s) (get_len fld s)) = true
        /\ array_locs (heap m') d = L)
    /\ NoDup (N ++ L)
    /\ (forall l, l ∈ N ++ L -> h0 !! l = None /\ l <> q /\ is_Some (heap m' !! l))
    /\ (forall l, l <> q -> l ∉ N ++ L -> heap m' !! l = h0 !! l)
    /\ (forall l, l ∈ N -> heap m' !! l = heap m !! l).
Proof.
  intros Hp Hq Hread Hshape Hret HndN HN Hframe.
  assert (Hold : forall l, is_Some (h0 !! l) -> heap m !! l = h0 !! l).
  { intros l [b Hb]. apply Hframe; [intros ->; congruence|].
    intros Hin. destruct (HN l Hin) as [H0 _]. congruence. }
  assert (Hpq : p <> q) by (intros ->; congruence).
  assert (Hsrc : heap m !! p = Some (Bseccomp s)) by (rewrite Hold; [|rewrite Hp]; eauto).
  pose proof (read_array_allocated _ _ _ Hread) as Hall.
  rewrite Forall_forall in Hall.
  destruct (array_carried h0 (heap m) (get_ptr fld s) x (get_len fld s)
              (array_locs h0 (get_ptr fld s)) (array_locs h0 (get_ptr fld s))
              Hread Hshape eq_refl (fun _ H => H))
    as (Hread' & Hshape' & _).
  { intros l Hl. apply Hold, Hall, Hl. }
  destruct (clone_array_field_any fld p q m s r x Hpq Hsrc Hret Hread' Hshape')
    as (ok & m' & d & Hc & Hok & Hor & Hq' & Hd & [y Hr'] & Hs' & Hnd' & Hfresh'
        & Hframe').
  exists ok, m', d, (array_locs (heap m') d).
  pose proof (read_array_allocated _ _ _ Hr') as Hall'.
  rewrite Forall_forall in Hall'.
  assert (Hdisj : forall l, l ∈ N -> l ∉ array_locs (heap m') d).
  { intros l Hl Hin. destruct (HN l Hl) as (_ & _ & [b Hb]).
    rewrite (Hfresh' l Hin) in Hb. discriminate. }
  assert (HLq : forall l, l ∈ array_locs (heap m') d -> l <> q).
  { intros l Hl ->. rewrite (Hfresh' q Hl) in Hret. discriminate. }
  assert (HLN : forall l, l ∈ array_locs (heap m') d -> l ∉ N).
  { intros l Hl Hin. exact (Hdisj l Hin Hl). }
  split; [exact Hc|]. split; [exact Hok|]. split; [exact Hor|].
  split; [exact Hq'|]. split; [exact Hd|].
  split.
  { split; [eauto|]. split; [|reflexivity].
    destruct (get_ptr fld s) as [a|] eqn:Ea; [exact Hs'|].
    now rewrite (Hd eq_refl). }
  split; [apply NoDup_app; auto|]. split.
  { intros l [Hl|Hl]%elem_of_app.
    - destruct (HN l Hl) as (H0 & H1 & H2). repeat split; auto.
      rewrite Hframe' by auto. exact H2.
    - repeat split; auto.
      rewrite <- Hframe by auto. now apply Hfresh'. }
  split.
  { intros l Hn [H1 H2]%not_elem_of_app. rewrite Hframe' by auto. now apply Hframe. }
  intros l Hl. destruct (HN l Hl) as (_ & H1 & _). apply Hframe'; auto.
Qed.

(** A copy under construction, released: the store is as it was before
    the clone. *)
Lemma seccomp_copy_released (h0 : gmap loc block) q m e ep
    (d1 d2 d3 d4 d5 : option loc) (n1 n2 n3 n4 n5 : nat) L1 L2 L3 L4 L5 :
  h0 !! q = None ->
  heap m !! q
  = Some (Bseccomp
            (Seccomp.Build_runtime_spec_schema_features_linux_seccomp loc loc
               e d1 n1 d2 n2 d3 n3 d4 n4 d5 n5 None ep)) ->
  is_Some (read_array (heap m) d1) /\ array_shape (heap m) d1 n1 = true
    /\ array_locs (heap m) d1 = L1 ->
  is_Some (read_array (heap m) d2) /\ array_shape (heap m) d2 n2 = true
    /\ array_locs (heap m) d2 = L2 ->
  is_Some (read_array (heap m) d3) /\ array_shape (heap m) d3 n3 = true
    /\ array_locs (heap m) d3 = L3 ->
  is_Some (read_array (heap m) d4) /\ array_shape (heap m) d4 n4 = true
    /\ array_locs (heap m) d4 = L4 ->
  is_Some (read_array (heap m) d5) /\ array_shape (heap m) d5 n5 = true
    /\ array_locs (heap m) d5 = L5 ->
  NoDup ((((L1 ++ L2) ++ L3) ++ L4) ++ L5) ->
  (forall l, l ∈ (((L1 ++ L2) ++ L3) ++ L4) ++ L5 ->
             h0 !! l = None /\ l <> q /\ is_Some (heap m !! l)) ->
  (forall l, l <> q -> l ∉ (((L1 ++ L2) ++ L3) ++ L4) ++ L5 -> heap m !! l = h0 !! l) ->
  exists m',
    free_runtime_spec_schema_features_linux_seccomp (Some q) m = Some m'
    /\ heap m' = h0.
Proof.
  intros Hq HQ ([x1 R1] & S1 & A1) ([x2 R2] & S2 & A2) ([x3 R3] & S3 & A3)
    ([x4 R4] & S4 & A4) ([x5 R5] & S5 & A5) Hnd HI HF.
  assert (Hread : is_Some (read_seccomp (heap m) q)).
  { unfold read_seccomp. rewrite HQ.
    cbn [Seccomp.actions Seccomp.operators Seccomp.archs Seccomp.known_flags
         Seccomp.supported_flags Seccomp._residual].
    rewrite R1, R2, R3, R4, R5. cbn. eauto. }
  destruct Hread as [v Hread].
  assert (Hshape : seccomp_shape (heap m) q = true).
  { unfold seccomp_shape. rewrite HQ.
    cbn [Seccomp.actions Seccomp.operators Seccomp.archs Seccomp.known_flags
         Seccomp.supported_flags Seccomp.actions_len Seccomp.operators_len
         Seccomp.archs_len Seccomp.known_flags_len Seccomp.supported_flags_len].
    now rewrite S1, S2, S3, S4, S5. }
  assert (Hlocs : seccomp_locs (heap m) q = q :: L1 ++ L2 ++ L3 ++ L4 ++ L5).
  { unfold seccomp_locs. rewrite HQ.
    cbn [Seccomp.actions Seccomp.operators Seccomp.archs Seccomp.known_flags
         Seccomp.supported_flags Seccomp._residual].
    rewrite A1, A2, A3, A4, A5.
    change (option_list (@None loc)) with (@nil loc). now rewrite app_nil_r. }
  assert (Hsame : forall l, l ∈ L1 ++ L2 ++ L3 ++ L4 ++ L5
                            <-> l ∈ (((L1 ++ L2) ++ L3) ++ L4) ++ L5)
    by (intros l; rewrite !elem_of_app; tauto).
  rewrite (free_seccomp_spec q m v Hread Hshape).
  2:{ rewrite Hlocs. apply NoDup_cons. split.
      - intros Hin. apply Hsame in Hin. destruct (HI q Hin) as (_ & H & _). now apply H.
      - rewrite <- !app_assoc in Hnd. exact Hnd. }
  eexists. split; [reflexivity|]. cbn [heap with_heap]. rewrite Hlocs.
  apply map_eq. intros k. rewrite lookup_release.
  destruct (decide (k ∈ q :: L1 ++ L2 ++ L3 ++ L4 ++ L5)) as [Hk|Hk].
  - apply elem_of_cons in Hk as [->|Hk]; [now rewrite Hq|].
    apply Hsame in Hk. destruct (HI k Hk) as (H & _ & _). now rewrite H.
  - apply not_elem_of_cons in Hk as [Hkq Hk]. apply HF; [exact Hkq|].
    intros Hin. apply Hk, Hsame, Hin.
Qed.

End CloneMemberAny.

Section CloneSeccompAny.

Implicit Types (h : gmap loc block) (m : mem) (l p q a : loc) (ls F N L : list loc).

(** The record of the copy after a member has been cloned, in one form
    for the three ways the step can end. *)
Ltac canon Dn :=
  clear -Dn;
  cbn [get_ptr get_len set_ptr set_len actions_field operators_field archs_field
       known_flags_field supported_flags_field cloned_len] in *;
  repeat match goal with
         | |- context [match ?x with Some _ => _ | None => _ end] => destruct x
         end;
  try reflexivity; rewrite (Dn eq_refl); reflexivity.

Lemma clone_seccomp_any p m v :
  read_seccomp (heap m) p = Some v ->
  seccomp_shape (heap m) p = true ->
  clone_frame clone_runtime_spec_schema_features_linux_seccomp p m.
Proof.
  intros Hread Hshape.
  unfold clone_frame, clone_runtime_spec_schema_features_linux_seccomp.
  destruct (oracle_cases m) as [[rest Ho]|Ho].
  { rewrite (alloc_fails _ m rest Ho). eexists None, _. split; [reflexivity|].
    cbn [heap]. split; [split; [reflexivity|exact (false_in_head _ _ Ho)]|reflexivity]. }
  rewrite (alloc_succeeds _ m Ho).
  set (q := fresh (dom (heap m))).
  assert (Hq : heap m !! q = None) by apply fresh_unused.
  unfold read_seccomp in Hread. unfold seccomp_shape in Hshape.
  destruct (heap m !! p) as [[| | | |s| | |]|] eqn:Hp; try discriminate.
  assert (Hqp : q <> p) by (intros E; rewrite E in Hq; congruence).
  destruct (read_array (heap m) (Seccomp.actions s)) as [x1|] eqn:R1; [|discriminate].
  destruct (read_array (heap m) (Seccomp.operators s)) as [x2|] eqn:R2; [|discriminate].
  destruct (read_array (heap m) (Seccomp.archs s)) as [x3|] eqn:R3; [|discriminate].
  destruct (read_array (heap m) (Seccomp.known_flags s)) as [x4|] eqn:R4; [|discriminate].
  destruct (read_array (heap m) (Seccomp.supported_flags s)) as [x5|] eqn:R5;
    [|discriminate].
  clear Hread.
  apply andb_prop in Hshape as [Hshape S5].
  apply andb_prop in Hshape as [Hshape S4].
  apply andb_prop in Hshape as [Hshape S3].
  apply andb_prop in Hshape as [S1 S2].
  unfold load_seccomp at 1. cbn [heap].
  rewrite lookup_insert_ne by exact Hqp. rewrite Hp. cbn [mbind option_bind].
  rewrite (update_seccomp_allocated q _ seccomp_zero)
    by (cbn [heap]; apply lookup_insert_eq).
  cbn [mbind option_bind heap]. rewrite insert_insert_eq.
  set (e := Seccomp.enabled s). set (ep := Seccomp.enabled_present s).
  set (m1 := with_heap (<[q := Bseccomp (seccomp_set_enabled e ep seccomp_zero)]> (heap m)) _).
  assert (Q0 : heap m1 !! q = Some (Bseccomp (Seccomp.Build_runtime_spec_schema_features_linux_seccomp loc loc e None O None O None O None O None O None ep)))
    by apply lookup_insert_eq.
  assert (I0 : forall l, l ∈ [] -> heap m !! l = None /\ l <> q /\ is_Some (heap m1 !! l))
    by (intros l []%elem_of_nil).
  assert (F0 : forall l, l <> q -> l ∉ [] -> heap m1 !! l = heap m !! l)
    by (intros l Hl _; cbn [heap m1 with_heap]; now apply lookup_insert_ne).
  assert (W1 : false ∈ oracle m1 -> false ∈ oracle m)
    by (cbn [m1 with_heap oracle]; apply false_in_tail).
  (* what a failed step comes to *)
  assert (Hfail : forall mk d1 d2 d3 d4 d5 n1 n2 n3 n4 n5 L1 L2 L3 L4 L5,
             heap mk !! q
             = Some (Bseccomp
                       (Seccomp.Build_runtime_spec_schema_features_linux_seccomp loc loc
                          e d1 n1 d2 n2 d3 n3 d4 n4 d5 n5 None ep)) ->
             is_Some (read_array (heap mk) d1) /\ array_shape (heap mk) d1 n1 = true
               /\ array_locs (heap mk) d1 = L1 ->
             is_Some (read_array (heap mk) d2) /\ array_shape (heap mk) d2 n2 = true
               /\ array_locs (heap mk) d2 = L2 ->
             is_Some (read_array (heap mk) d3) /\ array_shape (heap mk) d3 n3 = true
               /\ array_locs (heap mk) d3 = L3 ->
             is_Some (read_array (heap mk) d4) /\ array_shape (heap mk) d4 n4 = true
               /\ array_locs (heap mk) d4 = L4 ->
             is_Some (read_array (heap mk) d5) /\ array_shape (heap mk) d5 n5 = true
               /\ array_locs (heap mk) d5 = L5 ->
             NoDup ((((L1 ++ L2) ++ L3) ++ L4) ++ L5) ->
             (forall l, l ∈ (((L1 ++ L2) ++ L3) ++ L4) ++ L5 ->
                        heap m !! l = None /\ l <> q /\ is_Some (heap mk !! l)) ->
             (forall l, l <> q -> l ∉ (((L1 ++ L2) ++ L3) ++ L4) ++ L5 ->
                        heap mk !! l = heap m !! l) ->
             false ∈ oracle m ->
             exists r m',
               (m0 ← free_runtime_spec_schema_features_linux_seccomp (Some q) mk;
                Some (None, m0)) = Some (r, m')
               /\ match r with
                  | None => heap m' = heap m /\ false ∈ oracle m
                  | Some q' => heap m !! q' = None /\ heap m ⊆ heap m'
                  end
               /\ (head (oracle m) = Some false -> r = None)).
  { intros mk d1 d2 d3 d4 d5 n1 n2 n3 n4 n5 L1 L2 L3 L4 L5 HQ B1 B2 B3 B4 B5 Hnd HI HF Hw.
    destruct (seccomp_copy_released (heap m) q mk e ep d1 d2 d3 d4 d5 n1 n2 n3 n4 n5
                L1 L2 L3 L4 L5 Hq HQ B1 B2 B3 B4 B5 Hnd HI HF) as (m' & Hf & Hh).
    rewrite Hf. cbn [mbind option_bind]. exists None, m'.
    split; [reflexivity|]. split; [split; [exact Hh|exact Hw]|reflexivity]. }
  (* actions *)
  destruct (clone_member_any actions_field p q (heap m) m1 s _ x1 _
              Hp Hq R1 S1 Q0 (NoDup_nil_2 (A := loc)) I0 F0)
    as (ok1 & m2 & d1 & L1 & C1 & E1 & O1 & Q1 & Dn1 & A1 & N1 & I1 & F1 & K1).
  unfold or_return_null at 1. rewrite C1. cbn [mbind option_bind].
  assert (Q1' : heap m2 !! q = Some (Bseccomp (Seccomp.Build_runtime_spec_schema_features_linux_seccomp loc loc e d1 (cloned_len (Seccomp.actions s) (Seccomp.actions_len s)) None O None O None O None O None ep)))
    by (rewrite Q1; do 2 f_equal; canon Dn1).
  assert (W2 : false ∈ oracle m2 -> false ∈ oracle m) by (intros H; exact (W1 (O1 H))).
  destruct ok1.
  2:{ apply (Hfail m2 d1 None None None None _ _ _ _ _ _ _ _ _ _ Q1' A1 (no_array _ _) (no_array _ _) (no_array _ _) (no_array _ _));
        rewrite ?app_nil_r; auto. }
  (* operators *)
  destruct (clone_member_any operators_field p q (heap m) m2 s _ x2 _
              Hp Hq R2 S2 Q1' N1 I1 F1)
    as (ok2 & m3 & d2 & L2 & C2 & E2 & O2 & Q2 & Dn2 & A2 & N2 & I2 & F2 & K2).
  unfold or_return_null at 1. rewrite C2. cbn [mbind option_bind].
  assert (Q2' : heap m3 !! q = Some (Bseccomp (Seccomp.Build_runtime_spec_schema_features_linux_seccomp loc loc e d1 (cloned_len (Seccomp.actions s) (Seccomp.actions_len s)) d2 (cloned_len (Seccomp.operators s) (Seccomp.operators_len s)) None O None O None O None ep)))
    by (rewrite Q2; do 2 f_equal; canon Dn2).
  assert (W3 : false ∈ oracle m3 -> false ∈ oracle m) by (intros H; exact (W2 (O2 H))).
  apply (array_carried_some _ (heap m3) _ _ _ ([] ++ L1)) in A1;
    [|intros l Hl; rewrite !elem_of_app; tauto|exact K2].
  destruct ok2.
  2:{ apply (Hfail m3 d1 d2 None None None _ _ _ _ _ _ _ _ _ _ Q2' A1 A2 (no_array _ _) (no_array _ _) (no_array _ _));
        rewrite ?app_nil_r; auto. }
  (* archs *)
  destruct (clone_member_any archs_field p q (heap m) m3 s _ x3 _
              Hp Hq R3 S3 Q2' N2 I2 F2)
    as (ok3 & m4 & d3 & L3 & C3 & E3 & O3 & Q3 & Dn3 & A3 & N3 & I3 & F3 & K3).
  unfold or_return_null at 1. rewrite C3. cbn [mbind option_bind].
  assert (Q3' : heap m4 !! q = Some (Bseccomp (Seccomp.Build_runtime_spec_schema_features_linux_seccomp loc loc e d1 (cloned_len (Seccomp.actions s) (Seccomp.actions_len s)) d2 (cloned_len (Seccomp.operators s) (Seccomp.operators_len s)) d3 (cloned_len (Seccomp.archs s) (Seccomp.archs_len s)) None O None O None ep)))
    by (rewrite Q3; do 2 f_equal; canon Dn3).
  assert (W4 : false ∈ oracle m4 -> false ∈ oracle m) by (intros H; exact (W3 (O3 H))).
  apply (array_carried_some _ (heap m4) _ _ _ (([] ++ L1) ++ L2)) in A1;
    [|intros l Hl; rewrite !elem_of_app; tauto|exact K3].
  apply (array_carried_some _ (heap m4) _ _ _ (([] ++ L1) ++ L2)) in A2;
    [|intros l Hl; rewrite !elem_of_app; tauto|exact K3].
  destruct ok3.
  2:{ apply (Hfail m4 d1 d2 d3 None None _ _ _ _ _ _ _ _ _ _ Q3' A1 A2 A3 (no_array _ _) (no_array _ _));
        rewrite ?app_nil_r; auto. }
  (* known_flags *)
  destruct (clone_member_any known_flags_field p q (heap m) m4 s _ x4 _
              Hp Hq R4 S4 Q3' N3 I3 F3)
    as (ok4 & m5 & d4 & L4 & C4 & E4 & O4 & Q4 & Dn4 & A4 & N4 & I4 & F4 & K4).
  unfold or_return_null at 1. rewrite C4. cbn [mbind option_bind].
  assert (Q4' : heap m5 !! q = Some (Bseccomp (Seccomp.Build_runtime_spec_schema_features_linux_seccomp loc loc e d1 (cloned_len (Seccomp.actions s) (Seccomp.actions_len s)) d2 (cloned_len (Seccomp.operators s) (Seccomp.operators_len s)) d3 (cloned_len (Seccomp.archs s) (Seccomp.archs_len s)) d4 (cloned_len (Seccomp.known_flags s) (Seccomp.known_flags_len s)) None O None ep)))
    by (rewrite Q4; do 2 f_equal; canon Dn4).
  assert (W5 : false ∈ oracle m5 -> false ∈ oracle m) by (intros H; exact (W4 (O4 H))).
  apply (array_carried_some _ (heap m5) _ _ _ ((([] ++ L1) ++ L2) ++ L3)) in A1;
    [|intros l Hl; rewrite !elem_of_app; tauto|exact K4].
  apply (array_carried_some _ (heap m5) _ _ _ ((([] ++ L1) ++ L2) ++ L3)) in A2;
    [|intros l Hl; rewrite !elem_of_app; tauto|exact K4].
  apply (array_carried_some _ (heap m5) _ _ _ ((([] ++ L1) ++ L2) ++ L3)) in A3;
    [|intros l Hl; rewrite !elem_of_app; tauto|exact K4].
  destruct ok4.
  2:{ apply (Hfail m5 d1 d2 d3 d4 None _ _ _ _ _ _ _ _ _ _ Q4' A1 A2 A3 A4 (no_array _ _));
        rewrite ?app_nil_r; auto. }
  (* supported_flags *)
  destruct (clone_member_any supported_flags_field p q (heap m) m5 s _ x5 _
              Hp Hq R5 S5 Q4' N4 I4 F4)
    as (ok5 & m6 & d5 & L5 & C5 & E5 & O5 & Q5 & Dn5 & A5 & N5 & I5 & F5 & K5).
  unfold or_return_null at 1. rewrite C5. cbn [mbind option_bind].
  assert (Q5' : heap m6 !! q = Some (Bseccomp (Seccomp.Build_runtime_spec_schema_features_linux_seccomp loc loc e d1 (cloned_len (Seccomp.actions s) (Seccomp.actions_len s)) d2 (cloned_len (Seccomp.operators s) (Seccomp.operators_len s)) d3 (cloned_len (Seccomp.archs s) (Seccomp.archs_len s)) d4 (cloned_len (Seccomp.known_flags s) (Seccomp.known_flags_len s)) d5 (cloned_len (Seccomp.supported_flags s) (Seccomp.supported_flags_len s)) None ep)))
    by (rewrite Q5; do 2 f_equal; canon Dn5).
  assert (W6 : false ∈ oracle m6 -> false ∈ oracle m) by (intros H; exact (W5 (O5 H))).
  apply (array_carried_some _ (heap m6) _ _ _ (((([] ++ L1) ++ L2) ++ L3) ++ L4)) in A1;
    [|intros l Hl; rewrite !elem_of_app; tauto|exact K5].
  apply (array_carried_some _ (heap m6) _ _ _ (((([] ++ L1) ++ L2) ++ L3) ++ L4)) in A2;
    [|intros l Hl; rewrite !elem_of_app; tauto|exact K5].
  apply (array_carried_some _ (heap m6) _ _ _ (((([] ++ L1) ++ L2) ++ L3) ++ L4)) in A3;
    [|intros l Hl; rewrite !elem_of_app; tauto|exact K5].
  apply (array_carried_some _ (heap m6) _ _ _ (((([] ++ L1) ++ L2) ++ L3) ++ L4)) in A4;
    [|intros l Hl; rewrite !elem_of_app; tauto|exact K5].
  destruct ok5.
  2:{ apply (Hfail m6 d1 d2 d3 d4 d5 _ _ _ _ _ _ _ _ _ _ Q5' A1 A2 A3 A4 A5);
        rewrite ?app_nil_r; auto. }
  (* every allocation succeeded *)
  exists (Some q), m6. split; [reflexivity|].
  split; [split; [exact Hq|]|intros H; contradiction].
  apply map_subseteq_spec. intros l b Hl.
  rewrite F5; [exact Hl| |].
  - intros ->. congruence.
  - intros Hin. destruct (I5 l Hin) as (H0 & _). congruence.
Qed.

End CloneSeccompAny.

(* ===================================================================== *)
(** ** Cloning: how the allocator is used *)
(* ===================================================================== *)

Section OracleTraceFacts.

Implicit Types (h : gmap loc block) (m : mem) (l p q : loc) (o : list bool).

Lemma allocations_none o : allocations o o false.
Proof. now exists O. Qed.

Lemma allocations_then o o1 o2 (b : bool) :
  allocations o o1 false -> allocations o1 o2 b -> allocations o o2 b.
Proof.
  intros [n ->] [k ->]. exists (n + k)%nat.
  now rewrite replicate_add, <- app_assoc.
Qed.

Lemma heap_with_oracle o m : heap (with_oracle o m) = heap m.
Proof. reflexivity. Qed.

Lemma alloc_some b m l m' :
  alloc b m = (Some l, m') ->
  allocations (oracle m) (oracle m') false
  /\ alloc b (with_oracle [] m) = (Some l, with_oracle [] m').
Proof.
  unfold alloc, with_oracle. destruct (oracle m) as [|[] rest]; cbn; intros [= <- <-]; cbn.
  - split; [now exists O|reflexivity].
  - split; [now exists 1%nat|reflexivity].
Qed.

Lemma alloc_none b m m' :
  alloc b m = (None, m') ->
  allocations (oracle m) (oracle m') true /\ heap m' = heap m.
Proof.
  unfold alloc. destruct (oracle m) as [|[] rest]; cbn; intros [= <-]; cbn.
  split; [now exists O|reflexivity].
Qed.

Lemma quiet_store l b : quiet (store l b).
Proof.
  intros m m'. unfold store, with_oracle. cbn [heap].
  destruct (heap m !! l); [|discriminate]. intros [= <-]. split; reflexivity.
Qed.

Lemma quiet_free l : quiet (free l).
Proof.
  intros m m'. unfold free, with_oracle. cbn [heap].
  destruct (heap m !! l); [|discriminate]. intros [= <-]. split; reflexivity.
Qed.

Lemma quiet_id : quiet Some.
Proof. intros m m' [= <-]. split; reflexivity. Qed.

Lemma quiet_bind (f g : mem -> option mem) :
  quiet f -> quiet g -> quiet (fun m => m1 ← f m; g m1).
Proof.
  intros Hf Hg m m' H.
  destruct (f m) as [m1|] eqn:E; [|discriminate]. cbn in H.
  destruct (Hf m m1 E) as [O1 S1]. destruct (Hg m1 m' H) as [O2 S2].
  split; [congruence|]. rewrite S1. cbn. exact S2.
Qed.

Lemma quiet_yajl_tree_free v : quiet (yajl_tree_free v).
Proof.
  intros m m'. unfold yajl_tree_free. destruct v as [t|]; [|apply quiet_id].
  intros H. rewrite heap_with_oracle.
  destruct (heap m !! t) as [[]|]; try discriminate. now apply quiet_free.
Qed.

Lemma quiet_free_chars v : quiet (free_chars v).
Proof. destruct v as [l|]; [apply quiet_free|apply quiet_id]. Qed.

Lemma quiet_update_seccomp p f : quiet (update_seccomp p f).
Proof.
  intros m m'. unfold update_seccomp, load_seccomp. rewrite heap_with_oracle.
  destruct (heap m !! p) as [[]|]; try discriminate. cbn. intros H.
  exact (quiet_store _ _ _ _ H).
Qed.

Lemma quiet_free_cgroup ptr : quiet (free_runtime_spec_schema_features_linux_cgroup ptr).
Proof.
  destruct ptr as [p|]; [|apply quiet_id]. intros m m'.
  unfold free_runtime_spec_schema_features_linux_cgroup. rewrite heap_with_oracle. destruct (heap m !! p) as [[]|]; try discriminate.
  apply (quiet_bind _ _ (quiet_yajl_tree_free _)).
  apply (quiet_bind _ _ (quiet_store _ _)). apply quiet_free.
Qed.

Lemma quiet_free_idmap ptr :
  quiet (free_runtime_spec_schema_features_linux_mount_extensions_idmap ptr).
Proof.
  destruct ptr as [p|]; [|apply quiet_id]. intros m m'.
  unfold free_runtime_spec_schema_features_linux_mount_extensions_idmap.
  rewrite heap_with_oracle.
  destruct (heap m !! p) as [[]|]; try discriminate.
  apply (quiet_bind _ _ (quiet_yajl_tree_free _)).
  apply (quiet_bind _ _ (quiet_store _ _)). apply quiet_free.
Qed.

Lemma quiet_free_mount_extensions ptr :
  quiet (free_runtime_spec_schema_features_linux_mount_extensions ptr).
Proof.
  destruct ptr as [p|]; [|apply quiet_id]. intros m m'.
  unfold free_runtime_spec_schema_features_linux_mount_extensions.
  rewrite heap_with_oracle.
  destruct (heap m !! p) as [[| | | | | | |r]|]; try discriminate.
  assert (Hrest : quiet (fun m =>
            m ← yajl_tree_free (MountExtensions._residual r) m;
            m ← store p (Bmount_extensions mount_extensions_zero) m;
            free p m)).
  { apply (quiet_bind _ _ (quiet_yajl_tree_free _)).
    apply (quiet_bind _ _ (quiet_store _ _)). apply quiet_free. }
  destruct (MountExtensions.idmap r) as [i|]; [|exact (Hrest m m')].
  refine (quiet_bind
            (fun m =>
               m ← free_runtime_spec_schema_features_linux_mount_extensions_idmap
                     (Some i) m;
               store p (Bmount_extensions
                          {| MountExtensions.idmap := None;
                             MountExtensions._residual :=
                               MountExtensions._residual r |}) m)
            _ _ Hrest m m').
  apply (quiet_bind _ _ (quiet_free_idmap _)). apply quiet_store.
Qed.

Lemma quiet_free_zos ptr :
  quiet (free_runtime_spec_schema_defs_zos_namespace_reference ptr).
Proof.
  destruct ptr as [p|]; [|apply quiet_id]. intros m m'.
  unfold free_runtime_spec_schema_defs_zos_namespace_reference, load_zos.
  rewrite heap_with_oracle.
  destruct (heap m !! p) as [[| | | | |r| |]|]; try discriminate.
  cbn [mbind option_bind].
  apply (quiet_bind _ _ (quiet_free_chars _)).
  apply (quiet_bind _ _ (quiet_store _ _)).
  apply (quiet_bind _ _ (quiet_free_chars _)).
  apply (quiet_bind _ _ (quiet_store _ _)).
  apply (quiet_bind _ _ (quiet_yajl_tree_free _)).
  apply (quiet_bind _ _ (quiet_store _ _)). apply quiet_free.
Qed.

Lemma quiet_free_cells a n : forall i, quiet (free_cells a i n).
Proof.
  induction n as [|n IH]; intros i; [apply quiet_id|].
  intros m m'. cbn [free_cells]. rewrite heap_with_oracle.
  destruct (heap m !! a) as [[|cs| | | | | |]|]; try discriminate.
  destruct (cs !! i) as [[s|]|]; try discriminate; [|apply IH].
  apply (quiet_bind _ _ (quiet_free _)).
  apply (quiet_bind _ _ (quiet_store _ _)). apply IH.
Qed.

Lemma quiet_free_array_field fld p : quiet (free_array_field fld p).
Proof.
  intros m m'. unfold free_array_field, load_seccomp. rewrite heap_with_oracle. destruct (heap m !! p) as [[| | | |r| | |]|]; try discriminate.
  cbn [mbind option_bind].
  destruct (get_ptr fld r) as [a|]; [|apply quiet_id].
  apply (quiet_bind _ _ (quiet_free_cells _ _ _)).
  apply (quiet_bind _ _ (quiet_free _)). apply quiet_update_seccomp.
Qed.

Lemma quiet_free_seccomp ptr :
  quiet (free_runtime_spec_schema_features_linux_seccomp ptr).
Proof.
  destruct ptr as [p|]; [|apply quiet_id].
  unfold free_runtime_spec_schema_features_linux_seccomp.
  do 5 apply (quiet_bind _ _ (quiet_free_array_field _ _)).
  intros m m'. unfold load_seccomp. rewrite heap_with_oracle.
  destruct (heap m !! p) as [[| | | |r| | |]|]; try discriminate.
  cbn [mbind option_bind].
  apply (quiet_bind _ _ (quiet_yajl_tree_free _)).
  apply (quiet_bind _ _ (quiet_update_seccomp _ _)). apply quiet_free.
Qed.

End OracleTraceFacts.

Section TracedSteps.

Implicit Types (h : gmap loc block) (m : mem) (l p q : loc) (o : list bool).

Lemma traced_ret {A : Type} (failed : A -> bool) (a : A) :
  failed a = false -> traced failed (fun m => Some (a, m)).
Proof.
  intros Ha m a' m' [= <- <-]. split; [rewrite Ha; apply allocations_none|reflexivity].
Qed.

Lemma traced_alloc_then {A : Type} (failed : A -> bool) (b : block) (none_res : A)
    (k : loc -> mem -> option (A * mem)) :
  failed none_res = true ->
  (forall l, traced failed (k l)) ->
  traced failed (fun m => match alloc b m with
                          | (None, m) => Some (none_res, m)
                          | (Some ret, m) => k ret m
                          end).
Proof.
  intros Hnone Hk m a m' H.
  destruct (alloc b m) as [[l|] m1] eqn:E.
  - destruct (alloc_some _ _ _ _ E) as [T S].
    destruct (Hk l m1 a m' H) as [T2 S2].
    split; [exact (allocations_then _ _ _ _ T T2)|].
    intros Hf. rewrite S. exact (S2 Hf).
  - injection H as <- <-. destruct (alloc_none _ _ _ E) as [T _].
    rewrite Hnone. split; [exact T|discriminate].
Qed.

Lemma traced_quiet_then {A : Type} (failed : A -> bool) (f : mem -> option mem)
    (k : mem -> option (A * mem)) :
  quiet f -> traced failed k -> traced failed (fun m => m1 ← f m; k m1).
Proof.
  intros Hf Hk m a m' H.
  destruct (f m) as [m1|] eqn:E; [|discriminate]. cbn in H.
  destruct (Hf m m1 E) as [O1 S1]. destruct (Hk m1 a m' H) as [T2 S2].
  rewrite <- O1. split; [exact T2|]. intros Ha. rewrite S1. cbn. exact (S2 Ha).
Qed.

(** A step followed by what its result calls for: the rest of the work
    when it did not fail, a cleanup that allocates nothing when it did. *)
Lemma traced_bind {A B : Type} (fa : A -> bool) (fb : B -> bool)
    (step : mem -> option (A * mem)) (k : A -> mem -> option (B * mem)) :
  traced fa step ->
  (forall a, fa a = false -> traced fb (k a)) ->
  (forall a m r m', fa a = true -> k a m = Some (r, m') ->
                    fb r = true /\ oracle m' = oracle m) ->
  traced fb (fun m => '(a, m1) ← step m; k a m1).
Proof.
  intros Hs Hk Hc m r m' H.
  destruct (step m) as [[a m1]|] eqn:E; [|discriminate]. cbn in H.
  destruct (Hs m a m1 E) as [T1 S1].
  destruct (fa a) eqn:Fa.
  - destruct (Hc a m1 r m' Fa H) as [Fr Ho]. rewrite Fr, Ho.
    split; [exact T1|discriminate].
  - destruct (Hk a Fa m1 r m' H) as [T2 S2].
    split; [exact (allocations_then _ _ _ _ T1 T2)|].
    intros Hr. rewrite (S1 eq_refl). cbn. exact (S2 Hr).
Qed.

(** The cleanup of a copy under construction, then [return NULL]. *)
Lemma cleanup_fails (f : mem -> option mem) m (r : option loc) m' :
  quiet f ->
  (m1 ← f m; Some (@None loc, m1)) = Some (r, m') ->
  is_null r = true /\ oracle m' = oracle m.
Proof.
  intros Hf H. destruct (f m) as [m1|] eqn:E; [|discriminate].
  cbn in H. injection H as <- <-. destruct (Hf m m1 E) as [O1 _]. auto.
Qed.

Lemma traced_strdup p : traced is_null (strdup p).
Proof.
  intros m a m'. unfold strdup. rewrite heap_with_oracle.
  destruct (heap m !! p) as [[s| | | | | | |]|]; try discriminate.
  intros [= H]. destruct a as [l|]; cbn [is_null].
  - destruct (alloc_some _ _ _ _ H) as [T S]. split; [exact T|]. intros _. now rewrite S.
  - destruct (alloc_none _ _ _ H) as [T _]. split; [exact T|discriminate].
Qed.

Lemma traced_clone_cgroup p :
  traced is_null (clone_runtime_spec_schema_features_linux_cgroup p).
Proof.
  unfold clone_runtime_spec_schema_features_linux_cgroup.
  apply traced_alloc_then; [reflexivity|]. intros l m a m'.
  rewrite heap_with_oracle.
  destruct (heap m !! p) as [[| | |s| | | |]|]; try discriminate.
  apply (traced_quiet_then is_null _ (fun m => Some (Some l, m)) (quiet_store _ _)).
  now apply traced_ret.
Qed.

Lemma traced_clone_idmap p :
  traced is_null (clone_runtime_spec_schema_features_linux_mount_extensions_idmap p).
Proof.
  unfold clone_runtime_spec_schema_features_linux_mount_extensions_idmap.
  apply traced_alloc_then; [reflexivity|]. intros l m a m'.
  rewrite heap_with_oracle.
  destruct (heap m !! p) as [[| | | | | |s|]|]; try discriminate.
  apply (traced_quiet_then is_null _ (fun m => Some (Some l, m)) (quiet_store _ _)).
  now apply traced_ret.
Qed.

Lemma traced_clone_mount_extensions p :
  traced is_null (clone_runtime_spec_schema_features_linux_mount_extensions p).
Proof.
  unfold clone_runtime_spec_schema_features_linux_mount_extensions.
  apply traced_alloc_then; [reflexivity|]. intros l m a m'.
  rewrite heap_with_oracle.
  destruct (heap m !! p) as [[| | | | | | |s]|]; try discriminate.
  destruct (MountExtensions.idmap s) as [i|]; [|now apply traced_ret].
  refine (traced_bind is_null is_null
            (clone_runtime_spec_schema_features_linux_mount_extensions_idmap i)
            (fun c m =>
               match c with
               | Some ci =>
                   m ← store l (Bmount_extensions
                                  {| MountExtensions.idmap := Some ci;
                                     MountExtensions._residual := None |}) m;
                   Some (Some l, m)
               | None =>
                   m ← free_runtime_spec_schema_features_linux_mount_extensions
                         (Some l) m;
                   Some (None, m)
               end) (traced_clone_idmap i) _ _ m a m').
  - intros [ci|] Hc; [|discriminate].
    apply (traced_quiet_then is_null _ (fun m => Some (Some l, m)) (quiet_store _ _)).
    now apply traced_ret.
  - intros [ci|] m0 r m0' Hc; [discriminate|].
    apply cleanup_fails, quiet_free_mount_extensions.
Qed.

Lemma traced_clone_zos p :
  traced is_null (clone_runtime_spec_schema_defs_zos_namespace_reference p).
Proof.
  unfold clone_runtime_spec_schema_defs_zos_namespace_reference.
  apply traced_alloc_then; [reflexivity|]. intros l m a m'.
  unfold load_zos. rewrite heap_with_oracle.
  destruct (heap m !! p) as [[| | | | |s| |]|]; try discriminate.
  cbn [mbind option_bind].
  assert (Hsecond : forall ty,
             traced is_null
               (fun m =>
                  match ZosNs.path s with
                  | Some p0 =>
                      '(c, m) ← strdup p0 m;
                      match c with
                      | Some cp =>
                          m ← store l (Bzos {| ZosNs.type := ty; ZosNs.path := Some cp;
                                               ZosNs._residual := None |}) m;
                          Some (Some l, m)
                      | None =>
                          m ← free_runtime_spec_schema_defs_zos_namespace_reference
                                (Some l) m;
                          Some (None, m)
                      end
                  | None => Some (Some l, m)
                  end)).
  { intros ty. destruct (ZosNs.path s) as [p0|]; [|now apply traced_ret].
    apply (traced_bind is_null is_null (strdup p0) _ (traced_strdup p0)).
    - intros [cp|] Hc; [|discriminate].
      apply (traced_quiet_then is_null _ (fun m => Some (Some l, m)) (quiet_store _ _)).
      now apply traced_ret.
    - intros [cp|] m0 r m0' Hc; [discriminate|].
      apply cleanup_fails, quiet_free_zos. }
  destruct (ZosNs.type s) as [t|]; [|exact (Hsecond None m a m')].
  refine (traced_bind is_null is_null (strdup t)
            (fun c m =>
               match c with
               | Some ct =>
                   m ← store l (Bzos {| ZosNs.type := Some ct; ZosNs.path := None;
                                        ZosNs._residual := None |}) m;
                   _
               | None =>
                   m ← free_runtime_spec_schema_defs_zos_namespace_reference (Some l) m;
                   Some (None, m)
               end) (traced_strdup t) _ _ m a m').
  - intros [ct|] Hc; [|discriminate].
    exact (traced_quiet_then is_null _ _ (quiet_store _ _) (Hsecond (Some ct))).
  - intros [ct|] m0 r m0' Hc; [discriminate|].
    apply cleanup_fails, quiet_free_zos.
Qed.

Lemma traced_clone_cells src dst n : forall i, traced negb (clone_cells src dst i n).
Proof.
  induction n as [|n IH]; intros i; [now apply traced_ret|].
  intros m a m'. cbn [clone_cells]. rewrite heap_with_oracle.
  destruct (heap m !! src) as [[|sc| | | | | |]|]; try discriminate.
  destruct (sc !! i) as [[s|]|]; try discriminate; [|apply IH].
  refine (traced_bind is_null negb (strdup s)
            (fun c m =>
               match c with
               | None => Some (false, m)
               | Some l =>
                   match heap m !! dst with
                   | Some (Bcells dc) =>
                       if decide (i < length dc)%nat then
                         m ← store dst (Bcells (<[i := Some l]> dc)) m;
                         clone_cells src dst (S i) n m
                       else None
                   | _ => None
                   end
               end) (traced_strdup s) _ _ m a m').
  - intros [l|] Hc; [|discriminate]. intros m0 a0 m0'. rewrite heap_with_oracle.
    destruct (heap m0 !! dst) as [[|dc| | | | | |]|]; try discriminate.
    destruct (decide (i < length dc)%nat); [|discriminate].
    exact (traced_quiet_then negb _ _ (quiet_store _ _) (IH (S i)) m0 a0 m0').
  - intros [l|] m0 r m0' Hc; [discriminate|]. intros [= <- <-]. auto.
Qed.

Lemma traced_clone_array_field fld src ret :
  traced negb (clone_array_field fld src ret).
Proof.
  intros m a m'. unfold clone_array_field, load_seccomp. rewrite heap_with_oracle.
  destruct (heap m !! src) as [[| | | |s| | |]|]; try discriminate.
  cbn [mbind option_bind].
  destruct (get_ptr fld s) as [a0|]; [|now apply traced_ret].
  refine (traced_quiet_then negb _
            (fun m => match alloc (Bcells (replicate (S (get_len fld s)) None)) m with
                      | (None, m) => Some (false, m)
                      | (Some d, m) =>
                          m ← update_seccomp ret (set_ptr fld (Some d)) m;
                          clone_cells a0 d 0 (get_len fld s) m
                      end)
            (quiet_update_seccomp _ _) _ m a m').
  apply traced_alloc_then; [reflexivity|]. intros d.
  exact (traced_quiet_then negb _ _ (quiet_update_seccomp _ _) (traced_clone_cells _ _ _ _)).
Qed.

Lemma traced_or_return_null step ret rest :
  traced negb step -> traced is_null rest ->
  traced is_null (or_return_null step ret rest).
Proof.
  intros Hs Hr. unfold or_return_null.
  apply (traced_bind negb is_null step
           (fun ok m =>
              if ok : bool then rest m
              else m ← free_runtime_spec_schema_features_linux_seccomp (Some ret) m;
                   Some (None, m)) Hs).
  - intros [|] Hc; [exact Hr|discriminate].
  - intros [|] m0 r m0' Hc; [discriminate|].
    apply cleanup_fails, quiet_free_seccomp.
Qed.

Lemma traced_clone_seccomp p :
  traced is_null (clone_runtime_spec_schema_features_linux_seccomp p).
Proof.
  unfold clone_runtime_spec_schema_features_linux_seccomp.
  apply traced_alloc_then; [reflexivity|]. intros l m a m'.
  unfold load_seccomp. rewrite heap_with_oracle.
  destruct (heap m !! p) as [[| | | |s| | |]|]; try discriminate.
  cbn [mbind option_bind].
  refine (traced_quiet_then is_null _ _ (quiet_update_seccomp _ _) _ m a m').
  repeat (apply traced_or_return_null; [apply traced_clone_array_field|]).
  now apply traced_ret.
Qed.

End TracedSteps.

Section CloneOutcomes.

Implicit Types (h : gmap loc block) (m : mem) (l p q : loc) (o : list bool).

(** From the three facts about a clone: it is defined and frames the store
    under any allocator; it uses the oracle as [traced] says; and under the
    allocator that never fails it makes the copy. *)
Lemma copy_or_nothing_intro {V : Type}
    (read : gmap loc block -> loc -> option V)
    (locs : gmap loc block -> loc -> list loc)
    (clone_record : loc -> mem -> option (option loc * mem))
    (copy_of : V -> V) p v m :
  clone_frame clone_record p m ->
  traced is_null (clone_record p) ->
  (exists q m',
      clone_record p (with_oracle [] m) = Some (Some q, m')
      /\ read (heap m') q = Some (copy_of v)
      /\ NoDup (locs (heap m') q)
      /\ release (locs (heap m') q) (heap m') = heap m) ->
  copy_or_nothing read locs clone_record copy_of p v m.
Proof.
  intros (r & m' & Hc & Hcase & Hfirst) Htr (q0 & m0 & Hc0 & Hr0 & Hnd0 & Hrel0).
  destruct (Htr m r m' Hc) as [T S].
  exists r, m'. split; [exact Hc|]. split; [|exact Hfirst].
  destruct r as [q|].
  - destruct Hcase as [Hq Hsub]. rewrite (S eq_refl) in Hc0.
    injection Hc0 as <- <-. cbn [with_oracle heap] in Hr0, Hnd0, Hrel0.
    repeat split; auto.
  - destruct Hcase as [Hh _]. split; [exact Hh|exact T].
Qed.

End CloneOutcomes.

Section CloneOutcomeRecords.

Implicit Types (m : mem) (p : loc).

Lemma clone_cgroup_outcome p m v :
  read_cgroup (heap m) p = Some v ->
  copy_or_nothing read_cgroup cgroup_locs
    clone_runtime_spec_schema_features_linux_cgroup (cgroup_with_residual None) p v m.
Proof.
  intros Hread. apply copy_or_nothing_intro.
  - exact (clone_cgroup_any p m v Hread).
  - apply traced_clone_cgroup.
  - destruct (clone_cgroup_spec p (with_oracle [] m) v eq_refl Hread)
      as (q & m' & Hc & _ & Hr & Hl & Hrel).
    exists q, m'. rewrite Hl. repeat split; auto. apply NoDup_singleton.
Qed.

Lemma clone_idmap_outcome p m v :
  read_idmap (heap m) p = Some v ->
  copy_or_nothing read_idmap idmap_locs
    clone_runtime_spec_schema_features_linux_mount_extensions_idmap idmap_cloned p v m.
Proof.
  intros Hread. apply copy_or_nothing_intro.
  - exact (clone_idmap_any p m v Hread).
  - apply traced_clone_idmap.
  - destruct (clone_idmap_spec p (with_oracle [] m) v eq_refl Hread)
      as (q & m' & Hc & _ & Hr & Hl & Hrel).
    exists q, m'. rewrite Hl. repeat split; auto. apply NoDup_singleton.
Qed.

Lemma clone_mount_extensions_outcome p m v :
  read_mount_extensions (heap m) p = Some v ->
  copy_or_nothing read_mount_extensions mount_extensions_locs
    clone_runtime_spec_schema_features_linux_mount_extensions
    mount_extensions_cloned p v m.
Proof.
  intros Hread. apply copy_or_nothing_intro.
  - exact (clone_mount_extensions_any p m v Hread).
  - apply traced_clone_mount_extensions.
  - destruct (clone_mount_extensions_spec p (with_oracle [] m) v eq_refl Hread)
      as (q & m' & Hc & _ & Hr & Hnd & Hrel).
    exists q, m'. repeat split; auto.
Qed.

Lemma clone_zos_outcome p m v :
  read_zos (heap m) p = Some v ->
  copy_or_nothing read_zos zos_locs
    clone_runtime_spec_schema_defs_zos_namespace_reference zos_cloned p v m.
Proof.
  intros Hread. apply copy_or_nothing_intro.
  - exact (clone_zos_any p m v Hread).
  - apply traced_clone_zos.
  - destruct (clone_zos_spec p (with_oracle [] m) v eq_refl Hread)
      as (q & m' & Hc & _ & Hr & Hnd & Hrel).
    exists q, m'. repeat split; auto.
Qed.

Lemma clone_seccomp_outcome p m v :
  read_seccomp (heap m) p = Some v ->
  seccomp_shape (heap m) p = true ->
  copy_or_nothing read_seccomp seccomp_locs
    clone_runtime_spec_schema_features_linux_seccomp seccomp_cloned p v m.
Proof.
  intros Hread Hshape. apply copy_or_nothing_intro.
  - exact (clone_seccomp_any p m v Hread Hshape).
  - apply traced_clone_seccomp.
  - destruct (clone_seccomp_spec p (with_oracle [] m) v eq_refl Hread Hshape)
      as (q & m' & Hc & _ & Hr & _ & Hnd & Hrel).
    exists q, m'. repeat split; auto.
Qed.

End CloneOutcomeRecords.

(** X14.  Cloning when an allocation fails.  Whatever allocations fail,
    [clone_*] of a well-formed cgroup, seccomp, idmap, mount_extensions or
    namespace-reference record is defined, and it ends in one of two ways.
    It returns NULL: then an allocation of this call did fail, after some
    number that succeeded (always the first, if that one fails), and the
    store holds exactly the blocks it held before the call: what had been
    copied so far, arrays and strings included, is released.  Or it
    returns a copy: then no allocation of the call failed; the copy holds
    the scalar members, strings, string arrays and nested record of the
    source and no residual tree; its address was not in use; every block
    the store held before the call is unchanged; and the blocks the copy
    owns are distinct and are exactly what the call added to the store. *)
Theorem clone_allocation_failure (m : mem) (p : loc) :
  (forall v, read_cgroup (heap m) p = Some v ->
     copy_or_nothing read_cgroup cgroup_locs
       clone_runtime_spec_schema_features_linux_cgroup
       (cgroup_with_residual None) p v m)
  /\ (forall v, read_seccomp (heap m) p = Some v ->
        seccomp_shape (heap m) p = true ->
        copy_or_nothing read_seccomp seccomp_locs
          clone_runtime_spec_schema_features_linux_seccomp seccomp_cloned p v m)
  /\ (forall v, read_idmap (heap m) p = Some v ->
        copy_or_nothing read_idmap idmap_locs
          clone_runtime_spec_schema_features_linux_mount_extensions_idmap
          idmap_cloned p v m)
  /\ (forall v, read_mount_extensions (heap m) p = Some v ->
        copy_or_nothing read_mount_extensions mount_extensions_locs
          clone_runtime_spec_schema_features_linux_mount_extensions
          mount_extensions_cloned p v m)
  /\ (forall v, read_zos (heap m) p = Some v ->
        copy_or_nothing read_zos zos_locs
          clone_runtime_spec_schema_defs_zos_namespace_reference zos_cloned p v m).
Proof.
  repeat split.
  - intros v Hread. exact (clone_cgroup_outcome p m v Hread).
  - intros v Hread Hshape. exact (clone_seccomp_outcome p m v Hread Hshape).
  - intros v Hread. exact (clone_idmap_outcome p m v Hread).
  - intros v Hread. exact (clone_mount_extensions_outcome p m v Hread).
  - intros v Hread. exact (clone_zos_outcome p m v Hread).
Qed.

Lemma clone_allocation_failure_witness :
  (exists v,
      copy_or_nothing read_seccomp seccomp_locs
        clone_runtime_spec_schema_features_linux_seccomp seccomp_cloned
        10%positive v (with_oracle [true; true; true; false] example_store))
  /\ fst <$> clone_runtime_spec_schema_features_linux_seccomp
               10%positive (with_oracle [true; true; true; false] example_store)
     = Some None
  /\ (exists v,
        copy_or_nothing read_seccomp seccomp_locs
          clone_runtime_spec_schema_features_linux_seccomp seccomp_cloned
          10%positive v (with_oracle [true; true] example_store))
  /\ is_null <$> (fst <$> clone_runtime_spec_schema_features_linux_seccomp
                            10%positive (with_oracle [true; true] example_store))
     = Some false.
Proof.
  split; [|split; [vm_compute; reflexivity|split; [|vm_compute; reflexivity]]].
  - destruct (clone_allocation_failure
                (with_oracle [true; true; true; false] example_store) 10%positive)
      as (_ & H & _).
    eexists. eapply H; vm_compute; reflexivity.
  - destruct (clone_allocation_failure
                (with_oracle [true; true] example_store) 10%positive)
      as (_ & H & _).
    eexists. eapply H; vm_compute; reflexivity.
Defined.

(* ===================================================================== *)
(** ** Encoding a record and decoding what was written *)
(* ===================================================================== *)

Section RecordDocument.

Implicit Types (slots rs : list slot) (ctx gctx dctx : parser_context) (k n : string).

Lemma reads_residual_slots (resi : option yajl_val) :
  residual_ok resi = true -> reads_as (residual_calls resi) (residual_slots resi).
Proof.
  destruct resi as [[]|]; cbn; try discriminate; try (intros _; apply reads_nil).
  intros H. now apply reads_members.
Qed.

Lemma reads_record_entry {S : Type} ctx name (field : option S)
    (calls_f : parser_context -> option S -> list gen_call)
    (entries_f : parser_context -> option S -> list slot) :
  reads_value (calls_f ctx field) (Yobject (entries_f ctx field)) ->
  reads_as (nested_calls ctx name field calls_f) (record_entry ctx name field entries_f).
Proof.
  intros H. unfold nested_calls, record_entry.
  destruct (opt ctx OPT_GEN_KEY_VALUE || non_null field); [|apply reads_nil].
  now apply reads_value_entry.
Qed.

Lemma cgroup_record_reads ctx (ptr : option cgroup) :
  cgroup_ok ptr = true ->
  reads_value (cgroup_calls ctx ptr) (Yobject (cgroup_entries ctx ptr)).
Proof.
  intros Hok. unfold cgroup_calls, cgroup_entries. apply reads_object.
  repeat (apply closes_app; [apply reads_bool|]).
  apply closes_last, reads_residual_slots.
  destruct ptr as [r|]; [|reflexivity].
  cbn [cgroup_ok] in Hok. apply andb_prop in Hok as [_ H]. exact H.
Qed.

Lemma seccomp_record_reads ctx (ptr : option Seccomp.seccomp) :
  seccomp_ok ptr = true ->
  reads_value (seccomp_calls ctx ptr) (Yobject (seccomp_entries ctx ptr)).
Proof.
  intros Hok. unfold seccomp_calls, seccomp_entries. apply reads_object.
  repeat (apply closes_app; [first [apply reads_bool | apply reads_strings]|]).
  apply closes_last, reads_residual_slots.
  destruct ptr as [r|]; [|reflexivity].
  cbn [seccomp_ok] in Hok. apply andb_prop in Hok as [_ H]. exact H.
Qed.

Lemma zos_record_reads ctx (ptr : option namespace_reference) :
  zos_ok ptr = true ->
  reads_value (zos_calls ctx ptr) (Yobject (zos_entries ctx ptr)).
Proof.
  intros Hok. unfold zos_calls, zos_entries. apply reads_object.
  repeat (apply closes_app; [apply reads_string|]).
  apply closes_last, reads_residual_slots.
  destruct ptr as [r|]; [|reflexivity]. exact Hok.
Qed.

Lemma enabled_record_reads {R : Type} (enabled enabled_present : R -> bool)
    (_residual : R -> option yajl_val) ctx (ptr : option R) :
  enabled_ok enabled enabled_present _residual ptr = true ->
  reads_value (enabled_calls enabled enabled_present _residual ctx ptr)
              (Yobject (enabled_entries enabled enabled_present _residual ctx ptr)).
Proof.
  intros Hok. unfold enabled_calls, enabled_entries. apply reads_object.
  apply closes_app; [apply reads_bool|].
  apply closes_last, reads_residual_slots.
  destruct ptr as [r|]; [|reflexivity].
  cbn [enabled_ok] in Hok. apply andb_prop in Hok as [_ H]. exact H.
Qed.

Lemma ok_bind {R S : Type} (ok : option S -> bool) (ptr : option R) (f : R -> option S) :
  ok None = true ->
  match ptr with Some r => ok (f r) = true | None => True end ->
  ok (ptr ≫= f) = true.
Proof. intros H0 H. now destruct ptr. Qed.

Lemma mount_extensions_record_reads ctx (ptr : option mount_extensions) :
  mount_extensions_ok ptr = true ->
  reads_value (mount_extensions_calls ctx ptr)
              (Yobject (mount_extensions_entries ctx ptr)).
Proof.
  intros Hok. unfold mount_extensions_calls, mount_extensions_entries.
  apply reads_object.
  apply closes_app.
  - apply reads_record_entry. apply (enabled_record_reads Idmap.enabled).
    apply (ok_bind idmap_ok); [reflexivity|].
    destruct ptr as [r|]; [|exact I].
    cbn [mount_extensions_ok] in Hok. apply andb_prop in Hok as [H _]. exact H.
  - apply closes_last, reads_residual_slots.
    destruct ptr as [r|]; [|reflexivity].
    cbn [mount_extensions_ok] in Hok. apply andb_prop in Hok as [_ H]. exact H.
Qed.

Lemma features_record_reads ctx
    (ptr : option FeaturesLinux.runtime_spec_schema_features_linux) :
  features_ok ptr = true ->
  reads_value (features_calls ctx ptr) (Yobject (features_entries ctx ptr)).
Proof.
  intros Hok.
  assert (H : match ptr with
              | Some r =>
                  cgroup_ok (FeaturesLinux.cgroup r) = true
                  /\ seccomp_ok (FeaturesLinux.seccomp r) = true
                  /\ apparmor_ok (FeaturesLinux.apparmor r) = true
                  /\ selinux_ok (FeaturesLinux.selinux r) = true
                  /\ intel_rdt_ok (FeaturesLinux.intel_rdt r) = true
                  /\ mount_extensions_ok (FeaturesLinux.mount_extensions r) = true
                  /\ net_devices_ok (FeaturesLinux.net_devices r) = true
                  /\ residual_ok (FeaturesLinux._residual r) = true
              | None => True
              end).
  { destruct ptr as [r|]; [|exact I]. cbn [features_ok] in Hok. split_andb.
    repeat split; assumption. }
  clear Hok. unfold features_calls, features_entries. apply reads_object.
  apply closes_app; [apply reads_strings|].
  apply closes_app; [apply reads_strings|].
  apply closes_app.
  { apply reads_record_entry, cgroup_record_reads.
    apply (ok_bind cgroup_ok); [reflexivity|]. destruct ptr; [apply H|exact I]. }
  apply closes_app.
  { apply reads_record_entry, seccomp_record_reads.
    apply (ok_bind seccomp_ok); [reflexivity|]. destruct ptr; [apply H|exact I]. }
  apply closes_app.
  { apply reads_record_entry. apply (enabled_record_reads Apparmor.enabled).
    apply (ok_bind apparmor_ok); [reflexivity|]. destruct ptr; [apply H|exact I]. }
  apply closes_app.
  { apply reads_record_entry. apply (enabled_record_reads Selinux.enabled).
    apply (ok_bind selinux_ok); [reflexivity|]. destruct ptr; [apply H|exact I]. }
  apply closes_app.
  { apply reads_record_entry. apply (enabled_record_reads IntelRdt.enabled).
    apply (ok_bind intel_rdt_ok); [reflexivity|]. destruct ptr; [apply H|exact I]. }
  apply closes_app.
  { apply reads_record_entry, mount_extensions_record_reads.
    apply (ok_bind mount_extensions_ok); [reflexivity|].
    destruct ptr; [apply H|exact I]. }
  apply closes_app.
  { apply reads_record_entry. apply (enabled_record_reads NetDevices.enabled).
    apply (ok_bind net_devices_ok); [reflexivity|]. destruct ptr; [apply H|exact I]. }
  apply closes_last, reads_residual_slots.
  destruct ptr; [apply H|reflexivity].
Qed.

End RecordDocument.

Section ExactFacts.

Implicit Types (slots rs rest : list slot) (ctx gctx dctx : parser_context) (k n : string).

Lemma residual_exact_ok unknown fullkey resi :
  residual_exact unknown fullkey resi = true -> residual_ok resi = true.
Proof.
  destruct resi as [[]|]; cbn; try discriminate; auto.
  intros H. apply andb_prop in H as [H _]. apply andb_prop in H as [_ H]. exact H.
Qed.

Lemma member_unknown unknown k rs :
  forallb (slot_unknown unknown) rs = true -> unknown k = false -> member k rs = None.
Proof.
  intros Hall Hk. induction rs as [|[[k'|] [v|]] rest IH]; [reflexivity|..];
    cbn [forallb member] in *; apply andb_prop in Hall as [Hs Hrest];
    try discriminate; auto.
  change (unknown k' = true) in Hs.
  destruct (String.eqb_spec k k') as [->|]; [congruence|auto].
Qed.

Lemma moved_all unknown rs :
  forallb (slot_unknown unknown) rs = true -> moved unknown rs = rs.
Proof.
  unfold moved. induction rs as [|s rest IH]; simpl; auto.
  intros H. apply andb_prop in H as [Hs Hrest]. rewrite Hs. f_equal. auto.
Qed.

Lemma member_residual_slots unknown fullkey resi k :
  residual_exact unknown fullkey resi = true -> unknown k = false ->
  member k (residual_slots resi) = None.
Proof.
  destruct resi as [[]|]; cbn; try discriminate; auto.
  intros H Hk. apply andb_prop in H as [_ H]. now apply (member_unknown unknown).
Qed.

Lemma residual_of_exact unknown fullkey resi out :
  residual_exact unknown fullkey resi = true ->
  moved unknown out = residual_slots resi ->
  residual_of unknown fullkey out = resi.
Proof.
  unfold residual_of. destruct resi as [[]|]; cbn; try discriminate.
  - intros H ->. apply andb_prop in H as [H _]. apply andb_prop in H as [-> _].
    reflexivity.
  - now destruct fullkey.
Qed.

Lemma moved_residual_slots unknown fullkey resi :
  residual_exact unknown fullkey resi = true ->
  moved unknown (residual_slots resi) = residual_slots resi.
Proof.
  destruct resi as [[]|]; cbn; try discriminate; auto.
  intros H. apply andb_prop in H as [_ H]. now apply moved_all.
Qed.

Lemma parsed_residual_slots resi :
  residual_ok resi = true -> parsed (Yobject (residual_slots resi)) = true.
Proof. destruct resi as [[]|]; cbn; try discriminate; auto. Qed.

Lemma tri_state_default {R : Type} (f fp : R -> bool) (r : R) :
  zero_when_absent f fp r = true ->
  default_bool (tri_state f fp r) = f r /\ non_null (tri_state f fp r) = fp r.
Proof.
  unfold zero_when_absent, tri_state. destruct (fp r), (f r); cbn; auto; discriminate.
Qed.

Lemma array_exact_ok cells len : array_exact cells len = true -> array_ok cells len = true.
Proof.
  destruct cells as [cs|]; [|reflexivity]. cbn [array_exact array_ok].
  intros H. apply andb_prop in H as [H1 H2].
  apply bool_decide_eq_true in H1. apply Nat.eqb_eq in H2.
  set (strs := omap id (take len cs)) in *.
  assert (Hlen : length strs = len).
  { rewrite H1, length_app, length_map in H2. simpl in H2. lia. }
  apply forallb_forall. intros i Hi. apply in_seq in Hi as [_ Hi].
  rewrite H1. rewrite lookup_app_l by (rewrite length_map; lia).
  rewrite list_lookup_fmap.
  destruct (strs !! i) as [s|] eqn:E; [reflexivity|].
  apply lookup_ge_None in E. lia.
Qed.

Lemma omap_map_some (strs : list string) : omap id (map Some strs) = strs.
Proof. induction strs as [|s rest IH]; [reflexivity|]. simpl. f_equal. exact IH. Qed.

(** What a decoder reads from the array written for an exact member. *)
Lemma array_exact_field cells len n slots :
  array_exact cells len = true ->
  member n slots
  = (fun strs => Yarray (map (fun s => Some (Ystring s)) strs)) <$> array_state cells len ->
  string_array_field n slots = (cells, len).
Proof.
  intros Hex Hm. unfold string_array_field. rewrite Hm.
  destruct cells as [cs|]; cbn [array_exact array_state fmap option_fmap option_map] in *.
  - apply andb_prop in Hex as [H1 H2].
    apply bool_decide_eq_true in H1. apply Nat.eqb_eq in H2.
    set (strs := omap id (take len cs)) in *.
    assert (Hlen : length strs = len).
    { rewrite H1, length_app, length_map in H2. simpl in H2. lia. }
    rewrite !length_map, Hlen. f_equal. f_equal.
    symmetry. etransitivity; [exact H1|]. f_equal.
    rewrite map_map. reflexivity.
  - apply Nat.eqb_eq in Hex. now subst.
Qed.

End ExactFacts.

(** The members of a document of a record, key by key. *)
Ltac members_of :=
  repeat first [ rewrite member_skip by reflexivity
               | rewrite member_hit
               | rewrite app_nil_r ].

Section DecodedEntries.

Implicit Types (slots rs rest : list slot) (ctx gctx dctx : parser_context) (k n : string).

Lemma cgroup_entries_fields gctx (o1 o2 o3 o4 o5 : option bool) rs :
  opt gctx OPT_GEN_KEY_VALUE = false ->
  (forall k, In k cgroup_keys -> member k rs = None) ->
  let E := bool_entry gctx "v1" o1 ++ bool_entry gctx "v2" o2
           ++ bool_entry gctx "systemd" o3 ++ bool_entry gctx "systemdUser" o4
           ++ bool_entry gctx "rdma" o5 ++ rs in
  bool_field "v1" E = o1 /\ bool_field "v2" E = o2 /\ bool_field "systemd" E = o3
  /\ bool_field "systemdUser" E = o4 /\ bool_field "rdma" E = o5.
Proof.
  intros Hkv Hrs E. unfold E, bool_field, bool_entry. rewrite Hkv. cbn [orb].
  members_of.
  rewrite !Hrs by (unfold cgroup_keys; cbn [In]; tauto).
  destruct o1 as [[]|], o2 as [[]|], o3 as [[]|], o4 as [[]|], o5 as [[]|];
    repeat split; reflexivity.
Qed.

Lemma cgroup_decoded_entries gctx fullkey (r : cgroup) :
  opt gctx OPT_GEN_KEY_VALUE = false ->
  cgroup_exact fullkey r = true ->
  decoded_cgroup (cgroup_entries gctx (Some r)) fullkey = r.
Proof.
  intros Hkv Hex. unfold cgroup_exact in Hex.
  cbn [forallb cgroup_bools fst snd] in Hex. split_andb.
  assert (Hrs : forall k, In k cgroup_keys ->
                          member k (residual_slots (Cgroup._residual r)) = None).
  { intros k Hk. apply (member_residual_slots Cgroup.unknown_key fullkey); [assumption|].
    unfold cgroup_keys in Hk. cbn [In] in Hk.
    destruct Hk as [<-|[<-|[<-|[<-|[<-|[]]]]]]; reflexivity. }
  assert (Hres : residual_of Cgroup.unknown_key fullkey (cgroup_entries gctx (Some r))
                 = Cgroup._residual r).
  { apply residual_of_exact; [assumption|].
    unfold cgroup_entries, bool_entry. rewrite !moved_skip by reflexivity.
    now apply (moved_residual_slots _ fullkey). }
  unfold residual_of, moved in Hres.
  unfold decoded_cgroup. rewrite Hres.
  unfold cgroup_entries. cbn [mbind option_bind].
  destruct (cgroup_entries_fields gctx
              (tri_state v1 v1_present r) (tri_state v2 v2_present r)
              (tri_state systemd systemd_present r)
              (tri_state systemd_user systemd_user_present r)
              (tri_state rdma rdma_present r)
              (residual_slots (Cgroup._residual r)) Hkv Hrs)
    as (-> & -> & -> & -> & ->).
  repeat match goal with
         | H : zero_when_absent ?f ?fp r = true |- _ =>
             destruct (tri_state_default f fp r H) as [-> ->]; clear H
         end.
  now destruct r.
Qed.

Lemma strings_member n gctx (o : option (list string)) rest :
  opt gctx OPT_GEN_KEY_VALUE = false ->
  member n rest = None ->
  member n (strings_entry gctx n o ++ rest)
  = (fun strs => Yarray (map (fun s => Some (Ystring s)) strs)) <$> o.
Proof.
  intros Hkv Hrest. unfold strings_entry. rewrite member_hit, Hkv, Hrest.
  now destruct o.
Qed.

Lemma member_strings_skip k n gctx (o : option (list string)) rest :
  String.eqb k n = false ->
  member k (strings_entry gctx n o ++ rest) = member k rest.
Proof. intros E. unfold strings_entry. now apply member_skip. Qed.

Lemma member_bool_skip k n gctx (o : option bool) rest :
  String.eqb k n = false ->
  member k (bool_entry gctx n o ++ rest) = member k rest.
Proof. intros E. unfold bool_entry. now apply member_skip. Qed.

Lemma member_string_skip k n gctx (o : option string) rest :
  String.eqb k n = false ->
  member k (string_entry gctx n o ++ rest) = member k rest.
Proof. intros E. unfold string_entry. now apply member_skip. Qed.

Lemma bool_member n gctx (o : option bool) rest :
  opt gctx OPT_GEN_KEY_VALUE = false ->
  member n rest = None ->
  bool_field n (bool_entry gctx n o ++ rest) = o.
Proof.
  intros Hkv Hrest. unfold bool_field, bool_entry. rewrite member_hit, Hkv, Hrest.
  now destruct o as [[]|].
Qed.

Lemma string_member n gctx (o : option string) rest :
  opt gctx OPT_GEN_KEY_VALUE = false ->
  member n rest = None ->
  string_field n (string_entry gctx n o ++ rest) = o.
Proof.
  intros Hkv Hrest. unfold string_field, string_entry. rewrite member_hit, Hkv, Hrest.
  now destruct o.
Qed.

Lemma moved_bool_entry unknown n gctx (o : option bool) rest :
  unknown n = false -> moved unknown (bool_entry gctx n o ++ rest) = moved unknown rest.
Proof. intros H. unfold bool_entry. now apply moved_skip. Qed.

Lemma moved_string_entry unknown n gctx (o : option string) rest :
  unknown n = false -> moved unknown (string_entry gctx n o ++ rest) = moved unknown rest.
Proof. intros H. unfold string_entry. now apply moved_skip. Qed.

End DecodedEntries.

(** Walking to the member [n] of a document of a record. *)
Ltac walk_to :=
  repeat first [ rewrite member_bool_skip by reflexivity
               | rewrite member_string_skip by reflexivity
               | rewrite member_strings_skip by reflexivity
               | rewrite member_nested_entry by reflexivity ].

Section DecodedEntriesRecords.

Implicit Types (slots rs rest : list slot) (ctx gctx dctx : parser_context) (k n : string).

Lemma seccomp_decoded_entries gctx fullkey (r : Seccomp.seccomp) :
  opt gctx OPT_GEN_KEY_VALUE = false ->
  seccomp_exact fullkey r = true ->
  decoded_seccomp (seccomp_entries gctx (Some r)) fullkey = r.
Proof.
  intros Hkv Hex. unfold seccomp_exact in Hex. split_andb.
  assert (Hrs : forall k, Seccomp.unknown_key k = false ->
                          member k (residual_slots (Seccomp._residual r)) = None).
  { intros k Hk. now apply (member_residual_slots Seccomp.unknown_key fullkey). }
  assert (Hres : residual_of Seccomp.unknown_key fullkey (seccomp_entries gctx (Some r))
                 = Seccomp._residual r).
  { apply residual_of_exact; [assumption|].
    unfold seccomp_entries. rewrite moved_bool_entry by reflexivity.
    rewrite !moved_strings_entry by reflexivity.
    now apply (moved_residual_slots _ fullkey). }
  assert (Hen : bool_field "enabled" (seccomp_entries gctx (Some r))
                = tri_state Seccomp.enabled Seccomp.enabled_present r).
  { unfold seccomp_entries. apply bool_member; [exact Hkv|].
    walk_to. now apply Hrs. }
  assert (Harr : forall n cells len,
             In (n, cells, len)
                [("actions", Seccomp.actions r, Seccomp.actions_len r);
                 ("operators", Seccomp.operators r, Seccomp.operators_len r);
                 ("archs", Seccomp.archs r, Seccomp.archs_len r);
                 ("knownFlags", Seccomp.known_flags r, Seccomp.known_flags_len r);
                 ("supportedFlags", Seccomp.supported_flags r,
                  Seccomp.supported_flags_len r)] ->
             array_exact cells len = true ->
             string_array_field n (seccomp_entries gctx (Some r)) = (cells, len)).
  { intros n cells len Hin Hx. apply array_exact_field; [exact Hx|].
    unfold seccomp_entries. cbn [mbind option_bind]. cbn [In] in Hin.
    destruct Hin as [[= <- <- <-]|[[= <- <- <-]|[[= <- <- <-]|[[= <- <- <-]|
                    [[= <- <- <-]|[]]]]]];
      walk_to; (apply strings_member; [exact Hkv|]); walk_to; now apply Hrs. }
  unfold decoded_seccomp. rewrite Hres, Hen.
  rewrite (Harr "actions" (Seccomp.actions r) (Seccomp.actions_len r))
    by (try assumption; cbn [In]; tauto).
  rewrite (Harr "operators" (Seccomp.operators r) (Seccomp.operators_len r))
    by (try assumption; cbn [In]; tauto).
  rewrite (Harr "archs" (Seccomp.archs r) (Seccomp.archs_len r))
    by (try assumption; cbn [In]; tauto).
  rewrite (Harr "knownFlags" (Seccomp.known_flags r) (Seccomp.known_flags_len r))
    by (try assumption; cbn [In]; tauto).
  rewrite (Harr "supportedFlags" (Seccomp.supported_flags r)
             (Seccomp.supported_flags_len r))
    by (try assumption; cbn [In]; tauto).
  cbn [fst snd].
  match goal with
  | H : zero_when_absent ?f ?fp r = true |- _ =>
      destruct (tri_state_default f fp r H) as [-> ->]
  end.
  now destruct r.
Qed.

Lemma zos_decoded_entries gctx fullkey (r : namespace_reference) :
  opt gctx OPT_GEN_KEY_VALUE = false ->
  zos_exact fullkey r = true ->
  decoded_zos (zos_entries gctx (Some r)) fullkey = r
  /\ string_field "type" (zos_entries gctx (Some r)) = type r.
Proof.
  intros Hkv Hex. unfold zos_exact in Hex. split_andb.
  assert (Hrs : forall k, ZosNs.unknown_key k = false ->
                          member k (residual_slots (ZosNs._residual r)) = None).
  { intros k Hk. now apply (member_residual_slots ZosNs.unknown_key fullkey). }
  assert (Hres : residual_of ZosNs.unknown_key fullkey (zos_entries gctx (Some r))
                 = ZosNs._residual r).
  { apply residual_of_exact; [assumption|].
    unfold zos_entries. rewrite !moved_string_entry by reflexivity.
    now apply (moved_residual_slots _ fullkey). }
  assert (Hty : string_field "type" (zos_entries gctx (Some r)) = type r).
  { unfold zos_entries. apply string_member; [exact Hkv|]. walk_to. now apply Hrs. }
  assert (Hpa : string_field "path" (zos_entries gctx (Some r)) = path r).
  { unfold zos_entries. cbn [mbind option_bind]. unfold string_field at 1. walk_to.
    apply string_member; [exact Hkv|]. now apply Hrs. }
  split; [|exact Hty].
  unfold decoded_zos. rewrite Hres, Hty, Hpa. now destruct r.
Qed.

Section EnabledExact.

Context {R : Type}.
Variables (build : bool -> option yajl_val -> bool -> R)
          (enabled enabled_present : R -> bool)
          (_residual : R -> option yajl_val).
Hypothesis (build_eta : forall r, build (enabled r) (_residual r) (enabled_present r) = r).

Lemma enabled_decoded_entries gctx fullkey (r : R) :
  opt gctx OPT_GEN_KEY_VALUE = false ->
  enabled_exact enabled enabled_present _residual fullkey r = true ->
  decoded_enabled build
    (enabled_entries enabled enabled_present _residual gctx (Some r)) fullkey = r.
Proof.
  intros Hkv Hex. unfold enabled_exact in Hex. split_andb.
  assert (Hres : residual_of EnabledOnly.unknown_key fullkey
                   (enabled_entries enabled enabled_present _residual gctx (Some r))
                 = _residual r).
  { apply residual_of_exact; [assumption|].
    unfold enabled_entries. rewrite moved_bool_entry by reflexivity.
    now apply (moved_residual_slots _ fullkey). }
  assert (Hen : bool_field "enabled"
                  (enabled_entries enabled enabled_present _residual gctx (Some r))
                = tri_state enabled enabled_present r).
  { unfold enabled_entries. apply bool_member; [exact Hkv|].
    now apply (member_residual_slots EnabledOnly.unknown_key fullkey). }
  unfold decoded_enabled. rewrite Hres, Hen.
  match goal with
  | H : zero_when_absent ?f ?fp r = true |- _ =>
      destruct (tri_state_default f fp r H) as [-> ->]
  end.
  apply build_eta.
Qed.

End EnabledExact.

End DecodedEntriesRecords.

Section RoundTripRecords.

Implicit Types (slots rs rest : list slot) (ctx gctx dctx : parser_context) (k n : string).

(** Encoding on an emitter with no bound, then decoding: the decoder is
    applied to the value the encoder's calls denote. *)
Lemma encode_then_decode_value {R : Type}
    (make : option yajl_val -> parser_context -> option (made R))
    (gen : yajl_gen -> option R -> parser_context -> gen_outcome)
    (r : R) gctx dctx (cs : list gen_call) (v : yajl_val) :
  runs (fun g => gen g (Some r) gctx) cs ->
  reads_value cs v ->
  encode_then_decode make gen r gctx dctx = make (Some v) dctx.
Proof.
  intros Hruns Hreads. unfold encode_then_decode.
  rewrite (Hruns {| calls := []; room := None |}).
  rewrite feed_unbounded by reflexivity.
  unfold extend. cbn [calls room app].
  now rewrite (document_of_value _ _ Hreads).
Qed.

Lemma parsed_bool_entry ctx n (o : option bool) rest :
  parsed (Yobject rest) = true ->
  parsed (Yobject (bool_entry ctx n o ++ rest)) = true.
Proof. intros H. unfold bool_entry. apply parsed_entry; [apply parsed_bool|exact H]. Qed.

Lemma parsed_string_entry ctx n (o : option string) rest :
  parsed (Yobject rest) = true ->
  parsed (Yobject (string_entry ctx n o ++ rest)) = true.
Proof. intros H. unfold string_entry. apply parsed_entry; [reflexivity|exact H]. Qed.

Lemma cgroup_exact_ok fullkey (r : cgroup) :
  cgroup_exact fullkey r = true -> cgroup_ok (Some r) = true.
Proof.
  unfold cgroup_exact, cgroup_ok. intros H. apply andb_prop in H as [-> H].
  now rewrite (residual_exact_ok _ _ _ H).
Qed.

Lemma seccomp_exact_ok fullkey (r : Seccomp.seccomp) :
  seccomp_exact fullkey r = true -> seccomp_ok (Some r) = true.
Proof.
  unfold seccomp_exact, seccomp_ok. intros H. split_andb.
  repeat (apply andb_true_intro; split);
    first [assumption | now apply array_exact_ok | (eapply residual_exact_ok; eassumption)].
Qed.

Lemma zos_exact_ok fullkey (r : namespace_reference) :
  zos_exact fullkey r = true -> zos_ok (Some r) = true.
Proof.
  unfold zos_exact, zos_ok. intros H. apply andb_prop in H as [_ H].
  eapply residual_exact_ok; eassumption.
Qed.

Lemma enabled_exact_ok {R : Type} (enabled enabled_present : R -> bool)
    (_residual : R -> option yajl_val) fullkey (r : R) :
  enabled_exact enabled enabled_present _residual fullkey r = true ->
  enabled_ok enabled enabled_present _residual (Some r) = true.
Proof.
  unfold enabled_exact, enabled_ok. intros H. apply andb_prop in H as [-> H].
  now rewrite (residual_exact_ok _ _ _ H).
Qed.

Lemma cgroup_entries_parsed ctx (ptr : option cgroup) :
  cgroup_ok ptr = true -> parsed (Yobject (cgroup_entries ctx ptr)) = true.
Proof.
  intros Hok. unfold cgroup_entries.
  repeat apply parsed_bool_entry. apply parsed_residual_slots.
  destruct ptr as [r|]; [|reflexivity].
  unfold cgroup_ok in Hok. now apply andb_prop in Hok as [_ Hok].
Qed.

Lemma seccomp_entries_parsed ctx (ptr : option Seccomp.seccomp) :
  seccomp_ok ptr = true -> parsed (Yobject (seccomp_entries ctx ptr)) = true.
Proof.
  intros Hok. unfold seccomp_entries.
  apply parsed_bool_entry. repeat apply parsed_strings_entry.
  apply parsed_residual_slots.
  destruct ptr as [r|]; [|reflexivity].
  unfold seccomp_ok in Hok. now apply andb_prop in Hok as [_ Hok].
Qed.

Lemma zos_entries_parsed ctx (ptr : option namespace_reference) :
  zos_ok ptr = true -> parsed (Yobject (zos_entries ctx ptr)) = true.
Proof.
  intros Hok. unfold zos_entries.
  repeat apply parsed_string_entry. apply parsed_residual_slots.
  destruct ptr as [r|]; [exact Hok|reflexivity].
Qed.

Lemma enabled_entries_parsed {R : Type} (enabled enabled_present : R -> bool)
    (_residual : R -> option yajl_val) ctx (ptr : option R) :
  enabled_ok enabled enabled_present _residual ptr = true ->
  parsed (Yobject (enabled_entries enabled enabled_present _residual ctx ptr)) = true.
Proof.
  intros Hok. unfold enabled_entries.
  apply parsed_bool_entry. apply parsed_residual_slots.
  destruct ptr as [r|]; [|reflexivity].
  unfold enabled_ok in Hok. now apply andb_prop in Hok as [_ Hok].
Qed.

Lemma cgroup_round_trip gctx dctx (r : cgroup) :
  opt gctx OPT_GEN_KEY_VALUE = false ->
  cgroup_exact (opt dctx OPT_PARSE_FULLKEY) r = true ->
  exists m,
    encode_then_decode make_runtime_spec_schema_features_linux_cgroup
      gen_runtime_spec_schema_features_linux_cgroup r gctx dctx = Some m
    /\ ret m = Some r /\ err m = None.
Proof.
  intros Hkv Hex. pose proof (cgroup_exact_ok _ _ Hex) as Hok.
  rewrite (encode_then_decode_value _ _ r gctx dctx _ _
             (gen_cgroup_runs gctx (Some r) Hok)
             (cgroup_record_reads gctx (Some r) Hok)).
  rewrite (make_cgroup_closed _ dctx (cgroup_entries_parsed gctx _ Hok)).
  eexists. split; [reflexivity|]. cbn [ret err]. split; [|reflexivity].
  f_equal. now apply cgroup_decoded_entries.
Qed.

Lemma seccomp_round_trip gctx dctx (r : Seccomp.seccomp) :
  opt gctx OPT_GEN_KEY_VALUE = false ->
  seccomp_exact (opt dctx OPT_PARSE_FULLKEY) r = true ->
  exists m,
    encode_then_decode make_runtime_spec_schema_features_linux_seccomp
      gen_runtime_spec_schema_features_linux_seccomp r gctx dctx = Some m
    /\ ret m = Some r /\ err m = None.
Proof.
  intros Hkv Hex. pose proof (seccomp_exact_ok _ _ Hex) as Hok.
  rewrite (encode_then_decode_value _ _ r gctx dctx _ _
             (gen_seccomp_runs gctx (Some r) Hok)
             (seccomp_record_reads gctx (Some r) Hok)).
  rewrite (make_seccomp_closed _ dctx (seccomp_entries_parsed gctx _ Hok)).
  eexists. split; [reflexivity|]. cbn [ret err]. split; [|reflexivity].
  f_equal. now apply seccomp_decoded_entries.
Qed.

Lemma zos_round_trip gctx dctx (r : namespace_reference) :
  opt gctx OPT_GEN_KEY_VALUE = false ->
  zos_exact (opt dctx OPT_PARSE_FULLKEY) r = true ->
  exists m,
    encode_then_decode make_runtime_spec_schema_defs_zos_namespace_reference
      gen_runtime_spec_schema_defs_zos_namespace_reference r gctx dctx = Some m
    /\ ret m = Some r /\ err m = None.
Proof.
  intros Hkv Hex. pose proof (zos_exact_ok _ _ Hex) as Hok.
  rewrite (encode_then_decode_value _ _ r gctx dctx _ _
             (gen_zos_runs gctx (Some r) Hok)
             (zos_record_reads gctx (Some r) Hok)).
  rewrite (make_zos_closed _ dctx (zos_entries_parsed gctx _ Hok)).
  destruct (zos_decoded_entries gctx _ r Hkv Hex) as [Hdec Hty].
  rewrite Hty. unfold zos_exact in Hex. apply andb_prop in Hex as [Hnn _].
  destruct (type r) as [ty|] eqn:Et; [|discriminate].
  eexists. split; [reflexivity|]. cbn [ret err]. split; [|reflexivity].
  f_equal. exact Hdec.
Qed.

Section EnabledRoundTrip.

Context {R : Type}.
Variables (build : bool -> option yajl_val -> bool -> R)
          (enabled enabled_present : R -> bool)
          (_residual : R -> option yajl_val).
Hypothesis (build_eta : forall r, build (enabled r) (_residual r) (enabled_present r) = r).

Lemma enabled_round_trip gctx dctx (r : R) :
  opt gctx OPT_GEN_KEY_VALUE = false ->
  enabled_exact enabled enabled_present _residual (opt dctx OPT_PARSE_FULLKEY) r = true ->
  exists m,
    encode_then_decode (EnabledOnly.make_enabled build)
      (EnabledOnly.gen_enabled enabled enabled_present _residual) r gctx dctx = Some m
    /\ ret m = Some r /\ err m = None.
Proof.
  intros Hkv Hex. pose proof (enabled_exact_ok _ _ _ _ _ Hex) as Hok.
  rewrite (encode_then_decode_value _ _ r gctx dctx _ _
             (gen_enabled_runs enabled enabled_present _residual gctx (Some r) Hok)
             (enabled_record_reads enabled enabled_present _residual gctx (Some r) Hok)).
  rewrite (make_enabled_closed build _ dctx
             (enabled_entries_parsed enabled enabled_present _residual gctx _ Hok)).
  eexists. split; [reflexivity|]. cbn [ret err]. split; [|reflexivity].
  f_equal. now apply enabled_decoded_entries.
Qed.

End EnabledRoundTrip.

End RoundTripRecords.

Section RecordEntries.

Implicit Types (slots rs rest : list slot) (ctx gctx dctx : parser_context) (k n : string).

Lemma member_record_skip {S : Type} k n ctx (field : option S) entries_f rest :
  String.eqb k n = false ->
  member k (record_entry ctx n field entries_f ++ rest) = member k rest.
Proof. intros E. unfold record_entry. now apply member_skip. Qed.

Lemma moved_record_entry {S : Type} unknown n ctx (field : option S) entries_f rest :
  unknown n = false ->
  moved unknown (record_entry ctx n field entries_f ++ rest) = moved unknown rest.
Proof. intros H. unfold record_entry. now apply moved_skip. Qed.

Lemma parsed_record_entry {S : Type} ctx n (field : option S) entries_f rest :
  parsed (Yobject (entries_f ctx field)) = true ->
  parsed (Yobject rest) = true ->
  parsed (Yobject (record_entry ctx n field entries_f ++ rest)) = true.
Proof. intros H1 H2. unfold record_entry. now apply parsed_entry. Qed.

Lemma nested_slots_record_skip {S : Type} k n ctx (field : option S) entries_f rest :
  String.eqb k n = false ->
  nested_slots k (record_entry ctx n field entries_f ++ rest) = nested_slots k rest.
Proof. intros E. unfold nested_slots. now rewrite member_record_skip. Qed.

Lemma nested_slots_record_hit {S : Type} n ctx (field : option S) entries_f rest :
  opt ctx OPT_GEN_KEY_VALUE = false ->
  member n rest = None ->
  nested_slots n (record_entry ctx n field entries_f ++ rest)
  = (fun x => entries_f ctx (Some x)) <$> field.
Proof.
  intros Hkv Hrest. unfold nested_slots, record_entry.
  rewrite member_hit, Hkv, Hrest. now destruct field.
Qed.

(** A nested member that its decoder gives back from its document is
    given back from the entry written for it. *)
Lemma nested_member_back {S : Type} (exact : S -> bool) (dec : list slot -> S)
    n ctx (field : option S) entries_f rest :
  opt ctx OPT_GEN_KEY_VALUE = false ->
  member n rest = None ->
  member_exact exact field = true ->
  (forall x, exact x = true -> dec (entries_f ctx (Some x)) = x) ->
  dec <$> nested_slots n (record_entry ctx n field entries_f ++ rest) = field.
Proof.
  intros Hkv Hrest Hex Hdec. rewrite nested_slots_record_hit by assumption.
  destruct field as [x|]; [|reflexivity].
  cbn [fmap option_fmap option_map]. f_equal. now apply Hdec.
Qed.

Lemma member_exact_ok {S : Type} (exact : S -> bool) (ok : option S -> bool)
    (field : option S) :
  ok None = true ->
  (forall x, exact x = true -> ok (Some x) = true) ->
  member_exact exact field = true -> ok field = true.
Proof. intros H0 H Hex. destruct field as [x|]; [now apply H|exact H0]. Qed.

End RecordEntries.

(** Walking to the member [n] of a document of a record with nested
    records. *)
Ltac walk_member :=
  repeat first [ rewrite member_bool_skip by reflexivity
               | rewrite member_string_skip by reflexivity
               | rewrite member_strings_skip by reflexivity
               | rewrite member_record_skip by reflexivity ].

Ltac walk_record :=
  repeat first [ rewrite nested_slots_strings_skip by reflexivity
               | rewrite nested_slots_record_skip by reflexivity ].

Section NestedRoundTrip.

Implicit Types (slots rs rest : list slot) (ctx gctx dctx : parser_context) (k n : string).

Lemma idmap_decoded_entries gctx fullkey (r : idmap) :
  opt gctx OPT_GEN_KEY_VALUE = false ->
  idmap_exact fullkey r = true ->
  decoded_idmap (idmap_entries gctx (Some r)) fullkey = r.
Proof.
  intros Hkv Hex. unfold decoded_idmap, idmap_entries.
  apply enabled_decoded_entries; [now intros []|exact Hkv|exact Hex].
Qed.

Lemma mount_extensions_decoded_entries gctx fullkey (r : mount_extensions) :
  opt gctx OPT_GEN_KEY_VALUE = false ->
  mount_extensions_exact fullkey r = true ->
  decoded_mount_extensions (mount_extensions_entries gctx (Some r)) fullkey = r.
Proof.
  intros Hkv Hex. unfold mount_extensions_exact in Hex. split_andb.
  assert (Hrs : forall k, MountExtensionsCode.unknown_key k = false ->
                  member k (residual_slots (MountExtensions._residual r)) = None).
  { intros k Hk. now apply (member_residual_slots MountExtensionsCode.unknown_key fullkey). }
  assert (Hres : residual_of MountExtensionsCode.unknown_key fullkey
                   (mount_extensions_entries gctx (Some r))
                 = MountExtensions._residual r).
  { apply residual_of_exact; [assumption|].
    unfold mount_extensions_entries. rewrite moved_record_entry by reflexivity.
    now apply (moved_residual_slots _ fullkey). }
  unfold decoded_mount_extensions. rewrite Hres.
  unfold mount_extensions_entries. cbn [mbind option_bind].
  rewrite (nested_member_back (idmap_exact fullkey) (fun s => decoded_idmap s fullkey));
    [now destruct r|exact Hkv|now apply Hrs|assumption|].
  intros x Hx. now apply idmap_decoded_entries.
Qed.

Lemma mount_extensions_exact_ok fullkey (r : mount_extensions) :
  mount_extensions_exact fullkey r = true -> mount_extensions_ok (Some r) = true.
Proof.
  unfold mount_extensions_exact, mount_extensions_ok. intros H. split_andb.
  apply andb_true_intro; split; [|eapply residual_exact_ok; eassumption].
  apply (member_exact_ok (idmap_exact fullkey)); [reflexivity| |assumption].
  intros x Hx. now apply (enabled_exact_ok _ _ _ fullkey).
Qed.

Lemma mount_extensions_entries_parsed ctx (ptr : option mount_extensions) :
  mount_extensions_ok ptr = true ->
  parsed (Yobject (mount_extensions_entries ctx ptr)) = true.
Proof.
  intros Hok. unfold mount_extensions_entries.
  apply parsed_record_entry.
  - apply (enabled_entries_parsed Idmap.enabled).
    apply (ok_bind idmap_ok); [reflexivity|].
    destruct ptr as [r|]; [|exact I].
    cbn [mount_extensions_ok] in Hok. now apply andb_prop in Hok as [H _].
  - apply parsed_residual_slots.
    destruct ptr as [r|]; [|reflexivity].
    cbn [mount_extensions_ok] in Hok. now apply andb_prop in Hok as [_ H].
Qed.

Lemma mount_extensions_round_trip gctx dctx (r : mount_extensions) :
  opt gctx OPT_GEN_KEY_VALUE = false ->
  mount_extensions_exact (opt dctx OPT_PARSE_FULLKEY) r = true ->
  exists m,
    encode_then_decode
      MountExtensionsCode.make_runtime_spec_schema_features_linux_mount_extensions
      MountExtensionsCode.gen_runtime_spec_schema_features_linux_mount_extensions
      r gctx dctx = Some m
    /\ ret m = Some r /\ err m = None.
Proof.
  intros Hkv Hex. pose proof (mount_extensions_exact_ok _ _ Hex) as Hok.
  rewrite (encode_then_decode_value _ _ r gctx dctx _ _
             (gen_mount_extensions_runs gctx (Some r) Hok)
             (mount_extensions_record_reads gctx (Some r) Hok)).
  rewrite (make_mount_extensions_closed _ dctx
             (mount_extensions_entries_parsed gctx _ Hok)).
  eexists. split; [reflexivity|]. cbn [ret err]. split; [|reflexivity].
  f_equal. now apply mount_extensions_decoded_entries.
Qed.

Import FeaturesLinux.

Lemma features_exact_ok fullkey (r : runtime_spec_schema_features_linux) :
  features_exact fullkey r = true -> features_ok (Some r) = true.
Proof.
  unfold features_exact, features_ok. intros H. split_andb.
  repeat (apply andb_true_intro; split);
    first [ now apply array_exact_ok
          | (eapply residual_exact_ok; eassumption)
          | (apply (member_exact_ok (cgroup_exact fullkey));
             [reflexivity|apply cgroup_exact_ok|assumption])
          | (apply (member_exact_ok (seccomp_exact fullkey));
             [reflexivity|apply seccomp_exact_ok|assumption])
          | (apply (member_exact_ok (mount_extensions_exact fullkey));
             [reflexivity|apply mount_extensions_exact_ok|assumption])
          | (eapply (member_exact_ok (enabled_exact _ _ _ fullkey));
             [reflexivity|apply enabled_exact_ok|eassumption]) ].
Qed.

Lemma features_entries_parsed ctx (ptr : option runtime_spec_schema_features_linux) :
  features_ok ptr = true -> parsed (Yobject (features_entries ctx ptr)) = true.
Proof.
  intros Hok.
  assert (H : match ptr with
              | Some r =>
                  cgroup_ok (cgroup r) = true
                  /\ seccomp_ok (seccomp r) = true
                  /\ apparmor_ok (apparmor r) = true
                  /\ selinux_ok (selinux r) = true
                  /\ intel_rdt_ok (intel_rdt r) = true
                  /\ mount_extensions_ok (mount_extensions r) = true
                  /\ net_devices_ok (net_devices r) = true
                  /\ residual_ok (_residual r) = true
              | None => True
              end).
  { destruct ptr as [r|]; [|exact I]. cbn [features_ok] in Hok. split_andb.
    repeat split; assumption. }
  unfold features_entries.
  repeat apply parsed_strings_entry.
  apply parsed_record_entry;
    [apply cgroup_entries_parsed, (ok_bind cgroup_ok); [reflexivity|];
     destruct ptr; [tauto|exact I]|].
  apply parsed_record_entry;
    [apply seccomp_entries_parsed, (ok_bind seccomp_ok); [reflexivity|];
     destruct ptr; [tauto|exact I]|].
  apply parsed_record_entry;
    [apply (enabled_entries_parsed Apparmor.enabled), (ok_bind apparmor_ok);
     [reflexivity|]; destruct ptr; [tauto|exact I]|].
  apply parsed_record_entry;
    [apply (enabled_entries_parsed Selinux.enabled), (ok_bind selinux_ok);
     [reflexivity|]; destruct ptr; [tauto|exact I]|].
  apply parsed_record_entry;
    [apply (enabled_entries_parsed IntelRdt.enabled), (ok_bind intel_rdt_ok);
     [reflexivity|]; destruct ptr; [tauto|exact I]|].
  apply parsed_record_entry;
    [apply mount_extensions_entries_parsed, (ok_bind mount_extensions_ok);
     [reflexivity|]; destruct ptr; [tauto|exact I]|].
  apply parsed_record_entry;
    [apply (enabled_entries_parsed NetDevices.enabled), (ok_bind net_devices_ok);
     [reflexivity|]; destruct ptr; [tauto|exact I]|].
  apply parsed_residual_slots. destruct ptr; [tauto|reflexivity].
Qed.

Lemma features_decoded_entries gctx fullkey (r : runtime_spec_schema_features_linux) :
  opt gctx OPT_GEN_KEY_VALUE = false ->
  features_exact fullkey r = true ->
  decoded_features (features_entries gctx (Some r)) fullkey = r.
Proof.
  intros Hkv Hex. unfold features_exact in Hex. split_andb.
  assert (Hrs : forall k, FeaturesLinux.unknown_key k = false ->
                          member k (residual_slots (_residual r)) = None).
  { intros k Hk. now apply (member_residual_slots FeaturesLinux.unknown_key fullkey). }
  assert (Hres : residual_of FeaturesLinux.unknown_key fullkey
                   (features_entries gctx (Some r)) = _residual r).
  { apply residual_of_exact; [assumption|].
    unfold features_entries. rewrite !moved_strings_entry by reflexivity.
    rewrite !moved_record_entry by reflexivity.
    now apply (moved_residual_slots _ fullkey). }
  assert (Hns : string_array_field "namespaces" (features_entries gctx (Some r))
                = (namespaces r, namespaces_len r)).
  { apply array_exact_field; [assumption|]. unfold features_entries.
    cbn [mbind option_bind]. apply strings_member; [exact Hkv|].
    walk_member. now apply Hrs. }
  assert (Hcs : string_array_field "capabilities" (features_entries gctx (Some r))
                = (capabilities r, capabilities_len r)).
  { apply array_exact_field; [assumption|]. unfold features_entries.
    cbn [mbind option_bind]. walk_member. apply strings_member; [exact Hkv|].
    walk_member. now apply Hrs. }
  unfold decoded_features. rewrite Hres, Hns, Hcs. cbn [fst snd].
  unfold features_entries. cbn [mbind option_bind].
  walk_record.
  rewrite (nested_member_back (cgroup_exact fullkey) (fun s => decoded_cgroup s fullkey));
    [|exact Hkv|walk_member; now apply Hrs|assumption
     |intros x Hx; now apply cgroup_decoded_entries].
  walk_record.
  rewrite (nested_member_back (seccomp_exact fullkey)
             (fun s => decoded_seccomp s fullkey));
    [|exact Hkv|walk_member; now apply Hrs|assumption
     |intros x Hx; now apply seccomp_decoded_entries].
  walk_record.
  rewrite (nested_member_back
             (enabled_exact Apparmor.enabled Apparmor.enabled_present
                Apparmor._residual fullkey)
             (fun s => decoded_apparmor s fullkey));
    [|exact Hkv|walk_member; now apply Hrs|assumption
     |intros x Hx; apply enabled_decoded_entries; [now intros []|exact Hkv|exact Hx]].
  walk_record.
  rewrite (nested_member_back
             (enabled_exact Selinux.enabled Selinux.enabled_present
                Selinux._residual fullkey)
             (fun s => decoded_selinux s fullkey));
    [|exact Hkv|walk_member; now apply Hrs|assumption
     |intros x Hx; apply enabled_decoded_entries; [now intros []|exact Hkv|exact Hx]].
  walk_record.
  rewrite (nested_member_back
             (enabled_exact IntelRdt.enabled IntelRdt.enabled_present
                IntelRdt._residual fullkey)
             (fun s => decoded_intel_rdt s fullkey));
    [|exact Hkv|walk_member; now apply Hrs|assumption
     |intros x Hx; apply enabled_decoded_entries; [now intros []|exact Hkv|exact Hx]].
  walk_record.
  rewrite (nested_member_back (mount_extensions_exact fullkey)
             (fun s => decoded_mount_extensions s fullkey));
    [|exact Hkv|walk_member; now apply Hrs|assumption
     |intros x Hx; now apply mount_extensions_decoded_entries].
  walk_record.
  rewrite (nested_member_back
             (enabled_exact NetDevices.enabled NetDevices.enabled_present
                NetDevices._residual fullkey)
             (fun s => decoded_net_devices s fullkey));
    [|exact Hkv|now apply Hrs|assumption
     |intros x Hx; apply enabled_decoded_entries; [now intros []|exact Hkv|exact Hx]].
  now destruct r.
Qed.

Lemma features_round_trip gctx dctx (r : runtime_spec_schema_features_linux) :
  opt gctx OPT_GEN_KEY_VALUE = false ->
  features_exact (opt dctx OPT_PARSE_FULLKEY) r = true ->
  exists m,
    encode_then_decode make_runtime_spec_schema_features_linux
      gen_runtime_spec_schema_features_linux r gctx dctx = Some m
    /\ ret m = Some r /\ err m = None.
Proof.
  intros Hkv Hex. pose proof (features_exact_ok _ _ Hex) as Hok.
  rewrite (encode_then_decode_value _ _ r gctx dctx _ _
             (gen_features_runs gctx (Some r) Hok)
             (features_record_reads gctx (Some r) Hok)).
  rewrite (make_features_closed _ dctx (features_entries_parsed gctx _ Hok)).
  eexists. split; [reflexivity|]. cbn [ret err]. split; [|reflexivity].
  f_equal. now apply features_decoded_entries.
Qed.

End NestedRoundTrip.

Section DecodedExact.

Implicit Types (slots rs rest : list slot) (ctx gctx dctx : parser_context) (k n : string).

Lemma residual_of_exact_decoded unknown fullkey slots :
  parsed (Yobject slots) = true ->
  residual_exact unknown fullkey (residual_of unknown fullkey slots) = true.
Proof.
  intros Hp. destruct fullkey; [|reflexivity].
  cbn [residual_of residual_exact andb]. unfold moved.
  rewrite (parsed_filter _ _ Hp). cbn [andb].
  apply forallb_forall. intros x Hx.
  now apply filter_In in Hx as [_ Hx].
Qed.

Lemma cells_all_strings (vs : list (option yajl_val)) :
  forallb (fun c => match c with Some x => parsed x | None => false end) vs = true ->
  map make_string_cell vs = map Some (map string_of_element (omap id vs)).
Proof.
  induction vs as [|[x|] rest IH]; simpl; intros H; try discriminate; [reflexivity|].
  apply andb_prop in H as [_ Hrest]. rewrite (IH Hrest).
  now destruct x.
Qed.

Lemma string_array_field_exact name slots :
  parsed (Yobject slots) = true ->
  array_exact (fst (string_array_field name slots)) (snd (string_array_field name slots))
  = true.
Proof.
  intros Hp. unfold string_array_field.
  destruct (member name slots) as [v|] eqn:E; [|reflexivity].
  pose proof (member_parsed name slots v Hp E) as Hv.
  destruct v as [| | |vs| | |]; try reflexivity.
  cbn [fst snd array_exact]. cbn [parsed] in Hv.
  apply andb_true_intro; split.
  - apply bool_decide_eq_true. rewrite strings_of_cells.
    now rewrite (cells_all_strings vs Hv).
  - apply Nat.eqb_eq. rewrite length_app, length_map. cbn [length]. lia.
Qed.

Lemma decoded_cgroup_exact slots fullkey :
  parsed (Yobject slots) = true ->
  cgroup_exact fullkey (decoded_cgroup slots fullkey) = true.
Proof.
  intros Hp. unfold cgroup_exact.
  pose proof (residual_of_exact_decoded Cgroup.unknown_key fullkey slots Hp) as Hres.
  unfold residual_of, moved in Hres.
  cbn [cgroup_bools forallb fst snd Cgroup._residual decoded_cgroup].
  rewrite Hres. unfold zero_when_absent. simpl.
  destruct (bool_field "v1" slots) as [[]|], (bool_field "v2" slots) as [[]|],
    (bool_field "systemd" slots) as [[]|], (bool_field "systemdUser" slots) as [[]|],
    (bool_field "rdma" slots) as [[]|]; reflexivity.
Qed.

Lemma decoded_seccomp_exact slots fullkey :
  parsed (Yobject slots) = true ->
  seccomp_exact fullkey (decoded_seccomp slots fullkey) = true.
Proof.
  intros Hp. unfold seccomp_exact.
  cbn [decoded_seccomp Seccomp.enabled Seccomp.enabled_present
       Seccomp.actions Seccomp.actions_len Seccomp.operators
       Seccomp.operators_len Seccomp.archs Seccomp.archs_len
       Seccomp.known_flags Seccomp.known_flags_len Seccomp.supported_flags
       Seccomp.supported_flags_len Seccomp._residual].
  rewrite !(string_array_field_exact _ slots Hp), (residual_of_exact_decoded _ _ _ Hp).
  unfold zero_when_absent.
  cbn [decoded_seccomp Seccomp.enabled Seccomp.enabled_present].
  destruct (bool_field "enabled" slots) as [[]|]; reflexivity.
Qed.

Lemma decoded_zos_exact slots fullkey :
  parsed (Yobject slots) = true ->
  non_null (string_field "type" slots) = true ->
  zos_exact fullkey (decoded_zos slots fullkey) = true.
Proof.
  intros Hp Hty. unfold zos_exact. cbn [decoded_zos ZosNs.type ZosNs._residual].
  now rewrite Hty, (residual_of_exact_decoded _ _ _ Hp).
Qed.

Section EnabledDecodedExact.

Context {R : Type}.
Variables (build : bool -> option yajl_val -> bool -> R)
          (enabled enabled_present : R -> bool)
          (_residual : R -> option yajl_val).
Hypotheses (enabled_build : forall b r p, enabled (build b r p) = b)
           (residual_build : forall b r p, _residual (build b r p) = r)
           (present_build : forall b r p, enabled_present (build b r p) = p).

Lemma decoded_enabled_exact slots fullkey :
  parsed (Yobject slots) = true ->
  enabled_exact enabled enabled_present _residual fullkey
    (decoded_enabled build slots fullkey) = true.
Proof.
  intros Hp. unfold enabled_exact, decoded_enabled, zero_when_absent.
  rewrite enabled_build, residual_build, present_build,
    (residual_of_exact_decoded _ _ _ Hp).
  destruct (bool_field "enabled" slots) as [[]|]; reflexivity.
Qed.

End EnabledDecodedExact.

Lemma nested_exact {S : Type} (exact : S -> bool) (dec : list slot -> S) name slots :
  (forall s, parsed (Yobject s) = true -> exact (dec s) = true) ->
  parsed (Yobject slots) = true ->
  member_exact exact (dec <$> nested_slots name slots) = true.
Proof.
  intros H Hp. destruct (nested_slots name slots) as [s|] eqn:E; [|reflexivity].
  apply H. exact (nested_slots_parsed _ _ _ Hp E).
Qed.

Lemma decoded_idmap_exact slots fullkey :
  parsed (Yobject slots) = true ->
  idmap_exact fullkey (decoded_idmap slots fullkey) = true.
Proof. now apply decoded_enabled_exact. Qed.

Lemma decoded_mount_extensions_exact slots fullkey :
  parsed (Yobject slots) = true ->
  mount_extensions_exact fullkey (decoded_mount_extensions slots fullkey) = true.
Proof.
  intros Hp. unfold mount_extensions_exact, decoded_mount_extensions.
  cbn [MountExtensions.idmap MountExtensions._residual].
  rewrite (residual_of_exact_decoded _ _ _ Hp), andb_true_r.
  apply (nested_exact (idmap_exact fullkey) (fun s => decoded_idmap s fullkey));
    [|exact Hp].
  intros s Hs. now apply decoded_idmap_exact.
Qed.

Lemma decoded_apparmor_exact slots fullkey :
  parsed (Yobject slots) = true ->
  enabled_exact Apparmor.enabled Apparmor.enabled_present Apparmor._residual fullkey
    (decoded_apparmor slots fullkey) = true.
Proof. now apply decoded_enabled_exact. Qed.

Lemma decoded_selinux_exact slots fullkey :
  parsed (Yobject slots) = true ->
  enabled_exact Selinux.enabled Selinux.enabled_present Selinux._residual fullkey
    (decoded_selinux slots fullkey) = true.
Proof. now apply decoded_enabled_exact. Qed.

Lemma decoded_intel_rdt_exact slots fullkey :
  parsed (Yobject slots) = true ->
  enabled_exact IntelRdt.enabled IntelRdt.enabled_present IntelRdt._residual fullkey
    (decoded_intel_rdt slots fullkey) = true.
Proof. now apply decoded_enabled_exact. Qed.

Lemma decoded_net_devices_exact slots fullkey :
  parsed (Yobject slots) = true ->
  enabled_exact NetDevices.enabled NetDevices.enabled_present NetDevices._residual fullkey
    (decoded_net_devices slots fullkey) = true.
Proof. now apply decoded_enabled_exact. Qed.

Import FeaturesLinux.

Lemma decoded_features_exact slots fullkey :
  parsed (Yobject slots) = true ->
  features_exact fullkey (decoded_features slots fullkey) = true.
Proof.
  intros Hp. unfold features_exact, decoded_features.
  cbn [namespaces namespaces_len capabilities capabilities_len cgroup seccomp apparmor
       selinux intel_rdt mount_extensions net_devices _residual].
  rewrite !(string_array_field_exact _ slots Hp), (residual_of_exact_decoded _ _ _ Hp).
  rewrite (nested_exact (cgroup_exact fullkey) (fun s => decoded_cgroup s fullkey)
             _ slots (fun s Hs => decoded_cgroup_exact s fullkey Hs) Hp).
  rewrite (nested_exact (seccomp_exact fullkey) (fun s => decoded_seccomp s fullkey)
             _ slots (fun s Hs => decoded_seccomp_exact s fullkey Hs) Hp).
  rewrite (nested_exact
             (enabled_exact Apparmor.enabled Apparmor.enabled_present
                Apparmor._residual fullkey)
             (fun s => decoded_apparmor s fullkey) _ slots
             (fun s Hs => decoded_apparmor_exact s fullkey Hs) Hp).
  rewrite (nested_exact
             (enabled_exact Selinux.enabled Selinux.enabled_present
                Selinux._residual fullkey)
             (fun s => decoded_selinux s fullkey) _ slots
             (fun s Hs => decoded_selinux_exact s fullkey Hs) Hp).
  rewrite (nested_exact
             (enabled_exact IntelRdt.enabled IntelRdt.enabled_present
                IntelRdt._residual fullkey)
             (fun s => decoded_intel_rdt s fullkey) _ slots
             (fun s Hs => decoded_intel_rdt_exact s fullkey Hs) Hp).
  rewrite (nested_exact (mount_extensions_exact fullkey)
             (fun s => decoded_mount_extensions s fullkey) _ slots
             (fun s Hs => decoded_mount_extensions_exact s fullkey Hs) Hp).
  rewrite (nested_exact
             (enabled_exact NetDevices.enabled NetDevices.enabled_present
                NetDevices._residual fullkey)
             (fun s => decoded_net_devices s fullkey) _ slots
             (fun s Hs => decoded_net_devices_exact s fullkey Hs) Hp).
  reflexivity.
Qed.

(** A zos namespace reference without a type is encoded, and what is
    written does not decode: the required member is missing. *)
Lemma zos_type_missing gctx dctx (r : namespace_reference) :
  opt gctx OPT_GEN_KEY_VALUE = false ->
  residual_exact ZosNs.unknown_key (opt dctx OPT_PARSE_FULLKEY) (ZosNs._residual r) = true ->
  type r = None ->
  exists m,
    encode_then_decode make_runtime_spec_schema_defs_zos_namespace_reference
      gen_runtime_spec_schema_defs_zos_namespace_reference r gctx dctx = Some m
    /\ ret m = None /\ err m = Some (required_field_error "type").
Proof.
  intros Hkv Hres Hty.
  assert (Hok : zos_ok (Some r) = true).
  { cbn [zos_ok]. eapply residual_exact_ok; eassumption. }
  rewrite (encode_then_decode_value _ _ r gctx dctx _ _
             (gen_zos_runs gctx (Some r) Hok)
             (zos_record_reads gctx (Some r) Hok)).
  rewrite (make_zos_closed _ dctx (zos_entries_parsed gctx _ Hok)).
  assert (E : string_field "type" (zos_entries gctx (Some r)) = None).
  { unfold zos_entries. cbn [mbind option_bind]. rewrite Hty.
    apply string_member; [exact Hkv|]. walk_member.
    now apply (member_residual_slots ZosNs.unknown_key (opt dctx OPT_PARSE_FULLKEY)). }
  rewrite E. eexists. split; [reflexivity|]. split; reflexivity.
Qed.

End DecodedExact.

Section EnabledRecordsRoundTrip.

Implicit Types (gctx dctx : parser_context).

Lemma apparmor_round_trip gctx dctx r :
  opt gctx OPT_GEN_KEY_VALUE = false ->
  enabled_exact Apparmor.enabled Apparmor.enabled_present Apparmor._residual
    (opt dctx OPT_PARSE_FULLKEY) r = true ->
  round_trips Apparmor.make_runtime_spec_schema_features_linux_apparmor
    Apparmor.gen_runtime_spec_schema_features_linux_apparmor r gctx dctx.
Proof. apply enabled_round_trip. now intros []. Qed.

Lemma selinux_round_trip gctx dctx r :
  opt gctx OPT_GEN_KEY_VALUE = false ->
  enabled_exact Selinux.enabled Selinux.enabled_present Selinux._residual
    (opt dctx OPT_PARSE_FULLKEY) r = true ->
  round_trips Selinux.make_runtime_spec_schema_features_linux_selinux
    Selinux.gen_runtime_spec_schema_features_linux_selinux r gctx dctx.
Proof. apply enabled_round_trip. now intros []. Qed.

Lemma intel_rdt_round_trip gctx dctx r :
  opt gctx OPT_GEN_KEY_VALUE = false ->
  enabled_exact IntelRdt.enabled IntelRdt.enabled_present IntelRdt._residual
    (opt dctx OPT_PARSE_FULLKEY) r = true ->
  round_trips IntelRdt.make_runtime_spec_schema_features_linux_intel_rdt
    IntelRdt.gen_runtime_spec_schema_features_linux_intel_rdt r gctx dctx.
Proof. apply enabled_round_trip. now intros []. Qed.

Lemma net_devices_round_trip gctx dctx r :
  opt gctx OPT_GEN_KEY_VALUE = false ->
  enabled_exact NetDevices.enabled NetDevices.enabled_present NetDevices._residual
    (opt dctx OPT_PARSE_FULLKEY) r = true ->
  round_trips NetDevices.make_runtime_spec_schema_features_linux_net_devices
    NetDevices.gen_runtime_spec_schema_features_linux_net_devices r gctx dctx.
Proof. apply enabled_round_trip. now intros []. Qed.

Lemma idmap_round_trip gctx dctx (r : idmap) :
  opt gctx OPT_GEN_KEY_VALUE = false ->
  idmap_exact (opt dctx OPT_PARSE_FULLKEY) r = true ->
  round_trips
    MountExtensionsCode.make_runtime_spec_schema_features_linux_mount_extensions_idmap
    MountExtensionsCode.gen_runtime_spec_schema_features_linux_mount_extensions_idmap
    r gctx dctx.
Proof. apply enabled_round_trip. now intros []. Qed.

End EnabledRecordsRoundTrip.

(** X15.  Encoding a record and decoding what was written gives the
    record back.  Take a cgroup or seccomp record as a decoder run with the
    same OPT_PARSE_FULLKEY setting builds it: a member that is not present
    is false, an array is NULL with length 0 or holds its strings followed
    by one NULL cell, and the residual is NULL without OPT_PARSE_FULLKEY and
    an object of entries under other keys with it.  Encoded without
    OPT_GEN_KEY_VALUE on an emitter that does not fail, and the written
    document decoded, the result is that record, with no error. *)
Theorem record_round_trip (gctx dctx : parser_context) (c : cgroup)
    (s : Seccomp.seccomp) :
  opt gctx OPT_GEN_KEY_VALUE = false ->
  cgroup_exact (opt dctx OPT_PARSE_FULLKEY) c = true ->
  seccomp_exact (opt dctx OPT_PARSE_FULLKEY) s = true ->
  round_trips make_runtime_spec_schema_features_linux_cgroup
    gen_runtime_spec_schema_features_linux_cgroup c gctx dctx
  /\ round_trips make_runtime_spec_schema_features_linux_seccomp
       gen_runtime_spec_schema_features_linux_seccomp s gctx dctx.
Proof.
  intros Hkv Hc Hs. split.
  - now apply cgroup_round_trip.
  - now apply seccomp_round_trip.
Qed.

Lemma record_round_trip_witness :
  let gctx := {| options := 0; errfile := None |} in
  let dctx := {| options := OPT_PARSE_FULLKEY; errfile := None |} in
  round_trips make_runtime_spec_schema_features_linux_cgroup
    gen_runtime_spec_schema_features_linux_cgroup example_cgroup gctx dctx
  /\ round_trips make_runtime_spec_schema_features_linux_seccomp
       gen_runtime_spec_schema_features_linux_seccomp example_seccomp gctx dctx.
Proof.
  intros gctx dctx.
  apply (record_round_trip gctx dctx example_cgroup example_seccomp);
    vm_compute; reflexivity.
Defined.

(** X16.  The round trip of a zos namespace reference needs its type.
    For a reference whose residual is as a decoder builds it, encoded without
    OPT_GEN_KEY_VALUE on an emitter that does not fail: when "type" is set,
    decoding what was written gives the reference back; when "type" is
    NULL, the encoder still writes a document, and decoding it returns
    NULL with the error that the required field 'type' is not present. *)
Theorem zos_round_trip_needs_type (gctx dctx : parser_context)
    (r : namespace_reference) :
  opt gctx OPT_GEN_KEY_VALUE = false ->
  residual_exact ZosNs.unknown_key (opt dctx OPT_PARSE_FULLKEY) (ZosNs._residual r) = true ->
  match type r with
  | Some _ =>
      round_trips make_runtime_spec_schema_defs_zos_namespace_reference
        gen_runtime_spec_schema_defs_zos_namespace_reference r gctx dctx
  | None =>
      exists m,
        encode_then_decode make_runtime_spec_schema_defs_zos_namespace_reference
          gen_runtime_spec_schema_defs_zos_namespace_reference r gctx dctx = Some m
        /\ ret m = None
        /\ err m = Some (required_field_error "type")
  end.
Proof.
  intros Hkv Hres. destruct (type r) as [ty|] eqn:Et.
  - apply zos_round_trip; [exact Hkv|]. unfold zos_exact. now rewrite Et, Hres.
  - now apply zos_type_missing.
Qed.

Lemma zos_round_trip_needs_type_witness :
  let gctx := {| options := 0; errfile := None |} in
  let dctx := {| options := OPT_PARSE_FULLKEY; errfile := None |} in
  round_trips make_runtime_spec_schema_defs_zos_namespace_reference
    gen_runtime_spec_schema_defs_zos_namespace_reference example_zos gctx dctx.
Proof.
  intros gctx dctx.
  apply (zos_round_trip_needs_type gctx dctx example_zos); vm_compute; reflexivity.
Defined.

(** X17.  The round trip of the records with nested records.  Take a
    features record, or a mount_extensions record, that is as a decoder run
    with the same OPT_PARSE_FULLKEY setting builds it, at every level: each
    nested member is NULL or such a record itself.  Encoded without
    OPT_GEN_KEY_VALUE on an emitter that does not fail, and the written
    document decoded, the result is that record, nested members included,
    with no error. *)
Theorem nested_record_round_trip (gctx dctx : parser_context)
    (f : FeaturesLinux.runtime_spec_schema_features_linux) (me : mount_extensions) :
  opt gctx OPT_GEN_KEY_VALUE = false ->
  features_exact (opt dctx OPT_PARSE_FULLKEY) f = true ->
  mount_extensions_exact (opt dctx OPT_PARSE_FULLKEY) me = true ->
  round_trips FeaturesLinux.make_runtime_spec_schema_features_linux
    FeaturesLinux.gen_runtime_spec_schema_features_linux f gctx dctx
  /\ round_trips
       MountExtensionsCode.make_runtime_spec_schema_features_linux_mount_extensions
       MountExtensionsCode.gen_runtime_spec_schema_features_linux_mount_extensions
       me gctx dctx.
Proof.
  intros Hkv Hf Hme. split.
  - now apply features_round_trip.
  - now apply mount_extensions_round_trip.
Qed.

Lemma nested_record_round_trip_witness :
  let gctx := {| options := 0; errfile := None |} in
  let dctx := {| options := OPT_PARSE_FULLKEY; errfile := None |} in
  round_trips FeaturesLinux.make_runtime_spec_schema_features_linux
    FeaturesLinux.gen_runtime_spec_schema_features_linux example_record gctx dctx
  /\ round_trips
       MountExtensionsCode.make_runtime_spec_schema_features_linux_mount_extensions
       MountExtensionsCode.gen_runtime_spec_schema_features_linux_mount_extensions
       example_mount_extensions gctx dctx.
Proof.
  intros gctx dctx.
  apply (nested_record_round_trip gctx dctx example_record example_mount_extensions);
    vm_compute; reflexivity.
Defined.

(** X18.  The round trip of the records whose only member is "enabled":
    apparmor, selinux, intel_rdt, net_devices and idmap.  For a record
    whose "enabled" is false when not present and whose residual is as a
    decoder run with the same OPT_PARSE_FULLKEY setting builds it, encoding
    without OPT_GEN_KEY_VALUE on an emitter that does not fail and decoding
    what was written gives the record back, with no error: a member that
    was not present is still not present. *)
Theorem enabled_record_round_trip (gctx dctx : parser_context)
    (a : Apparmor.runtime_spec_schema_features_linux_apparmor)
    (s : Selinux.runtime_spec_schema_features_linux_selinux)
    (i : IntelRdt.runtime_spec_schema_features_linux_intel_rdt)
    (n : NetDevices.runtime_spec_schema_features_linux_net_devices)
    (im : idmap) :
  opt gctx OPT_GEN_KEY_VALUE = false ->
  enabled_exact Apparmor.enabled Apparmor.enabled_present Apparmor._residual
    (opt dctx OPT_PARSE_FULLKEY) a = true ->
  enabled_exact Selinux.enabled Selinux.enabled_present Selinux._residual
    (opt dctx OPT_PARSE_FULLKEY) s = true ->
  enabled_exact IntelRdt.enabled IntelRdt.enabled_present IntelRdt._residual
    (opt dctx OPT_PARSE_FULLKEY) i = true ->
  enabled_exact NetDevices.enabled NetDevices.enabled_present NetDevices._residual
    (opt dctx OPT_PARSE_FULLKEY) n = true ->
  idmap_exact (opt dctx OPT_PARSE_FULLKEY) im = true ->
  round_trips Apparmor.make_runtime_spec_schema_features_linux_apparmor
    Apparmor.gen_runtime_spec_schema_features_linux_apparmor a gctx dctx
  /\ round_trips Selinux.make_runtime_spec_schema_features_linux_selinux
       Selinux.gen_runtime_spec_schema_features_linux_selinux s gctx dctx
  /\ round_trips IntelRdt.make_runtime_spec_schema_features_linux_intel_rdt
       IntelRdt.gen_runtime_spec_schema_features_linux_intel_rdt i gctx dctx
  /\ round_trips NetDevices.make_runtime_spec_schema_features_linux_net_devices
       NetDevices.gen_runtime_spec_schema_features_linux_net_devices n gctx dctx
  /\ round_trips
       MountExtensionsCode.make_runtime_spec_schema_features_linux_mount_extensions_idmap
       MountExtensionsCode.gen_runtime_spec_schema_features_linux_mount_extensions_idmap
       im gctx dctx.
Proof.
  intros Hkv Ha Hs Hi Hn Him. repeat split.
  - now apply apparmor_round_trip.
  - now apply selinux_round_trip.
  - now apply intel_rdt_round_trip.
  - now apply net_devices_round_trip.
  - now apply idmap_round_trip.
Qed.

Lemma enabled_record_round_trip_witness :
  let gctx := {| options := 0; errfile := None |} in
  let dctx := {| options := OPT_PARSE_FULLKEY; errfile := None |} in
  round_trips Apparmor.make_runtime_spec_schema_features_linux_apparmor
    Apparmor.gen_runtime_spec_schema_features_linux_apparmor example_apparmor gctx dctx
  /\ round_trips Selinux.make_runtime_spec_schema_features_linux_selinux
       Selinux.gen_runtime_spec_schema_features_linux_selinux example_selinux gctx dctx
  /\ round_trips IntelRdt.make_runtime_spec_schema_features_linux_intel_rdt
       IntelRdt.gen_runtime_spec_schema_features_linux_intel_rdt
       example_intel_rdt gctx dctx
  /\ round_trips NetDevices.make_runtime_spec_schema_features_linux_net_devices
       NetDevices.gen_runtime_spec_schema_features_linux_net_devices
       example_net_devices gctx dctx
  /\ round_trips
       MountExtensionsCode.make_runtime_spec_schema_features_linux_mount_extensions_idmap
       MountExtensionsCode.gen_runtime_spec_schema_features_linux_mount_extensions_idmap
       example_idmap gctx dctx.
Proof.
  intros gctx dctx.
  apply (enabled_record_round_trip gctx dctx example_apparmor example_selinux
           example_intel_rdt example_net_devices example_idmap);
    vm_compute; reflexivity.
Defined.

(** X19.  A decoded record survives encoding and decoding.  For every
    parsed JSON object and all decoder options, the features decoder and
    the seccomp decoder return a record without an error, and encoding that
    record without OPT_GEN_KEY_VALUE on an emitter that does not fail, then
    decoding what was written with the same options, returns the same
    record again. *)
Theorem decoded_record_round_trip (slots : list slot) (dctx gctx : parser_context) :
  parsed (Yobject slots) = true ->
  opt gctx OPT_GEN_KEY_VALUE = false ->
  (exists m r,
      FeaturesLinux.make_runtime_spec_schema_features_linux (Some (Yobject slots)) dctx
      = Some m
      /\ ret m = Some r /\ err m = None
      /\ round_trips FeaturesLinux.make_runtime_spec_schema_features_linux
           FeaturesLinux.gen_runtime_spec_schema_features_linux r gctx dctx)
  /\ (exists m r,
        make_runtime_spec_schema_features_linux_seccomp (Some (Yobject slots)) dctx
        = Some m
        /\ ret m = Some r /\ err m = None
        /\ round_trips make_runtime_spec_schema_features_linux_seccomp
             gen_runtime_spec_schema_features_linux_seccomp r gctx dctx).
Proof.
  intros Hp Hkv. split.
  - rewrite (make_features_closed slots dctx Hp).
    do 2 eexists. split; [reflexivity|]. cbn [ret err].
    split; [reflexivity|]. split; [reflexivity|].
    apply features_round_trip; [exact Hkv|]. now apply decoded_features_exact.
  - rewrite (make_seccomp_closed slots dctx Hp).
    do 2 eexists. split; [reflexivity|]. cbn [ret err].
    split; [reflexivity|]. split; [reflexivity|].
    apply seccomp_round_trip; [exact Hkv|]. now apply decoded_seccomp_exact.
Qed.

Lemma decoded_record_round_trip_witness :
  let dctx := {| options := OPT_PARSE_FULLKEY; errfile := None |} in
  let gctx := {| options := 0; errfile := None |} in
  (exists m r,
      FeaturesLinux.make_runtime_spec_schema_features_linux
        (Some (Yobject example_features)) dctx = Some m
      /\ ret m = Some r /\ err m = None
      /\ round_trips FeaturesLinux.make_runtime_spec_schema_features_linux
           FeaturesLinux.gen_runtime_spec_schema_features_linux r gctx dctx)
  /\ (exists m r,
        make_runtime_spec_schema_features_linux_seccomp
          (Some (Yobject example_features)) dctx = Some m
        /\ ret m = Some r /\ err m = None
        /\ round_trips make_runtime_spec_schema_features_linux_seccomp
             gen_runtime_spec_schema_features_linux_seccomp r gctx dctx).
Proof.
  intros dctx gctx.
  apply (decoded_record_round_trip example_features dctx gctx); reflexivity.
Defined.
